(** * Paged symbolic memory (memory/sym_memory.py): a shallow embedding

    The development follows the Python sources:
      - utility/z3_wrap_util.py : [bvv], [split_bv], [symbolic], [bvv_to_long],
        [heuristic_find_base];
      - memory/sym_memory.py    : [InitData], [Page], [Memory].

    The expression [math.ceil(math.log(page_size, 2))] of the constructor
    is floating-point arithmetic of the platform and is kept as a parameter
    ([PyMath]); [cpython_math] gives its values as CPython computes them.

    Python objects that are shared and mutated in place ([Page]) live in an
    explicit heap, addressed by references; a [Memory] holds its page table
    as an insertion-ordered dictionary from page slot to [Page] reference. *)

From Stdlib Require Import ZArith Lia Bool String.
From stdpp Require Import base option list list_numbers strings.
From Equations Require Import Equations.

Local Open Scope Z_scope.

(** ** z3 terms

    The fragment of z3's term language that the memory code builds:
    bit-vector literals and constants, [+], [-], [Extract], [Concat], [If], and
    the Boolean terms [==], [Or], [Not]. *)

Inductive bv : Type :=
| BVV (val : Z) (sz : Z)
| BVS (name : string) (sz : Z)
| BVAdd (a b : bv)
| BVSub (a b : bv)
| Extract (hi lo : Z) (e : bv)
| Concat (a b : bv)
| If (c : bexpr) (t e : bv)
with bexpr : Type :=
| BTrue
| BFalse
| Eq (a b : bv)
| Or (a b : bexpr)
| Not (a : bexpr).

Scheme bv_mut := Induction for bv Sort Prop
  with bexpr_mut := Induction for bexpr Sort Prop.
Combined Scheme bv_bexpr_ind from bv_mut, bexpr_mut.

(** [e.size()] *)
Fixpoint bv_size (e : bv) : Z :=
  match e with
  | BVV _ s => s
  | BVS _ s => s
  | BVAdd a _ => bv_size a
  | BVSub a _ => bv_size a
  | Extract hi lo _ => hi - lo + 1
  | Concat a b => bv_size a + bv_size b
  | If _ t _ => bv_size t
  end.

(** A valuation of the symbolic constants. *)
Definition env := string -> Z.

(** The unsigned value of a term at its width, under a valuation. *)
Fixpoint eval (rho : env) (e : bv) : Z :=
  match e with
  | BVV v s => v mod 2 ^ s
  | BVS n s => rho n mod 2 ^ s
  | BVAdd a b => (eval rho a + eval rho b) mod 2 ^ bv_size a
  | BVSub a b => (eval rho a - eval rho b) mod 2 ^ bv_size a
  | Extract hi lo e => (eval rho e / 2 ^ lo) mod 2 ^ (hi - lo + 1)
  | Concat a b =>
      (eval rho a * 2 ^ bv_size b + eval rho b) mod 2 ^ (bv_size a + bv_size b)
  | If c t e => (if beval rho c then eval rho t else eval rho e) mod 2 ^ bv_size t
  end
with beval (rho : env) (c : bexpr) : bool :=
  match c with
  | BTrue => true
  | BFalse => false
  | Eq a b => eval rho a =? eval rho b
  | Or a b => beval rho a || beval rho b
  | Not a => negb (beval rho a)
  end.

(** No symbolic constant occurs in the term. *)
Fixpoint ground (e : bv) : bool :=
  match e with
  | BVV _ _ => true
  | BVS _ _ => false
  | BVAdd a b => ground a && ground b
  | BVSub a b => ground a && ground b
  | Extract _ _ e => ground e
  | Concat a b => ground a && ground b
  | If c t e => bground c && ground t && ground e
  end
with bground (c : bexpr) : bool :=
  match c with
  | BTrue | BFalse => true
  | Eq a b => ground a && ground b
  | Or a b => bground a && bground b
  | Not a => bground a
  end.

(** [z3.Or] applied to the list [conditions]: z3 builds one n-ary node; its denotation is the
    fold below, and the code only ever passes it through [z3.simplify]. *)
Definition z3_Or (conditions : list bexpr) : bexpr :=
  foldr Or BFalse conditions.

(** Children of a term, of either sort ([ExprRef.children()]). *)
Inductive term : Type :=
| TBv (e : bv)
| TBool (c : bexpr).

Definition children (t : term) : list term :=
  match t with
  | TBv (BVV _ _) | TBv (BVS _ _) => []
  | TBv (BVAdd a b) => [TBv a; TBv b]
  | TBv (BVSub a b) => [TBv a; TBv b]
  | TBv (Extract _ _ e) => [TBv e]
  | TBv (Concat a b) => [TBv a; TBv b]
  | TBv (If c t e) => [TBool c; TBv t; TBv e]
  | TBool BTrue | TBool BFalse => []
  | TBool (Eq a b) => [TBv a; TBv b]
  | TBool (Or a b) => [TBool a; TBool b]
  | TBool (Not a) => [TBool a]
  end.

Fixpoint bv_nodes (e : bv) : nat :=
  match e with
  | BVV _ _ | BVS _ _ => 1
  | BVAdd a b => S (bv_nodes a + bv_nodes b)
  | BVSub a b => S (bv_nodes a + bv_nodes b)
  | Extract _ _ e => S (bv_nodes e)
  | Concat a b => S (bv_nodes a + bv_nodes b)
  | If c t e => S (bexpr_nodes c + bv_nodes t + bv_nodes e)
  end
with bexpr_nodes (c : bexpr) : nat :=
  match c with
  | BTrue | BFalse => 1
  | Eq a b => S (bv_nodes a + bv_nodes b)
  | Or a b => S (bexpr_nodes a + bexpr_nodes b)
  | Not a => S (bexpr_nodes a)
  end.

(** ** The z3 simplifier

    [z3.simplify] is external.  The memory code relies on three of its
    properties, which are all that is assumed of it ([Z3SimplifierLaws]): it
    preserves the denotation and the width of a term, and it folds a term
    without symbolic constants to a literal (which is how [symbolic]
    recognises a concrete address). *)

Class Z3Simplifier := {
  simplify : bv -> bv;
  simplify_bool : bexpr -> bexpr
}.

Class Z3SimplifierLaws (S : Z3Simplifier) : Prop := {
  simplify_sound : forall rho e, eval rho (simplify e) = eval rho e;
  simplify_size : forall e, bv_size (simplify e) = bv_size e;
  simplify_ground :
    forall e, ground e = true ->
      simplify e = BVV (eval (fun _ => 0) e) (bv_size e);
  simplify_bool_sound :
    forall rho c, beval rho (simplify_bool c) = beval rho c
}.

(** ** The solver capability

    Modelled from the spec: sym_solver.Solver is not among the sources.  The
    spec (sections 2 and 6) gives its surface: is-symbolic, evaluation to the
    unique value, satisfiability under extra constraints, constraint
    accumulation and is-unconstrained.  The queries are oracles over the
    accumulated path constraints; [add_constraints] appends to them. *)

Class Solver := {
  solver_symbolic : list bexpr -> bv -> bool;
  solver_evaluate_long : list bexpr -> bv -> Z;
  solver_satisfiable : list bexpr -> list bexpr -> bool;
  solver_is_unconstrained : list bexpr -> bv -> bool
}.

(** ** The byte store

    Modelled from the spec: memory.memory_object.MemoryObj is not among the
    sources.  The spec (section 2) describes it as a per-page, offset-indexed
    container of symbolic byte values with store-by-offset, load-by-offset,
    structural copy and expression simplification.  [mo_denote] is its
    abstraction function: the byte found at each offset under a valuation. *)

Class MemoryObj := {
  mo_t : Type;
  mo_new : Z -> Z -> mo_t;              (* MemoryObj(str(addr), bits) *)
  mo_store : mo_t -> bv -> bv -> mo_t;  (* mo.store(index, value) *)
  mo_load : mo_t -> bv -> bv;           (* mo.load(index) *)
  mo_copy : mo_t -> mo_t;               (* mo.copy() *)
  mo_simplify : mo_t -> mo_t;           (* mo.simplify() *)
  mo_denote : env -> mo_t -> Z -> Z
}.

Class MemoryObjLaws (B : MemoryObj) : Prop := {
  mo_load_denote :
    forall rho m i, eval rho (mo_load m i) = mo_denote rho m (eval rho i);
  mo_load_size : forall m i, bv_size (mo_load m i) = 8;
  mo_store_denote :
    forall rho m i v off,
      bv_size v = 8 ->
      mo_denote rho (mo_store m i v) off =
      if off =? eval rho i then eval rho v else mo_denote rho m off;
  mo_copy_denote : forall rho m off, mo_denote rho (mo_copy m) off = mo_denote rho m off;
  mo_simplify_denote :
    forall rho m off, mo_denote rho (mo_simplify m) off = mo_denote rho m off
}.

(** ** Failure and state

    A Python exception aborts the call and leaves the mutations made so far
    in place: a failed computation still carries the state it reached. *)

Inductive error : Type :=
| AssertionError
| AttributeError
| ValueError
| KeyError
| Z3Exception
| InvalidReference   (* no Python counterpart: a reference always designates
                        an object; excluded by well-formedness *)
| LoopBound.         (* no Python counterpart: a [while] loop of the model
                        has work left when its bound on the passes is used
                        up *)

Inductive result (St A : Type) : Type :=
| Ok (a : A) (s : St)
| Fail (e : error) (s : St).
Arguments Ok {St A} a s.
Arguments Fail {St A} e s.

Definition M (St A : Type) : Type := St -> result St A.

Definition ret {St A} (a : A) : M St A := fun s => Ok a s.
Definition raise {St A} (e : error) : M St A := fun s => Fail e s.
Definition bind {St A B} (c : M St A) (k : A -> M St B) : M St B :=
  fun s => match c s with
           | Ok a s' => k a s'
           | Fail e s' => Fail e s'
           end.
Definition get {St} : M St St := fun s => Ok s s.
Definition put {St} (s : St) : M St unit := fun _ => Ok tt s.
Definition assert {St} (b : bool) : M St unit :=
  if b then ret tt else raise AssertionError.

Notation "'let*' x ':=' c 'in' k" := (bind c (fun x => k))
  (at level 10, x name, c at level 100, k at level 200).
Notation "'let*' ' pat ':=' c 'in' k" :=
  (bind c (fun x => match x with pat => k end))
  (at level 10, pat pattern, c at level 100, k at level 200).

(** A [for] loop over a list, threading the loop variables [acc]. *)
Fixpoint for_each {St A X} (xs : list X) (body : X -> A -> M St A) (acc : A)
  : M St A :=
  match xs with
  | [] => ret acc
  | x :: xs' => let* acc' := body x acc in for_each xs' body acc'
  end.

(** ** utility/z3_wrap_util.py *)

Definition MIN_BASE : Z := 0x10000.

(** [z3.BitVecVal(val, size)] stores the value reduced modulo [2^size]. *)
Definition bvv (val size : Z) : bv := BVV (val mod 2 ^ size) size.

(** [z3.BitVec(name, size)] *)
Definition bvs (name : string) (size : Z) : bv := BVS name size.

(** [bvv_from_bytes]: the bytes are concatenated from the left, and an empty
    [val] leaves [res] at [None]. *)
Definition bvv_from_bytes (val : list Z) : option bv :=
  foldl (fun res c =>
           let v := bvv c 8 in
           match res with
           | Some r => Some (Concat r v)
           | None => Some v
           end)
        None val.

(** [bv + i], [bv - i] and [bv == i] for a Python integer [i]: z3 coerces
    [i] to a literal of the width of [bv]. *)
Definition bv_add_int (e : bv) (i : Z) : bv := BVAdd e (bvv i (bv_size e)).
Definition bv_sub_int (e : bv) (i : Z) : bv := BVSub e (bvv i (bv_size e)).
Definition bv_eq_int (e : bv) (i : Z) : bexpr := Eq e (bvv i (bv_size e)).

(** [z3.Extract(high, low, e)] raises unless [0 <= low <= high < e.size()]. *)
Definition z3_Extract {St} (hi lo : Z) (e : bv) : M St bv :=
  if (0 <=? lo) && (lo <=? hi) && (hi <? bv_size e)
  then ret (Extract hi lo e) else raise Z3Exception.

(** [z3.If(c, a, b)] raises unless [a] and [b] have the same sort. *)
Definition z3_If {St} (c : bexpr) (a b : bv) : M St bv :=
  if bv_size a =? bv_size b then ret (If c a b) else raise Z3Exception.

Section Z3WrapUtil.
Context {S : Z3Simplifier}.

Definition split_bv {St} (e : bv) (split_index : Z) : M St (bv * bv) :=
  let* hi := z3_Extract (bv_size e - 1) split_index e in
  let* lo := z3_Extract (split_index - 1) 0 e in
  ret (simplify hi, simplify lo).

(** [z3.simplify(val).decl().kind() != z3.Z3_OP_BNUM] *)
Definition symbolic (val : bv) : bool :=
  match simplify val with
  | BVV _ _ => false
  | _ => true
  end.

(** On a Boolean term the test above always answers [True]. *)
Definition symbolic_term (t : term) : bool :=
  match t with
  | TBv e => symbolic e
  | TBool _ => true
  end.

Definition bvv_to_long {St} (val : bv) : M St Z :=
  let* _ := assert (negb (symbolic val)) in
  match simplify val with
  | BVV v _ => ret v
  | _ => raise AttributeError
  end.

(** [el.as_long()]: only a literal has the method. *)
Definition as_long {St} (t : term) : M St Z :=
  match t with
  | TBv (BVV v _) => ret v
  | _ => raise AttributeError
  end.

(** The worklist loop of [heuristic_find_base]: [fringe.pop()] takes the
    last element and [fringe.extend] appends.  The source's [while] has no
    bound; the model allows [fuel] passes and reports [LoopBound] when the
    fringe is not empty after them. *)
Fixpoint heuristic_find_base_loop {St} (fuel : nat) (fringe : list term)
  : M St Z :=
  match fuel with
  | O => match fringe with
         | [] => ret (-1)
         | _ => raise LoopBound
         end
  | Datatypes.S fuel' =>
      match rev fringe with
      | [] => ret (-1)
      | el :: rest =>
          let fringe := rev rest in
          let continue :=
            heuristic_find_base_loop fuel' (fringe ++ children el) in
          if negb (symbolic_term el) then
            let* v := as_long el in
            if MIN_BASE <? v then ret v else continue
          else continue
      end
  end.

Definition heuristic_find_base {St} (val : bv) : M St Z :=
  heuristic_find_base_loop (bv_nodes val) (children (TBv val)).
End Z3WrapUtil.

(** ** memory/sym_memory.py *)

(** [InitData = namedtuple('InitData', ['bytes', 'index'])] *)
Record InitData : Type := { bytes : list Z; index : Z }.

(** [val[i:f]] on a Python sequence, negative bounds included. *)
Definition py_slice_bound (n i : Z) : Z :=
  if i <? 0 then Z.max (i + n) 0 else Z.min i n.

Definition py_slice {A} (l : list A) (i f : Z) : list A :=
  let n := Z.of_nat (length l) in
  let lo := py_slice_bound n i in
  let hi := py_slice_bound n f in
  take (Z.to_nat (hi - lo)) (drop (Z.to_nat lo) l).

Module Page.

(** A [Page] object; [T] is the type of its byte store [mo]. *)
Record t (T : Type) : Type := {
  addr : Z;
  size : Z;
  bits : Z;
  mo : T;
  _init : option InitData;
  _lazycopy : bool
}.
Arguments Build_t {T} _ _ _ _ _ _.
Arguments addr {T} _.
Arguments size {T} _.
Arguments bits {T} _.
Arguments mo {T} _.
Arguments _init {T} _.
Arguments _lazycopy {T} _.

(** The heap of [Page] objects; a reference is a position in it. *)
Abbreviation heap := (list (t mo_t)).

Section Page.
Context {B : MemoryObj}.

Definition deref (self : nat) : M heap (t mo_t) :=
  fun h => match h !! self with
           | Some p => Ok p h
           | None => Fail InvalidReference h
           end.

Definition assign (self : nat) (p : t mo_t) : M heap unit :=
  fun h => Ok tt (<[self := p]> h).

Definition set_mo (m : mo_t) (p : t mo_t) : t mo_t :=
  {| addr := addr p; size := size p; bits := bits p; mo := m;
     _init := _init p; _lazycopy := _lazycopy p |}.
Definition set_init (i : option InitData) (p : t mo_t) : t mo_t :=
  {| addr := addr p; size := size p; bits := bits p; mo := mo p;
     _init := i; _lazycopy := _lazycopy p |}.
Definition set_lazycopy (b : bool) (p : t mo_t) : t mo_t :=
  {| addr := addr p; size := size p; bits := bits p; mo := mo p;
     _init := _init p; _lazycopy := b |}.

(** [Page(addr, size, bits, init)] *)
Definition new (addr size bits : Z) (init : option InitData) : M heap nat :=
  fun h => Ok (length h)
              (h ++ [ {| addr := addr; size := size; bits := bits;
                         mo := mo_new addr bits;
                         _init := init; _lazycopy := false |} ]).

(** The loop of [lazy_init]: [self.mo.store(start + i, bvv(val[i], 8))]
    for [i = 0 .. len(val) - 1]. *)
Fixpoint lazy_init_loop (start : bv) (i : Z) (val : list Z) (m : mo_t) : mo_t :=
  match val with
  | [] => m
  | subval :: val' =>
      lazy_init_loop start (i + 1) val'
        (mo_store m (bv_add_int start i) (bvv subval 8))
  end.

Definition lazy_init (self : nat) : M heap unit :=
  let* p := deref self in
  match _init p with
  | Some init =>
      let start := bvv (index init) (bits p) in
      let val := bytes init in
      let* _ := assert (Z.of_nat (length val) + index init <=? size p) in
      assign self (set_init None (set_mo (lazy_init_loop start 0 val (mo p)) p))
  | None => ret tt
  end.

(** The body of [store]; [recur] stands for the recursive call
    [new_page.store(index, value)].  The [condition] argument is accepted
    and never used, as in the source. *)
Definition store_with (recur : nat -> bv -> bv -> option bexpr -> M heap nat)
    (self : nat) (index value : bv) (condition : option bexpr) : M heap nat :=
  let* _ := lazy_init self in
  let* p := deref self in
  if _lazycopy p then
    let* _ := assign self (set_lazycopy false p) in
    let* new_page := new (addr p) (size p) (bits p) None in
    let* np := deref new_page in
    let* _ := assign new_page (set_mo (mo_copy (mo p)) np) in
    recur new_page index value None
  else
    let* _ := assign self (set_mo (mo_store (mo p) index value) p) in
    ret self.

(** The recursive call is on a freshly built page, whose [_lazycopy] is
    false: the recursion has depth at most two. *)
Definition store : nat -> bv -> bv -> option bexpr -> M heap nat :=
  store_with (store_with (fun _ _ _ _ => raise InvalidReference)).

Definition load (self : nat) (index : bv) : M heap bv :=
  let* _ := lazy_init self in
  let* p := deref self in
  ret (mo_load (mo p) index).

Definition copy (self : nat) : M heap nat :=
  let* p := deref self in
  let* _ := assign self (set_lazycopy true p) in
  ret self.

(** The assertion of [lazy_init] holds for the page. *)
Definition init_fits (p : t mo_t) : bool :=
  match _init p with
  | Some init => Z.of_nat (length (bytes init)) + index init <=? size p
  | None => true
  end.

(** The page once its pending preload has been written to the byte store. *)
Definition materialized (p : t mo_t) : t mo_t :=
  match _init p with
  | Some init =>
      set_init None
        (set_mo (lazy_init_loop (bvv (index init) (bits p)) 0 (bytes init) (mo p)) p)
  | None => p
  end.

(** The byte that the page holds at an offset under a valuation, pending
    preload included. *)
Definition content (rho : env) (p : t mo_t) (off : Z) : Z :=
  mo_denote rho (mo (materialized p)) off.
End Page.
End Page.

(** The options module is not among the sources; the flag is a parameter. *)
Class Options := { HEURISTIC_UNCONSTRAINED_MEM_ACCESS : bool }.

(** ** The floating-point logarithm

    [Memory.__init__] computes [math.ceil(math.log(page_size, 2))].  Python
    evaluates [math.log(x, 2)] as the quotient of two natural logarithms in
    double precision; on a power of two the quotient can exceed the exact
    logarithm by a rounding error, and [math.ceil] then gives one more:
    CPython returns 30 on [2**29].  The expression as a whole is a parameter
    of the development.  Nothing is assumed of it: a statement that needs
    the exact logarithm says so. *)
Class PyMath := { ceil_log2 : Z -> Z }.

(** Modelled from the spec: sym_state.State is not among the sources.  Of an
    execution state the memory uses the solver's accumulated path
    constraints, [state.copy()], which forks a state with the same path
    constraints, and the executor's list of errored states. *)
Module State.
Record t : Type := { constraints : list bexpr }.

Definition copy (self : t) : t := {| constraints := constraints self |}.

(** [self.solver.add_constraints(c)] *)
Definition add_constraints (c : bexpr) (self : t) : t :=
  {| constraints := constraints self ++ [c] |}.
End State.


(** ** Insertion-ordered dictionaries ([dict] keyed by page slot) *)

Fixpoint dict_get {V} (k : Z) (d : list (Z * V)) : option V :=
  match d with
  | [] => None
  | (k', v) :: d' => if k' =? k then Some v else dict_get k d'
  end.

Definition dict_mem {V} (k : Z) (d : list (Z * V)) : bool :=
  match dict_get k d with Some _ => true | None => false end.

(** [d[k] = v]: an existing key keeps its position, a new one goes last. *)
Fixpoint dict_set {V} (k : Z) (v : V) (d : list (Z * V)) : list (Z * V) :=
  match d with
  | [] => [(k, v)]
  | (k', v') :: d' =>
      if k' =? k then (k, v) :: d' else (k', v') :: dict_set k v d'
  end.

Definition dict_keys {V} (d : list (Z * V)) : list Z := d.*1.

(** [s.add(x)] on a Python set, kept as a duplicate-free list. *)
Definition set_add (x : Z) (s : list Z) : list Z :=
  if existsb (Z.eqb x) s then s else s ++ [x].

Definition inspect {A} (a : A) : {b : A | a = b} := exist _ a eq_refl.

(** The [while] loop of [Memory.get_unmapped].  [j] grows by one on every
    pass and the loop stops once it exceeds [last_page]. *)
Equations? get_unmapped_loop {V} (pages : list (Z * V)) (last_page size : Z)
    (from_end : bool) (i j count : Z) : Z
  by wf (Z.to_nat (last_page + 1 - j)) lt :=
  get_unmapped_loop pages last_page size from_end i j count
    with inspect ((j <=? last_page) && negb (count =? size)) := {
    | exist _ true _ =>
        let count' := if negb (dict_mem i pages) then count + 1 else 0 in
        let i' := if negb (dict_mem i pages) then i
                  else if negb from_end then j + 1 else i in
        let j' := j + 1 in
        let i'' := if from_end then i' - 1 else i' in
        get_unmapped_loop pages last_page size from_end i'' j' count'
    | exist _ false _ => i }.
Proof.
  apply andb_true_iff in e as [e _]. apply Z.leb_le in e. lia.
Qed.

Module Memory.

Record t : Type := {
  bits : Z;
  state : nat;
  pages : list (Z * nat);
  page_size : Z;
  index_bits : Z
}.

(** Everything the memory code reads or mutates: the [Page] objects, the
    [Memory] objects, the execution states (all three by reference) and
    [executor.fringe.errored].  [T] is the type of the byte stores. *)
Record World_ (T : Type) : Type := {
  heap : list (Page.t T);
  memories : list t;
  states : list State.t;
  errored : list (State.t * string)
}.
Arguments Build_World_ {T} _ _ _ _.
Arguments heap {T} _.
Arguments memories {T} _.
Arguments states {T} _.
Arguments errored {T} _.

Abbreviation World := (World_ mo_t).

Section Memory.
Context {B : MemoryObj} {S : Z3Simplifier} {V : Solver} {O : Options}.
Context {PM : PyMath}.

Definition lift_heap {A} (c : M Page.heap A) : M World A :=
  fun w =>
    let rebuild h := {| heap := h; memories := memories w;
                        states := states w; errored := errored w |} in
    match c (heap w) with
    | Ok a h => Ok a (rebuild h)
    | Fail e h => Fail e (rebuild h)
    end.

Definition deref (self : nat) : M World t :=
  fun w => match memories w !! self with
           | Some m => Ok m w
           | None => Fail InvalidReference w
           end.

(** [self.pages = d], and the in-place updates of [self.pages]. *)
Definition set_pages (self : nat) (d : list (Z * nat)) : M World unit :=
  let* m := deref self in
  fun w => Ok tt {| heap := heap w;
                    memories := <[self := {| bits := bits m; state := state m;
                                             pages := d;
                                             page_size := page_size m;
                                             index_bits := index_bits m |}]>
                                  (memories w);
                    states := states w; errored := errored w |}.

Definition get_state (st : nat) : M World State.t :=
  fun w => match states w !! st with
           | Some s => Ok s w
           | None => Fail InvalidReference w
           end.

Definition modify_state (st : nat) (f : State.t -> State.t) : M World unit :=
  let* s := get_state st in
  fun w => Ok tt {| heap := heap w; memories := memories w;
                    states := <[st := f s]> (states w);
                    errored := errored w |}.

(** [self.state.solver.add_constraints(c)] *)
Definition add_constraints (self : nat) (c : bexpr) : M World unit :=
  let* m := deref self in
  modify_state (state m) (State.add_constraints c).

(** The path constraints of [self.state.solver]. *)
Definition path_constraints (self : nat) : M World (list bexpr) :=
  let* m := deref self in
  let* st := get_state (state m) in
  ret (State.constraints st).

(** [executor.fringe.errored.append(entry)] *)
Definition report_errored (entry : State.t * string) : M World unit :=
  fun w => Ok tt {| heap := heap w; memories := memories w;
                    states := states w; errored := errored w ++ [entry] |}.

(** [Memory(state, page_size, bits)].  [index_bits] is what the
    floating-point expression [math.ceil(math.log(page_size, 2))] gives,
    which is not always the exact logarithm.  [math.log] raises
    [ValueError] on 0, the one value outside the powers of two that the
    assertion lets through. *)
Definition init (state : nat) (page_size bits : Z) : M World nat :=
  let* _ := assert (Z.land page_size (page_size - 1) =? 0) in
  if page_size <=? 0 then raise ValueError
  else
    fun w => Ok (length (memories w))
                {| heap := heap w;
                   memories := memories w ++
                     [ {| bits := bits; state := state; pages := [];
                          page_size := page_size;
                          index_bits := ceil_log2 page_size |} ];
                   states := states w; errored := errored w |}.

(** The loop variables of [mmap] other than [self.pages]. *)
Record mmap_vars : Type := {
  init_index : option Z;
  data_index_i : Z;
  data_index_f : Z
}.

Definition mmap_body (self : nat) (init_val : list Z) (a : Z) (vs : mmap_vars)
  : M World mmap_vars :=
  let* m := deref self in
  if negb (dict_mem a (pages m)) then
    let '(init_data, vs') :=
      match init_index vs with
      | Some init_index =>
          (Some {| bytes := py_slice init_val (data_index_i vs) (data_index_f vs);
                   index := init_index |},
           {| init_index := Some 0;  (* only the first page has a starting index *)
              data_index_i := data_index_f vs;
              data_index_f := data_index_f vs + page_size m |})
      | None => (None, vs)
      end in
    let* r := lift_heap (Page.new a (page_size m) (index_bits m) init_data) in
    let* _ := set_pages self (dict_set a r (pages m)) in
    ret vs'
  else
    ret vs.  (* print("remapping the same page ...") *)

Definition mmap (self : nat) (address size : Z) (init : option InitData)
  : M World unit :=
  let* m := deref self in
  let* _ := assert (address mod page_size m =? 0) in
  let* _ := assert (size mod page_size m =? 0) in
  let init_val := from_option bytes [] init in
  let first := address / page_size m in
  let* _ := for_each (seqZ first (size / page_size m))
              (mmap_body self init_val)
              {| init_index := index <$> init;
                 data_index_i := 0;
                 data_index_f :=
                   from_option (fun x => page_size m - index x) 0 init |} in
  ret tt.

Definition _store (self : nat) (page_address : Z) (page_index value : bv)
    (condition : option bexpr) : M World unit :=
  let* m := deref self in
  match dict_get page_address (pages m) with
  | None => raise AssertionError
  | Some r =>
      let* _ := assert (bv_size value =? 8) in
      let* r' := lift_heap (Page.store r page_index value condition) in
      set_pages self (dict_set page_address r' (pages m))
  end.

Definition _load (self : nat) (page_address : Z) (page_index : bv) : M World bv :=
  let* m := deref self in
  match dict_get page_address (pages m) with
  | None => raise AssertionError
  | Some r => lift_heap (Page.load r page_index)
  end.

(** [2**(bits - index_bits)] is a Python float when the exponent is
    negative; a memory has [index_bits <= bits]. *)
Definition get_unmapped (self : nat) (size : Z) (from_end : bool) : M World Z :=
  let* m := deref self in
  let last_page := 2 ^ (bits m - index_bits m) - 4 in
  let i := if from_end then last_page else 2 in
  let j := 2 in
  let count := 0 in
  ret (get_unmapped_loop (pages m) last_page size from_end i j count).

(** The guard of the heuristic concretization; [and] short-circuits. *)
Definition heuristic_unconstrained (self : nat) (address : bv) : M World bool :=
  if HEURISTIC_UNCONSTRAINED_MEM_ACCESS && symbolic address then
    let* cs := path_constraints self in
    if solver_is_unconstrained cs address then
      let* base := heuristic_find_base address in
      ret (base =? -1)
    else ret false
  else ret false.

(** The body of the heuristic concretization; [width] is [value.size()]
    in [store] and [size] in [load]. *)
Definition concretize (self : nat) (address : bv) (width : Z) : M World bv :=
  let* m := deref self in
  let* slot := get_unmapped self (width / page_size m + 1) false in
  let address_conc := slot * page_size m in
  let* _ := mmap self address_conc ((width / page_size m + 1) * page_size m) None in
  let* _ := add_constraints self (bv_eq_int address address_conc) in
  ret (bvv address_conc (bv_size address)).

(** Loop variables of [store]: [page_addresses] and [conditions]. *)
Definition store_vars : Type := (list Z * list bexpr)%type.

(** One pass of [for p in self.pages] in the symbolic tier of [store]. *)
Definition store_symbolic_body (self : nat) (page_address page_index value : bv)
    (i : Z) (p : Z) (vs : store_vars) : M World store_vars :=
  let '(page_addresses, conditions) := vs in
  let* cs := path_constraints self in
  if solver_satisfiable cs [bv_eq_int page_address p] then
    let page_addresses := set_add p page_addresses in
    let condition := simplify_bool (bv_eq_int page_address p) in
    let conditions := conditions ++ [condition] in
    let* byte := z3_Extract (8 * (i + 1) - 1) (8 * i) value in
    let* _ := _store self p page_index byte (Some condition) in
    ret (page_addresses, conditions)
  else ret vs.

(** One pass of the byte loop of [store]. *)
Definition store_body (self : nat) (address value : bv) (endness : string)
    (size : Z) (i : Z) (vs : store_vars) : M World store_vars :=
  let '(page_addresses, conditions) := vs in
  let* m := deref self in
  let* '(page_address, page_index) :=
    if String.eqb endness "little" then
      split_bv (bv_add_int address i) (index_bits m)
    else
      split_bv (bv_sub_int (bv_sub_int (bv_add_int address (size / 8)) i) 1)
               (index_bits m) in
  let* '(page_addresses, conditions) :=
    if negb (symbolic page_address) then  (* only syntactic check *)
      let* page_address := bvv_to_long page_address in
      let page_addresses := set_add page_address page_addresses in
      let* byte := z3_Extract (8 * (i + 1) - 1) (8 * i) value in
      let* _ := _store self page_address page_index byte None in
      ret (page_addresses, conditions)
    else
      let* cs := path_constraints self in
      if negb (solver_symbolic cs page_address) then
        (* check with path constraint *)
        let page_address := solver_evaluate_long cs page_address in
        let page_addresses := set_add page_address page_addresses in
        let* byte := z3_Extract (8 * (i + 1) - 1) (8 * i) value in
        let* _ := _store self page_address page_index byte None in
        ret (page_addresses, conditions)
      else  (* symbolic access *)
        let page_address := simplify page_address in
        let page_index := simplify page_index in
        let conditions := [] in
        for_each (dict_keys (pages m))
          (store_symbolic_body self page_address page_index value i)
          (page_addresses, conditions) in
  let* _ :=
    match conditions with
    | [] => ret tt
    | _ => add_constraints self (simplify_bool (z3_Or conditions))
    end in
  ret (page_addresses, conditions).

(** [self.pages[p].mo.simplify()] *)
Definition simplify_page (self : nat) (p : Z) (_ : unit) : M World unit :=
  let* m := deref self in
  match dict_get p (pages m) with
  | None => raise KeyError
  | Some r =>
      lift_heap (let* pg := Page.deref r in
                 Page.assign r (Page.set_mo (mo_simplify (Page.mo pg)) pg))
  end.

(** [Memory.store].  The pages of the Python set [page_addresses] are
    simplified in insertion order here; the passes touch distinct pages
    and commute. *)
Definition store (self : nat) (address value : bv) (endness : string)
  : M World unit :=
  let* m := deref self in
  let* _ := assert (bv_size address =? bits m) in
  let* fires := heuristic_unconstrained self address in
  let* address :=
    if fires then concretize self address (bv_size value)
    else ret address in
  let page_addresses := [] in
  let conditions := [] in
  let size := bv_size value in
  let* _ := assert (size mod 8 =? 0) in
  let* '(page_addresses, _) :=
    for_each (reverse (seqZ 0 (size / 8)))
      (store_body self address value endness size)
      (page_addresses, conditions) in
  (* simplify accessed pages *)
  for_each page_addresses (simplify_page self) tt.

(** Loop variables of [load]: [res] and [conditions]. *)
Definition load_vars : Type := (option bv * list bexpr)%type.

(** [res = tmp if res is None else z3.Concat(res, tmp)] *)
Definition concat_res (res : option bv) (tmp : bv) : option bv :=
  match res with
  | None => Some tmp
  | Some r => Some (Concat r tmp)
  end.

(** One pass of [for p in self.pages] in the symbolic tier of [load]. *)
Definition load_symbolic_body (self : nat) (page_address page_index : bv)
    (p : Z) (vs : load_vars) : M World load_vars :=
  let '(res, conditions) := vs in
  let* cs := path_constraints self in
  if solver_satisfiable cs [bv_eq_int page_address p] then
    let condition := simplify_bool (bv_eq_int page_address p) in
    let conditions := conditions ++ [condition] in
    let* res :=
      match res with
      | Some r =>
          let* b := _load self p page_index in
          let* e := z3_If condition b r in
          ret (Some e)
      | None =>
          let* b := _load self p page_index in
          ret (Some b)
      end in
    ret (res, conditions)
  else ret vs.

(** One pass of the byte loop of [load]. *)
Definition load_body (self : nat) (address : bv) (i : Z) (vs : load_vars)
  : M World load_vars :=
  let '(res, conditions) := vs in
  let* m := deref self in
  let* '(page_address, page_index) :=
    split_bv (bv_add_int address i) (index_bits m) in
  if negb (symbolic page_address) then  (* syntactic check *)
    let* page_address := bvv_to_long page_address in
    let* b := _load self page_address page_index in
    let tmp := simplify b in
    ret (concat_res res tmp, conditions)
  else
    let* cs := path_constraints self in
    if negb (solver_symbolic cs page_address) then
      (* check with path constraint *)
      let page_address := solver_evaluate_long cs page_address in
      let* b := _load self page_address page_index in
      let tmp := simplify b in
      ret (concat_res res tmp, conditions)
    else  (* symbolic access *)
      let conditions := [] in
      for_each (dict_keys (pages m))
        (load_symbolic_body self page_address page_index)
        (res, conditions).

(** [Memory.load]; [size] is in bytes. *)
Definition load (self : nat) (address : bv) (size : Z) (endness : string)
  : M World bv :=
  let* m := deref self in
  let* _ := assert (bv_size address =? bits m) in
  let* fires := heuristic_unconstrained self address in
  let* address :=
    if fires then concretize self address size
    else ret address in
  let res := None in
  let conditions := [] in
  let ran := if String.eqb endness "little"
             then reverse (seqZ 0 size) else seqZ 0 size in
  let* '(res, conditions) :=
    for_each ran (load_body self address) (res, conditions) in
  let* _ :=
    match conditions with
    | [] => ret tt
    | _ =>
        let* st := get_state (state m) in
        let errored_state := State.copy st in
        let errored_state :=
          State.add_constraints
            (simplify_bool (Not (z3_Or conditions))) errored_state in
        let* _ := report_errored (errored_state, "read unmapped"%string) in
        add_constraints self (simplify_bool (z3_Or conditions))
    end in
  match res with
  | None => raise AttributeError  (* what if res is None? *)
  | Some res =>
      let* _ := assert (bv_size res / 8 =? size) in
      ret (simplify res)
  end.

Definition copy_body (self : nat) (page_addr : Z) (new_pages : list (Z * nat))
  : M World (list (Z * nat)) :=
  let* m := deref self in
  match dict_get page_addr (pages m) with
  | None => raise KeyError
  | Some r =>
      let* r' := lift_heap (Page.copy r) in
      ret (dict_set page_addr r' new_pages)
  end.

Definition copy (self : nat) (state : nat) : M World nat :=
  let* m := deref self in
  let* new_memory := init state (page_size m) (bits m) in
  let* new_pages := for_each (dict_keys (pages m)) (copy_body self) [] in
  let* _ := set_pages new_memory new_pages in
  ret new_memory.
End Memory.
End Memory.

(** ** Concrete collaborators

    Executable instances of the three external capabilities, used to run the
    memory code on concrete inputs. *)

(** A simplifier that folds terms without symbolic constants and leaves the
    others as they are. *)
Definition fold_bv (e : bv) : bv :=
  if ground e then BVV (eval (fun _ => 0) e) (bv_size e) else e.

Definition fold_bexpr (c : bexpr) : bexpr :=
  if bground c then (if beval (fun _ => 0) c then BTrue else BFalse) else c.

Definition fold_simplifier : Z3Simplifier :=
  {| simplify := fold_bv; simplify_bool := fold_bexpr |}.

(** A byte store kept as the log of its writes, newest first, over content
    that is initially zero.  A load is the chain of selects over the log; an
    entry whose value is not a byte is skipped. *)
Fixpoint log_load (m : list (bv * bv)) (i : bv) : bv :=
  match m with
  | [] => BVV 0 8
  | (j, v) :: m' =>
      if bv_size v =? 8 then If (Eq i j) v (log_load m' i) else log_load m' i
  end.

Fixpoint log_denote (rho : env) (m : list (bv * bv)) (off : Z) : Z :=
  match m with
  | [] => 0
  | (j, v) :: m' =>
      if (bv_size v =? 8) && (off =? eval rho j) then eval rho v
      else log_denote rho m' off
  end.

Definition log_store : MemoryObj :=
  {| mo_t := list (bv * bv);
     mo_new := fun _ _ => [];
     mo_store := fun m i v => (i, v) :: m;
     mo_load := log_load;
     mo_copy := fun m => m;
     mo_simplify := fun m => m;
     mo_denote := log_denote |}.

(** A solver by enumeration: every valuation of the symbolic constants that
    occur in the query is tried. *)
Fixpoint bv_vars (e : bv) : list (string * Z) :=
  match e with
  | BVV _ _ => []
  | BVS n s => [(n, s)]
  | BVAdd a b | BVSub a b | Concat a b => bv_vars a ++ bv_vars b
  | Extract _ _ e => bv_vars e
  | If c t e => bexpr_vars c ++ bv_vars t ++ bv_vars e
  end
with bexpr_vars (c : bexpr) : list (string * Z) :=
  match c with
  | BTrue | BFalse => []
  | Eq a b => bv_vars a ++ bv_vars b
  | Or a b => bexpr_vars a ++ bexpr_vars b
  | Not a => bexpr_vars a
  end.

Definition var_names (vs : list (string * Z)) : list string :=
  remove_dups (vs.*1).

Definition var_width (vs : list (string * Z)) (n : string) : Z :=
  from_option id 0 (snd <$> List.find (fun '(m, _) => String.eqb m n) vs).

Definition extend (rho : env) (n : string) (v : Z) : env :=
  fun m => if String.eqb m n then v else rho m.

Fixpoint valuations (vs : list (string * Z)) (names : list string) : list env :=
  match names with
  | [] => [fun _ => 0]
  | n :: names' =>
      rho ← valuations vs names';
      v ← seqZ 0 (2 ^ var_width vs n);
      [extend rho n v]
  end.

Definition models (cs : list bexpr) (e : list (string * Z)) : list env :=
  let vs := concat (bexpr_vars <$> cs) ++ e in
  List.filter (fun rho => forallb (beval rho) cs) (valuations vs (var_names vs)).

Definition enum_solver : Solver :=
  {| solver_symbolic := fun cs e =>
       match models cs (bv_vars e) with
       | [] => false
       | rho :: ms => existsb (fun rho' => negb (eval rho' e =? eval rho e)) ms
       end;
     solver_evaluate_long := fun cs e =>
       match models cs (bv_vars e) with
       | [] => 0
       | rho :: _ => eval rho e
       end;
     solver_satisfiable := fun cs extra =>
       match models (cs ++ extra) [] with
       | [] => false
       | _ => true
       end;
     solver_is_unconstrained := fun cs e =>
       forallb (fun n => negb (existsb (String.eqb n)
                                  (var_names (concat (bexpr_vars <$> cs)))))
               (var_names (bv_vars e)) |}.

Definition heuristic_on : Options :=
  {| HEURISTIC_UNCONSTRAINED_MEM_ACCESS := true |}.

(** The values of [math.ceil(math.log(2**k, 2))] as CPython 3.11 computes
    them on x86-64 Linux for [k < 128]: [k], except at the exponents listed
    here, where the result is [k + 1].  The examples use no other
    argument. *)
Definition inexact_exponents : list Z :=
  [29; 31; 39; 47; 51; 55; 58; 59; 62; 78; 93; 94; 95; 101; 102; 109; 110;
   116; 117; 118; 124; 125].

Definition cpython_math : PyMath :=
  {| ceil_log2 := fun x =>
       let k := Z.log2_up x in
       if (x =? 2 ^ k) && existsb (Z.eqb k) inexact_exponents
       then k + 1 else k |}.

(** ** Vocabulary of the statements *)

(** The page-address term that [load] computes for byte [i]. *)
Definition load_page_address {S : Z3Simplifier}
    (m : Memory.t) (address : bv) (i : Z) : bv :=
  simplify (Extract (bv_size address - 1) (Memory.index_bits m)
                    (bv_add_int address i)).

(** The slots of [[address, address + size)] that [mmap] finds unmapped, in
    scan order. *)
Definition created_slots (m : Memory.t) (address size : Z) : list Z :=
  List.filter (fun a => negb (dict_mem a (Memory.pages m)))
    (seqZ (address / Memory.page_size m) (size / Memory.page_size m)).

(** The preload that the spec gives to the [k]-th page created by [mmap]
    (section 4.3): the first one starts at the blob's start offset and takes
    what fits in the rest of the page, each later one starts at offset 0 and
    takes the next [page_size] bytes. *)
Definition init_chunk (page_size : Z) (init : InitData) (k : nat) : InitData :=
  match k with
  | O => {| bytes := py_slice (bytes init) 0 (page_size - index init);
            index := index init |}
  | _ => {| bytes := py_slice (bytes init)
                       (Z.of_nat k * page_size - index init)
                       ((Z.of_nat k + 1) * page_size - index init);
            index := 0 |}
  end.

(** The page object that [Page(a, page_size, index_bits, init)] builds. *)
Definition fresh_page {B : MemoryObj} (m : Memory.t) (init : option InitData)
    (a : Z) : Page.t mo_t :=
  {| Page.addr := a; Page.size := Memory.page_size m;
     Page.bits := Memory.index_bits m;
     Page.mo := mo_new a (Memory.index_bits m);
     Page._init := init; Page._lazycopy := false |}.

(** The page that [store] builds for the writer of a marked page. *)
Definition cow_page {B : MemoryObj} (p : Page.t mo_t) (idx v : bv) : Page.t mo_t :=
  {| Page.addr := Page.addr p; Page.size := Page.size p;
     Page.bits := Page.bits p;
     Page.mo := mo_store (mo_copy (Page.mo (Page.materialized p))) idx v;
     Page._init := None; Page._lazycopy := false |}.

(** [m] with its page table replaced. *)
Definition with_pages (d : list (Z * nat)) (m : Memory.t) : Memory.t :=
  {| Memory.bits := Memory.bits m; Memory.state := Memory.state m;
     Memory.pages := d; Memory.page_size := Memory.page_size m;
     Memory.index_bits := Memory.index_bits m |}.

(** [w] with its heap, or its memories, replaced. *)
Definition with_heap {B : MemoryObj} (h : Page.heap) (w : Memory.World)
  : Memory.World :=
  {| Memory.heap := h; Memory.memories := Memory.memories w;
     Memory.states := Memory.states w; Memory.errored := Memory.errored w |}.

Definition with_memories {B : MemoryObj} (ms : list Memory.t) (w : Memory.World)
  : Memory.World :=
  {| Memory.heap := Memory.heap w; Memory.memories := ms;
     Memory.states := Memory.states w; Memory.errored := Memory.errored w |}.

(** The loop variables of [mmap] once [k] pages have been created. *)
Definition mmap_vars_at (page_size : Z) (init : InitData) (k : nat)
  : Memory.mmap_vars :=
  {| Memory.init_index := Some (match k with O => index init | _ => 0 end);
     Memory.data_index_i :=
       match k with O => 0 | _ => Z.of_nat k * page_size - index init end;
     Memory.data_index_f := (Z.of_nat k + 1) * page_size - index init |}.

(** The world after [mmap] has created pages for the slots [created], the
    first of them being the [k]-th page created by the call. *)
Definition mmap_world {B : MemoryObj} (w : Memory.World) (self : nat)
    (m : Memory.t) (init : InitData) (k : nat) (created : list Z)
  : Memory.World :=
  with_memories
    (<[self := with_pages
                 (Memory.pages m ++
                  imap (fun j a => (a, (length (Memory.heap w) + j)%nat)) created)
                 m]> (Memory.memories w))
    (with_heap
       (Memory.heap w ++
        imap (fun j a =>
                fresh_page m (Some (init_chunk (Memory.page_size m) init (k + j))) a)
             created)
       w).

(** *** The page-table invariant *)

(** A page table over a heap: its keys are distinct and every entry
    designates a page object whose [addr] is the entry's key. *)
Definition table_ok {B : MemoryObj} (h : Page.heap) (d : list (Z * nat)) : Prop :=
  NoDup (dict_keys d) /\
  forall k r, dict_get k d = Some r ->
    exists p, h !! r = Some p /\ Page.addr p = k.

Definition world_ok {B : MemoryObj} (w : Memory.World) : Prop :=
  forall self m, Memory.memories w !! self = Some m ->
    table_ok (Memory.heap w) (Memory.pages m).

(** Page objects are never removed and never change their [addr]. *)
Definition heap_le {B : MemoryObj} (h h' : Page.heap) : Prop :=
  forall r p, h !! r = Some p ->
    exists p', h' !! r = Some p' /\ Page.addr p' = Page.addr p.

(** Hoare triples for the memory code.  When the computation raises, the
    world it leaves must satisfy the page-table invariant. *)
Definition triple {B : MemoryObj} {A} (P : Memory.World -> Prop)
    (c : M Memory.World A) (Q : A -> Memory.World -> Prop) : Prop :=
  forall w, P w ->
    match c w with
    | Ok a w' => Q a w'
    | Fail _ w' => world_ok w'
    end.

Definition preserves {B : MemoryObj} {A} (c : M Memory.World A) : Prop :=
  triple world_ok c (fun _ => world_ok).

(** A computation that never changes the state. *)
Definition read_only {St A} (c : M St A) : Prop :=
  forall s, match c s with Ok _ s' => s' = s | Fail _ s' => s' = s end.

(** The operations of a memory, and runs of them.  An operation that raises
    leaves the world as the exception found it. *)
Inductive op : Type :=
| New (state : nat) (page_size bits : Z)
| Mmap (self : nat) (address size : Z) (init : option InitData)
| Store (self : nat) (address value : bv) (endness : string)
| Load (self : nat) (address : bv) (size : Z) (endness : string)
| GetUnmapped (self : nat) (size : Z) (from_end : bool)
| Copy (self : nat) (state : nat).

Definition run_op {B : MemoryObj} {S : Z3Simplifier} {V : Solver} {O : Options}
    {PM : PyMath} (o : op) : M Memory.World unit :=
  match o with
  | New state page_size bits =>
      let* _ := Memory.init state page_size bits in ret tt
  | Mmap self address size init => Memory.mmap self address size init
  | Store self address value endness => Memory.store self address value endness
  | Load self address size endness =>
      let* _ := Memory.load self address size endness in ret tt
  | GetUnmapped self size from_end =>
      let* _ := Memory.get_unmapped self size from_end in ret tt
  | Copy self state => let* _ := Memory.copy self state in ret tt
  end.

(** The world reached from [w] by [c], whether [c] returns or raises. *)
Definition world_after {St A} (c : M St A) (w : St) : St :=
  match c w with Ok _ w' => w' | Fail _ w' => w' end.

Definition run {B : MemoryObj} {S : Z3Simplifier} {V : Solver} {O : Options}
    {PM : PyMath} (ops : list op) (w : Memory.World) : Memory.World :=
  foldl (fun w o => world_after (run_op o) w) w ops.

(** A world in which no memory has been created yet. *)
Definition initial_world {B : MemoryObj} (sts : list State.t) : Memory.World :=
  {| Memory.heap := []; Memory.memories := []; Memory.states := sts;
     Memory.errored := [] |}.

(** The heap after [Page.copy] has been called on every reference of
    [refs]: each of these pages is marked [_lazycopy]. *)
Definition mark_all {B : MemoryObj} (refs : list nat) (h : Page.heap) : Page.heap :=
  foldl (fun h r => alter (Page.set_lazycopy true) r h) h refs.

(** The memory object that [copy] builds from [m]: the constructor is run
    again on the page size of [m]. *)
Definition copy_of {PM : PyMath} (m : Memory.t) (state : nat) : Memory.t :=
  {| Memory.bits := Memory.bits m; Memory.state := state;
     Memory.pages := Memory.pages m; Memory.page_size := Memory.page_size m;
     Memory.index_bits := ceil_log2 (Memory.page_size m) |}.

(** A memory object as the constructor builds it: the page size has passed
    the constructor's checks and [index_bits] is what the constructor
    computes from it.  No other code assigns the two fields. *)
Definition constructed {PM : PyMath} (m : Memory.t) : Prop :=
  0 < Memory.page_size m /\
  Z.land (Memory.page_size m) (Memory.page_size m - 1) = 0 /\
  Memory.index_bits m = ceil_log2 (Memory.page_size m).

Definition all_constructed {B : MemoryObj} {PM : PyMath} (w : Memory.World)
  : Prop :=
  forall self m, Memory.memories w !! self = Some m -> constructed m.

(** A computation that leaves every memory object as the constructor built
    it, whether it returns or raises. *)
Definition keeps {B : MemoryObj} {PM : PyMath} {A} (c : M Memory.World A)
  : Prop :=
  forall w, all_constructed w ->
    match c w with
    | Ok _ w' => all_constructed w'
    | Fail _ w' => all_constructed w'
    end.

(** *** Concrete accesses *)

(** The byte address [address + j] at the address width, and its split into
    page slot and offset in the page. *)
Definition byte_address (bits a j : Z) : Z := (a + j) mod 2 ^ bits.
Definition slot_of (index_bits x : Z) : Z := x / 2 ^ index_bits.
Definition offset_of (index_bits x : Z) : Z := x mod 2 ^ index_bits.

(** The entries of a page table designate page objects with the entry's key
    as [addr], whose pending preload fits the page. *)
Definition entries_wf {B : MemoryObj} (h : Page.heap) (d : list (Z * nat)) : Prop :=
  forall k r, dict_get k d = Some r ->
    exists p, h !! r = Some p /\ Page.addr p = k /\ Page.init_fits p = true.

(** A well-formed memory object: it exists, addresses are wider than the
    offset in a page, and its page table is well formed. *)
Definition mem_wf {B : MemoryObj} (w : Memory.World) (self : nat) (m : Memory.t)
  : Prop :=
  Memory.memories w !! self = Some m /\
  0 < Memory.index_bits m < Memory.bits m /\
  NoDup (dict_keys (Memory.pages m)) /\
  entries_wf (Memory.heap w) (Memory.pages m).

(** The byte that a page table holds at a slot and offset, if the slot is
    mapped. *)
Definition byte_at {B : MemoryObj} (rho : env) (h : Page.heap)
    (d : list (Z * nat)) (k off : Z) : option Z :=
  match dict_get k d with
  | Some r =>
      match h !! r with
      | Some p => Some (Page.content rho p off)
      | None => None
      end
  | None => None
  end.

(** No page that the table [da] may write in place (a page that is not
    marked) is designated by the table [db]. *)
Definition exclusive {B : MemoryObj} (h : Page.heap) (da db : list (Z * nat))
  : Prop :=
  forall k r p, dict_get k da = Some r -> h !! r = Some p ->
    Page._lazycopy p = false -> forall k', dict_get k' db <> Some r.

(** Two page tables that can only diverge through copy-on-write. *)
Definition isolated {B : MemoryObj} (h : Page.heap) (da db : list (Z * nat))
  : Prop :=
  entries_wf h da /\ entries_wf h db /\ exclusive h da db /\ exclusive h db da.

(** What one [Page.store] on the page [p] at reference [r] does to the heap:
    [r'] is the reference that it returns. *)
Definition store_step {B : MemoryObj} (h h' : Page.heap) (r r' : nat)
    (p : Page.t mo_t) (idx v : bv) : Prop :=
  (r' = r /\ Page._lazycopy p = false \/
   r' = length h /\ Page._lazycopy p = true) /\
  (exists p', h' !! r' = Some p' /\ Page.addr p' = Page.addr p /\
     Page.init_fits p' = true /\ Page._lazycopy p' = false /\
     forall rho off, Page.content rho p' off =
       if off =? eval rho idx then eval rho v else Page.content rho p off) /\
  (forall r0 p0, h !! r0 = Some p0 -> r0 <> r' ->
     exists p0', h' !! r0 = Some p0' /\ Page.addr p0' = Page.addr p0 /\
       (Page.init_fits p0 = true -> Page.init_fits p0' = true) /\
       (forall rho off, Page.content rho p0' off = Page.content rho p0 off) /\
       Page._lazycopy p0' = (if decide (r0 = r) then false else Page._lazycopy p0)).

(** A page that differs from another only in how its content is
    represented. *)
Definition same_page {B : MemoryObj} (p p' : Page.t mo_t) : Prop :=
  Page.addr p' = Page.addr p /\
  Page._lazycopy p' = Page._lazycopy p /\
  (Page.init_fits p = true -> Page.init_fits p' = true) /\
  forall rho off, Page.content rho p' off = Page.content rho p off.

Definition heap_quiet {B : MemoryObj} (h h' : Page.heap) : Prop :=
  forall r p, h !! r = Some p -> exists p', h' !! r = Some p' /\ same_page p p'.

(** The value of a sequence of bytes, most significant first. *)
Definition be_value (bs : list Z) : Z := foldl (fun acc b => acc * 256 + b) 0 bs.

(** The offset from the access address at which [store] puts byte [i] of an
    [n]-byte value. *)
Definition store_offset (endness : string) (n i : Z) : Z :=
  if String.eqb endness "little" then i else n - 1 - i.

(** The width and the value of the accumulator [res] of [load]. *)
Definition res_size (res : option bv) : Z :=
  match res with Some r => bv_size r | None => 0 end.

Definition res_value (rho : env) (res : option bv) : Z :=
  match res with Some r => eval rho r | None => 0 end.

(** Byte [i] of a value, counted from the least significant one. *)
Definition byte_of (V i : Z) : Z := (V / 2 ^ (8 * i)) mod 256.

(** The byte offsets that [load] visits, in order. *)
Definition load_order (endness : string) (size : Z) : list Z :=
  if String.eqb endness "little" then reverse (seqZ 0 size) else seqZ 0 size.

(** A computation that returns [a] from the state [s]. *)
Definition returns {St A} (c : M St A) (s : St) (a : A) : Prop :=
  exists s', c s = Ok a s'.

(** Two terms of the same width that have the same value under every
    valuation of the symbols. *)
Definition bv_equiv (x y : bv) : Prop :=
  bv_size x = bv_size y /\ forall rho, eval rho x = eval rho y.

(** The [n] bytes from the address [a] on all lie in mapped pages of [m]. *)
Definition mapped_range (m : Memory.t) (a n : Z) : Prop :=
  forall j, 0 <= j < n ->
    dict_mem (slot_of (Memory.index_bits m) (byte_address (Memory.bits m) a j))
             (Memory.pages m) = true.

(** *** The scan of [get_unmapped] *)

(** The bound [last_page] of the scan, and a run of [size] free slots from
    the slot [g] on. *)
Definition last_page (m : Memory.t) : Z :=
  2 ^ (Memory.bits m - Memory.index_bits m) - 4.

Definition free_run {V} (pages : list (Z * V)) (g size : Z) : Prop :=
  forall s, g <= s < g + size -> dict_mem s pages = false.

(** *** Terms and their sub-terms *)

Definition term_nodes (t : term) : nat :=
  match t with
  | TBv e => bv_nodes e
  | TBool c => bexpr_nodes c
  end.

Definition fringe_nodes (fringe : list term) : nat :=
  foldr (fun t n => (term_nodes t + n)%nat) 0%nat fringe.

(** The terms reached from [t] through [children], [t] itself excluded. *)
Inductive subterm_of (t : term) : term -> Prop :=
| sub_child c : c ∈ children t -> subterm_of t c
| sub_deeper c c' : subterm_of t c -> c' ∈ children c -> subterm_of t c'.

(** The value whose bytes are those of the [n]-byte value [V] in the
    opposite order. *)
Definition byte_swapped (n V : Z) : Z := be_value (byte_of V <$> seqZ 0 n).

(** The candidate pages of the symbolic tier for the page-address term
    [pa]: the keys for which the solver finds [pa == p] satisfiable, in the
    order of the page table; and the guard built for a candidate. *)
Definition candidates {V : Solver} (cs : list bexpr) (pa : bv) (keys : list Z)
  : list Z :=
  List.filter (fun p => solver_satisfiable cs [bv_eq_int pa p]) keys.

Definition candidate_guard {S : Z3Simplifier} (pa : bv) (p : Z) : bexpr :=
  simplify_bool (bv_eq_int pa p).

(** The candidates and the guards of the symbolic tier of [load] for byte
    [j] of an access at [address]. *)
Definition load_candidates {S : Z3Simplifier} {V : Solver}
    (m : Memory.t) (st : State.t) (address : bv) (j : Z) : list Z :=
  candidates (State.constraints st) (load_page_address m address j)
    (dict_keys (Memory.pages m)).

Definition load_guards {S : Z3Simplifier} {V : Solver}
    (m : Memory.t) (st : State.t) (address : bv) (j : Z) : list bexpr :=
  candidate_guard (load_page_address m address j) <$> load_candidates m st address j.

(** The address term of byte [i] in [store], the page-address term that
    [split_bv] gives for it, and the candidates and guards of the symbolic
    tier, which simplifies the page address once more. *)
Definition store_address_term (address : bv) (endness : string) (size i : Z) : bv :=
  if String.eqb endness "little" then bv_add_int address i
  else bv_sub_int (bv_sub_int (bv_add_int address (size / 8)) i) 1.

Definition store_page_address {S : Z3Simplifier}
    (m : Memory.t) (address : bv) (endness : string) (size i : Z) : bv :=
  simplify (Extract (bv_size address - 1) (Memory.index_bits m)
                    (store_address_term address endness size i)).

Definition store_candidates {S : Z3Simplifier} {V : Solver}
    (m : Memory.t) (st : State.t) (address : bv) (endness : string) (size i : Z)
  : list Z :=
  candidates (State.constraints st)
    (simplify (store_page_address m address endness size i))
    (dict_keys (Memory.pages m)).

Definition store_guards {S : Z3Simplifier} {V : Solver}
    (m : Memory.t) (st : State.t) (address : bv) (endness : string) (size i : Z)
  : list bexpr :=
  candidate_guard (simplify (store_page_address m address endness size i))
    <$> store_candidates m st address endness size i.

(** Example worlds over the concrete collaborators: 8-bit addresses and
    pages of 4 bytes, so that slots range over 0..63 and the scan of
    [get_unmapped] stops at slot 60. *)
Section Examples.
#[local] Existing Instance fold_simplifier.
#[local] Existing Instance log_store.
#[local] Existing Instance enum_solver.
#[local] Existing Instance heuristic_on.
#[local] Existing Instance cpython_math.

Definition empty_world (cs : list bexpr) : Memory.World :=
  {| Memory.heap := []; Memory.memories := [];
     Memory.states := [ {| State.constraints := cs |} ];
     Memory.errored := [] |}.

(** A memory whose slots 2..60 are all mapped except 5, 6 and 7. *)
Definition gap_world : Memory.World :=
  Eval vm_compute in
  world_after
    (let* m := Memory.init 0%nat 4 8 in
     let* _ := Memory.mmap m (2 * 4) (3 * 4) None in
     Memory.mmap m (8 * 4) (53 * 4) None)
    (empty_world []).

(** A memory in which slot 2 is free and slots 3 and 4 are mapped. *)
Definition low_world : Memory.World :=
  Eval vm_compute in
  world_after
    (let* m := Memory.init 0%nat 4 8 in
     Memory.mmap m (3 * 4) (2 * 4) None)
    (empty_world []).
(** One mapped page (slot 1) and an address [a] constrained to 40 or 80,
    that is to slot 10 or slot 20. *)
Definition astray_world : Memory.World :=
  Eval vm_compute in
  world_after
    (let* m := Memory.init 0%nat 4 8 in
     Memory.mmap m 4 4 None)
    (empty_world [Or (Eq (BVS "a" 8) (bvv 40 8)) (Eq (BVS "a" 8) (bvv 80 8))]).
(** Two mapped pages, slot 1 (bytes 4..7) and slot 2 (bytes 8..11), holding
    0x11 at address 4 and 0x22 at address 8, and a symbolic address [a]
    whose only constraint is [a == 4 or a == 8]. *)
Definition two_page_world : Memory.World :=
  Eval vm_compute in
  world_after
    (let* m := Memory.init 0%nat 4 8 in
     let* _ := Memory.mmap m 4 4 None in
     let* _ := Memory.mmap m 8 4 None in
     let* _ := Memory.store m (bvv 4 8) (BVV 0x11 8) "big" in
     Memory.store m (bvv 8 8) (BVV 0x22 8) "big")
    (empty_world [Or (Eq (BVS "a" 8) (bvv 4 8)) (Eq (BVS "a" 8) (bvv 8 8))]).

(** The valuations under which [a] is 4, the base of the page at slot 1, and
    8, the base of the page at slot 2. *)
Definition a_is_4 : env := fun _ => 4.
Definition a_is_8 : env := fun _ => 8.

(** The guards that the symbolic tier computes for the byte at [a]. *)
Definition guard_slot (address : bv) (p : Z) : bexpr :=
  simplify_bool
    (bv_eq_int (simplify (Extract 7 2 address)) p).

(** A memory whose slot 1 is mapped already. *)
Definition remap_world : Memory.World :=
  Eval vm_compute in
  world_after
    (let* m := Memory.init 0%nat 4 8 in
     Memory.mmap m 4 4 None)
    (empty_world []).

(** The memory object of [remap_world]. *)
Definition remap_memory : Memory.t :=
  {| Memory.bits := 8; Memory.state := 0%nat; Memory.pages := [(1, 0%nat)];
     Memory.page_size := 4; Memory.index_bits := 2 |}.

(** [remap_world] after [M2 = M.copy()], [M3 = M.copy()] and a store of 0xCC
    into [M3] at address 5: [M] is memory 0, [M2] memory 1, [M3] memory 2. *)
Definition third_owner_world : Memory.World :=
  Eval vm_compute in
  world_after
    (let* _ := Memory.copy 0%nat 0%nat in
     let* m3 := Memory.copy 0%nat 0%nat in
     Memory.store m3 (bvv 5 8) (BVV 0xCC 8) "big")
    remap_world.

(** A memory whose slots 2..60 are all mapped. *)
Definition full_world : Memory.World :=
  Eval vm_compute in
  world_after
    (let* m := Memory.init 0%nat 4 8 in
     Memory.mmap m (2 * 4) (59 * 4) None)
    (empty_world []).

(** The memory objects of [gap_world] and [full_world]. *)
Definition gap_memory : Memory.t :=
  Eval vm_compute in
  default (Memory.Build_t 0 0%nat [] 0 0) (Memory.memories gap_world !! 0%nat).

Definition full_memory : Memory.t :=
  Eval vm_compute in
  default (Memory.Build_t 0 0%nat [] 0 0) (Memory.memories full_world !! 0%nat).

(** A memory with 8-bit addresses and pages of 4 bytes, nothing mapped. *)
Definition blank_world : Memory.World :=
  Eval vm_compute in
  world_after (Memory.init 0%nat 4 8) (empty_world []).

Definition blank_memory : Memory.t :=
  Eval vm_compute in
  default (Memory.Build_t 0 0%nat [] 0 0) (Memory.memories blank_world !! 0%nat).

(** [blank_world] with slot 3 mapped. *)
Definition slot3_world : Memory.World :=
  Eval vm_compute in
  world_after (Memory.mmap 0%nat 12 4 None) blank_world.

Definition slot3_memory : Memory.t :=
  Eval vm_compute in
  default (Memory.Build_t 0 0%nat [] 0 0) (Memory.memories slot3_world !! 0%nat).

(** The memory object of [two_page_world]. *)
Definition two_page_memory : Memory.t :=
  Eval vm_compute in
  default (Memory.Build_t 0 0%nat [] 0 0) (Memory.memories two_page_world !! 0%nat).

(** One mapped page (slot 1) holding 0x11 at address 4 and 0x22 at address
    5, and a symbolic address [a] constrained to 4 or 5: its page is
    determined, its offset in the page is not. *)
Definition one_slot_world : Memory.World :=
  Eval vm_compute in
  world_after
    (let* m := Memory.init 0%nat 4 8 in
     let* _ := Memory.mmap m 4 4 None in
     let* _ := Memory.store m (bvv 4 8) (BVV 0x11 8) "big" in
     Memory.store m (bvv 5 8) (BVV 0x22 8) "big")
    (empty_world [Or (Eq (BVS "a" 8) (bvv 4 8)) (Eq (BVS "a" 8) (bvv 5 8))]).

Definition one_slot_memory : Memory.t :=
  Eval vm_compute in
  default (Memory.Build_t 0 0%nat [] 0 0) (Memory.memories one_slot_world !! 0%nat).
(** Slot 3 is mapped and holds 0x33 at its first byte (address 12); slot 2
    is free; there is no path constraint. *)
Definition overlap_world : Memory.World :=
  Eval vm_compute in
  world_after
    (let* m := Memory.init 0%nat 4 8 in
     let* _ := Memory.mmap m 12 4 None in
     Memory.store m (bvv 12 8) (BVV 0x33 8) "big")
    (empty_world []).

Definition overlap_memory : Memory.t :=
  Eval vm_compute in
  default (Memory.Build_t 0 0%nat [] 0 0) (Memory.memories overlap_world !! 0%nat).
End Examples.

(** * Properties *)

(** ** The monad *)

Lemma bind_Ok {St A B} (c : M St A) (k : A -> M St B) s a s' :
  c s = Ok a s' -> bind c k s = k a s'.
Proof. unfold bind. intros ->. reflexivity. Qed.

Lemma bind_Fail {St A B} (c : M St A) (k : A -> M St B) s e s' :
  c s = Fail e s' -> bind c k s = Fail e s'.
Proof. unfold bind. intros ->. reflexivity. Qed.

Lemma bind_inv_Ok {St A B} (c : M St A) (k : A -> M St B) s b s'' :
  bind c k s = Ok b s'' -> exists a s', c s = Ok a s' /\ k a s' = Ok b s''.
Proof.
  unfold bind. destruct (c s) as [a s'|e s']; [eauto | discriminate].
Qed.

Lemma bind_assoc {St A B C} (c : M St A) (k1 : A -> M St B) (k2 : B -> M St C) s :
  bind (bind c k1) k2 s = bind c (fun x => bind (k1 x) k2) s.
Proof. unfold bind. destruct (c s); reflexivity. Qed.

Lemma bind_ret {St A B} (a : A) (k : A -> M St B) s : bind (ret a) k s = k a s.
Proof. reflexivity. Qed.

Lemma for_each_app {St A X} (xs ys : list X) (body : X -> A -> M St A) acc s :
  for_each (xs ++ ys) body acc s =
  bind (for_each xs body acc) (for_each ys body) s.
Proof.
  revert acc s. induction xs as [|x xs IH]; intros acc s; simpl.
  - reflexivity.
  - unfold bind in *. destruct (body x acc s) as [a s'|e s']; [|reflexivity].
    apply IH.
Qed.

(** ** [get_unmapped] *)

Lemma get_unmapped_loop_step {V} (pages : list (Z * V)) last_page size from_end
    i j count :
  get_unmapped_loop pages last_page size from_end i j count =
  if (j <=? last_page) && negb (count =? size) then
    let count' := if negb (dict_mem i pages) then count + 1 else 0 in
    let i' := if negb (dict_mem i pages) then i
              else if negb from_end then j + 1 else i in
    let i'' := if from_end then i' - 1 else i' in
    get_unmapped_loop pages last_page size from_end i'' (j + 1) count'
  else i.
Proof.
  etrans; [apply get_unmapped_loop_equation_1|].
  destruct (inspect ((j <=? last_page) && negb (count =? size))) as [[] e];
    simpl; rewrite e; reflexivity.
Qed.

(** Forward scan: while the candidate slot is free it is never moved. *)
Lemma forward_scan_stays {V} (pages : list (Z * V)) last_page size i :
  dict_mem i pages = false ->
  forall n j count,
    Z.to_nat (last_page + 1 - j) = n ->
    get_unmapped_loop pages last_page size false i j count = i.
Proof.
  intros Hfree. induction n as [|n IH]; intros j count Hn;
    rewrite get_unmapped_loop_step;
    destruct ((j <=? last_page) && negb (count =? size)) eqn:Hc; try reflexivity.
  - apply andb_true_iff in Hc as [Hj _]. apply Z.leb_le in Hj. lia.
  - apply andb_true_iff in Hc as [Hj _]. apply Z.leb_le in Hj.
    cbn zeta. rewrite Hfree. simpl. apply IH. lia.
Qed.

(** Backward scan over mapped slots: the counter stays at 0 and the
    candidate walks down to the first free slot [g]. *)
Lemma backward_scan_mapped {V} (pages : list (Z * V)) last_page size g :
  0 < size ->
  forall n i,
    Z.to_nat (i - g) = n -> g <= i -> 2 <= g ->
    (forall k, g < k <= i -> dict_mem k pages = true) ->
    get_unmapped_loop pages last_page size true i (last_page + 2 - i) 0 =
    get_unmapped_loop pages last_page size true g (last_page + 2 - g) 0.
Proof.
  intros Hsize. induction n as [|n IH]; intros i Hn Hgi Hg Hmapped.
  - replace i with g by lia. reflexivity.
  - rewrite get_unmapped_loop_step.
    replace ((last_page + 2 - i <=? last_page) && negb (0 =? size)) with true.
    2:{ symmetry. apply andb_true_iff. split; [apply Z.leb_le; lia|].
        apply negb_true_iff, Z.eqb_neq. lia. }
    cbn zeta. rewrite (Hmapped i) by lia. simpl.
    replace (last_page + 2 - i + 1) with (last_page + 2 - (i - 1)) by lia.
    apply IH; [lia | lia | lia |]. intros k Hk. apply Hmapped. lia.
Qed.

(** Backward scan on a gap of three free slots [g], [g+1], [g+2] below
    mapped slots: the scan stops one slot below the gap. *)
Lemma get_unmapped_loop_single_gap {V} (pages : list (Z * V)) last_page g :
  2 <= g -> g + 2 <= last_page ->
  (forall k, 2 <= k <= last_page ->
     dict_mem k pages = false <-> g <= k <= g + 2) ->
  get_unmapped_loop pages last_page 3 true last_page 2 0 = g - 1.
Proof.
  intros Hg Hlast Hgap.
  assert (Hfree : forall k, g <= k <= g + 2 -> dict_mem k pages = false).
  { intros k Hk. apply Hgap; lia. }
  assert (Hmapped : forall k, g + 2 < k <= last_page -> dict_mem k pages = true).
  { intros k Hk. destruct (dict_mem k pages) eqn:E; [reflexivity|].
    apply Hgap in E; lia. }
  replace 2 with (last_page + 2 - last_page) at 1 by lia.
  rewrite (backward_scan_mapped pages last_page 3 (g + 2) ltac:(lia)
             (Z.to_nat (last_page - (g + 2))) last_page eq_refl) by (auto; lia).
  rewrite get_unmapped_loop_step.
  replace ((last_page + 2 - (g + 2) <=? last_page) && negb (0 =? 3)) with true
    by (symmetry; apply andb_true_iff; split; [apply Z.leb_le; lia | reflexivity]).
  cbn zeta. rewrite (Hfree (g + 2)) by lia. simpl.
  rewrite get_unmapped_loop_step.
  replace ((last_page + 2 - (g + 2) + 1 <=? last_page) && negb (0 + 1 =? 3))
    with true
    by (symmetry; apply andb_true_iff; split; [apply Z.leb_le; lia | reflexivity]).
  cbn zeta. replace (g + 2 - 1) with (g + 1) by lia.
  rewrite (Hfree (g + 1)) by lia. simpl.
  rewrite get_unmapped_loop_step.
  replace ((last_page + 2 - (g + 2) + 1 + 1 <=? last_page) && negb (0 + 1 + 1 =? 3))
    with true
    by (symmetry; apply andb_true_iff; split; [apply Z.leb_le; lia | reflexivity]).
  cbn zeta. replace (g + 1 - 1) with g by lia.
  rewrite (Hfree g) by lia. simpl.
  rewrite get_unmapped_loop_step.
  replace (negb (0 + 1 + 1 + 1 =? 3)) with false by reflexivity.
  rewrite andb_false_r. reflexivity.
Qed.

Section GetUnmapped.
Context {B : MemoryObj}.

(** C10.  When slot 2 is not in the page table, the forward scan
    ([from_end = False]) returns 2 for every [size], whatever the page
    table holds at the slots 3, 4, ...: the scan tests its candidate slot
    only, so the run it reports may overlap mapped pages. *)
Theorem get_unmapped_forward_tests_candidate_only
    (w : Memory.World) (self : nat) (m : Memory.t) (size : Z) :
  Memory.memories w !! self = Some m ->
  dict_mem 2 (Memory.pages m) = false ->
  Memory.get_unmapped self size false w = Ok 2 w.
Proof.
  intros Hm Hfree. unfold Memory.get_unmapped, Memory.deref, bind, ret.
  rewrite Hm. f_equal. eapply forward_scan_stays; [exact Hfree | reflexivity].
Qed.

(** C7.  On a page table whose only free slots among 2..last_page are the
    three slots [g], [g+1], [g+2], the backward scan
    [get_unmapped(3, from_end=True)] returns [g - 1], the slot below the
    gap, not the slot [g] at which the gap starts. *)
Theorem get_unmapped_from_end_single_gap
    (w : Memory.World) (self : nat) (m : Memory.t) (g : Z) :
  Memory.memories w !! self = Some m ->
  2 <= g ->
  g + 2 <= 2 ^ (Memory.bits m - Memory.index_bits m) - 4 ->
  (forall k, 2 <= k <= 2 ^ (Memory.bits m - Memory.index_bits m) - 4 ->
     dict_mem k (Memory.pages m) = false <-> g <= k <= g + 2) ->
  Memory.get_unmapped self 3 true w = Ok (g - 1) w.
Proof.
  intros Hm Hg Hlast Hgap. unfold Memory.get_unmapped, Memory.deref, bind, ret.
  rewrite Hm. f_equal. apply get_unmapped_loop_single_gap; assumption.
Qed.
End GetUnmapped.

(** Membership in a concrete page table, decided slot by slot. *)
Lemma dict_mem_false_iff_range {V} (d : list (Z * V)) (lo hi g1 g2 : Z) :
  forallb (fun k => Bool.eqb (negb (dict_mem k d)) ((g1 <=? k) && (k <=? g2)))
          (seqZ lo (hi - lo + 1)) = true ->
  forall k, lo <= k <= hi -> dict_mem k d = false <-> g1 <= k <= g2.
Proof.
  intros Hall k Hk. rewrite forallb_forall in Hall.
  specialize (Hall k). rewrite <- list_elem_of_In, elem_of_seqZ in Hall.
  specialize (Hall ltac:(lia)). apply Bool.eqb_prop in Hall.
  rewrite <- negb_true_iff, Hall, andb_true_iff, !Z.leb_le. reflexivity.
Qed.

(** With slots 3 and 4 mapped and slot 2 free, a run of two slots is
    reported at slot 2 although slot 3 is mapped. *)
Lemma get_unmapped_forward_tests_candidate_only_witness :
  exists m,
    Memory.memories low_world !! 0%nat = Some m /\
    dict_mem 3 (Memory.pages m) = true /\
    Memory.get_unmapped 0%nat 2 false low_world = Ok 2 low_world.
Proof.
  eexists. split; [reflexivity|]. split; [reflexivity|].
  eapply get_unmapped_forward_tests_candidate_only; reflexivity.
Defined.

(** Slots 2..60 mapped except 5, 6, 7: the scan returns 4, a mapped slot. *)
Lemma get_unmapped_from_end_single_gap_witness :
  exists m,
    Memory.memories gap_world !! 0%nat = Some m /\
    dict_mem 4 (Memory.pages m) = true /\
    dict_mem 5 (Memory.pages m) = false /\
    Memory.get_unmapped 0%nat 3 true gap_world = Ok 4 gap_world.
Proof.
  eexists. split; [reflexivity|]. split; [reflexivity|]. split; [reflexivity|].
  apply (get_unmapped_from_end_single_gap gap_world 0%nat _ 5 eq_refl);
    [lia | vm_compute; discriminate |].
  apply dict_mem_false_iff_range. vm_compute. reflexivity.
Defined.

(** ** [load] when no mapped page is a candidate *)

Section LoadNoCandidate.
Context {B : MemoryObj} {S : Z3Simplifier} {V : Solver} {O : Options}.

Lemma path_constraints_Ok (w : Memory.World) self m st :
  Memory.memories w !! self = Some m ->
  Memory.states w !! Memory.state m = Some st ->
  Memory.path_constraints self w = Ok (State.constraints st) w.
Proof.
  intros Hm Hst.
  unfold Memory.path_constraints, Memory.deref, Memory.get_state, bind, ret.
  rewrite Hm, Hst. reflexivity.
Qed.

Lemma load_symbolic_pass_unsat (w : Memory.World) self m st pa pi keys :
  Memory.memories w !! self = Some m ->
  Memory.states w !! Memory.state m = Some st ->
  (forall p, p ∈ keys ->
     solver_satisfiable (State.constraints st) [bv_eq_int pa p] = false) ->
  forall vs,
    for_each keys (Memory.load_symbolic_body self pa pi) vs w = Ok vs w.
Proof.
  intros Hm Hst. induction keys as [|p keys IH]; intros Hunsat vs.
  - reflexivity.
  - simpl. unfold bind at 1. unfold Memory.load_symbolic_body at 1.
    destruct vs as [res conditions].
    rewrite (bind_Ok _ _ _ _ _ (path_constraints_Ok w self m st Hm Hst)).
    rewrite Hunsat by (left). unfold ret at 1.
    apply IH. intros q Hq. apply Hunsat. right. exact Hq.
Qed.

Lemma split_bv_Ok {St} (e : bv) (split_index : Z) (s : St) :
  0 < split_index < bv_size e ->
  split_bv e split_index s =
  Ok (simplify (Extract (bv_size e - 1) split_index e),
      simplify (Extract (split_index - 1) 0 e)) s.
Proof.
  intros H. unfold split_bv, z3_Extract, bind, ret.
  replace ((0 <=? split_index) && (split_index <=? bv_size e - 1) &&
           (bv_size e - 1 <? bv_size e)) with true by (symmetry; lia).
  replace ((0 <=? 0) && (0 <=? split_index - 1) && (split_index - 1 <? bv_size e))
    with true by (symmetry; lia).
  reflexivity.
Qed.

Lemma split_bv_add_Ok {St} (address : bv) (i split_index : Z) (s : St) :
  0 < split_index < bv_size address ->
  split_bv (bv_add_int address i) split_index s =
  Ok (simplify (Extract (bv_size address - 1) split_index (bv_add_int address i)),
      simplify (Extract (split_index - 1) 0 (bv_add_int address i))) s.
Proof. intros H. apply (split_bv_Ok (bv_add_int address i)). exact H. Qed.

Lemma load_body_no_candidate (w : Memory.World) self m st address i :
  Memory.memories w !! self = Some m ->
  Memory.states w !! Memory.state m = Some st ->
  0 < Memory.index_bits m < bv_size address ->
  symbolic (load_page_address m address i) = true ->
  solver_symbolic (State.constraints st) (load_page_address m address i) = true ->
  (forall p, p ∈ dict_keys (Memory.pages m) ->
     solver_satisfiable (State.constraints st)
       [bv_eq_int (load_page_address m address i) p] = false) ->
  Memory.load_body self address i (None, []) w = Ok (None, []) w.
Proof.
  intros Hm Hst Hib Hsym Hssym Hunsat.
  unfold Memory.load_body.
  unfold bind at 1. unfold Memory.deref at 1. rewrite Hm.
  rewrite (bind_Ok _ _ _ _ _ (split_bv_add_Ok _ _ _ _ Hib)).
  fold (load_page_address m address i).
  rewrite Hsym. cbn [negb].
  rewrite (bind_Ok _ _ _ _ _ (path_constraints_Ok w self m st Hm Hst)).
  rewrite Hssym. cbn [negb].
  eapply load_symbolic_pass_unsat; eassumption.
Qed.

(** C9.  When the heuristic concretization does not fire, every byte takes
    the symbolic tier and no mapped page is a satisfiable candidate for any
    byte, [load] does not return: it raises on [res.size()] with [res] still
    [None], and the world is left as it was, so no errored state has been
    reported and no constraint added. *)
Theorem load_without_candidate_page_fails
    (w : Memory.World) (self : nat) (m : Memory.t) (st : State.t)
    (address : bv) (size : Z) (endness : string) :
  Memory.memories w !! self = Some m ->
  Memory.states w !! Memory.state m = Some st ->
  bv_size address = Memory.bits m ->
  0 < Memory.index_bits m < Memory.bits m ->
  Memory.heuristic_unconstrained self address w = Ok false w ->
  (forall i, 0 <= i < size ->
     symbolic (load_page_address m address i) = true /\
     solver_symbolic (State.constraints st) (load_page_address m address i) = true /\
     forall p, p ∈ dict_keys (Memory.pages m) ->
       solver_satisfiable (State.constraints st)
         [bv_eq_int (load_page_address m address i) p] = false) ->
  Memory.load self address size endness w = Fail AttributeError w.
Proof.
  intros Hm Hst Hsz Hib Hheur Hbytes.
  unfold Memory.load.
  unfold bind at 1. unfold Memory.deref at 1. rewrite Hm.
  unfold bind at 1. unfold assert at 1.
  replace (bv_size address =? Memory.bits m) with true by (symmetry; lia).
  unfold ret at 1.
  rewrite (bind_Ok _ _ _ _ _ Hheur).
  unfold bind at 1. unfold ret at 1.
  assert (Hloop : forall ran, (forall i, i ∈ ran -> 0 <= i < size) ->
            for_each ran (Memory.load_body self address) (None, []) w
            = Ok (None, []) w).
  { induction ran as [|i ran IH]; intros Hran; [reflexivity|].
    simpl. destruct (Hbytes i) as (H1 & H2 & H3); [apply Hran; left|].
    rewrite (bind_Ok _ _ _ _ _
               (load_body_no_candidate w self m st address i Hm Hst
                  ltac:(lia) H1 H2 H3)).
    apply IH. intros k Hk. apply Hran. right. exact Hk. }
  assert (Hran : forall i,
            i ∈ (if String.eqb endness "little"
                 then reverse (seqZ 0 size) else seqZ 0 size) ->
            0 <= i < size).
  { intros i. destruct (String.eqb endness "little");
      rewrite ?elem_of_reverse, elem_of_seqZ; lia. }
  rewrite (bind_Ok _ _ _ _ _ (Hloop _ Hran)).
  reflexivity.
Qed.
End LoadNoCandidate.

Lemma load_without_candidate_page_fails_witness :
  Memory.load (B := log_store) (S := fold_simplifier) (V := enum_solver)
    (O := heuristic_on) 0%nat (BVS "a" 8) 1 "big" astray_world
  = Fail AttributeError astray_world.
Proof.
  eapply (load_without_candidate_page_fails (B := log_store)
            (S := fold_simplifier) (V := enum_solver) (O := heuristic_on)
            astray_world 0%nat _ _ (BVS "a" 8) 1 "big" eq_refl eq_refl eq_refl).
  - vm_compute. split; reflexivity.
  - vm_compute. reflexivity.
  - intros i Hi. assert (i = 0) as -> by lia.
    split; [vm_compute; reflexivity|]. split; [vm_compute; reflexivity|].
    intros p Hp. apply list_elem_of_singleton in Hp as ->.
    vm_compute. reflexivity.
Defined.

(** ** Dictionaries *)

Lemma dict_set_fresh {V} (k : Z) (v : V) (d : list (Z * V)) :
  dict_mem k d = false -> dict_set k v d = d ++ [(k, v)].
Proof.
  unfold dict_mem. induction d as [|[k' v'] d IH]; simpl; [reflexivity|].
  destruct (k' =? k); [discriminate|]. intros H. rewrite IH by exact H. reflexivity.
Qed.

Lemma dict_get_app {V} (k : Z) (d d' : list (Z * V)) :
  dict_get k (d ++ d') =
  match dict_get k d with Some v => Some v | None => dict_get k d' end.
Proof.
  induction d as [|[k' v'] d IH]; simpl; [reflexivity|].
  destruct (k' =? k); [reflexivity | exact IH].
Qed.

Lemma dict_mem_snoc_ne {V} (k k' : Z) (v : V) (d : list (Z * V)) :
  k <> k' -> dict_mem k' (d ++ [(k, v)]) = dict_mem k' d.
Proof.
  intros Hne. unfold dict_mem. rewrite dict_get_app. simpl.
  destruct (dict_get k' d); [reflexivity|].
  destruct (k =? k') eqn:E; [apply Z.eqb_eq in E; contradiction | reflexivity].
Qed.

(** ** Python slices *)

Lemma py_slice_take_drop {A} (l : list A) (i f : Z) :
  0 <= i <= f ->
  py_slice l i f = take (Z.to_nat (f - i)) (drop (Z.to_nat i) l).
Proof.
  intros H. unfold py_slice, py_slice_bound.
  replace (i <? 0) with false by (symmetry; lia).
  replace (f <? 0) with false by (symmetry; lia).
  set (n := Z.of_nat (length l)).
  destruct (Z.le_gt_cases n i) as [Hi|Hi].
  - rewrite !drop_ge by lia. rewrite !take_nil. reflexivity.
  - replace (Z.min i n) with i by lia.
    destruct (Z.le_gt_cases f n) as [Hf|Hf].
    + replace (Z.min f n) with f by lia. reflexivity.
    + replace (Z.min f n) with n by lia.
      rewrite !take_ge; [reflexivity | rewrite length_drop; lia
                         | rewrite length_drop; lia].
Qed.


(** ** Primitive steps *)

Ltac mstep H :=
  cbv beta iota; rewrite ?bind_assoc; rewrite (bind_Ok _ _ _ _ _ H); cbv beta iota.

Section Steps.
Context {B : MemoryObj}.

Lemma with_heap_id (w : Memory.World) : with_heap (Memory.heap w) w = w.
Proof. destruct w; reflexivity. Qed.

Lemma with_memories_id (w : Memory.World) :
  with_memories (Memory.memories w) w = w.
Proof. destruct w; reflexivity. Qed.

Lemma with_pages_id (m : Memory.t) : with_pages (Memory.pages m) m = m.
Proof. destruct m; reflexivity. Qed.

Lemma deref_Ok (w : Memory.World) self m :
  Memory.memories w !! self = Some m -> Memory.deref self w = Ok m w.
Proof. unfold Memory.deref. intros ->. reflexivity. Qed.

Lemma set_pages_Ok (w : Memory.World) self m d :
  Memory.memories w !! self = Some m ->
  Memory.set_pages self d w =
  Ok tt (with_memories (<[self := with_pages d m]> (Memory.memories w)) w).
Proof.
  intros Hm. unfold Memory.set_pages. mstep (deref_Ok w self m Hm). reflexivity.
Qed.

Lemma lift_heap_Ok {A} (c : M Page.heap A) (w : Memory.World) a h :
  c (Memory.heap w) = Ok a h -> Memory.lift_heap c w = Ok a (with_heap h w).
Proof. unfold Memory.lift_heap. intros ->. reflexivity. Qed.

Lemma lift_heap_Fail {A} (c : M Page.heap A) (w : Memory.World) e h :
  c (Memory.heap w) = Fail e h -> Memory.lift_heap c w = Fail e (with_heap h w).
Proof. unfold Memory.lift_heap. intros ->. reflexivity. Qed.
End Steps.

(** ** [mmap] *)

Section Mmap.
Context {B : MemoryObj}.

Lemma init_chunk_vars (ps : Z) (init : InitData) (k : nat) :
  {| bytes := py_slice (bytes init)
                (Memory.data_index_i (mmap_vars_at ps init k))
                (Memory.data_index_f (mmap_vars_at ps init k));
     index := match k with O => index init | _ => 0 end |}
  = init_chunk ps init k.
Proof.
  destruct k; simpl; [|reflexivity].
  f_equal. f_equal. lia.
Qed.

Lemma mmap_body_mapped (self : nat) (blob : list Z) (a : Z) vs
    (w : Memory.World) (m : Memory.t) :
  Memory.memories w !! self = Some m ->
  dict_mem a (Memory.pages m) = true ->
  Memory.mmap_body self blob a vs w = Ok vs w.
Proof.
  intros Hm Hmem. unfold Memory.mmap_body. mstep (deref_Ok w self m Hm).
  rewrite Hmem. reflexivity.
Qed.

Lemma mmap_body_fresh (self : nat) (init : InitData) (a : Z) (k : nat)
    (w : Memory.World) (m : Memory.t) :
  Memory.memories w !! self = Some m ->
  dict_mem a (Memory.pages m) = false ->
  Memory.mmap_body self (bytes init) a
    (mmap_vars_at (Memory.page_size m) init k) w
  = Ok (mmap_vars_at (Memory.page_size m) init (Datatypes.S k))
       (mmap_world w self m init k [a]).
Proof.
  intros Hm Hmem. unfold Memory.mmap_body. mstep (deref_Ok w self m Hm).
  rewrite Hmem. cbn [negb Memory.init_index mmap_vars_at].
  rewrite init_chunk_vars.
  erewrite bind_Ok; [|apply lift_heap_Ok; reflexivity].
  erewrite bind_Ok; [|apply (set_pages_Ok _ self m); exact Hm].
  unfold ret. f_equal.
  - unfold mmap_vars_at. cbn [Memory.data_index_f]. f_equal; lia.
  - unfold mmap_world. cbn [imap]. rewrite !Nat.add_0_r.
    rewrite (dict_set_fresh _ _ _ Hmem). reflexivity.
Qed.

Lemma mmap_loop_spec (self : nat) (init : InitData) (L : list Z) :
  NoDup L ->
  forall (w : Memory.World) (m : Memory.t) (k : nat),
    Memory.memories w !! self = Some m ->
    let created :=
      List.filter (fun a => negb (dict_mem a (Memory.pages m))) L in
    for_each L (Memory.mmap_body self (bytes init))
      (mmap_vars_at (Memory.page_size m) init k) w
    = Ok (mmap_vars_at (Memory.page_size m) init (k + length created))
         (mmap_world w self m init k created).
Proof.
  induction 1 as [|a L Hnotin Hnodup IH]; intros w m k Hm created.
  - simpl. unfold ret. f_equal; [f_equal; lia|].
    unfold mmap_world. simpl. rewrite !app_nil_r, with_pages_id.
    rewrite list_insert_id by exact Hm.
    rewrite with_heap_id, with_memories_id. reflexivity.
  - subst created. cbn [for_each List.filter].
    destruct (dict_mem a (Memory.pages m)) eqn:Hmem; cbn [negb].
    + mstep (mmap_body_mapped self (bytes init) a
               (mmap_vars_at (Memory.page_size m) init k) w m Hm Hmem).
      apply IH. exact Hm.
    + mstep (mmap_body_fresh self init a k w m Hm Hmem).
      set (m1 := with_pages (Memory.pages m ++ [(a, length (Memory.heap w))]) m).
      set (w1 := mmap_world w self m init k [a]).
      assert (Hm1 : Memory.memories w1 !! self = Some m1).
      { subst w1 m1. unfold mmap_world. cbn [Memory.memories with_memories imap].
        rewrite Nat.add_0_r. apply list_lookup_insert_eq.
        apply lookup_lt_Some in Hm. exact Hm. }
      change (Memory.page_size m) with (Memory.page_size m1).
      rewrite (IH w1 m1 (Datatypes.S k) Hm1).
      assert (Hfilter :
        List.filter (fun a0 => negb (dict_mem a0 (Memory.pages m1))) L =
        List.filter (fun a0 => negb (dict_mem a0 (Memory.pages m))) L).
      { apply List.filter_ext_in. intros a0 Ha0. subst m1. cbn [Memory.pages with_pages].
        rewrite dict_mem_snoc_ne; [reflexivity|].
        intros ->. apply Hnotin. apply list_elem_of_In. exact Ha0. }
      rewrite Hfilter.
      set (created := List.filter _ L).
      f_equal; [f_equal; cbn [length]; lia|].
      unfold mmap_world. subst w1 m1. unfold mmap_world.
      cbn [Memory.heap Memory.memories Memory.states Memory.errored
           Memory.pages Memory.page_size Memory.index_bits Memory.bits
           Memory.state with_pages with_heap with_memories fresh_page imap].
      unfold with_memories, with_heap.
      cbn [Memory.heap Memory.memories Memory.states Memory.errored].
      f_equal.
      * rewrite <- app_assoc. f_equal. cbn [app]. rewrite !Nat.add_0_r. f_equal.
        apply imap_ext. intros j x _. unfold compose.
        rewrite ?Nat.add_succ_r, ?Nat.add_succ_l. reflexivity.
      * rewrite list_insert_insert_eq. f_equal. unfold with_pages.
        cbn [Memory.pages Memory.bits Memory.state Memory.page_size Memory.index_bits].
        f_equal.
        rewrite <- app_assoc. f_equal. cbn [app]. rewrite !Nat.add_0_r. f_equal.
        apply imap_ext. intros j x _. unfold compose. f_equal.
        rewrite length_app. cbn [length]. lia.
Qed.
End Mmap.


Section MmapInit.
Context {B : MemoryObj}.

End MmapInit.



(** ** The symbolic tier on two candidate pages *)

(** A one-byte [load] at the ambiguous address returns the select between
    the two pages, reports one errored state carrying the negated
    disjunction, and adds the disjunction to the state. *)
Lemma load_symbolic_one_byte :
  let address := bv_add_int (BVS "a" 8) 0 in
  let disj := z3_Or [guard_slot address 1; guard_slot address 2] in
  exists w' byte1 byte2 cs,
    Memory.load (B := log_store) (S := fold_simplifier) (V := enum_solver)
      (O := heuristic_on) 0%nat (BVS "a" 8) 1 "big" two_page_world
    = Ok (If (guard_slot address 2) byte2 byte1) w' /\
    eval a_is_4 (If (guard_slot address 2) byte2 byte1) = 0x11 /\
    eval a_is_8 (If (guard_slot address 2) byte2 byte1) = 0x22 /\
    Memory.states two_page_world = [ {| State.constraints := cs |} ] /\
    Memory.errored two_page_world = [] /\
    Memory.errored w' =
      [ ({| State.constraints := cs ++ [Not disj] |}, "read unmapped"%string) ] /\
    Memory.states w' = [ {| State.constraints := cs ++ [disj] |} ].
Proof.
  do 4 eexists. split; [vm_compute; reflexivity|].
  split; [vm_compute; reflexivity|]. split; [vm_compute; reflexivity|].
  split; [reflexivity|]. split; [reflexivity|]. split; reflexivity.
Qed.

(** C4.  On two mapped pages and an address whose only constraint is
    [a == P1_base or a == P2_base], a two-byte [load] does not return a
    value: the second byte's chain of selects is built over the first byte
    instead of being concatenated to it, the result is 8 bits wide, and the
    width assertion fails, after the errored state has been reported and the
    disjunction added. *)
Theorem load_symbolic_two_bytes_fails :
  exists w',
    Memory.load (B := log_store) (S := fold_simplifier) (V := enum_solver)
      (O := heuristic_on) 0%nat (BVS "a" 8) 2 "big" two_page_world
    = Fail AssertionError w' /\
    length (Memory.errored w') = 1%nat.
Proof. eexists. split; vm_compute; reflexivity. Qed.

(** C3.  The symbolic tier of [store] writes the byte into every candidate
    page without the guard: [Page.store] receives the condition and drops
    it.  After storing 0xAA at the ambiguous address, the page at slot 1
    holds 0xAA at offset 0 also under the valuation where [a] is the base of
    the page at slot 2, that is where the guard of slot 1 is false; the 0x11
    it held before is lost.  The disjunction of the guards is added to the
    state. *)
Theorem store_symbolic_ignores_guard :
  let address := BVSub (BVSub (bv_add_int (BVS "a" 8) 1) (bvv 0 8)) (bvv 1 8) in
  let w' :=
    world_after
      (Memory.store (B := log_store) (S := fold_simplifier) (V := enum_solver)
         (O := heuristic_on) 0%nat (BVS "a" 8) (BVV 0xAA 8) "big")
      two_page_world in
  exists p p' cs,
    Memory.memories two_page_world !! 0%nat
      = Some {| Memory.bits := 8; Memory.state := 0; Memory.pages := [(1, 0%nat); (2, 1%nat)];
                Memory.page_size := 4; Memory.index_bits := 2 |} /\
    Memory.memories w' = Memory.memories two_page_world /\
    Memory.heap two_page_world !! 0%nat = Some p /\
    Memory.heap w' !! 0%nat = Some p' /\
    beval a_is_8 (guard_slot address 1) = false /\
    Page.content a_is_8 p 0 = 0x11 /\
    Page.content a_is_8 p' 0 = 0xAA /\
    Memory.states two_page_world = [ {| State.constraints := cs |} ] /\
    Memory.states w' =
      [ {| State.constraints :=
             cs ++ [z3_Or [guard_slot address 1; guard_slot address 2]] |} ].
Proof.
  do 3 eexists. repeat (split; [vm_compute; reflexivity|]). vm_compute. reflexivity.
Qed.

(** ** [Page] operations on the heap *)

Section PageFacts.
Context {B : MemoryObj}.

Lemma page_deref_Ok (h : Page.heap) r p :
  h !! r = Some p -> Page.deref r h = Ok p h.
Proof. unfold Page.deref. intros ->. reflexivity. Qed.

Lemma materialized_init (p : Page.t mo_t) :
  Page._init (Page.materialized p) = None.
Proof. unfold Page.materialized. destruct (Page._init p) eqn:E; [reflexivity | exact E]. Qed.

Lemma materialized_addr (p : Page.t mo_t) :
  Page.addr (Page.materialized p) = Page.addr p.
Proof. unfold Page.materialized. destruct (Page._init p); reflexivity. Qed.

Lemma materialized_size (p : Page.t mo_t) :
  Page.size (Page.materialized p) = Page.size p.
Proof. unfold Page.materialized. destruct (Page._init p); reflexivity. Qed.

Lemma materialized_bits (p : Page.t mo_t) :
  Page.bits (Page.materialized p) = Page.bits p.
Proof. unfold Page.materialized. destruct (Page._init p); reflexivity. Qed.

Lemma materialized_lazycopy (p : Page.t mo_t) :
  Page._lazycopy (Page.materialized p) = Page._lazycopy p.
Proof. unfold Page.materialized. destruct (Page._init p); reflexivity. Qed.

Lemma materialized_idem (p : Page.t mo_t) :
  Page.materialized (Page.materialized p) = Page.materialized p.
Proof.
  unfold Page.materialized at 1. rewrite materialized_init. reflexivity.
Qed.

Lemma materialized_no_init (p : Page.t mo_t) :
  Page._init p = None -> Page.materialized p = p.
Proof. unfold Page.materialized. intros ->. reflexivity. Qed.

Lemma init_fits_no_init (p : Page.t mo_t) :
  Page._init p = None -> Page.init_fits p = true.
Proof. unfold Page.init_fits. intros ->. reflexivity. Qed.

Lemma lazy_init_Ok (h : Page.heap) r p :
  h !! r = Some p -> Page.init_fits p = true ->
  Page.lazy_init r h = Ok tt (<[r := Page.materialized p]> h).
Proof.
  intros Hr Hfit. unfold Page.lazy_init. mstep (page_deref_Ok h r p Hr).
  unfold Page.init_fits, Page.materialized in *.
  destruct (Page._init p) as [init|].
  - rewrite Hfit. reflexivity.
  - unfold ret. rewrite list_insert_id by exact Hr. reflexivity.
Qed.

Lemma lazy_init_Fail (h : Page.heap) r p :
  h !! r = Some p -> Page.init_fits p = false ->
  Page.lazy_init r h = Fail AssertionError h.
Proof.
  intros Hr Hfit. unfold Page.lazy_init. mstep (page_deref_Ok h r p Hr).
  unfold Page.init_fits in Hfit.
  destruct (Page._init p) as [init|]; [|discriminate].
  rewrite Hfit. reflexivity.
Qed.

(** [store] on a page that is not marked: the byte goes into the page. *)
Lemma page_store_with_owned recur (h : Page.heap) r p idx v c :
  h !! r = Some p -> Page.init_fits p = true -> Page._lazycopy p = false ->
  Page.store_with recur r idx v c h =
  Ok r (<[r := Page.set_mo (mo_store (Page.mo (Page.materialized p)) idx v)
                           (Page.materialized p)]> h).
Proof.
  intros Hr Hfit Hflag. unfold Page.store_with.
  mstep (lazy_init_Ok h r p Hr Hfit).
  assert (Hlt : (r < length h)%nat) by (eapply lookup_lt_Some; exact Hr).
  erewrite bind_Ok; [|apply page_deref_Ok, list_lookup_insert_eq; exact Hlt].
  rewrite materialized_lazycopy, Hflag.
  unfold bind, Page.assign, ret. rewrite list_insert_insert_eq. reflexivity.
Qed.

Lemma page_store_owned (h : Page.heap) r p idx v c :
  h !! r = Some p -> Page.init_fits p = true -> Page._lazycopy p = false ->
  Page.store r idx v c h =
  Ok r (<[r := Page.set_mo (mo_store (Page.mo (Page.materialized p)) idx v)
                           (Page.materialized p)]> h).
Proof. apply page_store_with_owned. Qed.

(** [store] on a marked page: the mark is cleared, the page keeps its
    content, and the byte goes into a new page, which is returned. *)
Lemma page_store_cow (h : Page.heap) r p idx v c :
  h !! r = Some p -> Page.init_fits p = true -> Page._lazycopy p = true ->
  Page.store r idx v c h =
  Ok (length h)
     (<[r := Page.set_lazycopy false (Page.materialized p)]> h ++ [cow_page p idx v]).
Proof.
  intros Hr Hfit Hflag. unfold Page.store. unfold Page.store_with at 1.
  mstep (lazy_init_Ok h r p Hr Hfit).
  assert (Hlt : (r < length h)%nat) by (eapply lookup_lt_Some; exact Hr).
  erewrite bind_Ok; [|apply page_deref_Ok, list_lookup_insert_eq; exact Hlt].
  rewrite materialized_lazycopy, Hflag.
  unfold bind at 1. unfold Page.assign at 1. rewrite list_insert_insert_eq.
  set (h2 := <[r := Page.set_lazycopy false (Page.materialized p)]> h).
  assert (Hlen : length h2 = length h) by (subst h2; apply length_insert).
  unfold bind at 1. unfold Page.new at 1.
  erewrite bind_Ok; [|apply page_deref_Ok; rewrite lookup_app_r by lia;
                      rewrite Nat.sub_diag; reflexivity].
  unfold bind at 1. unfold Page.assign at 1.
  rewrite insert_app_r_alt by lia. rewrite Nat.sub_diag. cbn [insert list_insert].
  set (np := Page.set_mo _ _).
  assert (Hnp : (h2 ++ [np]) !! length h2 = Some np).
  { rewrite lookup_app_r by lia. rewrite Nat.sub_diag. reflexivity. }
  rewrite (page_store_with_owned _ _ _ np idx v None Hnp eq_refl eq_refl).
  rewrite insert_app_r_alt by lia. rewrite Nat.sub_diag. cbn [insert list_insert].
  rewrite Hlen, (materialized_no_init np eq_refl). subst np.
  unfold cow_page, Page.set_mo.
  cbn [Page.addr Page.size Page.bits Page.mo Page._init Page._lazycopy].
  rewrite materialized_addr, materialized_size, materialized_bits. reflexivity.
Qed.

Lemma page_load_Ok (h : Page.heap) r p idx :
  h !! r = Some p -> Page.init_fits p = true ->
  Page.load r idx h =
  Ok (mo_load (Page.mo (Page.materialized p)) idx) (<[r := Page.materialized p]> h).
Proof.
  intros Hr Hfit. unfold Page.load.
  mstep (lazy_init_Ok h r p Hr Hfit).
  assert (Hlt : (r < length h)%nat) by (eapply lookup_lt_Some; exact Hr).
  erewrite bind_Ok; [|apply page_deref_Ok, list_lookup_insert_eq; exact Hlt].
  reflexivity.
Qed.

Lemma page_copy_Ok (h : Page.heap) r p :
  h !! r = Some p ->
  Page.copy r h = Ok r (<[r := Page.set_lazycopy true p]> h).
Proof.
  intros Hr. unfold Page.copy. mstep (page_deref_Ok h r p Hr). reflexivity.
Qed.
End PageFacts.

(** ** More on dictionaries *)

Lemma dict_get_set {V} (k k' : Z) (v : V) (d : list (Z * V)) :
  dict_get k' (dict_set k v d) = if k =? k' then Some v else dict_get k' d.
Proof.
  induction d as [|[k0 v0] d IH]; simpl.
  - destruct (k =? k'); reflexivity.
  - destruct (k0 =? k) eqn:E0; simpl.
    + apply Z.eqb_eq in E0 as ->. destruct (k =? k'); reflexivity.
    + rewrite IH. destruct (k =? k') eqn:E; [|reflexivity].
      apply Z.eqb_eq in E as <-. rewrite E0. reflexivity.
Qed.

Lemma dict_mem_keys {V} (k : Z) (d : list (Z * V)) :
  dict_mem k d = true <-> k ∈ dict_keys d.
Proof.
  unfold dict_mem, dict_keys. induction d as [|[k0 v0] d IH]; simpl.
  - split; [discriminate | intros H; inversion H].
  - rewrite elem_of_cons. destruct (k0 =? k) eqn:E.
    + apply Z.eqb_eq in E. split; [intros _; left; congruence | reflexivity].
    + apply Z.eqb_neq in E. rewrite IH. split; [tauto | intros [|]; [congruence | assumption]].
Qed.

Lemma dict_mem_get {V} (k : Z) (d : list (Z * V)) :
  dict_mem k d = true <-> is_Some (dict_get k d).
Proof.
  unfold dict_mem. destruct (dict_get k d); split; intros H;
    try reflexivity; try discriminate; eauto. destruct H; discriminate.
Qed.

Lemma dict_keys_set {V} (k : Z) (v : V) (d : list (Z * V)) :
  dict_keys (dict_set k v d) =
  if dict_mem k d then dict_keys d else dict_keys d ++ [k].
Proof.
  unfold dict_mem, dict_keys. induction d as [|[k0 v0] d IH];
    cbn [dict_set dict_get]; [reflexivity|].
  destruct (k0 =? k) eqn:E.
  - apply Z.eqb_eq in E as ->. reflexivity.
  - rewrite !fmap_cons, IH. destruct (dict_get k d); reflexivity.
Qed.

Lemma dict_set_same {V} (k : Z) (v : V) (d : list (Z * V)) :
  dict_get k d = Some v -> dict_set k v d = d.
Proof.
  induction d as [|[k0 v0] d IH]; simpl; [discriminate|].
  destruct (k0 =? k) eqn:E.
  - apply Z.eqb_eq in E as ->. intros [= ->]. reflexivity.
  - intros H. rewrite IH by exact H. reflexivity.
Qed.

Lemma dict_keys_set_NoDup {V} (k : Z) (v : V) (d : list (Z * V)) :
  NoDup (dict_keys d) -> NoDup (dict_keys (dict_set k v d)).
Proof.
  intros Hnd. rewrite dict_keys_set. destruct (dict_mem k d) eqn:E; [exact Hnd|].
  apply NoDup_app. split; [exact Hnd|]. split; [|apply NoDup_singleton].
  intros x Hx Hx'. apply list_elem_of_singleton in Hx' as ->.
  apply dict_mem_keys in Hx. congruence.
Qed.

(** ** The page-table invariant *)

Section Invariant.
Context {B : MemoryObj}.

Lemma heap_le_refl (h : Page.heap) : heap_le h h.
Proof. intros r p H. eauto. Qed.

Lemma heap_le_trans (h1 h2 h3 : Page.heap) :
  heap_le h1 h2 -> heap_le h2 h3 -> heap_le h1 h3.
Proof.
  intros H12 H23 r p H. destruct (H12 r p H) as (p2 & H2 & E2).
  destruct (H23 r p2 H2) as (p3 & H3 & E3). exists p3. split; [exact H3 | congruence].
Qed.

Lemma heap_le_insert (h : Page.heap) r p p' :
  h !! r = Some p -> Page.addr p' = Page.addr p -> heap_le h (<[r := p']> h).
Proof.
  intros Hr Haddr r0 p0 H0. destruct (decide (r = r0)) as [->|Hne].
  - exists p'. split; [apply list_lookup_insert_eq; eapply lookup_lt_Some; exact Hr|].
    congruence.
  - exists p0. split; [rewrite list_lookup_insert_ne by exact Hne; exact H0 | reflexivity].
Qed.

Lemma heap_le_app (h l : Page.heap) : heap_le h (h ++ l).
Proof.
  intros r p H. exists p. split; [apply lookup_app_l_Some; exact H | reflexivity].
Qed.

Lemma table_ok_le (h h' : Page.heap) d :
  table_ok h d -> heap_le h h' -> table_ok h' d.
Proof.
  intros [Hnd Hent] Hle. split; [exact Hnd|]. intros k r Hk.
  destruct (Hent k r Hk) as (p & Hp & Haddr).
  destruct (Hle r p Hp) as (p' & Hp' & Haddr'). exists p'. split; [exact Hp' | congruence].
Qed.

Lemma table_ok_nil (h : Page.heap) : table_ok h [].
Proof. split; [constructor | intros k r H; discriminate]. Qed.

Lemma table_ok_set (h : Page.heap) d k r p :
  table_ok h d -> h !! r = Some p -> Page.addr p = k ->
  table_ok h (dict_set k r d).
Proof.
  intros [Hnd Hent] Hr Haddr. split; [apply dict_keys_set_NoDup; exact Hnd|].
  intros k' r' Hk'. rewrite dict_get_set in Hk'.
  destruct (k =? k') eqn:E.
  - apply Z.eqb_eq in E as <-. injection Hk' as <-. eauto.
  - apply Hent. exact Hk'.
Qed.

Lemma world_ok_heap (w : Memory.World) h' :
  world_ok w -> heap_le (Memory.heap w) h' -> world_ok (with_heap h' w).
Proof.
  intros Hok Hle self m Hm. eapply table_ok_le; [apply (Hok self m Hm) | exact Hle].
Qed.

Lemma world_ok_set_pages (w : Memory.World) self m d :
  world_ok w -> table_ok (Memory.heap w) d ->
  world_ok (with_memories (<[self := with_pages d m]> (Memory.memories w)) w).
Proof.
  intros Hok Hd self' m' Hm'. cbn [with_memories Memory.memories Memory.heap] in *.
  destruct (decide (self = self')) as [->|Hne].
  - destruct (lookup_lt_is_Some_2 (Memory.memories w) self') as [m0 Hm0].
    { apply lookup_lt_Some in Hm'. rewrite length_insert in Hm'. exact Hm'. }
    rewrite list_lookup_insert_eq in Hm' by (eapply lookup_lt_Some; exact Hm0).
    injection Hm' as <-. exact Hd.
  - rewrite list_lookup_insert_ne in Hm' by exact Hne. apply (Hok self' m' Hm').
Qed.

(** *** Rules *)

Lemma triple_ret {A} (P : Memory.World -> Prop) (a : A) Q :
  (forall w, P w -> Q a w) -> triple P (ret a) Q.
Proof. intros H w Hw. apply H. exact Hw. Qed.

Lemma triple_raise {A} (P : Memory.World -> Prop) e (Q : A -> Memory.World -> Prop) :
  (forall w, P w -> world_ok w) -> triple P (raise e) Q.
Proof. intros H w Hw. apply H. exact Hw. Qed.

Lemma triple_bind {A C} (P : Memory.World -> Prop) (c : M Memory.World A)
    (k : A -> M Memory.World C) Q R :
  triple P c Q -> (forall a, triple (Q a) (k a) R) -> triple P (bind c k) R.
Proof.
  intros Hc Hk w Hw. specialize (Hc w Hw). unfold bind.
  destruct (c w) as [a w'|e w']; [apply (Hk a w' Hc) | exact Hc].
Qed.

Lemma triple_conseq {A} (P P' : Memory.World -> Prop) (c : M Memory.World A)
    (Q Q' : A -> Memory.World -> Prop) :
  (forall w, P' w -> P w) -> triple P c Q -> (forall a w, Q a w -> Q' a w) ->
  triple P' c Q'.
Proof.
  intros HP Hc HQ w Hw. specialize (Hc w (HP w Hw)).
  destruct (c w); [apply HQ; exact Hc | exact Hc].
Qed.

Lemma triple_for_each {A X} (Inv : A -> Memory.World -> Prop)
    (body : X -> A -> M Memory.World A) (xs : list X) :
  (forall x acc, triple (Inv acc) (body x acc) Inv) ->
  forall acc, triple (Inv acc) (for_each xs body acc) Inv.
Proof.
  intros Hbody. induction xs as [|x xs IH]; intros acc; simpl.
  - apply triple_ret. auto.
  - eapply triple_bind; [apply Hbody | exact IH].
Qed.

Lemma triple_read_only {A} (P : Memory.World -> Prop) (c : M Memory.World A) :
  read_only c -> (forall w, P w -> world_ok w) -> triple P c (fun _ => P).
Proof.
  intros Hro HP w Hw. specialize (Hro w).
  destruct (c w); subst; [exact Hw | apply HP; exact Hw].
Qed.

Lemma preserves_bind {A C} (c : M Memory.World A) (k : A -> M Memory.World C) :
  preserves c -> (forall a, preserves (k a)) -> preserves (bind c k).
Proof. intros Hc Hk. eapply triple_bind; [exact Hc | exact Hk]. Qed.

Lemma preserves_ret {A} (a : A) : preserves (ret a).
Proof. apply triple_ret. auto. Qed.

Lemma preserves_raise {A} e : preserves (raise (A := A) e).
Proof. apply triple_raise. auto. Qed.

Lemma preserves_read_only {A} (c : M Memory.World A) :
  read_only c -> preserves c.
Proof. intros H. apply (triple_read_only world_ok c H). auto. Qed.

Lemma preserves_for_each {A X} (body : X -> A -> M Memory.World A) xs acc :
  (forall x acc, preserves (body x acc)) -> preserves (for_each xs body acc).
Proof.
  intros H. apply (triple_for_each (fun _ => world_ok) body xs H acc).
Qed.
End Invariant.

(** *** Computations that only read *)

Lemma read_only_ret {St A} (a : A) : read_only (ret (St := St) a).
Proof. intros s. reflexivity. Qed.

Lemma read_only_raise {St A} e : read_only (raise (St := St) (A := A) e).
Proof. intros s. reflexivity. Qed.

Lemma read_only_bind {St A C} (c : M St A) (k : A -> M St C) :
  read_only c -> (forall a, read_only (k a)) -> read_only (bind c k).
Proof.
  intros Hc Hk s. unfold bind. specialize (Hc s).
  destruct (c s) as [a s'|e s']; subst; [apply Hk | reflexivity].
Qed.

Lemma read_only_assert {St} b : read_only (assert (St := St) b).
Proof. destruct b; [apply read_only_ret | apply read_only_raise]. Qed.

Lemma read_only_z3_Extract {St} hi lo e : read_only (z3_Extract (St := St) hi lo e).
Proof.
  unfold z3_Extract. destruct (_ && _); [apply read_only_ret | apply read_only_raise].
Qed.

Lemma read_only_z3_If {St} c a b : read_only (z3_If (St := St) c a b).
Proof.
  unfold z3_If. destruct (_ =? _); [apply read_only_ret | apply read_only_raise].
Qed.

Section PageHeap.
Context {B : MemoryObj}.

Lemma page_store_Fail (h : Page.heap) r p idx v c :
  h !! r = Some p -> Page.init_fits p = false ->
  Page.store r idx v c h = Fail AssertionError h.
Proof.
  intros Hr Hfit. unfold Page.store, Page.store_with at 1.
  apply bind_Fail. apply lazy_init_Fail with p; assumption.
Qed.

Lemma page_load_Fail (h : Page.heap) r p idx :
  h !! r = Some p -> Page.init_fits p = false ->
  Page.load r idx h = Fail AssertionError h.
Proof.
  intros Hr Hfit. unfold Page.load.
  apply bind_Fail. apply lazy_init_Fail with p; assumption.
Qed.

(** Whatever [Page.store] does, pages stay and keep their [addr], and the
    page it returns has the [addr] of the page it was called on. *)
Lemma page_store_heap_le (h : Page.heap) r p idx v c :
  h !! r = Some p ->
  match Page.store r idx v c h with
  | Ok r' h' =>
      heap_le h h' /\ exists p', h' !! r' = Some p' /\ Page.addr p' = Page.addr p
  | Fail _ h' => h' = h
  end.
Proof.
  intros Hr. assert (Hlt : (r < length h)%nat) by (eapply lookup_lt_Some; exact Hr).
  destruct (Page.init_fits p) eqn:Hfit;
    [|rewrite (page_store_Fail h r p idx v c Hr Hfit); reflexivity].
  destruct (Page._lazycopy p) eqn:Hflag.
  - rewrite (page_store_cow h r p idx v c Hr Hfit Hflag). split.
    + eapply heap_le_trans; [|apply heap_le_app].
      eapply heap_le_insert; [exact Hr|]. apply materialized_addr.
    + exists (cow_page p idx v). split; [|reflexivity].
      rewrite lookup_app_r by (rewrite length_insert; lia).
      rewrite length_insert, Nat.sub_diag. reflexivity.
  - rewrite (page_store_owned h r p idx v c Hr Hfit Hflag). split.
    + eapply heap_le_insert; [exact Hr|]. apply materialized_addr.
    + eexists. split; [apply list_lookup_insert_eq; exact Hlt|]. apply materialized_addr.
Qed.

Lemma page_load_heap_le (h : Page.heap) r p idx :
  h !! r = Some p ->
  match Page.load r idx h with
  | Ok _ h' => heap_le h h'
  | Fail _ h' => h' = h
  end.
Proof.
  intros Hr. destruct (Page.init_fits p) eqn:Hfit.
  - rewrite (page_load_Ok h r p idx Hr Hfit).
    eapply heap_le_insert; [exact Hr|]. apply materialized_addr.
  - rewrite (page_load_Fail h r p idx Hr Hfit). reflexivity.
Qed.
End PageHeap.

Section Preservation.
Context {B : MemoryObj} {S : Z3Simplifier} {V : Solver} {O : Options}.
Context {PM : PyMath}.

Lemma world_ok_ext (w w' : Memory.World) :
  Memory.heap w' = Memory.heap w -> Memory.memories w' = Memory.memories w ->
  world_ok w -> world_ok w'.
Proof.
  intros Hh Hm Hok self m Hself. rewrite Hh. apply (Hok self m). rewrite <- Hm. exact Hself.
Qed.

Lemma read_only_deref self : read_only (Memory.deref self).
Proof. intros w. unfold Memory.deref. destruct (_ !! _); reflexivity. Qed.

Lemma read_only_get_state st : read_only (Memory.get_state st).
Proof. intros w. unfold Memory.get_state. destruct (_ !! _); reflexivity. Qed.

Lemma read_only_path_constraints self : read_only (Memory.path_constraints self).
Proof.
  unfold Memory.path_constraints.
  apply read_only_bind; [apply read_only_deref|]. intros m.
  apply read_only_bind; [apply read_only_get_state|]. intros st. apply read_only_ret.
Qed.

Lemma read_only_get_unmapped self size from_end :
  read_only (Memory.get_unmapped self size from_end).
Proof.
  unfold Memory.get_unmapped.
  apply read_only_bind; [apply read_only_deref|]. intros m. apply read_only_ret.
Qed.

Lemma read_only_split_bv {St} e i : read_only (split_bv (St := St) e i).
Proof.
  unfold split_bv. apply read_only_bind; [apply read_only_z3_Extract|]. intros hi.
  apply read_only_bind; [apply read_only_z3_Extract|]. intros lo. apply read_only_ret.
Qed.

Lemma read_only_bvv_to_long {St} e : read_only (bvv_to_long (St := St) e).
Proof.
  unfold bvv_to_long. apply read_only_bind; [apply read_only_assert|]. intros ?.
  destruct (simplify e); first [apply read_only_ret | apply read_only_raise].
Qed.

Lemma read_only_as_long {St} t : read_only (as_long (St := St) t).
Proof.
  destruct t as [[]|]; first [apply read_only_ret | apply read_only_raise].
Qed.

Lemma read_only_heuristic_find_base_loop {St} fuel fringe :
  read_only (heuristic_find_base_loop (St := St) fuel fringe).
Proof.
  revert fringe. induction fuel as [|fuel IH]; intros fringe; simpl.
  - destruct fringe; [apply read_only_ret | apply read_only_raise].
  - destruct (rev fringe) as [|el rest]; [apply read_only_ret|].
    destruct (negb (symbolic_term el)); [|apply IH].
    apply read_only_bind; [apply read_only_as_long|]. intros v.
    destruct (MIN_BASE <? v); [apply read_only_ret | apply IH].
Qed.

Lemma read_only_heuristic_unconstrained self address :
  read_only (Memory.heuristic_unconstrained self address).
Proof.
  unfold Memory.heuristic_unconstrained.
  destruct (_ && _); [|apply read_only_ret].
  apply read_only_bind; [apply read_only_path_constraints|]. intros cs.
  destruct (solver_is_unconstrained cs address); [|apply read_only_ret].
  apply read_only_bind; [apply read_only_heuristic_find_base_loop|]. intros b.
  apply read_only_ret.
Qed.

Lemma preserves_modify_state st f : preserves (Memory.modify_state st f).
Proof.
  unfold Memory.modify_state.
  apply preserves_bind; [apply preserves_read_only, read_only_get_state|].
  intros s w Hok. eapply world_ok_ext; [| |exact Hok]; reflexivity.
Qed.

Lemma preserves_add_constraints self c : preserves (Memory.add_constraints self c).
Proof.
  unfold Memory.add_constraints.
  apply preserves_bind; [apply preserves_read_only, read_only_deref|].
  intros m. apply preserves_modify_state.
Qed.

Lemma preserves_report_errored entry : preserves (Memory.report_errored entry).
Proof. intros w Hok. eapply world_ok_ext; [| |exact Hok]; reflexivity. Qed.

Lemma triple_deref (P : Memory.World -> Prop) self :
  (forall w, P w -> world_ok w) ->
  triple P (Memory.deref self)
    (fun m w => P w /\ Memory.memories w !! self = Some m).
Proof.
  intros HP w Hw. unfold Memory.deref.
  destruct (Memory.memories w !! self) eqn:E; [split; [exact Hw | exact E]|].
  apply HP. exact Hw.
Qed.

Lemma preserves_set_pages self d :
  triple (fun w => world_ok w /\ table_ok (Memory.heap w) d)
    (Memory.set_pages self d) (fun _ => world_ok).
Proof.
  intros w [Hok Hd]. unfold Memory.set_pages, bind, Memory.deref.
  destruct (Memory.memories w !! self) as [m|] eqn:E; [|exact Hok].
  apply (world_ok_set_pages w self m d Hok Hd).
Qed.

Lemma preserves_init state page_size bits :
  preserves (Memory.init state page_size bits).
Proof.
  unfold Memory.init.
  apply preserves_bind; [apply preserves_read_only, read_only_assert|]. intros ?.
  destruct (page_size <=? 0); [apply preserves_raise|].
  intros w Hok self m Hm. cbn [Memory.memories Memory.heap] in *.
  apply lookup_app_Some in Hm as [Hm|[_ Hm]]; [apply (Hok self m Hm)|].
  destruct (self - length (Memory.memories w))%nat; [|discriminate].
  injection Hm as <-. apply table_ok_nil.
Qed.

Lemma preserves_lift_new self m a init :
  triple (fun w => world_ok w /\ Memory.memories w !! self = Some m)
    (Memory.lift_heap (Page.new a (Memory.page_size m) (Memory.index_bits m) init))
    (fun r w => world_ok w /\ table_ok (Memory.heap w) (dict_set a r (Memory.pages m))).
Proof.
  intros w [Hok Hm]. unfold Memory.lift_heap, Page.new.
  assert (Hle : heap_le (Memory.heap w) (Memory.heap w ++ [fresh_page m init a]))
    by apply heap_le_app.
  split; [apply (world_ok_heap w _ Hok Hle)|].
  cbn [Memory.heap]. eapply table_ok_set.
  - eapply table_ok_le; [apply (Hok self m Hm) | exact Hle].
  - rewrite lookup_app_r by lia. rewrite Nat.sub_diag. reflexivity.
  - reflexivity.
Qed.

Lemma preserves_mmap_body self init_val a vs :
  preserves (Memory.mmap_body self init_val a vs).
Proof.
  unfold Memory.mmap_body.
  eapply triple_bind; [apply triple_deref; auto|]. intros m.
  destruct (negb (dict_mem a (Memory.pages m)));
    [|apply triple_ret; intros w H; exact (proj1 H)].
  destruct (Memory.init_index vs) as [init_index|].
  - eapply triple_bind; [apply preserves_lift_new|]. intros r.
    eapply triple_bind; [apply preserves_set_pages|]. intros ?. apply preserves_ret.
  - eapply triple_bind; [apply preserves_lift_new|]. intros r.
    eapply triple_bind; [apply preserves_set_pages|]. intros ?. apply preserves_ret.
Qed.

Lemma preserves_mmap self address size init :
  preserves (Memory.mmap self address size init).
Proof.
  unfold Memory.mmap.
  apply preserves_bind; [apply preserves_read_only, read_only_deref|]. intros m.
  apply preserves_bind; [apply preserves_read_only, read_only_assert|]. intros ?.
  apply preserves_bind; [apply preserves_read_only, read_only_assert|]. intros ?.
  apply preserves_bind; [|intros; apply preserves_ret].
  apply preserves_for_each. intros x acc. apply preserves_mmap_body.
Qed.

Lemma preserves_lift_store self m k r idx v c :
  dict_get k (Memory.pages m) = Some r ->
  triple (fun w => world_ok w /\ Memory.memories w !! self = Some m)
    (Memory.lift_heap (Page.store r idx v c))
    (fun r' w =>
       world_ok w /\ table_ok (Memory.heap w) (dict_set k r' (Memory.pages m))).
Proof.
  intros Hk w [Hok Hm]. unfold Memory.lift_heap.
  destruct (Hok self m Hm) as [Hnd Hent].
  destruct (Hent k r Hk) as (p & Hp & Haddr).
  pose proof (page_store_heap_le (Memory.heap w) r p idx v c Hp) as Hst.
  destruct (Page.store r idx v c (Memory.heap w)) as [r' h'|e h'].
  - destruct Hst as [Hle (p' & Hp' & Haddr')]. split.
    + apply (world_ok_heap w h' Hok Hle).
    + cbn [Memory.heap]. eapply table_ok_set; [|exact Hp'|congruence].
      eapply table_ok_le; [apply (Hok self m Hm) | exact Hle].
  - subst h'. eapply world_ok_ext; [| |exact Hok]; reflexivity.
Qed.

Lemma preserves__store self k idx v c : preserves (Memory._store self k idx v c).
Proof.
  unfold Memory._store.
  eapply triple_bind; [apply triple_deref; auto|]. intros m.
  destruct (dict_get k (Memory.pages m)) as [r|] eqn:Hk;
    [|apply triple_raise; intros w H; exact (proj1 H)].
  eapply triple_bind;
    [apply (triple_read_only _ _ (read_only_assert _)); intros w H; exact (proj1 H)|].
  intros ?.
  eapply triple_bind; [apply (preserves_lift_store self m k r idx v c Hk)|]. intros r'.
  apply preserves_set_pages.
Qed.

Lemma preserves_lift_load r idx :
  triple (fun w => world_ok w /\ is_Some (Memory.heap w !! r))
    (Memory.lift_heap (Page.load r idx)) (fun _ => world_ok).
Proof.
  intros w [Hok [p Hp]]. unfold Memory.lift_heap.
  pose proof (page_load_heap_le (Memory.heap w) r p idx Hp) as Hld.
  destruct (Page.load r idx (Memory.heap w)) as [b h'|e h'].
  - apply (world_ok_heap w h' Hok Hld).
  - subst h'. eapply world_ok_ext; [| |exact Hok]; reflexivity.
Qed.

Lemma preserves__load self k idx : preserves (Memory._load self k idx).
Proof.
  unfold Memory._load.
  eapply triple_bind; [apply triple_deref; auto|]. intros m.
  destruct (dict_get k (Memory.pages m)) as [r|] eqn:Hk;
    [|apply triple_raise; intros w H; exact (proj1 H)].
  eapply triple_conseq; [|apply (preserves_lift_load r idx)|auto].
  intros w [Hok Hm]. split; [exact Hok|].
  destruct (Hok self m Hm) as [_ Hent]. destruct (Hent k r Hk) as (p & Hp & _). eauto.
Qed.

Lemma preserves_simplify_page self p u : preserves (Memory.simplify_page self p u).
Proof.
  unfold Memory.simplify_page.
  eapply triple_bind; [apply triple_deref; auto|]. intros m.
  destruct (dict_get p (Memory.pages m)) as [r|] eqn:Hk;
    [|apply triple_raise; intros w H; exact (proj1 H)].
  intros w [Hok Hm]. unfold Memory.lift_heap, bind, Page.deref, Page.assign.
  destruct (Memory.heap w !! r) as [pg|] eqn:Hr.
  - apply (world_ok_heap w _ Hok). eapply heap_le_insert; [exact Hr | reflexivity].
  - eapply world_ok_ext; [| |exact Hok]; reflexivity.
Qed.

Lemma preserves_concretize self address width :
  preserves (Memory.concretize self address width).
Proof.
  unfold Memory.concretize.
  apply preserves_bind; [apply preserves_read_only, read_only_deref|]. intros m.
  apply preserves_bind; [apply preserves_read_only, read_only_get_unmapped|]. intros slot.
  apply preserves_bind; [apply preserves_mmap|]. intros ?.
  apply preserves_bind; [apply preserves_add_constraints|]. intros ?.
  apply preserves_ret.
Qed.

Lemma preserves_store_symbolic_body self pa pi value i p vs :
  preserves (Memory.store_symbolic_body self pa pi value i p vs).
Proof.
  unfold Memory.store_symbolic_body. destruct vs as [page_addresses conditions].
  apply preserves_bind; [apply preserves_read_only, read_only_path_constraints|].
  intros cs. destruct (solver_satisfiable cs _); [|apply preserves_ret].
  apply preserves_bind; [apply preserves_read_only, read_only_z3_Extract|]. intros byte.
  apply preserves_bind; [apply preserves__store|]. intros ?. apply preserves_ret.
Qed.

Lemma preserves_store_body self address value endness size i vs :
  preserves (Memory.store_body self address value endness size i vs).
Proof.
  unfold Memory.store_body. destruct vs as [page_addresses conditions].
  apply preserves_bind; [apply preserves_read_only, read_only_deref|]. intros m.
  apply preserves_bind.
  { destruct (String.eqb endness "little");
      apply preserves_read_only, read_only_split_bv. }
  intros [page_address page_index].
  apply preserves_bind.
  - destruct (negb (symbolic page_address)).
    + apply preserves_bind; [apply preserves_read_only, read_only_bvv_to_long|].
      intros pa.
      apply preserves_bind; [apply preserves_read_only, read_only_z3_Extract|].
      intros byte.
      apply preserves_bind; [apply preserves__store|]. intros ?. apply preserves_ret.
    + apply preserves_bind; [apply preserves_read_only, read_only_path_constraints|].
      intros cs. destruct (negb (solver_symbolic cs page_address)).
      * apply preserves_bind; [apply preserves_read_only, read_only_z3_Extract|].
        intros byte.
        apply preserves_bind; [apply preserves__store|]. intros ?. apply preserves_ret.
      * apply preserves_for_each. intros p vs. apply preserves_store_symbolic_body.
  - intros [pas conds].
    apply preserves_bind; [|intros; apply preserves_ret].
    destruct conds; [apply preserves_ret | apply preserves_add_constraints].
Qed.

Lemma preserves_store self address value endness :
  preserves (Memory.store self address value endness).
Proof.
  unfold Memory.store.
  apply preserves_bind; [apply preserves_read_only, read_only_deref|]. intros m.
  apply preserves_bind; [apply preserves_read_only, read_only_assert|]. intros ?.
  apply preserves_bind;
    [apply preserves_read_only, read_only_heuristic_unconstrained|]. intros fires.
  apply preserves_bind;
    [destruct fires; [apply preserves_concretize | apply preserves_ret]|].
  intros address'.
  apply preserves_bind; [apply preserves_read_only, read_only_assert|]. intros ?.
  apply preserves_bind.
  - apply preserves_for_each. intros i vs. apply preserves_store_body.
  - intros [pas conds]. apply preserves_for_each. intros p u.
    apply preserves_simplify_page.
Qed.

Lemma preserves_load_symbolic_body self pa pi p vs :
  preserves (Memory.load_symbolic_body self pa pi p vs).
Proof.
  unfold Memory.load_symbolic_body. destruct vs as [res conditions].
  apply preserves_bind; [apply preserves_read_only, read_only_path_constraints|].
  intros cs. destruct (solver_satisfiable cs _); [|apply preserves_ret].
  apply preserves_bind; [|intros; apply preserves_ret].
  destruct res as [r|].
  - apply preserves_bind; [apply preserves__load|]. intros b.
    apply preserves_bind; [apply preserves_read_only, read_only_z3_If|]. intros e.
    apply preserves_ret.
  - apply preserves_bind; [apply preserves__load|]. intros b. apply preserves_ret.
Qed.

Lemma preserves_load_body self address i vs :
  preserves (Memory.load_body self address i vs).
Proof.
  unfold Memory.load_body. destruct vs as [res conditions].
  apply preserves_bind; [apply preserves_read_only, read_only_deref|]. intros m.
  apply preserves_bind; [apply preserves_read_only, read_only_split_bv|].
  intros [page_address page_index].
  destruct (negb (symbolic page_address)).
  - apply preserves_bind; [apply preserves_read_only, read_only_bvv_to_long|].
    intros pa.
    apply preserves_bind; [apply preserves__load|]. intros b. apply preserves_ret.
  - apply preserves_bind; [apply preserves_read_only, read_only_path_constraints|].
    intros cs. destruct (negb (solver_symbolic cs page_address)).
    + apply preserves_bind; [apply preserves__load|]. intros b. apply preserves_ret.
    + apply preserves_for_each. intros p vs. apply preserves_load_symbolic_body.
Qed.

Lemma preserves_load self address size endness :
  preserves (Memory.load self address size endness).
Proof.
  unfold Memory.load.
  apply preserves_bind; [apply preserves_read_only, read_only_deref|]. intros m.
  apply preserves_bind; [apply preserves_read_only, read_only_assert|]. intros ?.
  apply preserves_bind;
    [apply preserves_read_only, read_only_heuristic_unconstrained|]. intros fires.
  apply preserves_bind;
    [destruct fires; [apply preserves_concretize | apply preserves_ret]|].
  intros address'.
  apply preserves_bind.
  - apply preserves_for_each. intros i vs. apply preserves_load_body.
  - intros [res conds]. apply preserves_bind.
    + destruct conds; [apply preserves_ret|].
      apply preserves_bind; [apply preserves_read_only, read_only_get_state|].
      intros st.
      apply preserves_bind; [apply preserves_report_errored|]. intros ?.
      apply preserves_add_constraints.
    + intros ?. destruct res as [r|]; [|apply preserves_raise].
      apply preserves_bind; [apply preserves_read_only, read_only_assert|].
      intros ?. apply preserves_ret.
Qed.

(** While [copy] runs, the table being built is a page table over the heap. *)
Lemma triple_copy_body self page_addr new_pages :
  triple (fun w => world_ok w /\ table_ok (Memory.heap w) new_pages)
    (Memory.copy_body self page_addr new_pages)
    (fun d w => world_ok w /\ table_ok (Memory.heap w) d).
Proof.
  unfold Memory.copy_body. intros w [Hok Hd]. unfold bind at 1, Memory.deref.
  destruct (Memory.memories w !! self) as [m|] eqn:Hm; [|exact Hok].
  destruct (dict_get page_addr (Memory.pages m)) as [r|] eqn:Hk; [|exact Hok].
  destruct (Hok self m Hm) as [_ Hent].
  destruct (Hent page_addr r Hk) as (p & Hp & Haddr).
  unfold bind, Memory.lift_heap. rewrite (page_copy_Ok _ r p Hp). unfold ret.
  assert (Hle : heap_le (Memory.heap w) (<[r := Page.set_lazycopy true p]> (Memory.heap w))).
  { eapply heap_le_insert; [exact Hp | reflexivity]. }
  split; [apply (world_ok_heap w _ Hok Hle)|].
  cbn [with_heap Memory.heap]. eapply table_ok_set.
  - eapply table_ok_le; [exact Hd | exact Hle].
  - apply list_lookup_insert_eq. eapply lookup_lt_Some; exact Hp.
  - exact Haddr.
Qed.

Lemma preserves_copy self state : preserves (Memory.copy self state).
Proof.
  unfold Memory.copy.
  apply preserves_bind; [apply preserves_read_only, read_only_deref|]. intros m.
  apply preserves_bind; [apply preserves_init|]. intros new_memory.
  eapply triple_bind.
  - eapply triple_conseq;
      [|apply (triple_for_each
                 (fun d w => world_ok w /\ table_ok (Memory.heap w) d)
                 (Memory.copy_body self) (dict_keys (Memory.pages m)));
        intros x acc; apply triple_copy_body
       |intros a w H; exact H].
    intros w Hok. split; [exact Hok | apply table_ok_nil].
  - intros new_pages.
    eapply triple_bind; [apply preserves_set_pages|]. intros ?. apply preserves_ret.
Qed.

Lemma preserves_run_op (o : op) : preserves (run_op o).
Proof.
  destruct o; simpl.
  - apply preserves_bind; [apply preserves_init | intros; apply preserves_ret].
  - apply preserves_mmap.
  - apply preserves_store.
  - apply preserves_bind; [apply preserves_load | intros; apply preserves_ret].
  - apply preserves_bind;
      [apply preserves_read_only, read_only_get_unmapped | intros; apply preserves_ret].
  - apply preserves_bind; [apply preserves_copy | intros; apply preserves_ret].
Qed.

Lemma world_ok_run (ops : list op) (w : Memory.World) :
  world_ok w -> world_ok (run ops w).
Proof.
  revert w. induction ops as [|o ops IH]; intros w Hok; [exact Hok|].
  simpl. apply IH. unfold world_after.
  pose proof (preserves_run_op o w Hok) as H.
  destruct (run_op o w); exact H.
Qed.
End Preservation.

(** ** The page table after any run *)

Section PageTable.
Context {B : MemoryObj} {S : Z3Simplifier} {V : Solver} {O : Options}.
Context {PM : PyMath}.

(** C5 (as the code has it).  After any sequence of memory operations,
    returning or raising, started where no memory exists yet, every page
    table has distinct keys and every entry designates a [Page] object whose
    [addr] is the entry's key.  The keys are page slot numbers, the byte
    address divided by the page size: nothing makes them multiples of the
    page size. *)
Theorem page_addr_equals_key
    (ops : list op) (sts : list State.t) (self : nat) (m : Memory.t) :
  Memory.memories (run ops (initial_world sts)) !! self = Some m ->
  NoDup (dict_keys (Memory.pages m)) /\
  forall k r, dict_get k (Memory.pages m) = Some r ->
    exists p, Memory.heap (run ops (initial_world sts)) !! r = Some p /\
              Page.addr p = k.
Proof.
  intros Hm.
  assert (Hok : world_ok (run ops (initial_world sts))).
  { apply world_ok_run. intros self' m' H. discriminate. }
  exact (Hok self m Hm).
Qed.
End PageTable.

(** Mapping the four bytes at address 4 with pages of four bytes creates
    the key 1, which is not a multiple of the page size. *)
Lemma page_table_key_not_multiple_of_page_size :
  exists m r,
    Memory.memories
      (run (B := log_store) (S := fold_simplifier) (V := enum_solver)
         (O := heuristic_on) (PM := cpython_math) [New 0 4 8; Mmap 0 4 4 None] (initial_world []))
      !! 0%nat = Some m /\
    Memory.page_size m = 4 /\
    dict_get 1 (Memory.pages m) = Some r /\
    1 mod Memory.page_size m <> 0.
Proof.
  eexists. eexists. split; [reflexivity|]. split; [reflexivity|].
  split; [reflexivity|]. discriminate.
Qed.

Lemma page_addr_equals_key_witness :
  exists m,
    Memory.memories
      (run (B := log_store) (S := fold_simplifier) (V := enum_solver)
         (O := heuristic_on) (PM := cpython_math) [New 0 4 8; Mmap 0 4 4 None] (initial_world []))
      !! 0%nat = Some m /\
    NoDup (dict_keys (Memory.pages m)) /\
    forall k r, dict_get k (Memory.pages m) = Some r ->
      exists p,
        Memory.heap
          (run (B := log_store) (S := fold_simplifier) (V := enum_solver)
             (O := heuristic_on) (PM := cpython_math) [New 0 4 8; Mmap 0 4 4 None] (initial_world []))
          !! r = Some p /\
        Page.addr p = k.
Proof.
  eexists. split; [reflexivity|].
  apply (page_addr_equals_key (B := log_store) (S := fold_simplifier)
           (V := enum_solver) (O := heuristic_on) (PM := cpython_math)
           [New 0 4 8; Mmap 0 4 4 None] [] 0%nat _ eq_refl).
Defined.

(** ** The fields set by the constructor

    [page_size] and [index_bits] are assigned by [Memory.__init__] only:
    every memory object of a world reached by the operations is as the
    constructor built it. *)

Section Constructed.
Context {B : MemoryObj} {S : Z3Simplifier} {V : Solver} {O : Options}.
Context {PM : PyMath}.

Lemma keeps_bind {A C} (c : M Memory.World A) (k : A -> M Memory.World C) :
  keeps c -> (forall a, keeps (k a)) -> keeps (bind c k).
Proof.
  intros Hc Hk w Hw. unfold bind. specialize (Hc w Hw).
  destruct (c w) as [a w1|e w1]; [apply Hk; exact Hc | exact Hc].
Qed.

Lemma keeps_ret {A} (a : A) : keeps (ret a).
Proof. intros w Hw. exact Hw. Qed.

Lemma keeps_raise {A} e : keeps (raise (A := A) e).
Proof. intros w Hw. exact Hw. Qed.

Lemma keeps_read_only {A} (c : M Memory.World A) : read_only c -> keeps c.
Proof.
  intros Hr w Hw. specialize (Hr w). destruct (c w); subst; exact Hw.
Qed.

Lemma keeps_for_each {A X} (body : X -> A -> M Memory.World A) xs :
  (forall x acc, keeps (body x acc)) -> forall acc, keeps (for_each xs body acc).
Proof.
  intros H. induction xs as [|x xs IH]; intros acc; cbn [for_each].
  - apply keeps_ret.
  - apply keeps_bind; [apply H | exact IH].
Qed.

Lemma keeps_lift_heap {A} (c : M Page.heap A) : keeps (Memory.lift_heap c).
Proof.
  intros w Hw. unfold Memory.lift_heap. destruct (c (Memory.heap w)); exact Hw.
Qed.

Lemma keeps_set_pages self d : keeps (Memory.set_pages self d).
Proof.
  intros w Hw. unfold Memory.set_pages, bind, Memory.deref.
  destruct (Memory.memories w !! self) as [m|] eqn:Hm; [|exact Hw].
  intros i mi Hi. cbn [Memory.memories] in Hi.
  destruct (decide (i = self)) as [->|Hne].
  - rewrite list_lookup_insert_eq in Hi by (eapply lookup_lt_Some; exact Hm).
    injection Hi as <-. exact (Hw self m Hm).
  - rewrite list_lookup_insert_ne in Hi by congruence. exact (Hw i mi Hi).
Qed.

Lemma keeps_init state page_size bits : keeps (Memory.init state page_size bits).
Proof.
  intros w Hw. unfold Memory.init, bind, assert.
  destruct (Z.eqb_spec (Z.land page_size (page_size - 1)) 0) as [Hpow|_];
    [|exact Hw].
  cbn [ret]. destruct (Z.leb_spec page_size 0) as [_|Hps]; [exact Hw|].
  intros i mi Hi. cbn [Memory.memories] in Hi.
  apply lookup_app_Some in Hi as [Hi|[_ Hi]]; [exact (Hw i mi Hi)|].
  destruct (i - length (Memory.memories w))%nat; [|discriminate].
  injection Hi as <-. split; [exact Hps|]. split; [exact Hpow | reflexivity].
Qed.

Lemma keeps_modify_state st f : keeps (Memory.modify_state st f).
Proof.
  intros w Hw. unfold Memory.modify_state, bind, Memory.get_state.
  destruct (Memory.states w !! st); exact Hw.
Qed.

Lemma keeps_add_constraints self c : keeps (Memory.add_constraints self c).
Proof.
  unfold Memory.add_constraints.
  apply keeps_bind; [apply keeps_read_only, read_only_deref|].
  intros m. apply keeps_modify_state.
Qed.

Lemma keeps_report_errored entry : keeps (Memory.report_errored entry).
Proof. intros w Hw. exact Hw. Qed.

Lemma keeps_mmap self address size init : keeps (Memory.mmap self address size init).
Proof.
  unfold Memory.mmap.
  apply keeps_bind; [apply keeps_read_only, read_only_deref|]. intros m.
  apply keeps_bind; [apply keeps_read_only, read_only_assert|]. intros ?.
  apply keeps_bind; [apply keeps_read_only, read_only_assert|]. intros ?.
  apply keeps_bind; [|intros; apply keeps_ret].
  apply keeps_for_each. intros slot vs. unfold Memory.mmap_body.
  apply keeps_bind; [apply keeps_read_only, read_only_deref|]. intros m'.
  destruct (negb (dict_mem slot (Memory.pages m'))); [|apply keeps_ret].
  destruct (Memory.init_index vs);
    (apply keeps_bind; [apply keeps_lift_heap|]; intros r;
     apply keeps_bind; [apply keeps_set_pages|]; intros ?; apply keeps_ret).
Qed.

Lemma keeps__store self k idx v c : keeps (Memory._store self k idx v c).
Proof.
  unfold Memory._store.
  apply keeps_bind; [apply keeps_read_only, read_only_deref|]. intros m.
  destruct (dict_get k (Memory.pages m)); [|apply keeps_raise].
  apply keeps_bind; [apply keeps_read_only, read_only_assert|]. intros ?.
  apply keeps_bind; [apply keeps_lift_heap|]. intros r'. apply keeps_set_pages.
Qed.

Lemma keeps__load self k idx : keeps (Memory._load self k idx).
Proof.
  unfold Memory._load.
  apply keeps_bind; [apply keeps_read_only, read_only_deref|]. intros m.
  destruct (dict_get k (Memory.pages m)); [apply keeps_lift_heap | apply keeps_raise].
Qed.

Lemma keeps_concretize self address width :
  keeps (Memory.concretize self address width).
Proof.
  unfold Memory.concretize.
  apply keeps_bind; [apply keeps_read_only, read_only_deref|]. intros m.
  apply keeps_bind; [apply keeps_read_only, read_only_get_unmapped|]. intros slot.
  apply keeps_bind; [apply keeps_mmap|]. intros ?.
  apply keeps_bind; [apply keeps_add_constraints|]. intros ?. apply keeps_ret.
Qed.

Lemma keeps_store_body self address value endness size i vs :
  keeps (Memory.store_body self address value endness size i vs).
Proof.
  unfold Memory.store_body. destruct vs as [page_addresses conditions].
  apply keeps_bind; [apply keeps_read_only, read_only_deref|]. intros m.
  apply keeps_bind.
  { destruct (String.eqb endness "little"); apply keeps_read_only, read_only_split_bv. }
  intros [page_address page_index].
  apply keeps_bind.
  - destruct (negb (symbolic page_address)).
    + apply keeps_bind; [apply keeps_read_only, read_only_bvv_to_long|]. intros pa.
      apply keeps_bind; [apply keeps_read_only, read_only_z3_Extract|]. intros byte.
      apply keeps_bind; [apply keeps__store|]. intros ?. apply keeps_ret.
    + apply keeps_bind; [apply keeps_read_only, read_only_path_constraints|].
      intros cs. destruct (negb (solver_symbolic cs page_address)).
      * apply keeps_bind; [apply keeps_read_only, read_only_z3_Extract|]. intros byte.
        apply keeps_bind; [apply keeps__store|]. intros ?. apply keeps_ret.
      * apply keeps_for_each. intros p [pas conds]. unfold Memory.store_symbolic_body.
        apply keeps_bind; [apply keeps_read_only, read_only_path_constraints|].
        intros cs'. destruct (solver_satisfiable cs' _); [|apply keeps_ret].
        apply keeps_bind; [apply keeps_read_only, read_only_z3_Extract|]. intros byte.
        apply keeps_bind; [apply keeps__store|]. intros ?. apply keeps_ret.
  - intros [pas conds].
    apply keeps_bind; [|intros; apply keeps_ret].
    destruct conds; [apply keeps_ret | apply keeps_add_constraints].
Qed.

Lemma keeps_store self address value endness :
  keeps (Memory.store self address value endness).
Proof.
  unfold Memory.store.
  apply keeps_bind; [apply keeps_read_only, read_only_deref|]. intros m.
  apply keeps_bind; [apply keeps_read_only, read_only_assert|]. intros ?.
  apply keeps_bind; [apply keeps_read_only, read_only_heuristic_unconstrained|].
  intros fires.
  apply keeps_bind; [destruct fires; [apply keeps_concretize | apply keeps_ret]|].
  intros address'.
  apply keeps_bind; [apply keeps_read_only, read_only_assert|]. intros ?.
  apply keeps_bind.
  - apply keeps_for_each. intros i vs. apply keeps_store_body.
  - intros [pas conds]. apply keeps_for_each. intros p u.
    unfold Memory.simplify_page.
    apply keeps_bind; [apply keeps_read_only, read_only_deref|]. intros m'.
    destruct (dict_get p (Memory.pages m')); [apply keeps_lift_heap | apply keeps_raise].
Qed.

Lemma keeps_load_body self address i vs : keeps (Memory.load_body self address i vs).
Proof.
  unfold Memory.load_body. destruct vs as [res conditions].
  apply keeps_bind; [apply keeps_read_only, read_only_deref|]. intros m.
  apply keeps_bind; [apply keeps_read_only, read_only_split_bv|].
  intros [page_address page_index].
  destruct (negb (symbolic page_address)).
  - apply keeps_bind; [apply keeps_read_only, read_only_bvv_to_long|]. intros pa.
    apply keeps_bind; [apply keeps__load|]. intros b. apply keeps_ret.
  - apply keeps_bind; [apply keeps_read_only, read_only_path_constraints|].
    intros cs. destruct (negb (solver_symbolic cs page_address)).
    + apply keeps_bind; [apply keeps__load|]. intros b. apply keeps_ret.
    + apply keeps_for_each. intros p [r conds]. unfold Memory.load_symbolic_body.
      apply keeps_bind; [apply keeps_read_only, read_only_path_constraints|].
      intros cs'. destruct (solver_satisfiable cs' _); [|apply keeps_ret].
      apply keeps_bind; [|intros; apply keeps_ret].
      destruct r as [r|].
      * apply keeps_bind; [apply keeps__load|]. intros b.
        apply keeps_bind; [apply keeps_read_only, read_only_z3_If|]. intros e.
        apply keeps_ret.
      * apply keeps_bind; [apply keeps__load|]. intros b. apply keeps_ret.
Qed.

Lemma keeps_load self address size endness :
  keeps (Memory.load self address size endness).
Proof.
  unfold Memory.load.
  apply keeps_bind; [apply keeps_read_only, read_only_deref|]. intros m.
  apply keeps_bind; [apply keeps_read_only, read_only_assert|]. intros ?.
  apply keeps_bind; [apply keeps_read_only, read_only_heuristic_unconstrained|].
  intros fires.
  apply keeps_bind; [destruct fires; [apply keeps_concretize | apply keeps_ret]|].
  intros address'.
  apply keeps_bind.
  - apply keeps_for_each. intros i vs. apply keeps_load_body.
  - intros [res conds]. apply keeps_bind.
    + destruct conds; [apply keeps_ret|].
      apply keeps_bind; [apply keeps_read_only, read_only_get_state|]. intros st.
      apply keeps_bind; [apply keeps_report_errored|]. intros ?.
      apply keeps_add_constraints.
    + intros ?. destruct res as [r|]; [|apply keeps_raise].
      apply keeps_bind; [apply keeps_read_only, read_only_assert|].
      intros ?. apply keeps_ret.
Qed.

Lemma keeps_copy self state : keeps (Memory.copy self state).
Proof.
  unfold Memory.copy.
  apply keeps_bind; [apply keeps_read_only, read_only_deref|]. intros m.
  apply keeps_bind; [apply keeps_init|]. intros new_memory.
  apply keeps_bind.
  - apply keeps_for_each. intros k d. unfold Memory.copy_body.
    apply keeps_bind; [apply keeps_read_only, read_only_deref|]. intros m'.
    destruct (dict_get k (Memory.pages m')); [|apply keeps_raise].
    apply keeps_bind; [apply keeps_lift_heap|]. intros r'. apply keeps_ret.
  - intros new_pages.
    apply keeps_bind; [apply keeps_set_pages|]. intros ?. apply keeps_ret.
Qed.

Lemma keeps_run_op (o : op) : keeps (run_op o).
Proof.
  destruct o; simpl.
  - apply keeps_bind; [apply keeps_init | intros; apply keeps_ret].
  - apply keeps_mmap.
  - apply keeps_store.
  - apply keeps_bind; [apply keeps_load | intros; apply keeps_ret].
  - apply keeps_bind;
      [apply keeps_read_only, read_only_get_unmapped | intros; apply keeps_ret].
  - apply keeps_bind; [apply keeps_copy | intros; apply keeps_ret].
Qed.

(** Every memory object of a world reached by a run of operations, started
    where no memory exists yet, is as the constructor built it. *)
Lemma run_constructed (ops : list op) (sts : list State.t) (self : nat)
    (m : Memory.t) :
  Memory.memories (run ops (initial_world sts)) !! self = Some m ->
  constructed m.
Proof.
  assert (H : forall w, all_constructed w -> all_constructed (run ops w)).
  { induction ops as [|o ops IH]; intros w Hw; [exact Hw|].
    simpl. apply IH. unfold world_after.
    pose proof (keeps_run_op o w Hw) as Ho. destruct (run_op o w); exact Ho. }
  apply (H (initial_world sts)). intros self' m' Hm'. discriminate.
Qed.
End Constructed.

(** ** [copy] *)

Section Copy.
Context {B : MemoryObj} {PM : PyMath}.

Lemma insert_as_alter {A} (f : A -> A) (l : list A) i x :
  l !! i = Some x -> <[i := f x]> l = alter f i l.
Proof.
  intros H. apply list_eq. intros j. destruct (decide (i = j)) as [->|Hne].
  - rewrite list_lookup_insert_eq by (eapply lookup_lt_Some; exact H).
    rewrite list_lookup_alter_eq, H. reflexivity.
  - rewrite list_lookup_insert_ne, list_lookup_alter_ne by exact Hne. reflexivity.
Qed.

Lemma lookup_mark_all (refs : list nat) (h : Page.heap) r :
  mark_all refs h !! r =
  (if bool_decide (r ∈ refs) then Page.set_lazycopy true else id) <$> h !! r.
Proof.
  unfold mark_all. revert h. induction refs as [|r0 refs IH]; intros h; cbn [foldl].
  - rewrite bool_decide_eq_false_2 by (intros H; inversion H).
    destruct (h !! r); reflexivity.
  - rewrite IH. destruct (decide (r0 = r)) as [->|Hne].
    + rewrite list_lookup_alter_eq.
      rewrite (bool_decide_eq_true_2 (r ∈ r :: refs)) by left.
      destruct (h !! r); [|reflexivity]. cbn [fmap option_fmap option_map].
      destruct (bool_decide (r ∈ refs)); reflexivity.
    + rewrite list_lookup_alter_ne by exact Hne.
      assert (Hiff : r ∈ r0 :: refs <-> r ∈ refs).
      { rewrite elem_of_cons. split; [intros [|]; [congruence | assumption] | auto]. }
      rewrite (bool_decide_ext _ _ Hiff). reflexivity.
Qed.

Lemma length_mark_all (refs : list nat) (h : Page.heap) :
  length (mark_all refs h) = length h.
Proof.
  unfold mark_all. revert h. induction refs as [|r0 refs IH]; intros h; simpl;
    [reflexivity|]. rewrite IH. apply length_alter.
Qed.

Lemma copy_loop (self : nat) (m : Memory.t) (d2 : list (Z * nat)) :
  forall (d1 : list (Z * nat)) (w : Memory.World),
    Memory.memories w !! self = Some m ->
    Memory.pages m = d1 ++ d2 ->
    NoDup (dict_keys (Memory.pages m)) ->
    (forall k r, dict_get k (Memory.pages m) = Some r ->
       is_Some (Memory.heap w !! r)) ->
    for_each (dict_keys d2) (Memory.copy_body self) d1 w
    = Ok (d1 ++ d2) (with_heap (mark_all (d2.*2) (Memory.heap w)) w).
Proof.
  induction d2 as [|[k r] d2 IH]; intros d1 w Hm Hpages Hnd Hvalid.
  - simpl. unfold ret. rewrite app_nil_r, with_heap_id. reflexivity.
  - cbn [dict_keys fmap list_fmap fst snd for_each].
    assert (Hfresh : dict_mem k d1 = false).
    { destruct (dict_mem k d1) eqn:E; [|reflexivity].
      apply dict_mem_keys in E. rewrite Hpages in Hnd.
      unfold dict_keys in Hnd. rewrite fmap_app in Hnd.
      apply NoDup_app in Hnd as (_ & Hdisj & _).
      exfalso. apply (Hdisj k E). left. }
    assert (Hk : dict_get k (Memory.pages m) = Some r).
    { rewrite Hpages, dict_get_app.
      unfold dict_mem in Hfresh. destruct (dict_get k d1); [discriminate|].
      simpl. rewrite Z.eqb_refl. reflexivity. }
    destruct (Hvalid k r Hk) as [p Hp].
    assert (Hstep : Memory.copy_body self k d1 w =
                    Ok (d1 ++ [(k, r)])
                       (with_heap (alter (Page.set_lazycopy true) r (Memory.heap w)) w)).
    { unfold Memory.copy_body. mstep (deref_Ok w self m Hm). rewrite Hk.
      erewrite bind_Ok; [|apply lift_heap_Ok; apply (page_copy_Ok _ r p Hp)].
      unfold ret. rewrite (dict_set_fresh _ _ _ Hfresh).
      rewrite (insert_as_alter (Page.set_lazycopy true) _ _ _ Hp). reflexivity. }
    mstep Hstep.
    rewrite (IH (d1 ++ [(k, r)])); cbn [with_heap Memory.memories Memory.heap].
    + rewrite <- app_assoc. reflexivity.
    + exact Hm.
    + rewrite <- app_assoc. exact Hpages.
    + exact Hnd.
    + intros k' r' Hk'. destruct (Hvalid k' r' Hk') as [p' Hp'].
      destruct (decide (r = r')) as [->|Hne].
      * rewrite list_lookup_alter_eq, Hp'. eauto.
      * rewrite list_lookup_alter_ne by exact Hne. eauto.
Qed.

(** The world that [copy] produces: one more memory object, with the page
    table of [m], and every page of that table marked. *)
Lemma copy_Ok (w : Memory.World) (self : nat) (m : Memory.t) (state : nat) :
  Memory.memories w !! self = Some m ->
  table_ok (Memory.heap w) (Memory.pages m) ->
  0 < Memory.page_size m ->
  Z.land (Memory.page_size m) (Memory.page_size m - 1) = 0 ->
  Memory.copy self state w =
  Ok (length (Memory.memories w))
     (with_memories (Memory.memories w ++ [copy_of m state])
        (with_heap (mark_all ((Memory.pages m).*2) (Memory.heap w)) w)).
Proof.
  intros Hm [Hnd Hent] Hps Hpow. unfold Memory.copy.
  mstep (deref_Ok w self m Hm).
  unfold Memory.init, assert. rewrite Hpow. cbn [Z.eqb].
  unfold bind at 2. unfold ret at 1.
  replace (Memory.page_size m <=? 0) with false by (symmetry; lia).
  unfold bind at 1.
  set (new0 := {| Memory.bits := Memory.bits m; Memory.state := state;
                  Memory.pages := [] |}).
  set (w1 := {| Memory.heap := Memory.heap w;
                Memory.memories := Memory.memories w ++ [new0] |}).
  assert (Hm1 : Memory.memories w1 !! self = Some m).
  { subst w1. cbn [Memory.memories]. apply lookup_app_l_Some. exact Hm. }
  erewrite bind_Ok;
    [|apply (copy_loop self m (Memory.pages m) [] w1 Hm1 eq_refl Hnd);
      intros k r Hk; destruct (Hent k r Hk) as (p & Hp & _); eauto].
  cbn [app].
  erewrite bind_Ok;
    [|apply (set_pages_Ok _ (length (Memory.memories w)) new0);
      cbn [with_heap Memory.memories w1];
      rewrite lookup_app_r by lia; rewrite Nat.sub_diag; reflexivity].
  unfold ret. f_equal. subst w1. unfold with_memories, with_heap.
  cbn [Memory.heap Memory.memories Memory.states Memory.errored].
  f_equal. rewrite insert_app_r_alt by lia. rewrite Nat.sub_diag. reflexivity.
Qed.

(** C6 (as the code has it).  [copy] builds a new [Memory] object with a
    page table of its own; the table has the entries of [M]'s table, so each
    slot designates the very [Page] object that [M]'s table designates, and
    every one of these pages is now marked [_lazycopy].  No [Page] object is
    created by [copy]. *)
Theorem copy_shares_page_objects
    (w : Memory.World) (self : nat) (m : Memory.t) (state : nat) :
  Memory.memories w !! self = Some m ->
  table_ok (Memory.heap w) (Memory.pages m) ->
  0 < Memory.page_size m ->
  Z.land (Memory.page_size m) (Memory.page_size m - 1) = 0 ->
  exists w' m2,
    Memory.copy self state w = Ok (length (Memory.memories w)) w' /\
    length (Memory.memories w) <> self /\
    Memory.memories w' !! self = Some m /\
    Memory.memories w' !! length (Memory.memories w) = Some m2 /\
    Memory.pages m2 = Memory.pages m /\
    length (Memory.heap w') = length (Memory.heap w) /\
    forall k r, dict_get k (Memory.pages m) = Some r ->
      dict_get k (Memory.pages m2) = Some r /\
      exists p, Memory.heap w !! r = Some p /\
                Memory.heap w' !! r = Some (Page.set_lazycopy true p).
Proof.
  intros Hm Hok Hps Hpow. eexists. exists (copy_of m state).
  split; [apply (copy_Ok w self m state Hm Hok Hps Hpow)|].
  cbn [with_memories with_heap Memory.memories Memory.heap].
  split; [apply lookup_lt_Some in Hm; lia|].
  split; [apply lookup_app_l_Some; exact Hm|].
  split; [rewrite lookup_app_r by lia; rewrite Nat.sub_diag; reflexivity|].
  split; [reflexivity|]. split; [apply length_mark_all|].
  intros k r Hk. split; [exact Hk|].
  destruct Hok as [_ Hent]. destruct (Hent k r Hk) as (p & Hp & _).
  exists p. split; [exact Hp|].
  rewrite lookup_mark_all, Hp. rewrite bool_decide_eq_true_2; [reflexivity|].
  apply list_elem_of_fmap. exists (k, r). split; [reflexivity|].
  clear -Hk. induction (Memory.pages m) as [|[k0 r0] d IH]; [discriminate|].
  simpl in Hk. destruct (k0 =? k) eqn:E.
  - apply Z.eqb_eq in E as ->. injection Hk as ->. left.
  - right. apply IH. exact Hk.
Qed.
End Copy.

(** After [copy] on a memory with one page, slot 1 designates the same page
    object (reference 0) in the source and in the copy. *)
Lemma copy_entry_is_the_same_page_object :
  exists w' m m2 r,
    Memory.copy (B := log_store) (PM := cpython_math) 0%nat 0%nat remap_world = Ok 1%nat w' /\
    Memory.memories w' !! 0%nat = Some m /\
    Memory.memories w' !! 1%nat = Some m2 /\
    dict_get 1 (Memory.pages m) = Some r /\
    dict_get 1 (Memory.pages m2) = Some r /\
    length (Memory.heap w') = 1%nat.
Proof.
  do 4 eexists. split; [reflexivity|]. split; [reflexivity|].
  split; [reflexivity|]. split; [reflexivity|]. split; reflexivity.
Qed.

Lemma remap_world_table_ok :
  table_ok (B := log_store) (Memory.heap remap_world) [(1, 0%nat)].
Proof.
  split.
  - apply NoDup_singleton.
  - intros k r H. cbn [dict_get] in H. destruct (1 =? k) eqn:E; [|discriminate].
    apply Z.eqb_eq in E as <-. injection H as <-. eexists. split; reflexivity.
Qed.

Lemma copy_shares_page_objects_witness :
  exists w' m2,
    Memory.copy (B := log_store) (PM := cpython_math) 0%nat 0%nat remap_world = Ok 1%nat w' /\
    Memory.memories w' !! 1%nat = Some m2 /\
    Memory.pages m2 = [(1, 0%nat)].
Proof.
  destruct (copy_shares_page_objects (B := log_store) (PM := cpython_math) remap_world 0%nat _ 0%nat
              eq_refl remap_world_table_ok eq_refl eq_refl)
    as (w' & m2 & Hcopy & _ & _ & Hm2 & Hpages & _).
  exists w', m2. split; [exact Hcopy|]. split; [exact Hm2 | exact Hpages].
Defined.

(** ** Denotations *)

Lemma eval_range (rho : env) (e : bv) :
  0 <= bv_size e -> 0 <= eval rho e < 2 ^ bv_size e.
Proof.
  intros Hs. assert (Hpos : forall s, 0 <= s -> 0 < 2 ^ s)
    by (intros; apply Z.pow_pos_nonneg; lia).
  destruct e; cbn [eval bv_size] in *; apply Z.mod_pos_bound; apply Hpos; exact Hs.
Qed.

Lemma ground_eval_both (rho rho' : env) :
  (forall e, ground e = true -> eval rho e = eval rho' e) /\
  (forall c, bground c = true -> beval rho c = beval rho' c).
Proof.
  apply bv_bexpr_ind; cbn [ground bground eval beval]; intros;
    repeat match goal with
           | H : _ && _ = true |- _ => apply andb_true_iff in H as [? ?]
           end;
    try discriminate; try reflexivity;
    repeat match goal with
           | IH : ground ?e = true -> _, H : ground ?e = true |- _ =>
               rewrite (IH H); clear IH
           | IH : bground ?e = true -> _, H : bground ?e = true |- _ =>
               rewrite (IH H); clear IH
           end; reflexivity.
Qed.

Lemma ground_eval (rho rho' : env) (e : bv) :
  ground e = true -> eval rho e = eval rho' e.
Proof. apply ground_eval_both. Qed.

Lemma bground_beval (rho rho' : env) (c : bexpr) :
  bground c = true -> beval rho c = beval rho' c.
Proof. apply ground_eval_both. Qed.

(** The example simplifier and the example byte store meet their laws. *)
Lemma fold_simplifier_laws : Z3SimplifierLaws fold_simplifier.
Proof.
  split; cbn [simplify simplify_bool fold_simplifier]; unfold fold_bv, fold_bexpr.
  - intros rho e. destruct (ground e) eqn:E; [|reflexivity].
    cbn [eval]. rewrite (ground_eval rho (fun _ => 0) e E).
    destruct (Z.le_gt_cases 0 (bv_size e)) as [Hs|Hs].
    + apply Z.mod_small. apply eval_range. exact Hs.
    + rewrite Z.pow_neg_r by lia. apply Z.mod_0_r.
  - intros e. destruct (ground e); reflexivity.
  - intros e ->. reflexivity.
  - intros rho c. destruct (bground c) eqn:E; [|reflexivity].
    rewrite (bground_beval rho (fun _ => 0) c E).
    destruct (beval (fun _ => 0) c); reflexivity.
Qed.

Lemma log_load_size (m : list (bv * bv)) (i : bv) : bv_size (log_load m i) = 8.
Proof.
  induction m as [|[j v] m IH]; cbn [log_load]; [reflexivity|].
  destruct (bv_size v =? 8) eqn:E; [|exact IH]. cbn [bv_size]. lia.
Qed.

Lemma log_load_denote (rho : env) (m : list (bv * bv)) (i : bv) :
  eval rho (log_load m i) = log_denote rho m (eval rho i).
Proof.
  induction m as [|[j v] m IH]; cbn [log_load log_denote]; [reflexivity|].
  destruct (bv_size v =? 8) eqn:E; cbn [andb]; [|exact IH].
  apply Z.eqb_eq in E. cbn [eval beval]. rewrite E.
  destruct (eval rho i =? eval rho j).
  - apply Z.mod_small. rewrite <- E. apply eval_range. lia.
  - rewrite IH. apply Z.mod_small. rewrite <- IH, <- (log_load_size m i).
    apply eval_range. rewrite log_load_size. lia.
Qed.

Lemma log_store_laws : MemoryObjLaws log_store.
Proof.
  split; cbn [mo_load mo_store mo_copy mo_simplify mo_denote log_store].
  - apply log_load_denote.
  - apply log_load_size.
  - intros rho m i v off Hv. cbn [log_denote]. rewrite Hv. reflexivity.
  - reflexivity.
  - reflexivity.
Qed.

(** ** The content of pages *)

Section PageContent.
Context {B : MemoryObj} {BL : MemoryObjLaws B}.

Lemma lazy_init_loop_denote_ext (rho : env) start (val : list Z) :
  forall i (m1 m2 : mo_t),
    (forall off, mo_denote rho m1 off = mo_denote rho m2 off) ->
    forall off,
      mo_denote rho (Page.lazy_init_loop start i val m1) off =
      mo_denote rho (Page.lazy_init_loop start i val m2) off.
Proof using BL.
  induction val as [|b val IH]; intros i m1 m2 Hext off; cbn [Page.lazy_init_loop].
  - apply Hext.
  - apply IH. intros off'. rewrite !mo_store_denote by reflexivity.
    rewrite Hext. reflexivity.
Qed.

Lemma content_materialized (rho : env) (p : Page.t mo_t) off :
  Page.content rho (Page.materialized p) off = Page.content rho p off.
Proof. unfold Page.content. rewrite materialized_idem. reflexivity. Qed.

Lemma content_set_lazycopy (rho : env) b (p : Page.t mo_t) off :
  Page.content rho (Page.set_lazycopy b p) off = Page.content rho p off.
Proof.
  unfold Page.content, Page.materialized, Page.set_lazycopy.
  cbn [Page._init Page.mo Page.bits]. destruct (Page._init p); reflexivity.
Qed.

Lemma content_stored (rho : env) (p : Page.t mo_t) idx v off :
  bv_size v = 8 ->
  Page.content rho
    (Page.set_mo (mo_store (Page.mo (Page.materialized p)) idx v)
                 (Page.materialized p)) off =
  if off =? eval rho idx then eval rho v else Page.content rho p off.
Proof using BL.
  intros Hv. unfold Page.content at 1.
  rewrite materialized_no_init by (cbn [Page.set_mo Page._init]; apply materialized_init).
  cbn [Page.set_mo Page.mo]. rewrite mo_store_denote by exact Hv. reflexivity.
Qed.

Lemma content_cow_page (rho : env) (p : Page.t mo_t) idx v off :
  bv_size v = 8 ->
  Page.content rho (cow_page p idx v) off =
  if off =? eval rho idx then eval rho v else Page.content rho p off.
Proof using BL.
  intros Hv. unfold Page.content at 1.
  rewrite materialized_no_init by reflexivity.
  cbn [cow_page Page.mo]. rewrite mo_store_denote by exact Hv.
  rewrite mo_copy_denote. reflexivity.
Qed.

Lemma content_simplified (rho : env) (p : Page.t mo_t) off :
  Page.content rho (Page.set_mo (mo_simplify (Page.mo p)) p) off =
  Page.content rho p off.
Proof using BL.
  unfold Page.content, Page.materialized, Page.set_mo.
  cbn [Page._init Page.mo Page.bits]. destruct (Page._init p) as [init|].
  - cbn [Page.set_init Page.set_mo Page.mo].
    apply lazy_init_loop_denote_ext. intros off'. apply mo_simplify_denote.
  - cbn [Page.mo]. apply mo_simplify_denote.
Qed.

Lemma init_fits_materialized (p : Page.t mo_t) :
  Page.init_fits (Page.materialized p) = true.
Proof. apply init_fits_no_init, materialized_init. Qed.

Lemma same_page_refl (p : Page.t mo_t) : same_page p p.
Proof. repeat split; auto. Qed.

Lemma same_page_materialized (p : Page.t mo_t) :
  same_page p (Page.materialized p).
Proof.
  split; [apply materialized_addr|]. split; [apply materialized_lazycopy|].
  split; [intros _; apply init_fits_materialized|].
  intros rho off. apply content_materialized.
Qed.

Lemma same_page_simplified (p : Page.t mo_t) :
  same_page p (Page.set_mo (mo_simplify (Page.mo p)) p).
Proof using BL.
  split; [reflexivity|]. split; [reflexivity|]. split; [auto|].
  intros rho off. apply content_simplified.
Qed.

Lemma heap_quiet_refl (h : Page.heap) : heap_quiet h h.
Proof. intros r p H. exists p. split; [exact H | apply same_page_refl]. Qed.

Lemma heap_quiet_insert (h : Page.heap) r p p' :
  h !! r = Some p -> same_page p p' -> heap_quiet h (<[r := p']> h).
Proof.
  intros Hr Hsame r0 p0 H0. destruct (decide (r = r0)) as [->|Hne].
  - exists p'. split; [apply list_lookup_insert_eq; eapply lookup_lt_Some; exact Hr|].
    rewrite Hr in H0. injection H0 as <-. exact Hsame.
  - exists p0. split; [rewrite list_lookup_insert_ne by exact Hne; exact H0|].
    apply same_page_refl.
Qed.

Lemma heap_quiet_trans (h1 h2 h3 : Page.heap) :
  heap_quiet h1 h2 -> heap_quiet h2 h3 -> heap_quiet h1 h3.
Proof.
  intros H12 H23 r p H. destruct (H12 r p H) as (p2 & H2 & A2 & F2 & I2 & C2).
  destruct (H23 r p2 H2) as (p3 & H3 & A3 & F3 & I3 & C3).
  exists p3. split; [exact H3|]. split; [congruence|]. split; [congruence|].
  split; [auto|]. intros rho off. rewrite C3. apply C2.
Qed.

(** [Page.store] on a page whose preload fits. *)
Lemma page_store_step (h : Page.heap) r p idx v c :
  h !! r = Some p -> Page.init_fits p = true -> bv_size v = 8 ->
  exists r' h', Page.store r idx v c h = Ok r' h' /\ store_step h h' r r' p idx v.
Proof using BL.
  intros Hr Hfit Hv.
  assert (Hlt : (r < length h)%nat) by (eapply lookup_lt_Some; exact Hr).
  destruct (Page._lazycopy p) eqn:Hflag.
  - exists (length h). eexists. split; [apply (page_store_cow h r p idx v c Hr Hfit Hflag)|].
    split; [right; split; [reflexivity | exact Hflag]|]. split.
    + exists (cow_page p idx v). split.
      { rewrite lookup_app_r by (rewrite length_insert; lia).
        rewrite length_insert, Nat.sub_diag. reflexivity. }
      split; [reflexivity|]. split; [reflexivity|]. split; [reflexivity|].
      intros rho off. apply content_cow_page. exact Hv.
    + intros r0 p0 H0 Hne. destruct (decide (r0 = r)) as [->|Hne'].
      * rewrite Hr in H0. injection H0 as <-.
        exists (Page.set_lazycopy false (Page.materialized p)). split.
        { apply lookup_app_l_Some, list_lookup_insert_eq. exact Hlt. }
        split; [apply materialized_addr|]. split; [intros _; apply init_fits_materialized|].
        split; [|reflexivity].
        intros rho off. rewrite content_set_lazycopy. apply content_materialized.
      * exists p0. split.
        { apply lookup_app_l_Some. rewrite list_lookup_insert_ne by auto. exact H0. }
        repeat split; auto.
  - exists r. eexists. split; [apply (page_store_owned h r p idx v c Hr Hfit Hflag)|].
    split; [left; split; [reflexivity | exact Hflag]|]. split.
    + eexists. split; [apply list_lookup_insert_eq; exact Hlt|].
      split; [apply materialized_addr|].
      split; [apply init_fits_no_init; cbn [Page.set_mo Page._init]; apply materialized_init|].
      split; [cbn [Page.set_mo Page._lazycopy]; rewrite materialized_lazycopy; exact Hflag|].
      intros rho off. apply content_stored. exact Hv.
    + intros r0 p0 H0 Hne. exists p0. split.
      { rewrite list_lookup_insert_ne by auto. exact H0. }
      split; [reflexivity|]. split; [auto|]. split; [reflexivity|].
      destruct (decide (r0 = r)); [contradiction | reflexivity].
Qed.
End PageContent.

(** ** One byte stored through a page table *)

Section StoreStep.
Context {B : MemoryObj}.

Lemma entries_distinct_refs (h : Page.heap) d k k0 r r0 :
  entries_wf h d -> dict_get k d = Some r -> dict_get k0 d = Some r0 ->
  k0 <> k -> r0 <> r.
Proof.
  intros Hwf Hk Hk0 Hne ->.
  destruct (Hwf k r Hk) as (p & Hp & Ha & _).
  destruct (Hwf k0 r Hk0) as (p0 & Hp0 & Ha0 & _).
  rewrite Hp in Hp0. injection Hp0 as <-. congruence.
Qed.

Section Step.
Variables (h h' : Page.heap) (d : list (Z * nat)) (k : Z) (r r' : nat)
          (p : Page.t mo_t) (idx v : bv).
Hypothesis Hwf : entries_wf h d.
Hypothesis Hk : dict_get k d = Some r.
Hypothesis Hp : h !! r = Some p.
Hypothesis Hstep : store_step h h' r r' p idx v.

Lemma step_other_entry k0 r0 :
  dict_get k0 d = Some r0 -> k0 <> k -> r0 <> r' /\ r0 <> r.
Proof using Hwf Hk Hp Hstep.
  intros Hk0 Hne.
  assert (Hr : r0 <> r) by (eapply entries_distinct_refs; eassumption).
  split; [|exact Hr].
  destruct Hstep as ([[-> _]|[-> _]] & _); [exact Hr|].
  destruct (Hwf k0 r0 Hk0) as (p0 & Hp0 & _). apply lookup_lt_Some in Hp0. lia.
Qed.

Lemma step_entries_wf : entries_wf h' (dict_set k r' d).
Proof using Hwf Hk Hp Hstep.
  intros k0 r0 Hk0. rewrite dict_get_set in Hk0.
  destruct Hstep as (_ & (p' & Hp' & Ha' & Hf' & _) & Hrest).
  destruct (k =? k0) eqn:E.
  - apply Z.eqb_eq in E as <-. injection Hk0 as <-.
    exists p'. split; [exact Hp'|]. split; [|exact Hf'].
    destruct (Hwf k r Hk) as (p1 & Hp1 & Ha1 & _). congruence.
  - apply Z.eqb_neq in E.
    destruct (step_other_entry k0 r0 Hk0 ltac:(congruence)) as [Hne _].
    destruct (Hwf k0 r0 Hk0) as (p0 & Hp0 & Ha0 & Hf0).
    destruct (Hrest r0 p0 Hp0 Hne) as (p0' & Hp0' & Ha0' & Hf0' & _).
    exists p0'. split; [exact Hp0'|]. split; [congruence | auto].
Qed.

Lemma step_dict_keys : dict_keys (dict_set k r' d) = dict_keys d.
Proof using Hk.
  rewrite dict_keys_set. unfold dict_mem. rewrite Hk. reflexivity.
Qed.

Lemma step_byte_at rho k' off :
  byte_at rho h' (dict_set k r' d) k' off =
  if (k' =? k) && (off =? eval rho idx) then Some (eval rho v)
  else byte_at rho h d k' off.
Proof using Hwf Hk Hp Hstep.
  unfold byte_at. rewrite dict_get_set.
  destruct Hstep as (_ & (p' & Hp' & _ & _ & _ & Hc') & Hrest).
  destruct (k' =? k) eqn:E.
  - apply Z.eqb_eq in E as ->. rewrite Z.eqb_refl, Hp', Hk, Hp, Hc'. cbn [andb].
    destruct (off =? eval rho idx); reflexivity.
  - apply Z.eqb_neq in E. replace (k =? k') with false by (symmetry; lia).
    cbn [andb]. destruct (dict_get k' d) as [r0|] eqn:Hk0; [|reflexivity].
    destruct (step_other_entry k' r0 Hk0 E) as [Hne _].
    destruct (Hwf k' r0 Hk0) as (p0 & Hp0 & _).
    destruct (Hrest r0 p0 Hp0 Hne) as (p0' & Hp0' & _ & _ & Hc0 & _).
    rewrite Hp0, Hp0', Hc0. reflexivity.
Qed.

Lemma step_observer_ref db kb rb :
  entries_wf h db -> exclusive h d db -> dict_get kb db = Some rb -> rb <> r'.
Proof using Hk Hp Hstep.
  intros Hdb Hex Hkb. destruct Hstep as ([[-> Hflag]|[-> _]] & _).
  - intros ->. exact (Hex k r p Hk Hp Hflag kb Hkb).
  - destruct (Hdb kb rb Hkb) as (pb & Hpb & _). apply lookup_lt_Some in Hpb. lia.
Qed.

(** A store through one table leaves every table isolated from it as it
    was, and isolated from the table after the store. *)
Lemma step_isolated db :
  isolated h d db ->
  isolated h' (dict_set k r' d) db /\
  forall rho k' off, byte_at rho h' db k' off = byte_at rho h db k' off.
Proof using Hwf Hk Hp Hstep.
  intros (_ & Hdb & Hex1 & Hex2).
  pose proof Hstep as (_ & (p' & Hp' & _) & Hrest).
  assert (Hobs : forall kb rb, dict_get kb db = Some rb -> rb <> r')
    by (intros; eapply step_observer_ref; eassumption).
  split; [split; [apply step_entries_wf|]; split; [|split]|].
  - intros kb rb Hkb. destruct (Hdb kb rb Hkb) as (pb & Hpb & Hab & Hfb).
    destruct (Hrest rb pb Hpb (Hobs kb rb Hkb)) as (pb' & Hpb' & Hab' & Hfb' & _).
    exists pb'. split; [exact Hpb'|]. split; [congruence | auto].
  - intros k0 r0 p0' Hk0 Hp0' Hflag0 k' Hk'. rewrite dict_get_set in Hk0.
    destruct (k =? k0) eqn:E.
    + injection Hk0 as <-. exact (Hobs k' r' Hk' eq_refl).
    + apply Z.eqb_neq in E.
      destruct (step_other_entry k0 r0 Hk0 ltac:(congruence)) as [Hne Hner].
      destruct (Hwf k0 r0 Hk0) as (p0 & Hp0 & _).
      destruct (Hrest r0 p0 Hp0 Hne) as (p0'' & Hp0'' & _ & _ & _ & Hfl).
      rewrite Hp0' in Hp0''. injection Hp0'' as <-.
      destruct (decide (r0 = r)); [contradiction|].
      rewrite Hflag0 in Hfl. exact (Hex1 k0 r0 p0 Hk0 Hp0 (eq_sym Hfl) k' Hk').
  - intros kb rb pb' Hkb Hpb' Hflagb k' Hk'. rewrite dict_get_set in Hk'.
    destruct (k =? k') eqn:E.
    + injection Hk' as ->. exact (Hobs kb rb Hkb eq_refl).
    + apply Z.eqb_neq in E.
      destruct (step_other_entry k' rb Hk' ltac:(congruence)) as [Hne Hner].
      destruct (Hdb kb rb Hkb) as (pb & Hpb & _).
      destruct (Hrest rb pb Hpb Hne) as (pb'' & Hpb'' & _ & _ & _ & Hfl).
      rewrite Hpb' in Hpb''. injection Hpb'' as <-.
      destruct (decide (rb = r)); [contradiction|].
      rewrite Hflagb in Hfl. exact (Hex2 kb rb pb Hkb Hpb (eq_sym Hfl) k' Hk').
  - intros rho k' off. unfold byte_at.
    destruct (dict_get k' db) as [rb|] eqn:Hkb; [|reflexivity].
    destruct (Hdb k' rb Hkb) as (pb & Hpb & _).
    destruct (Hrest rb pb Hpb (Hobs k' rb Hkb)) as (pb' & Hpb' & _ & _ & Hc & _).
    rewrite Hpb, Hpb', Hc. reflexivity.
Qed.
End Step.
End StoreStep.

(** ** Heap changes that keep every page as it is *)

Section Quiet.
Context {B : MemoryObj}.

Lemma entries_wf_quiet (h h' : Page.heap) d :
  entries_wf h d -> heap_quiet h h' -> entries_wf h' d.
Proof.
  intros Hwf Hq k r Hk. destruct (Hwf k r Hk) as (p & Hp & Ha & Hf).
  destruct (Hq r p Hp) as (p' & Hp' & Ha' & _ & Hf' & _).
  exists p'. split; [exact Hp'|]. split; [congruence | auto].
Qed.

Lemma byte_at_quiet rho (h h' : Page.heap) d k off :
  entries_wf h d -> heap_quiet h h' ->
  byte_at rho h' d k off = byte_at rho h d k off.
Proof.
  intros Hwf Hq. unfold byte_at. destruct (dict_get k d) as [r|] eqn:Hk; [|reflexivity].
  destruct (Hwf k r Hk) as (p & Hp & _).
  destruct (Hq r p Hp) as (p' & Hp' & _ & _ & _ & Hc). rewrite Hp, Hp', Hc. reflexivity.
Qed.

Lemma exclusive_quiet (h h' : Page.heap) da db :
  entries_wf h da -> exclusive h da db -> heap_quiet h h' -> exclusive h' da db.
Proof.
  intros Hwf Hex Hq k r p' Hk Hp' Hflag k' Hk'.
  destruct (Hwf k r Hk) as (p & Hp & _).
  destruct (Hq r p Hp) as (p'' & Hp'' & _ & Hfl & _).
  rewrite Hp' in Hp''. injection Hp'' as <-.
  apply (Hex k r p Hk Hp ltac:(congruence) k' Hk').
Qed.

Lemma isolated_quiet (h h' : Page.heap) da db :
  isolated h da db -> heap_quiet h h' -> isolated h' da db.
Proof.
  intros (Ha & Hb & Hab & Hba) Hq.
  split; [eapply entries_wf_quiet; eassumption|].
  split; [eapply entries_wf_quiet; eassumption|].
  split; eapply exclusive_quiet; eassumption.
Qed.

Lemma mem_wf_quiet (w : Memory.World) self m h' :
  mem_wf w self m -> heap_quiet (Memory.heap w) h' -> mem_wf (with_heap h' w) self m.
Proof.
  intros (Hm & Hib & Hnd & Hwf) Hq. split; [exact Hm|]. split; [exact Hib|].
  split; [exact Hnd|]. eapply entries_wf_quiet; eassumption.
Qed.
End Quiet.

(** ** [_store], [_load] and [simplify_page] on a well-formed memory *)

Section MemoryPrimitives.
Context {B : MemoryObj} {BL : MemoryObjLaws B}.

Lemma _store_Ok (w : Memory.World) self m k r idx byte c :
  mem_wf w self m -> dict_get k (Memory.pages m) = Some r -> bv_size byte = 8 ->
  exists r' h' p,
    Memory._store self k idx byte c w =
    Ok tt (with_memories
             (<[self := with_pages (dict_set k r' (Memory.pages m)) m]>
                (Memory.memories w))
             (with_heap h' w)) /\
    Memory.heap w !! r = Some p /\
    store_step (Memory.heap w) h' r r' p idx byte.
Proof using BL.
  intros (Hm & Hib & Hnd & Hwf) Hk Hbyte.
  destruct (Hwf k r Hk) as (p & Hp & Ha & Hf).
  destruct (page_store_step (Memory.heap w) r p idx byte c Hp Hf Hbyte)
    as (r' & h' & Hst & Hstep).
  exists r', h', p. split; [|split; [exact Hp | exact Hstep]].
  unfold Memory._store. mstep (deref_Ok w self m Hm). rewrite Hk.
  unfold assert. rewrite Hbyte. cbn [Z.eqb Pos.eqb].
  unfold bind at 1. unfold ret at 1.
  erewrite bind_Ok; [|apply lift_heap_Ok; exact Hst].
  apply (set_pages_Ok (with_heap h' w) self m). exact Hm.
Qed.

Lemma _load_Ok (w : Memory.World) self m k r idx :
  mem_wf w self m -> dict_get k (Memory.pages m) = Some r ->
  exists h' b,
    Memory._load self k idx w = Ok b (with_heap h' w) /\
    heap_quiet (Memory.heap w) h' /\
    bv_size b = 8 /\
    forall rho,
      byte_at rho (Memory.heap w) (Memory.pages m) k (eval rho idx)
      = Some (eval rho b).
Proof using BL.
  intros (Hm & Hib & Hnd & Hwf) Hk.
  destruct (Hwf k r Hk) as (p & Hp & Ha & Hf).
  eexists. eexists. split.
  - unfold Memory._load. mstep (deref_Ok w self m Hm). rewrite Hk.
    apply lift_heap_Ok. apply (page_load_Ok _ r p idx Hp Hf).
  - split; [eapply heap_quiet_insert; [exact Hp | apply same_page_materialized]|].
    split; [apply mo_load_size|].
    intros rho. unfold byte_at. rewrite Hk, Hp. unfold Page.content.
    rewrite mo_load_denote. reflexivity.
Qed.

Lemma simplify_page_Ok (w : Memory.World) self m k r u :
  mem_wf w self m -> dict_get k (Memory.pages m) = Some r ->
  exists h',
    Memory.simplify_page self k u w = Ok tt (with_heap h' w) /\
    heap_quiet (Memory.heap w) h'.
Proof using BL.
  intros (Hm & Hib & Hnd & Hwf) Hk.
  destruct (Hwf k r Hk) as (p & Hp & Ha & Hf).
  eexists. split.
  - unfold Memory.simplify_page. mstep (deref_Ok w self m Hm). rewrite Hk.
    apply lift_heap_Ok. mstep (page_deref_Ok _ r p Hp). reflexivity.
  - eapply heap_quiet_insert; [exact Hp | apply same_page_simplified].
Qed.
End MemoryPrimitives.

(** ** Resolving a concrete address *)

Lemma byte_address_range (bits a j : Z) :
  0 <= bits -> 0 <= byte_address bits a j < 2 ^ bits.
Proof.
  intros H. unfold byte_address. apply Z.mod_pos_bound.
  apply Z.pow_pos_nonneg; lia.
Qed.

Lemma eval_add_int (rho : env) (a bits j : Z) :
  0 < bits ->
  eval rho (bv_add_int (bvv a bits) j) = byte_address bits a j.
Proof.
  intros Hb. unfold bv_add_int, bvv, byte_address. cbn [eval bv_size].
  assert (0 < 2 ^ bits) by (apply Z.pow_pos_nonneg; lia).
  rewrite !Z.mod_mod by lia. rewrite <- Z.add_mod by lia. reflexivity.
Qed.

Lemma eval_sub_int (rho : env) (e : bv) (j : Z) :
  0 < bv_size e ->
  eval rho (bv_sub_int e j) = (eval rho e - j) mod 2 ^ bv_size e.
Proof.
  intros Hb. unfold bv_sub_int, bvv. cbn [eval].
  assert (0 < 2 ^ bv_size e) by (apply Z.pow_pos_nonneg; lia).
  rewrite Z.mod_mod by lia. apply Zminus_mod_idemp_r.
Qed.

Lemma eval_big_address (rho : env) (a bits n i : Z) :
  0 < bits ->
  eval rho (bv_sub_int (bv_sub_int (bv_add_int (bvv a bits) n) i) 1)
  = byte_address bits a (n - 1 - i).
Proof.
  intros Hb. rewrite eval_sub_int by exact Hb.
  rewrite eval_sub_int by exact Hb. rewrite eval_add_int by exact Hb.
  change (bv_size (bv_sub_int (bv_add_int (bvv a bits) n) i)) with bits.
  change (bv_size (bv_add_int (bvv a bits) n)) with bits.
  unfold byte_address. rewrite !Zminus_mod_idemp_l.
  replace ((a + n) mod 2 ^ bits - i - 1) with ((a + n) mod 2 ^ bits - (i + 1)) by lia.
  rewrite Zminus_mod_idemp_l. f_equal. lia.
Qed.

Section Resolve.
Context {S : Z3Simplifier} {SL : Z3SimplifierLaws S}.

Lemma symbolic_literal (v s : Z) : symbolic (BVV v s) = false.
Proof using SL.
  unfold symbolic. rewrite (simplify_ground (BVV v s) eq_refl). reflexivity.
Qed.

Lemma symbolic_bvv (a bits : Z) : symbolic (bvv a bits) = false.
Proof using SL. apply symbolic_literal. Qed.

(** Splitting a term without symbolic constants of value [X]: the page
    address is a literal, of value the slot of [X], and the index has the
    value of the offset of [X]. *)
Lemma resolve_concrete {St} (E : bv) (ib : Z) (s : St) :
  ground E = true -> 0 < ib < bv_size E ->
  exists pa pi,
    split_bv E ib s = Ok (pa, pi) s /\
    symbolic pa = false /\
    bvv_to_long pa s = Ok (slot_of ib (eval (fun _ => 0) E)) s /\
    forall rho, eval rho pi = offset_of ib (eval (fun _ => 0) E).
Proof using SL.
  intros Hg Hib. eexists. eexists. split; [apply split_bv_Ok; exact Hib|].
  set (X := eval (fun _ => 0) E).
  assert (HX : 0 <= X < 2 ^ bv_size E) by (apply eval_range; lia).
  rewrite !simplify_ground by exact Hg. cbn [eval bv_size]. fold X.
  assert (Hpow : 2 ^ bv_size E = 2 ^ ib * 2 ^ (bv_size E - ib))
    by (rewrite <- Z.pow_add_r by lia; f_equal; lia).
  assert (Hi : 0 < 2 ^ ib) by (apply Z.pow_pos_nonneg; lia).
  assert (Hslot : (X / 2 ^ ib) mod 2 ^ (bv_size E - 1 - ib + 1) = X / 2 ^ ib).
  { replace (bv_size E - 1 - ib + 1) with (bv_size E - ib) by lia.
    apply Z.mod_small. split; [apply Z.div_pos; lia|].
    apply Z.div_lt_upper_bound; lia. }
  split; [apply symbolic_literal|]. split.
  - unfold bvv_to_long. rewrite symbolic_literal. cbn [negb assert].
    unfold bind, ret. rewrite (simplify_ground (BVV _ _) eq_refl).
    cbn [eval bv_size]. rewrite Z.mod_mod by (apply Z.pow_nonzero; lia).
    rewrite Hslot. reflexivity.
  - intros rho. cbn [eval]. rewrite Z.mod_mod by (apply Z.pow_nonzero; lia).
    change (2 ^ 0) with 1. rewrite Z.div_1_r.
    replace (ib - 1 - 0 + 1) with ib by lia. reflexivity.
Qed.
End Resolve.

(** ** The byte loops on a concrete address *)

Section ConcreteAccess.
Context {B : MemoryObj} {BL : MemoryObjLaws B}.
Context {S : Z3Simplifier} {SL : Z3SimplifierLaws S}.
Context {V : Solver} {O : Options}.

Lemma z3_Extract_byte_Ok {St} (v : bv) (n i : Z) (s : St) :
  bv_size v = 8 * n -> 0 <= i < n ->
  z3_Extract (8 * (i + 1) - 1) (8 * i) v s
  = Ok (Extract (8 * (i + 1) - 1) (8 * i) v) s.
Proof.
  intros Hv Hi. unfold z3_Extract.
  replace ((0 <=? 8 * i) && (8 * i <=? 8 * (i + 1) - 1) &&
           (8 * (i + 1) - 1 <? bv_size v)) with true by (symmetry; lia).
  reflexivity.
Qed.

(** The address term that [store] builds for byte [i]. *)
Lemma store_address_ground (a bits n i : Z) (endness : string) :
  0 < bits ->
  let E := if String.eqb endness "little"
           then bv_add_int (bvv a bits) i
           else bv_sub_int (bv_sub_int (bv_add_int (bvv a bits) n) i) 1 in
  ground E = true /\ bv_size E = bits /\
  eval (fun _ => 0) E = byte_address bits a (store_offset endness n i).
Proof.
  intros Hb E. subst E. unfold store_offset.
  destruct (String.eqb endness "little").
  - split; [reflexivity|]. split; [reflexivity|]. apply eval_add_int. exact Hb.
  - split; [reflexivity|]. split; [reflexivity|]. apply eval_big_address. exact Hb.
Qed.

Lemma store_body_concrete (w : Memory.World) self m a v endness n i pas r :
  mem_wf w self m -> bv_size v = 8 * n -> 0 <= i < n ->
  let x := byte_address (Memory.bits m) a (store_offset endness n i) in
  let k := slot_of (Memory.index_bits m) x in
  dict_get k (Memory.pages m) = Some r ->
  exists idx r' h' p,
    (forall rho, eval rho idx = offset_of (Memory.index_bits m) x) /\
    Memory.store_body self (bvv a (Memory.bits m)) v endness (8 * n) i (pas, []) w
    = Ok (set_add k pas, [])
         (with_memories
            (<[self := with_pages (dict_set k r' (Memory.pages m)) m]>
               (Memory.memories w))
            (with_heap h' w)) /\
    Memory.heap w !! r = Some p /\
    store_step (Memory.heap w) h' r r' p idx (Extract (8 * (i + 1) - 1) (8 * i) v).
Proof using BL SL.
  intros Hwf Hv Hi x k Hk. pose proof Hwf as (Hm & Hib & Hnd & Hent).
  destruct (store_address_ground a (Memory.bits m) n i endness ltac:(lia))
    as (Hg & Hsz & Hev).
  set (E := if String.eqb endness "little" then _ else _) in *.
  destruct (resolve_concrete E (Memory.index_bits m) w Hg ltac:(lia))
    as (pa & pi & Hsplit & Hsym & Hlong & Hpi).
  rewrite Hev in Hlong, Hpi. fold x in Hlong, Hpi. fold k in Hlong.
  destruct (_store_Ok w self m k r pi (Extract (8 * (i + 1) - 1) (8 * i) v) None
              Hwf Hk ltac:(cbn [bv_size]; lia))
    as (r' & h' & p & Hst & Hp & Hstep).
  exists pi, r', h', p. split; [exact Hpi|]. split; [|split; [exact Hp | exact Hstep]].
  unfold Memory.store_body. mstep (deref_Ok w self m Hm).
  replace (8 * n / 8) with n by (rewrite Z.mul_comm, Z.div_mul; lia).
  assert (Hsplit' :
    (if String.eqb endness "little"
     then split_bv (bv_add_int (bvv a (Memory.bits m)) i) (Memory.index_bits m)
     else split_bv (bv_sub_int (bv_sub_int (bv_add_int (bvv a (Memory.bits m)) n) i) 1)
            (Memory.index_bits m)) w = Ok (pa, pi) w).
  { subst E. destruct (String.eqb endness "little"); exact Hsplit. }
  mstep Hsplit'. cbv beta iota. rewrite Hsym. cbn [negb]. cbv beta iota.
  rewrite !bind_assoc.
  mstep Hlong. mstep (z3_Extract_byte_Ok v n i w Hv Hi). mstep Hst.
  reflexivity.
Qed.

Lemma load_body_concrete (w : Memory.World) self m a j res conds r :
  mem_wf w self m ->
  let x := byte_address (Memory.bits m) a j in
  let k := slot_of (Memory.index_bits m) x in
  dict_get k (Memory.pages m) = Some r ->
  exists h' b,
    Memory.load_body self (bvv a (Memory.bits m)) j (res, conds) w
    = Ok (Memory.concat_res res (simplify b), conds) (with_heap h' w) /\
    heap_quiet (Memory.heap w) h' /\
    bv_size b = 8 /\
    forall rho,
      byte_at rho (Memory.heap w) (Memory.pages m) k
        (offset_of (Memory.index_bits m) x) = Some (eval rho b).
Proof using BL SL.
  intros Hwf x k Hk. pose proof Hwf as (Hm & Hib & Hnd & Hent).
  assert (Hg : ground (bv_add_int (bvv a (Memory.bits m)) j) = true) by reflexivity.
  destruct (resolve_concrete (bv_add_int (bvv a (Memory.bits m)) j)
              (Memory.index_bits m) w Hg ltac:(cbn [bv_size bv_add_int bvv]; lia))
    as (pa & pi & Hsplit & Hsym & Hlong & Hpi).
  rewrite (eval_add_int _ a (Memory.bits m) j ltac:(lia)) in Hlong, Hpi.
  fold x in Hlong, Hpi. fold k in Hlong.
  destruct (_load_Ok w self m k r pi Hwf Hk) as (h' & b & Hld & Hq & Hsz & Hb).
  exists h', b. split; [|split; [exact Hq|split; [exact Hsz|]]].
  - unfold Memory.load_body. mstep (deref_Ok w self m Hm).
    mstep Hsplit. rewrite Hsym. cbn [negb]. mstep Hlong. mstep Hld. reflexivity.
  - intros rho. rewrite <- (Hpi rho). apply Hb.
Qed.

Lemma slot_offset_inj (ib x x' : Z) :
  slot_of ib x = slot_of ib x' -> offset_of ib x = offset_of ib x' -> x = x'.
Proof.
  unfold slot_of, offset_of. intros Hs Ho.
  destruct (Z.eq_dec (2 ^ ib) 0) as [E|E].
  - rewrite E, !Z.mod_0_r in Ho. exact Ho.
  - rewrite (Z.div_mod x (2 ^ ib) E), (Z.div_mod x' (2 ^ ib) E). congruence.
Qed.

Lemma elem_of_set_add (x k : Z) (s : list Z) :
  k ∈ set_add x s -> k = x \/ k ∈ s.
Proof.
  unfold set_add. destruct (existsb (Z.eqb x) s); [auto|].
  rewrite elem_of_app, list_elem_of_singleton. tauto.
Qed.

Lemma eval_byte (rho : env) (v : bv) (i : Z) :
  eval rho (Extract (8 * (i + 1) - 1) (8 * i) v)
  = (eval rho v / 2 ^ (8 * i)) mod 256.
Proof.
  cbn [eval]. replace (8 * (i + 1) - 1 - 8 * i + 1) with 8 by lia. reflexivity.
Qed.

(** The byte loop of [store] on a concrete address, over the byte numbers
    [L]: every byte lands at its address, nothing else changes in the
    memory, and tables isolated from the memory's table stay so and keep
    their content. *)
Lemma store_loop_concrete self m a v endness n (L : list Z) :
  bv_size v = 8 * n ->
  NoDup L ->
  (forall i, i ∈ L -> 0 <= i < n) ->
  (forall i i', i ∈ L -> i' ∈ L ->
     byte_address (Memory.bits m) a (store_offset endness n i) =
     byte_address (Memory.bits m) a (store_offset endness n i') -> i = i') ->
  (forall i, i ∈ L ->
     dict_mem (slot_of (Memory.index_bits m)
                 (byte_address (Memory.bits m) a (store_offset endness n i)))
              (Memory.pages m) = true) ->
  forall (w : Memory.World) d pas,
    mem_wf w self (with_pages d m) ->
    dict_keys d = dict_keys (Memory.pages m) ->
    exists w' d' pas',
      for_each L (Memory.store_body self (bvv a (Memory.bits m)) v endness (8 * n))
        (pas, []) w = Ok (pas', []) w' /\
      Memory.memories w' = <[self := with_pages d' m]> (Memory.memories w) /\
      Memory.states w' = Memory.states w /\
      Memory.errored w' = Memory.errored w /\
      mem_wf w' self (with_pages d' m) /\
      dict_keys d' = dict_keys (Memory.pages m) /\
      (forall k, k ∈ pas' -> k ∈ pas \/ dict_mem k (Memory.pages m) = true) /\
      (forall rho i, i ∈ L ->
         byte_at rho (Memory.heap w') d'
           (slot_of (Memory.index_bits m)
              (byte_address (Memory.bits m) a (store_offset endness n i)))
           (offset_of (Memory.index_bits m)
              (byte_address (Memory.bits m) a (store_offset endness n i)))
         = Some ((eval rho v / 2 ^ (8 * i)) mod 256)) /\
      (forall rho k off,
         (forall i, i ∈ L ->
            ~ (k = slot_of (Memory.index_bits m)
                     (byte_address (Memory.bits m) a (store_offset endness n i)) /\
               off = offset_of (Memory.index_bits m)
                       (byte_address (Memory.bits m) a (store_offset endness n i)))) ->
         byte_at rho (Memory.heap w') d' k off = byte_at rho (Memory.heap w) d k off) /\
      (forall db, isolated (Memory.heap w) d db ->
         isolated (Memory.heap w') d' db /\
         forall rho k off,
           byte_at rho (Memory.heap w') db k off = byte_at rho (Memory.heap w) db k off).
Proof using BL SL.
  intros Hv. induction L as [|i L IH]; intros Hnd Hrange Hinj Hmapped w d pas Hwf Hkeys.
  - exists w, d, pas. split; [reflexivity|].
    split; [symmetry; apply list_insert_id; apply Hwf|].
    split; [reflexivity|]. split; [reflexivity|]. split; [exact Hwf|].
    split; [exact Hkeys|]. split; [auto|].
    split; [intros rho i Hi; inversion Hi|]. split; [reflexivity|]. auto.
  - apply NoDup_cons in Hnd as [Hnotin Hnd].
    set (x := byte_address (Memory.bits m) a (store_offset endness n i)).
    set (k := slot_of (Memory.index_bits m) x).
    pose proof Hwf as (Hm & Hib & Hndk & Hent).
    assert (Hk : exists r, dict_get k d = Some r).
    { assert (Hin : dict_mem k d = true).
      { apply dict_mem_keys. rewrite Hkeys. apply dict_mem_keys.
        apply Hmapped. left. }
      apply dict_mem_get in Hin as [r Hr]. eauto. }
    destruct Hk as [r Hk].
    destruct (store_body_concrete w self (with_pages d m) a v endness n i pas r
                Hwf Hv (Hrange i ltac:(left)) Hk)
      as (idx & r' & h' & p & Hidx & Hbody & Hp & Hstep).
    cbn [with_pages Memory.bits Memory.index_bits Memory.pages] in Hidx, Hbody, Hk.
    fold x in Hidx, Hbody. fold k in Hbody.
    change (with_pages (dict_set k r' d) (with_pages d m))
      with (with_pages (dict_set k r' d) m) in Hbody.
    set (d1 := dict_set k r' d) in *.
    set (w1 := with_memories _ (with_heap h' w)) in Hbody.
    assert (Hkeys1 : dict_keys d1 = dict_keys (Memory.pages m)).
    { subst d1. rewrite (step_dict_keys d k r r' Hk). exact Hkeys. }
    assert (Hwf1 : mem_wf w1 self (with_pages d1 m)).
    { split; [|split; [exact Hib|split]].
      - subst w1. cbn [with_memories Memory.memories].
        apply list_lookup_insert_eq. eapply lookup_lt_Some; exact Hm.
      - cbn [with_pages Memory.pages]. rewrite Hkeys1, <- Hkeys. exact Hndk.
      - apply (step_entries_wf (Memory.heap w) h' d k r r' p idx _ Hent Hk Hp Hstep). }
    destruct (IH Hnd (fun j Hj => Hrange j ltac:(right; exact Hj))
                (fun j j' Hj Hj' => Hinj j j' ltac:(right; exact Hj) ltac:(right; exact Hj'))
                (fun j Hj => Hmapped j ltac:(right; exact Hj))
                w1 d1 (set_add k pas) Hwf1 Hkeys1)
      as (w' & d' & pas' & Hloop & Hmem' & Hst' & Herr' & Hwf' & Hkeys' & Hpas' & Ha & Hb & Hc).
    exists w', d', pas'.
    split; [cbn [for_each]; mstep Hbody; exact Hloop|].
    split; [rewrite Hmem'; subst w1; cbn [with_memories Memory.memories];
            apply list_insert_insert_eq|].
    split; [rewrite Hst'; reflexivity|]. split; [rewrite Herr'; reflexivity|].
    split; [exact Hwf'|]. split; [exact Hkeys'|].
    assert (Hfirst : forall rho,
              byte_at rho h' d1 k (offset_of (Memory.index_bits m) x)
              = Some ((eval rho v / 2 ^ (8 * i)) mod 256)).
    { intros rho. subst d1.
      rewrite (step_byte_at (Memory.heap w) h' d k r r' p idx _ Hent Hk Hp Hstep).
      rewrite Z.eqb_refl, Hidx, Z.eqb_refl. cbn [andb]. rewrite eval_byte. reflexivity. }
    split; [|split; [|split]].
    + intros k0 Hk0. destruct (Hpas' k0 Hk0) as [Hin|Hin]; [|right; exact Hin].
      apply elem_of_set_add in Hin as [->|Hin]; [right; apply Hmapped; left | left; exact Hin].
    + intros rho i0 Hi0. apply elem_of_cons in Hi0 as [->|Hi0]; [|apply Ha; exact Hi0].
      fold x. fold k. rewrite Hb; [apply Hfirst|].
      intros j Hj [Hks Hos]. apply Hnotin.
      assert (i = j); [|subst; exact Hj].
      apply Hinj; [left | right; exact Hj|]. fold x.
      eapply slot_offset_inj; eassumption.
    + intros rho k0 off Hno. rewrite Hb by (intros j Hj; apply Hno; right; exact Hj).
      subst d1. change (Memory.heap w1) with h'.
      rewrite (step_byte_at (Memory.heap w) h' d k r r' p idx _ Hent Hk Hp Hstep).
      destruct ((k0 =? k) && (off =? eval rho idx)) eqn:E; [|reflexivity].
      apply andb_true_iff in E as [E1 E2]. apply Z.eqb_eq in E1, E2.
      exfalso. apply (Hno i ltac:(left)). fold x. fold k. rewrite <- Hidx with rho. auto.
    + intros db Hiso.
      destruct (step_isolated (Memory.heap w) h' d k r r' p idx _ Hent Hk Hp Hstep db Hiso)
        as [Hiso1 Hsame1].
      destruct (Hc db Hiso1) as [Hiso' Hsame']. split; [exact Hiso'|].
      intros rho k0 off. rewrite Hsame'. apply Hsame1.
Qed.

Lemma simplify_loop_concrete self m (pas : list Z) :
  (forall k, k ∈ pas -> dict_mem k (Memory.pages m) = true) ->
  forall (w : Memory.World),
    mem_wf w self m ->
    exists h',
      for_each pas (Memory.simplify_page self) tt w = Ok tt (with_heap h' w) /\
      heap_quiet (Memory.heap w) h'.
Proof using BL.
  induction pas as [|k pas IH]; intros Hmapped w Hwf.
  - exists (Memory.heap w). rewrite with_heap_id. split; [reflexivity | apply heap_quiet_refl].
  - destruct (proj1 (dict_mem_get k (Memory.pages m)) (Hmapped k ltac:(left))) as [r Hr].
    destruct (simplify_page_Ok w self m k r tt Hwf Hr) as (h1 & Hs & Hq1).
    destruct (IH (fun j Hj => Hmapped j ltac:(right; exact Hj)) (with_heap h1 w)
                (mem_wf_quiet w self m h1 Hwf Hq1)) as (h' & Hloop & Hq').
    exists h'. split; [|eapply heap_quiet_trans; eassumption].
    cbn [for_each]. mstep Hs. destruct tt. exact Hloop.
Qed.

Lemma byte_address_inj (bits a j j' : Z) :
  0 <= bits -> 0 <= j < 2 ^ bits -> 0 <= j' < 2 ^ bits ->
  byte_address bits a j = byte_address bits a j' -> j = j'.
Proof.
  unfold byte_address. intros Hb Hj Hj' Heq.
  assert (HM : 0 < 2 ^ bits) by (apply Z.pow_pos_nonneg; lia).
  assert (Hz : ((a + j) - (a + j')) mod 2 ^ bits = 0).
  { rewrite Zminus_mod, Heq, Z.sub_diag. apply Z.mod_0_l. lia. }
  replace (a + j - (a + j')) with (j - j') in Hz by lia.
  pose proof (Z.div_mod (j - j') (2 ^ bits) ltac:(lia)) as Hdm.
  rewrite Hz in Hdm. clear Hz Heq.
  generalize dependent ((j - j') / 2 ^ bits). generalize dependent (2 ^ bits).
  intros M HjM Hj'M HM q Hq.
  assert (q = 0) by nia. subst q. lia.
Qed.

Lemma NoDup_reverse_seqZ (m n : Z) : NoDup (reverse (seqZ m n)).
Proof. rewrite reverse_Permutation. apply NoDup_seqZ. Qed.

Lemma store_offset_range (endness : string) (n i : Z) :
  0 <= i < n -> 0 <= store_offset endness n i < n.
Proof. unfold store_offset. destruct (String.eqb endness "little"); lia. Qed.

Lemma store_offset_involutive (endness : string) (n i : Z) :
  store_offset endness n (store_offset endness n i) = i.
Proof. unfold store_offset. destruct (String.eqb endness "little"); lia. Qed.

(** [store] of an [n]-byte value at a concrete address whose bytes are all
    mapped. *)
Lemma store_concrete (w : Memory.World) self m a v endness n :
  mem_wf w self m ->
  bv_size v = 8 * n -> 0 <= n <= 2 ^ Memory.bits m ->
  (forall j, 0 <= j < n ->
     dict_mem (slot_of (Memory.index_bits m) (byte_address (Memory.bits m) a j))
              (Memory.pages m) = true) ->
  exists w' d',
    Memory.store self (bvv a (Memory.bits m)) v endness w = Ok tt w' /\
    Memory.memories w' = <[self := with_pages d' m]> (Memory.memories w) /\
    Memory.states w' = Memory.states w /\
    Memory.errored w' = Memory.errored w /\
    mem_wf w' self (with_pages d' m) /\
    dict_keys d' = dict_keys (Memory.pages m) /\
    (forall rho i, 0 <= i < n ->
       byte_at rho (Memory.heap w') d'
         (slot_of (Memory.index_bits m)
            (byte_address (Memory.bits m) a (store_offset endness n i)))
         (offset_of (Memory.index_bits m)
            (byte_address (Memory.bits m) a (store_offset endness n i)))
       = Some (byte_of (eval rho v) i)) /\
    (forall db, isolated (Memory.heap w) (Memory.pages m) db ->
       isolated (Memory.heap w') d' db /\
       forall rho k off,
         byte_at rho (Memory.heap w') db k off = byte_at rho (Memory.heap w) db k off).
Proof using BL SL.
  intros Hwf Hv Hn Hmapped. pose proof Hwf as (Hm & Hib & Hndk & Hent).
  assert (HL : forall i, i ∈ reverse (seqZ 0 n) <-> 0 <= i < n).
  { intros i. rewrite elem_of_reverse, elem_of_seqZ. lia. }
  destruct (store_loop_concrete self m a v endness n (reverse (seqZ 0 n)) Hv
              (NoDup_reverse_seqZ 0 n)
              ltac:(intros i Hi; apply HL; exact Hi))
    with (w := w) (d := Memory.pages m) (pas := @nil Z)
    as (w1 & d1 & pas1 & Hloop & Hmem1 & Hst1 & Herr1 & Hwf1 & Hkeys1 & Hpas1 & Ha & _ & Hc).
  - intros i i' Hi Hi' Heq. apply HL in Hi, Hi'.
    apply byte_address_inj in Heq;
      [|lia|pose proof (store_offset_range endness n i Hi); lia
        |pose proof (store_offset_range endness n i' Hi'); lia].
    rewrite <- (store_offset_involutive endness n i),
            <- (store_offset_involutive endness n i'), Heq. reflexivity.
  - intros i Hi. apply HL in Hi. apply Hmapped, store_offset_range, Hi.
  - rewrite with_pages_id. exact Hwf.
  - reflexivity.
  - destruct (simplify_loop_concrete self (with_pages d1 m) pas1) with (w := w1)
      as (h' & Hsimp & Hq).
    { intros k Hk. destruct (Hpas1 k Hk) as [Hin|Hin]; [inversion Hin|].
      apply dict_mem_keys. cbn [with_pages Memory.pages]. rewrite Hkeys1.
      apply dict_mem_keys. exact Hin. }
    { exact Hwf1. }
    exists (with_heap h' w1), d1.
    split; [|split; [exact Hmem1|split; [exact Hst1|split; [exact Herr1|]]]].
    + unfold Memory.store. mstep (deref_Ok w self m Hm).
      unfold assert at 1. cbn [bv_size bvv]. rewrite Z.eqb_refl.
      rewrite bind_ret.
      assert (Hheur : Memory.heuristic_unconstrained self (bvv a (Memory.bits m)) w
                      = Ok false w).
      { unfold Memory.heuristic_unconstrained.
        rewrite symbolic_bvv, andb_false_r. reflexivity. }
      mstep Hheur. rewrite bind_ret. rewrite Hv.
      unfold assert at 1.
      replace (8 * n mod 8 =? 0) with true
        by (symmetry; apply Z.eqb_eq; rewrite Z.mul_comm; apply Z.mod_mul; lia).
      rewrite bind_ret.
      replace (8 * n / 8) with n by (rewrite Z.mul_comm, Z.div_mul; lia).
      mstep Hloop. exact Hsimp.
    + split; [apply (mem_wf_quiet w1 self _ h' Hwf1 Hq)|]. split; [exact Hkeys1|].
      destruct Hwf1 as (_ & _ & _ & Hent1). cbn [with_pages Memory.pages] in Hent1.
      split.
      * intros rho i Hi. cbn [with_heap Memory.heap].
        rewrite (byte_at_quiet rho _ h' d1 _ _ Hent1 Hq).
        apply Ha. apply HL. exact Hi.
      * intros db Hiso.
        destruct (Hc db Hiso) as [Hiso1 Hsame1]. cbn [with_heap Memory.heap].
        split; [eapply isolated_quiet; eassumption|].
        intros rho k off. rewrite <- Hsame1.
        apply byte_at_quiet; [apply Hiso1 | exact Hq].
Qed.

Lemma concat_res_size (res : option bv) (tmp : bv) :
  bv_size tmp = 8 -> res_size (Memory.concat_res res tmp) = res_size res + 8.
Proof. intros H. destruct res; cbn [Memory.concat_res res_size bv_size]; lia. Qed.

Lemma concat_res_value (rho : env) (res : option bv) (tmp : bv) :
  bv_size tmp = 8 -> 0 <= res_size res ->
  res_value rho (Memory.concat_res res tmp) = res_value rho res * 256 + eval rho tmp.
Proof.
  intros Ht Hs. pose proof (eval_range rho tmp ltac:(lia)) as Hr. rewrite Ht in Hr.
  destruct res as [r|]; cbn [Memory.concat_res res_value res_size] in *; [|lia].
  cbn [eval]. rewrite Ht. pose proof (eval_range rho r Hs) as Hrr.
  change (2 ^ 8) with 256 in *. apply Z.mod_small.
  rewrite Z.pow_add_r by lia. change (2 ^ 8) with 256. nia.
Qed.

(** The byte loop of [load] on a concrete address, over the offsets [L]:
    the accumulator is extended by the bytes found there, in order. *)
Lemma load_loop_concrete self m a (L : list Z) :
  (forall j, j ∈ L ->
     dict_mem (slot_of (Memory.index_bits m) (byte_address (Memory.bits m) a j))
              (Memory.pages m) = true) ->
  forall (w : Memory.World) res,
    mem_wf w self m -> 0 <= res_size res ->
    exists h' res',
      for_each L (Memory.load_body self (bvv a (Memory.bits m))) (res, []) w
      = Ok (res', []) (with_heap h' w) /\
      heap_quiet (Memory.heap w) h' /\
      res_size res' = res_size res + 8 * Z.of_nat (length L) /\
      (L <> [] -> is_Some res') /\
      forall rho, exists bs,
        Forall2 (fun j b =>
                   byte_at rho (Memory.heap w) (Memory.pages m)
                     (slot_of (Memory.index_bits m) (byte_address (Memory.bits m) a j))
                     (offset_of (Memory.index_bits m) (byte_address (Memory.bits m) a j))
                   = Some b) L bs /\
        res_value rho res' = foldl (fun acc b => acc * 256 + b) (res_value rho res) bs.
Proof using BL SL.
  induction L as [|j L IH]; intros Hmapped w res Hwf Hsize.
  - exists (Memory.heap w), res. rewrite with_heap_id.
    split; [reflexivity|]. split; [apply heap_quiet_refl|]. split; [cbn [length]; lia|].
    split; [congruence|]. intros rho. exists []. split; [constructor | reflexivity].
  - destruct (proj1 (dict_mem_get _ _) (Hmapped j ltac:(left))) as [r Hr].
    destruct (load_body_concrete w self m a j res [] r Hwf Hr)
      as (h1 & b & Hbody & Hq1 & Hb8 & Hbyte).
    assert (Ht8 : bv_size (simplify b) = 8) by (rewrite simplify_size; exact Hb8).
    destruct (IH (fun i Hi => Hmapped i ltac:(right; exact Hi)) (with_heap h1 w)
                (Memory.concat_res res (simplify b))
                (mem_wf_quiet w self m h1 Hwf Hq1)
                ltac:(rewrite concat_res_size by exact Ht8; lia))
      as (h' & res' & Hloop & Hq' & Hsz' & _ & Hvals).
    exists h', res'. split; [cbn [for_each]; mstep Hbody; exact Hloop|].
    split; [eapply heap_quiet_trans; eassumption|].
    split; [rewrite Hsz', concat_res_size by exact Ht8; cbn [length]; lia|].
    split.
    { intros _. destruct res' as [r'|]; [eauto|].
      cbn [res_size] in Hsz'. rewrite concat_res_size in Hsz' by exact Ht8. lia. }
    intros rho. destruct (Hvals rho) as (bs & Hall & Hval).
    exists (eval rho b :: bs). split.
    + constructor; [apply Hbyte|].
      eapply Forall2_impl; [exact Hall|]. intros i bi Hi.
      cbn [with_heap Memory.heap] in Hi.
      rewrite <- Hi. symmetry. apply byte_at_quiet; [apply Hwf | exact Hq1].
    + rewrite Hval. cbn [foldl].
      rewrite concat_res_value by (exact Ht8 || exact Hsize).
      rewrite simplify_sound. reflexivity.
Qed.

(** [load] of [n] bytes at a concrete address whose bytes are all mapped:
    the value is made of the bytes found at the offsets of [load_order],
    most significant first. *)
Lemma load_concrete (w : Memory.World) self m a n endness :
  mem_wf w self m -> 0 < n ->
  (forall j, 0 <= j < n ->
     dict_mem (slot_of (Memory.index_bits m) (byte_address (Memory.bits m) a j))
              (Memory.pages m) = true) ->
  exists h' val,
    Memory.load self (bvv a (Memory.bits m)) n endness w = Ok val (with_heap h' w) /\
    heap_quiet (Memory.heap w) h' /\
    bv_size val = 8 * n /\
    forall rho, exists bs,
      Forall2 (fun j b =>
                 byte_at rho (Memory.heap w) (Memory.pages m)
                   (slot_of (Memory.index_bits m) (byte_address (Memory.bits m) a j))
                   (offset_of (Memory.index_bits m) (byte_address (Memory.bits m) a j))
                 = Some b) (load_order endness n) bs /\
      eval rho val = be_value bs.
Proof using BL SL.
  intros Hwf Hn Hmapped. pose proof Hwf as (Hm & Hib & Hndk & Hent).
  assert (HL : forall j, j ∈ load_order endness n -> 0 <= j < n).
  { intros j. unfold load_order. destruct (String.eqb endness "little");
      rewrite ?elem_of_reverse, elem_of_seqZ; lia. }
  assert (Hlen : Z.of_nat (length (load_order endness n)) = n).
  { unfold load_order. destruct (String.eqb endness "little");
      rewrite ?length_reverse, length_seqZ; lia. }
  destruct (load_loop_concrete self m a (load_order endness n)
              (fun j Hj => Hmapped j (HL j Hj)) w None Hwf ltac:(reflexivity))
    as (h' & res' & Hloop & Hq & Hsz & Hsome & Hvals).
  destruct Hsome as [r' ->].
  { intros E. rewrite E in Hlen. cbn [length] in Hlen. lia. }
  exists h', (simplify r'). split; [|split; [exact Hq|split]].
  - unfold Memory.load. mstep (deref_Ok w self m Hm).
    unfold assert at 1. cbn [bv_size bvv]. rewrite Z.eqb_refl. rewrite bind_ret.
    assert (Hheur : Memory.heuristic_unconstrained self (bvv a (Memory.bits m)) w
                    = Ok false w).
    { unfold Memory.heuristic_unconstrained.
      rewrite symbolic_bvv, andb_false_r. reflexivity. }
    mstep Hheur. rewrite bind_ret.
    fold (load_order endness n). mstep Hloop. rewrite bind_ret.
    cbn [res_size] in Hsz. unfold assert. rewrite Hsz, Hlen.
    replace ((0 + 8 * n) / 8 =? n) with true
      by (symmetry; apply Z.eqb_eq; rewrite Z.add_0_l, Z.mul_comm, Z.div_mul; lia).
    reflexivity.
  - rewrite simplify_size. cbn [res_size] in Hsz. lia.
  - intros rho. destruct (Hvals rho) as (bs & Hall & Hval).
    exists bs. split; [exact Hall|]. rewrite simplify_sound. exact Hval.
Qed.
End ConcreteAccess.

(** ** Bytes and values *)

Lemma foldl_be_value (bs : list Z) (acc : Z) :
  foldl (fun acc b => acc * 256 + b) acc bs
  = acc * 256 ^ Z.of_nat (length bs) + be_value bs.
Proof.
  unfold be_value. revert acc. induction bs as [|b bs IH]; intros acc.
  - cbn [foldl length]. change (Z.of_nat 0) with 0. lia.
  - cbn [foldl length]. rewrite (IH (acc * 256 + b)), (IH (0 * 256 + b)).
    rewrite Nat2Z.inj_succ, Z.pow_succ_r by lia. ring.
Qed.

(** The bytes of a value, most significant first, make up the value. *)
Lemma be_value_bytes (V : Z) (k : nat) :
  be_value (byte_of V <$> reverse (seqZ 0 (Z.of_nat k))) = V mod 2 ^ (8 * Z.of_nat k).
Proof.
  induction k as [|k IH].
  - change (8 * Z.of_nat 0) with 0. rewrite Z.pow_0_r, Z.mod_1_r. reflexivity.
  - rewrite seqZ_S, reverse_snoc, fmap_cons. unfold be_value. cbn [foldl].
    rewrite foldl_be_value, IH.
    rewrite length_fmap, length_reverse, length_seqZ, Nat2Z.id.
    unfold byte_of. rewrite Z.add_0_l.
    replace (8 * Z.of_nat (S k)) with (8 * Z.of_nat k + 8) by lia.
    rewrite Z.pow_add_r by lia. change (2 ^ 8) with 256.
    rewrite Z.rem_mul_r by lia.
    replace (256 ^ Z.of_nat k) with (2 ^ (8 * Z.of_nat k))
      by (rewrite Z.pow_mul_r by lia; reflexivity).
    rewrite Z.add_0_l. ring.
Qed.

Lemma reverse_seqZ (k : nat) :
  reverse (seqZ 0 (Z.of_nat k)) = (fun j => Z.of_nat k - 1 - j) <$> seqZ 0 (Z.of_nat k).
Proof.
  induction k as [|k IH]; [reflexivity|].
  rewrite seqZ_S at 1. rewrite reverse_snoc, IH.
  rewrite (seqZ_cons 0 (Z.of_nat (S k))) by lia. rewrite fmap_cons.
  f_equal; [lia|].
  replace (Z.pred (Z.of_nat (S k))) with (Z.of_nat k) by lia.
  change (Z.succ 0) with (1 + 0). rewrite <- fmap_add_seqZ, <- list_fmap_compose.
  apply list_fmap_ext. intros i j _. cbn. lia.
Qed.

(** What [load] assembles from the bytes that [store] has written. *)
Lemma be_value_stored (V : Z) (endness : string) (n : Z) :
  0 <= n ->
  be_value ((fun j => byte_of V (store_offset endness n j)) <$> load_order endness n)
  = V mod 2 ^ (8 * n).
Proof.
  intros Hn. rewrite <- (Z2Nat.id n Hn). rewrite <- be_value_bytes.
  f_equal. unfold load_order, store_offset.
  destruct (String.eqb endness "little"); [reflexivity|].
  rewrite reverse_seqZ, <- list_fmap_compose. reflexivity.
Qed.

Lemma Forall2_Some_fmap {A B} (F : A -> option B) (g : A -> B) (L : list A) bs :
  Forall2 (fun j b => F j = Some b) L bs ->
  (forall j, j ∈ L -> F j = Some (g j)) ->
  bs = g <$> L.
Proof.
  induction 1 as [|j b L bs Hj _ IH]; intros Hg; [reflexivity|].
  rewrite fmap_cons. f_equal.
  - specialize (Hg j ltac:(left)). congruence.
  - apply IH. intros i Hi. apply Hg. right. exact Hi.
Qed.

Lemma Forall2_Some_agree {A B} (F F' : A -> option B) (L : list A) bs bs' :
  Forall2 (fun j b => F j = Some b) L bs ->
  Forall2 (fun j b => F' j = Some b) L bs' ->
  (forall j, F' j = F j) ->
  bs = bs'.
Proof.
  intros H. revert bs'. induction H as [|j b L bs Hj _ IH]; intros bs' H' Heq.
  - inversion H'. reflexivity.
  - inversion H' as [|j' b' L' bs'' Hj' Hrest]; subst.
    rewrite Heq in Hj'. f_equal; [congruence | apply IH; assumption].
Qed.

Lemma elem_of_load_order (endness : string) (n j : Z) :
  j ∈ load_order endness n <-> 0 <= j < n.
Proof.
  unfold load_order. destruct (String.eqb endness "little");
    rewrite ?elem_of_reverse, elem_of_seqZ; lia.
Qed.


(** ** Round trip (C1) *)

(** C1.  The round trip does not hold at every address of a mapped region.
    For [Memory(state, 2**29, 64)] the constructor's floating-point
    logarithm gives [index_bits = 30].  [mmap(2**29, 2**29)] maps the page
    of slot [2**29 // page_size = 1]; [store] and [load] at the address
    [2**29], the first one of the region, split the address at bit 30 and
    look for slot 0, which is not mapped: both raise [AssertionError]. *)
Theorem store_in_mapped_region_fails :
  let w :=
    world_after
      (let* m := Memory.init (B := log_store) (PM := cpython_math) 0%nat (2 ^ 29) 64 in
       Memory.mmap m (2 ^ 29) (2 ^ 29) None)
      {| Memory.heap := []; Memory.memories := [];
         Memory.states := [ {| State.constraints := [] |} ];
         Memory.errored := [] |} in
  (exists m,
     Memory.memories w !! 0%nat = Some m /\
     Memory.page_size m = 2 ^ 29 /\ Memory.index_bits m = 30 /\
     dict_keys (Memory.pages m) = [1]) /\
  (exists w',
     Memory.store (B := log_store) (S := fold_simplifier) (V := enum_solver)
       (O := heuristic_on) 0%nat (bvv (2 ^ 29) 64) (BVV 0xAB 8) "big" w
     = Fail AssertionError w') /\
  Memory.load (B := log_store) (S := fold_simplifier) (V := enum_solver)
    (O := heuristic_on) 0%nat (bvv (2 ^ 29) 64) 1 "big" w
  = Fail AssertionError w.
Proof.
  split; [eexists; repeat split; vm_compute; reflexivity|].
  split; [eexists; vm_compute; reflexivity | vm_compute; reflexivity].
Qed.

Lemma remap_world_wf : mem_wf (B := log_store) remap_world 0%nat remap_memory.
Proof.
  split; [reflexivity|]. split; [cbn; lia|]. split; [apply NoDup_singleton|].
  intros k r H. cbn [dict_get remap_memory Memory.pages] in H.
  destruct (1 =? k) eqn:E; [|discriminate].
  apply Z.eqb_eq in E as <-. injection H as <-. eexists.
  split; [reflexivity|]. split; reflexivity.
Qed.

Lemma remap_memory_constructed : constructed (PM := cpython_math) remap_memory.
Proof. split; [reflexivity|]. split; reflexivity. Qed.

Lemma remap_memory_mapped (a n : Z) :
  4 <= a -> 0 <= n -> a + n <= 8 -> mapped_range remap_memory a n.
Proof.
  intros Ha Hn Han j Hj. unfold slot_of, byte_address.
  cbn [remap_memory Memory.index_bits Memory.bits Memory.pages].
  change (2 ^ 8) with 256. change (2 ^ 2) with 4.
  rewrite Z.mod_small by lia.
  replace ((a + j) / 4) with 1 by (apply Z.div_unique with (a + j - 4); lia).
  reflexivity.
Qed.


(** ** Copy-on-write isolation (C2) *)

Section Isolation.
Context {B : MemoryObj} {BL : MemoryObjLaws B}.
Context {S : Z3Simplifier} {SL : Z3SimplifierLaws S}.
Context {V : Solver} {O : Options} {PM : PyMath}.


Lemma dict_get_elem_of_refs (k : Z) (r : nat) (d : list (Z * nat)) :
  dict_get k d = Some r -> r ∈ d.*2.
Proof.
  induction d as [|[k0 r0] d IH]; cbn [dict_get fmap list_fmap snd]; [discriminate|].
  destruct (k0 =? k); intros H.
  - injection H as ->. left.
  - right. apply IH. exact H.
Qed.

Lemma entries_wf_mark_all (refs : list nat) (h : Page.heap) d :
  entries_wf h d -> entries_wf (mark_all refs h) d.
Proof.
  intros Hwf k r Hk. destruct (Hwf k r Hk) as (p & Hp & Ha & Hf).
  rewrite lookup_mark_all, Hp. cbn [fmap option_fmap option_map].
  destruct (bool_decide (r ∈ refs)); eexists; (split; [reflexivity|]);
    split; assumption.
Qed.

Lemma byte_at_mark_all rho (refs : list nat) (h : Page.heap) d k off :
  byte_at rho (mark_all refs h) d k off = byte_at rho h d k off.
Proof.
  unfold byte_at. destruct (dict_get k d) as [r|]; [|reflexivity].
  rewrite lookup_mark_all. destruct (h !! r) as [p|]; [|reflexivity].
  cbn [fmap option_fmap option_map].
  destruct (bool_decide (r ∈ refs)); [rewrite content_set_lazycopy|]; reflexivity.
Qed.

(** After [copy], the table that both memories have can only diverge
    through copy-on-write: each of its pages is marked. *)
Lemma isolated_mark_all (h : Page.heap) d :
  entries_wf h d -> isolated (mark_all (d.*2) h) d d.
Proof.
  intros Hwf.
  assert (Hex : exclusive (mark_all (d.*2) h) d d).
  { intros k r p Hk Hp Hflag. exfalso.
    rewrite lookup_mark_all in Hp.
    rewrite (bool_decide_eq_true_2 _ (dict_get_elem_of_refs k r d Hk)) in Hp.
    destruct (h !! r) as [p0|]; [|discriminate].
    cbn [fmap option_fmap option_map] in Hp. injection Hp as <-.
    cbn [Page.set_lazycopy Page._lazycopy] in Hflag. discriminate. }
  repeat split; try (apply entries_wf_mark_all; exact Hwf); exact Hex.
Qed.

(** Two loads that find the same bytes return equal values. *)
Lemma load_concrete_agree (w w' : Memory.World) self self' m m' a n endness :
  mem_wf w self m -> mem_wf w' self' m' ->
  Memory.bits m' = Memory.bits m -> Memory.index_bits m' = Memory.index_bits m ->
  0 < n -> mapped_range m a n -> mapped_range m' a n ->
  (forall rho k off,
     byte_at rho (Memory.heap w') (Memory.pages m') k off
     = byte_at rho (Memory.heap w) (Memory.pages m) k off) ->
  exists r r',
    returns (Memory.load self (bvv a (Memory.bits m)) n endness) w r /\
    returns (Memory.load self' (bvv a (Memory.bits m)) n endness) w' r' /\
    bv_equiv r r'.
Proof using BL SL.
  intros Hwf Hwf' Hbits Hib Hn Hmap Hmap' Hsame.
  destruct (load_concrete w self m a n endness Hwf Hn Hmap)
    as (h1 & r & Hl & _ & Hsz & Hv).
  destruct (load_concrete w' self' m' a n endness Hwf' Hn Hmap')
    as (h1' & r' & Hl' & _ & Hsz' & Hv').
  rewrite Hbits in Hl'.
  exists r, r'. split; [eexists; exact Hl|]. split; [eexists; exact Hl'|].
  split; [lia|]. intros rho.
  destruct (Hv rho) as (bs & Hall & ->). destruct (Hv' rho) as (bs' & Hall' & ->).
  f_equal. eapply Forall2_Some_agree; [exact Hall | exact Hall' |].
  intros j. cbv beta. rewrite Hbits, Hib. apply Hsame.
Qed.
End Isolation.


(** ** Sharing among more than two memories *)

(** [Page.store] clears [_lazycopy] on the page object it copies from, and
    that object stays in the tables of the other memories.  After
    [M2 = M.copy()], [M3 = M.copy()] and a store into [M3], the page that [M]
    and [M2] still share is no longer marked: a store into [M2] writes it in
    place, and [M.load] then returns the byte stored into [M2]. *)
Theorem store_after_third_copy_in_place :
  returns (Memory.load (B := log_store) (S := fold_simplifier) (V := enum_solver)
             (O := heuristic_on) 0%nat (bvv 5 8) 1 "big")
          third_owner_world (BVV 0 8) /\
  exists w',
    Memory.store (B := log_store) (S := fold_simplifier) (V := enum_solver)
      (O := heuristic_on) 1%nat (bvv 5 8) (BVV 0xAA 8) "big" third_owner_world
    = Ok tt w' /\
    Memory.pages <$> Memory.memories w' !! 0%nat = Some [(1, 0%nat)] /\
    Memory.pages <$> Memory.memories w' !! 1%nat = Some [(1, 0%nat)] /\
    returns (Memory.load (B := log_store) (S := fold_simplifier) (V := enum_solver)
               (O := heuristic_on) 0%nat (bvv 5 8) 1 "big")
            w' (BVV 0xAA 8).
Proof.
  split; [eexists; vm_compute; reflexivity|].
  eexists. split; [vm_compute; reflexivity|].
  split; [reflexivity|]. split; [reflexivity|].
  eexists; vm_compute; reflexivity.
Qed.

(** * Further properties of the code *)

(** ** [get_unmapped]: what the two scans compute *)

(** Forward scan over mapped slots: candidate and position advance
    together. *)
Lemma forward_scan_mapped {V} (pages : list (Z * V)) last size k :
  size <> 0 -> k <= last + 1 ->
  forall n j,
    Z.to_nat (k - j) = n -> j <= k ->
    (forall s, j <= s < k -> dict_mem s pages = true) ->
    get_unmapped_loop pages last size false j j 0 =
    get_unmapped_loop pages last size false k k 0.
Proof.
  intros Hsize Hk. induction n as [|n IH]; intros j Hn Hjk Hmapped.
  - replace j with k by lia. reflexivity.
  - rewrite get_unmapped_loop_step.
    replace ((j <=? last) && negb (0 =? size)) with true.
    2:{ symmetry. apply andb_true_iff. split; [apply Z.leb_le; lia|].
        apply negb_true_iff, Z.eqb_neq. lia. }
    cbn zeta. rewrite (Hmapped j) by lia. cbn [negb].
    apply IH; [lia | lia |]. intros s Hs. apply Hmapped. lia.
Qed.

(** Backward scan from slot [i] down to slot [lo], when no run of [size]
    free slots starts above [lo]: the scan does not stop, and the counter
    holds the length of the free run that starts at [lo + 1]. *)
Lemma backward_scan_down {V} (pages : list (Z * V)) last size lo :
  0 < size -> 1 <= lo ->
  (forall g', lo < g' -> g' + size - 1 <= last -> ~ free_run pages g' size) ->
  forall n i c,
    Z.to_nat (i - lo) = n -> lo <= i <= last ->
    0 <= c < size -> free_run pages (i + 1) c -> i + c <= last ->
    (i + c = last \/ dict_mem (i + c + 1) pages = true) ->
    exists c',
      get_unmapped_loop pages last size true i (last + 2 - i) c =
      get_unmapped_loop pages last size true lo (last + 2 - lo) c' /\
      0 <= c' < size /\ free_run pages (lo + 1) c' /\
      (lo + c' = last \/ dict_mem (lo + c' + 1) pages = true).
Proof.
  intros Hsize Hlo Hnofit.
  induction n as [|n IH]; intros i c Hn Hi Hc Hfree Hle Hmax.
  - replace i with lo in * by lia. exists c. repeat split; try assumption; lia.
  - rewrite get_unmapped_loop_step.
    replace ((last + 2 - i <=? last) && negb (c =? size)) with true.
    2:{ symmetry. apply andb_true_iff. split; [apply Z.leb_le; lia|].
        apply negb_true_iff, Z.eqb_neq. lia. }
    cbn zeta. replace (last + 2 - i + 1) with (last + 2 - (i - 1)) by lia.
    destruct (dict_mem i pages) eqn:Hslot; cbn [negb].
    + apply IH; [lia | lia | lia | | lia |].
      * intros s Hs. lia.
      * right. replace (i - 1 + 0 + 1) with i by lia. exact Hslot.
    + assert (Hrun : free_run pages i (c + 1)).
      { intros s Hs. destruct (Z.eq_dec s i) as [->|Hne]; [exact Hslot|].
        apply Hfree. lia. }
      assert (Hlt : c + 1 < size).
      { destruct (Z.eq_dec (c + 1) size) as [Heq|Hne]; [|lia].
        exfalso. apply (Hnofit i); [lia | lia |]. rewrite <- Heq. exact Hrun. }
      apply IH; [lia | lia | lia | | lia |].
      * replace (i - 1 + 1) with i by lia. exact Hrun.
      * replace (i - 1 + (c + 1)) with (i + c) by lia. exact Hmax.
Qed.

Section GetUnmappedScans.
Context {B : MemoryObj}.

(** The forward scan ([from_end = False]) ignores [size]: for every
    [size] other than 0 it returns the lowest free slot of the range
    [2..last_page]. *)
Theorem get_unmapped_forward_lowest_free
    (w : Memory.World) (self : nat) (m : Memory.t) (size k : Z) :
  Memory.memories w !! self = Some m ->
  size <> 0 ->
  2 <= k <= last_page m ->
  dict_mem k (Memory.pages m) = false ->
  (forall s, 2 <= s < k -> dict_mem s (Memory.pages m) = true) ->
  Memory.get_unmapped self size false w = Ok k w.
Proof.
  intros Hm Hsize Hk Hfree Hmapped.
  unfold Memory.get_unmapped, Memory.deref, bind, ret. rewrite Hm. f_equal.
  fold (last_page m).
  rewrite (forward_scan_mapped _ (last_page m) size k Hsize ltac:(lia)
             (Z.to_nat (k - 2)) 2 eq_refl ltac:(lia) Hmapped).
  eapply forward_scan_stays; [exact Hfree | reflexivity].
Qed.

(** The backward scan ([from_end = True]) finds the highest run of [size]
    free slots of the range [2..last_page] and returns the slot below the
    slot [g] at which that run starts. *)
Theorem get_unmapped_from_end_highest_run
    (w : Memory.World) (self : nat) (m : Memory.t) (size g : Z) :
  Memory.memories w !! self = Some m ->
  0 < size -> 2 <= g -> g + size - 1 <= last_page m ->
  free_run (Memory.pages m) g size ->
  (forall g', g < g' -> g' + size - 1 <= last_page m ->
     ~ free_run (Memory.pages m) g' size) ->
  Memory.get_unmapped self size true w = Ok (g - 1) w.
Proof.
  intros Hm Hsize Hg Hfit Hrun Hhighest.
  unfold Memory.get_unmapped, Memory.deref, bind, ret. rewrite Hm. f_equal.
  fold (last_page m). set (last := last_page m) in *.
  destruct (backward_scan_down (Memory.pages m) last size g Hsize ltac:(lia)
              Hhighest (Z.to_nat (last - g)) last 0 eq_refl ltac:(lia) ltac:(lia))
    as (c & Hscan & Hc & Hfree & Hmax).
  { intros s Hs. lia. }
  { lia. }
  { left. lia. }
  replace (last + 2 - last) with 2 in Hscan by lia. rewrite Hscan.
  assert (Hceq : c = size - 1).
  { destruct (Z.eq_dec c (size - 1)) as [|Hne]; [assumption|]. exfalso.
    destruct Hmax as [Hmax|Hmax]; [lia|].
    rewrite (Hrun (g + c + 1)) in Hmax by lia. discriminate. }
  subst c. rewrite get_unmapped_loop_step.
  replace ((last + 2 - g <=? last) && negb (size - 1 =? size)) with true.
  2:{ symmetry. apply andb_true_iff. split; [apply Z.leb_le; lia|].
      apply negb_true_iff, Z.eqb_neq. lia. }
  cbn zeta. rewrite (Hrun g) by lia. cbn [negb].
  rewrite get_unmapped_loop_step.
  replace (size - 1 + 1 =? size) with true by (symmetry; apply Z.eqb_eq; lia).
  rewrite andb_false_r. reflexivity.
Qed.

(** When nothing fits, no error is raised and a slot outside the scanned
    range is returned: the forward scan returns [last_page + 1] when no slot
    of [2..last_page] is free, the backward scan returns 1 when no run of
    [size] free slots exists. *)
Theorem get_unmapped_not_found
    (w : Memory.World) (self : nat) (m : Memory.t) (size : Z) :
  Memory.memories w !! self = Some m ->
  0 < size -> 2 <= last_page m ->
  ((forall s, 2 <= s <= last_page m -> dict_mem s (Memory.pages m) = true) ->
   Memory.get_unmapped self size false w = Ok (last_page m + 1) w) /\
  ((forall g, 2 <= g -> g + size - 1 <= last_page m ->
      ~ free_run (Memory.pages m) g size) ->
   Memory.get_unmapped self size true w = Ok 1 w).
Proof.
  intros Hm Hsize Hlast. split.
  - intros Hmapped.
    unfold Memory.get_unmapped, Memory.deref, bind, ret. rewrite Hm. f_equal.
    fold (last_page m). set (last := last_page m) in *.
    rewrite (forward_scan_mapped _ last size (last + 1) ltac:(lia) ltac:(lia)
               (Z.to_nat (last + 1 - 2)) 2 eq_refl ltac:(lia)).
    + rewrite get_unmapped_loop_step.
      replace (last + 1 <=? last) with false by (symmetry; apply Z.leb_gt; lia).
      reflexivity.
    + intros s Hs. apply Hmapped. lia.
  - intros Hnofit.
    unfold Memory.get_unmapped, Memory.deref, bind, ret. rewrite Hm. f_equal.
    fold (last_page m). set (last := last_page m) in *.
    destruct (backward_scan_down (Memory.pages m) last size 1 Hsize ltac:(lia)
                ltac:(intros g' Hg'; apply Hnofit; lia)
                (Z.to_nat (last - 1)) last 0 eq_refl ltac:(lia) ltac:(lia))
      as (c & Hscan & _).
    { intros s Hs. lia. }
    { lia. }
    { left. lia. }
    replace (last + 2 - last) with 2 in Hscan by lia. rewrite Hscan.
    rewrite get_unmapped_loop_step.
    replace (last + 2 - 1 <=? last) with false by (symmetry; apply Z.leb_gt; lia).
    reflexivity.
Qed.
End GetUnmappedScans.

Lemma gap_memory_slots (k : Z) :
  2 <= k <= 60 -> dict_mem k (Memory.pages gap_memory) = false <-> 5 <= k <= 7.
Proof. apply dict_mem_false_iff_range. vm_compute. reflexivity. Qed.

Lemma full_memory_slots (k : Z) :
  2 <= k <= 60 -> dict_mem k (Memory.pages full_memory) = true.
Proof.
  intros Hk. destruct (dict_mem k (Memory.pages full_memory)) eqn:E; [reflexivity|].
  apply (dict_mem_false_iff_range (Memory.pages full_memory) 2 60 1 0) in E;
    [lia | vm_compute; reflexivity | exact Hk].
Qed.

(** Slots 2, 3, 4 mapped and slot 5 free: a run of three slots is reported
    at slot 5. *)
Lemma get_unmapped_forward_lowest_free_witness :
  Memory.get_unmapped (B := log_store) 0%nat 3 false gap_world = Ok 5 gap_world.
Proof.
  apply (get_unmapped_forward_lowest_free gap_world 0%nat gap_memory 3 5).
  - reflexivity.
  - lia.
  - vm_compute. split; discriminate.
  - reflexivity.
  - intros s Hs. destruct (dict_mem s (Memory.pages gap_memory)) eqn:E;
      [reflexivity|]. apply gap_memory_slots in E; lia.
Defined.

(** Free slots 5, 6, 7: the highest run of two free slots starts at 6, and
    the scan returns 5. *)
Lemma get_unmapped_from_end_highest_run_witness :
  Memory.get_unmapped (B := log_store) 0%nat 2 true gap_world = Ok (6 - 1) gap_world.
Proof.
  apply (get_unmapped_from_end_highest_run gap_world 0%nat gap_memory 2 6).
  - reflexivity.
  - lia.
  - lia.
  - vm_compute. discriminate.
  - intros s Hs. apply gap_memory_slots; lia.
  - intros g' Hg' Hfit Hrun. change (last_page gap_memory) with 60 in Hfit.
    specialize (Hrun (g' + 1) ltac:(lia)). apply gap_memory_slots in Hrun; lia.
Defined.

(** Every slot of 2..60 mapped: the forward scan returns 61 and the backward
    scan returns 1. *)
Lemma get_unmapped_not_found_witness :
  Memory.get_unmapped (B := log_store) 0%nat 1 false full_world = Ok 61 full_world /\
  Memory.get_unmapped (B := log_store) 0%nat 1 true full_world = Ok 1 full_world.
Proof.
  destruct (get_unmapped_not_found full_world 0%nat full_memory 1 eq_refl
              ltac:(lia) ltac:(vm_compute; discriminate)) as [Hfwd Hbwd].
  split.
  - apply Hfwd. intros s Hs. apply full_memory_slots. exact Hs.
  - apply Hbwd. intros g Hg Hfit Hrun. change (last_page full_memory) with 60 in Hfit.
    specialize (Hrun g ltac:(lia)). rewrite full_memory_slots in Hrun by lia.
    discriminate.
Defined.

(** ** utility/z3_wrap_util.py *)

Lemma bvv_from_bytes_fold (val : list Z) :
  forall (res : option bv),
    Forall (fun c => 0 <= c < 256) val -> 0 <= res_size res ->
    let res' := foldl (fun res c =>
                         let v := bvv c 8 in
                         match res with
                         | Some r => Some (Concat r v)
                         | None => Some v
                         end) res val in
    res_size res' = res_size res + 8 * Z.of_nat (length val) /\
    (res' = None <-> res = None /\ val = []) /\
    forall rho,
      res_value rho res' = foldl (fun acc b => acc * 256 + b) (res_value rho res) val.
Proof.
  induction val as [|c val IH]; intros res Hbytes Hsize; cbn [foldl length].
  - split; [lia|]. split; [tauto|]. reflexivity.
  - apply Forall_cons in Hbytes as [Hc Hbytes].
    set (res1 := match res with
                 | Some r => Some (Concat r (bvv c 8))
                 | None => Some (bvv c 8)
                 end).
    assert (Hsize1 : res_size res1 = res_size res + 8)
      by (subst res1; destruct res; cbn [res_size bv_size bvv]; lia).
    assert (Hval1 : forall rho, res_value rho res1 = res_value rho res * 256 + c).
    { intros rho. subst res1.
      destruct res as [r|]; cbn [res_value res_size eval bv_size bvv] in *.
      - pose proof (eval_range rho r Hsize) as Hr. change (2 ^ 8) with 256.
        rewrite (Z.mod_small c 256) by lia. rewrite (Z.mod_small c 256) by lia.
        apply Z.mod_small. rewrite Z.pow_add_r by lia. change (2 ^ 8) with 256. nia.
      - change (2 ^ 8) with 256. rewrite Z.mod_mod by lia.
        rewrite Z.mod_small by lia. lia. }
    destruct (IH res1 Hbytes ltac:(lia)) as (Hs & Hnone & Hv). cbv zeta in *.
    split; [rewrite Hs, Hsize1; lia|]. split.
    + rewrite Hnone. split; [|intros [_ ?]; discriminate].
      intros [H _]. subst res1. destruct res; discriminate.
    + intros rho. rewrite Hv, Hval1. reflexivity.
Qed.

(** [bvv_from_bytes] returns [None] on the empty byte string and on no
    other; otherwise the term it returns is [8 * len(val)] bits wide and its
    value is the number that the bytes spell, first byte most significant. *)
Theorem bvv_from_bytes_value (val : list Z) :
  Forall (fun c => 0 <= c < 256) val ->
  (bvv_from_bytes val = None <-> val = []) /\
  forall e, bvv_from_bytes val = Some e ->
    bv_size e = 8 * Z.of_nat (length val) /\
    forall rho, eval rho e = be_value val.
Proof.
  intros Hbytes.
  destruct (bvv_from_bytes_fold val None Hbytes ltac:(reflexivity))
    as (Hs & Hnone & Hv). cbv zeta in *. fold (bvv_from_bytes val) in *.
  split; [rewrite Hnone; tauto|].
  intros e He. rewrite He in *. cbn [res_size res_value] in *.
  split; [lia|]. intros rho. rewrite Hv. reflexivity.
Qed.

Lemma bvv_from_bytes_value_witness :
  exists e, bvv_from_bytes [0xDE; 0xAD] = Some e /\
            bv_size e = 16 /\ forall rho, eval rho e = 0xDEAD.
Proof.
  eexists. split; [reflexivity|].
  apply (bvv_from_bytes_value [0xDE; 0xAD]); [|reflexivity].
  repeat constructor; lia.
Defined.

Section Z3WrapUtilFacts.
Context {S : Z3Simplifier} {SL : Z3SimplifierLaws S}.

(** [split_bv] cuts a term at bit [split_index]: the two parts have
    [size - split_index] and [split_index] bits, and the high part shifted
    left by [split_index] plus the low part is the value of the term.  It
    raises unless [0 < split_index < size]. *)
Theorem split_bv_recombine {St} (e : bv) (split_index : Z) (s : St) :
  (0 < split_index < bv_size e ->
   exists hi lo,
     split_bv e split_index s = Ok (hi, lo) s /\
     bv_size hi = bv_size e - split_index /\ bv_size lo = split_index /\
     forall rho, eval rho hi * 2 ^ split_index + eval rho lo = eval rho e) /\
  (~ 0 < split_index < bv_size e ->
   split_bv e split_index s = Fail Z3Exception s).
Proof using SL.
  split.
  - intros H. eexists. eexists. split; [apply split_bv_Ok; exact H|].
    rewrite !simplify_size. cbn [bv_size]. split; [lia|]. split; [lia|].
    intros rho. rewrite !simplify_sound. cbn [eval].
    pose proof (eval_range rho e ltac:(lia)) as Hr.
    change (2 ^ 0) with 1. rewrite Z.div_1_r.
    replace (split_index - 1 - 0 + 1) with split_index by lia.
    replace (bv_size e - 1 - split_index + 1) with (bv_size e - split_index) by lia.
    assert (Hi : 0 < 2 ^ split_index) by (apply Z.pow_pos_nonneg; lia).
    assert (Hpow : 2 ^ bv_size e = 2 ^ split_index * 2 ^ (bv_size e - split_index))
      by (rewrite <- Z.pow_add_r by lia; f_equal; lia).
    rewrite (Z.mod_small (eval rho e / 2 ^ split_index)).
    + rewrite Z.mul_comm. symmetry. apply Z.div_mod. lia.
    + split; [apply Z.div_pos; lia|]. apply Z.div_lt_upper_bound; lia.
  - intros H. unfold split_bv, z3_Extract, bind, ret, raise.
    destruct ((0 <=? split_index) && (split_index <=? bv_size e - 1) &&
              (bv_size e - 1 <? bv_size e)) eqn:E1; [|reflexivity].
    destruct ((0 <=? 0) && (0 <=? split_index - 1) && (split_index - 1 <? bv_size e))
      eqn:E2; [|reflexivity].
    exfalso. apply H. lia.
Qed.

(** [bvv_to_long] on a term that [symbolic] rejects returns the number that
    the term denotes under every valuation; on a term that [symbolic]
    accepts it raises [AssertionError].  On [bvv(v, n)] it returns [v]
    reduced modulo [2^n]. *)
Theorem bvv_to_long_value {St} (val : bv) (s : St) :
  (symbolic val = false ->
   exists x, bvv_to_long val s = Ok x s /\
             forall rho, eval rho val = x mod 2 ^ bv_size val) /\
  (symbolic val = true -> bvv_to_long val s = Fail AssertionError s) /\
  (forall v n, bvv_to_long (bvv v n) s = Ok (v mod 2 ^ n) s).
Proof using SL.
  split; [|split].
  - intros Hsym. unfold bvv_to_long. rewrite Hsym. cbn [negb assert].
    unfold bind, ret. unfold symbolic in Hsym.
    destruct (simplify val) as [x sz| | | | | |] eqn:E; try discriminate.
    exists x. split; [reflexivity|]. intros rho.
    rewrite <- (simplify_sound rho val), <- (simplify_size val), E. reflexivity.
  - unfold bvv_to_long. intros ->. reflexivity.
  - intros v n. unfold bvv_to_long. rewrite symbolic_bvv. cbn [negb assert].
    unfold bind, ret, bvv. rewrite (simplify_ground (BVV _ _) eq_refl).
    cbn [eval bv_size].
    destruct (Z.eq_dec (2 ^ n) 0) as [H0|H0].
    + rewrite H0. rewrite !Z.mod_0_r. reflexivity.
    + rewrite !Z.mod_mod by exact H0. reflexivity.
Qed.
End Z3WrapUtilFacts.

(** *** The worklist of [heuristic_find_base] *)

Lemma term_nodes_children (t : term) :
  term_nodes t = Datatypes.S (fringe_nodes (children t)).
Proof.
  destruct t as [e|c]; [destruct e | destruct c];
    cbn [term_nodes children fringe_nodes foldr bv_nodes bexpr_nodes]; lia.
Qed.

Lemma fringe_nodes_app (l1 l2 : list term) :
  fringe_nodes (l1 ++ l2) = (fringe_nodes l1 + fringe_nodes l2)%nat.
Proof.
  induction l1 as [|t l1 IH]; [reflexivity|].
  cbn [app fringe_nodes foldr] in *. fold (fringe_nodes (l1 ++ l2)).
  fold (fringe_nodes l1). lia.
Qed.

Lemma fringe_nodes_pop (fringe rest : list term) (el : term) :
  rev fringe = el :: rest ->
  fringe = rev rest ++ [el] /\
  fringe_nodes (rev rest ++ children el) = Nat.pred (fringe_nodes fringe).
Proof.
  intros E. assert (Hf : fringe = rev rest ++ [el]).
  { rewrite <- (rev_involutive fringe), E. reflexivity. }
  split; [exact Hf|]. rewrite Hf, !fringe_nodes_app.
  cbn [fringe_nodes foldr]. rewrite (term_nodes_children el).
  fold (fringe_nodes (children el)). lia.
Qed.

Section FindBase.
Context {S : Z3Simplifier}.

(** Every pass of the loop takes one node off the fringe and puts its
    children there: with as many passes allowed as the fringe has nodes, the
    loop ends by itself, and allowing more changes nothing. *)
Lemma find_base_loop_fuel {St} (fuel : nat) :
  forall (fringe : list term),
    (fringe_nodes fringe <= fuel)%nat ->
    forall (fuel' : nat) (s : St),
      (fuel <= fuel')%nat ->
      heuristic_find_base_loop fuel' fringe s = heuristic_find_base_loop fuel fringe s.
Proof.
  induction fuel as [|fuel IH]; intros fringe Hn fuel' s Hle.
  - assert (fringe = []) as ->.
    { destruct fringe as [|t l]; [reflexivity|].
      cbn [fringe_nodes foldr] in Hn. pose proof (term_nodes_children t). lia. }
    destruct fuel'; reflexivity.
  - destruct fuel' as [|fuel']; [lia|]. cbn [heuristic_find_base_loop].
    destruct (rev fringe) as [|el rest] eqn:E; [reflexivity|].
    destruct (fringe_nodes_pop fringe rest el E) as [Hf Hnodes].
    assert (Hcont : heuristic_find_base_loop fuel' (rev rest ++ children el) s =
                    heuristic_find_base_loop fuel (rev rest ++ children el) s).
    { apply IH; [|lia]. rewrite Hnodes. rewrite Hf, fringe_nodes_app in Hn.
      rewrite Hf, fringe_nodes_app. cbn [fringe_nodes foldr] in *.
      pose proof (term_nodes_children el). lia. }
    destruct (negb (symbolic_term el)); [|exact Hcont].
    unfold bind. destruct (as_long el s) as [v s1|e s1] eqn:Hv; [|reflexivity].
    assert (s1 = s) as ->.
    { unfold as_long in Hv. destruct el as [[]|]; inversion Hv; reflexivity. }
    destruct (MIN_BASE <? v); [reflexivity | exact Hcont].
Qed.

(** With as many passes allowed as the fringe has nodes, the bound is not
    what ends the loop. *)
Lemma find_base_loop_bound {St} (fuel : nat) :
  forall (fringe : list term) (s s' : St),
    (fringe_nodes fringe <= fuel)%nat ->
    heuristic_find_base_loop fuel fringe s <> Fail LoopBound s'.
Proof.
  induction fuel as [|fuel IH]; intros fringe s s' Hn.
  - assert (fringe = []) as ->.
    { destruct fringe as [|t l]; [reflexivity|].
      cbn [fringe_nodes foldr] in Hn. pose proof (term_nodes_children t). lia. }
    discriminate.
  - cbn [heuristic_find_base_loop].
    destruct (rev fringe) as [|el rest] eqn:E; [discriminate|].
    destruct (fringe_nodes_pop fringe rest el E) as [Hf Hnodes].
    assert (Hcont : heuristic_find_base_loop fuel (rev rest ++ children el) s
                    <> Fail LoopBound s').
    { apply IH. rewrite Hnodes. rewrite Hf, fringe_nodes_app in Hn.
      rewrite Hf, fringe_nodes_app. cbn [fringe_nodes foldr] in *.
      pose proof (term_nodes_children el). lia. }
    destruct (negb (symbolic_term el)); [|exact Hcont].
    unfold bind. destruct (as_long el s) as [v s1|e s1] eqn:Hv.
    + assert (s1 = s) as ->.
      { unfold as_long in Hv. destruct el as [[]|]; inversion Hv; reflexivity. }
      destruct (MIN_BASE <? v); [discriminate | exact Hcont].
    + unfold as_long in Hv. destruct el as [[]|]; inversion Hv; discriminate.
Qed.

(** The [while] loop of [heuristic_find_base] terminates: every pass takes
    one node of [val] off the fringe, so the loop has ended by itself after
    at most as many passes as [val] has nodes.  In the model, the bound of
    [bv_nodes val] passes is never what stops the loop, and allowing any
    larger number [n] of passes gives the same result. *)
Theorem heuristic_find_base_terminates {St} (val : bv) (n : nat) (s : St) :
  (bv_nodes val <= n)%nat ->
  (forall s', heuristic_find_base val s <> Fail LoopBound s') /\
  (forall s', heuristic_find_base_loop n (children (TBv val)) s <> Fail LoopBound s') /\
  heuristic_find_base_loop n (children (TBv val)) s = heuristic_find_base val s.
Proof.
  intros Hn.
  pose proof (term_nodes_children (TBv val)) as H. cbn [term_nodes] in H.
  unfold heuristic_find_base.
  split; [intros s'; apply find_base_loop_bound; lia|].
  split; [intros s'; apply find_base_loop_bound; lia|].
  apply find_base_loop_fuel; [lia | exact Hn].
Qed.

Lemma find_base_loop_result {St} (root : term) (fuel : nat) :
  forall (fringe : list term) (s s' : St) (b : Z),
    (forall t, In t fringe -> subterm_of root t) ->
    heuristic_find_base_loop fuel fringe s = Ok b s' ->
    s' = s /\
    (b = -1 \/ MIN_BASE < b /\ exists sz, subterm_of root (TBv (BVV b sz))).
Proof.
  induction fuel as [|fuel IH]; intros fringe s s' b Hsub Hrun.
  - cbn [heuristic_find_base_loop] in Hrun. destruct fringe; [|discriminate].
    inversion Hrun. split; [reflexivity | left; reflexivity].
  - cbn [heuristic_find_base_loop] in Hrun.
    destruct (rev fringe) as [|el rest] eqn:E.
    { inversion Hrun. split; [reflexivity | left; reflexivity]. }
    assert (Hel : subterm_of root el).
    { apply Hsub. apply in_rev. rewrite E. left. reflexivity. }
    assert (Hnext : forall t, In t (rev rest ++ children el) -> subterm_of root t).
    { intros t Ht. apply in_app_or in Ht as [Ht|Ht].
      - apply Hsub. apply in_rev. rewrite E. right. apply in_rev. exact Ht.
      - eapply sub_deeper; [exact Hel|]. apply list_elem_of_In. exact Ht. }
    destruct (negb (symbolic_term el)); [|exact (IH _ _ _ _ Hnext Hrun)].
    unfold bind in Hrun. destruct (as_long el s) as [v s1|e s1] eqn:Hv;
      [|discriminate].
    unfold as_long in Hv. destruct el as [[v0 sz| | | | | |]|]; inversion Hv; subst.
    destruct (MIN_BASE <? v) eqn:Hbig; [|exact (IH _ _ _ _ Hnext Hrun)].
    inversion Hrun; subst. split; [reflexivity|]. right.
    split; [apply Z.ltb_lt; exact Hbig|]. exists sz. exact Hel.
Qed.

(** What [heuristic_find_base] returns is either -1 or the value of a
    literal that occurs in [val] below its root, and then it is greater
    than [MIN_BASE]. *)
Theorem heuristic_find_base_result {St} (val : bv) (s s' : St) (b : Z) :
  heuristic_find_base val s = Ok b s' ->
  s' = s /\
  (b = -1 \/ MIN_BASE < b /\ exists sz, subterm_of (TBv val) (TBv (BVV b sz))).
Proof.
  unfold heuristic_find_base. apply find_base_loop_result.
  intros t Ht. apply sub_child. apply list_elem_of_In. exact Ht.
Qed.
End FindBase.

Section FindBaseLaws.
Context {S : Z3Simplifier} {SL : Z3SimplifierLaws S}.

(** [heuristic_find_base] calls [as_long] on the operand as it stands,
    where [symbolic] has looked at its simplified form: when the last
    operand of [val] is a constant expression that is not a literal, as in
    [x + (0x20000 + 8)], the call raises [AttributeError]. *)
Theorem heuristic_find_base_constant_operand {St} (val g : bv) (s : St) :
  last (children (TBv val)) = Some (TBv g) ->
  ground g = true ->
  (forall v sz, g <> BVV v sz) ->
  heuristic_find_base val s = Fail AttributeError s.
Proof using SL.
  intros Hlast Hg Hnl. unfold heuristic_find_base.
  assert (Hfuel : exists k, bv_nodes val = Datatypes.S k)
    by (destruct val; cbn [bv_nodes]; eauto).
  destruct Hfuel as [k ->]. cbn [heuristic_find_base_loop].
  apply last_Some in Hlast as [l Hl]. rewrite Hl, rev_app_distr. cbn [rev app].
  cbn [symbolic_term]. unfold symbolic. rewrite (simplify_ground g Hg).
  cbn [negb]. unfold bind, as_long.
  destruct g; try reflexivity. exfalso. eapply Hnl. reflexivity.
Qed.
End FindBaseLaws.

Lemma heuristic_find_base_terminates_witness :
  heuristic_find_base (S := fold_simplifier)
    (BVAdd (BVS "x" 32) (BVS "y" 32)) tt <> Fail LoopBound tt /\
  heuristic_find_base_loop (S := fold_simplifier) 100
    (children (TBv (BVAdd (BVS "x" 32) (BVS "y" 32)))) tt
  = heuristic_find_base (S := fold_simplifier)
      (BVAdd (BVS "x" 32) (BVS "y" 32)) tt.
Proof.
  destruct (heuristic_find_base_terminates (S := fold_simplifier)
              (BVAdd (BVS "x" 32) (BVS "y" 32)) 100 tt ltac:(cbn; lia))
    as (H1 & _ & H2).
  split; [apply H1 | exact H2].
Defined.

(** On [x + 0x20000] the base found is 0x20000. *)
Lemma heuristic_find_base_result_witness :
  heuristic_find_base (S := fold_simplifier)
    (BVAdd (BVS "x" 32) (BVV 0x20000 32)) tt = Ok 0x20000 tt /\
  MIN_BASE < 0x20000.
Proof.
  split; [reflexivity|].
  destruct (heuristic_find_base_result (S := fold_simplifier)
              (BVAdd (BVS "x" 32) (BVV 0x20000 32)) tt tt 0x20000 eq_refl)
    as [_ [H|[H _]]]; [discriminate H | exact H].
Defined.

Lemma heuristic_find_base_constant_operand_witness :
  heuristic_find_base (S := fold_simplifier)
    (BVAdd (BVS "x" 32) (BVAdd (BVV 0x20000 32) (BVV 8 32))) tt
  = Fail AttributeError tt.
Proof.
  apply (heuristic_find_base_constant_operand (SL := fold_simplifier_laws)
           _ (BVAdd (BVV 0x20000 32) (BVV 8 32))).
  - reflexivity.
  - reflexivity.
  - intros v sz H. discriminate H.
Defined.

(** ** [Memory]: concrete accesses *)

Lemma Forall2_Some_agree_on {A B} (F F' : A -> option B) (L : list A) bs bs' :
  Forall2 (fun j b => F j = Some b) L bs ->
  Forall2 (fun j b => F' j = Some b) L bs' ->
  (forall j, j ∈ L -> F' j = F j) ->
  bs = bs'.
Proof.
  intros H. revert bs'. induction H as [|j b L bs Hj _ IH]; intros bs' H' Heq.
  - inversion H'. reflexivity.
  - inversion H' as [|j' b' L' bs'' Hj' Hrest]; subst.
    rewrite (Heq j) in Hj' by left. f_equal; [congruence|].
    apply IH; [exact Hrest|]. intros i Hi. apply Heq. right. exact Hi.
Qed.

Section MemoryFacts.
Context {B : MemoryObj} {BL : MemoryObjLaws B}.
Context {S : Z3Simplifier} {SL : Z3SimplifierLaws S}.
Context {V : Solver} {O : Options}.

(** Two loads of the same bytes that find the same content return equal
    values. *)
Lemma load_concrete_agree_on (w w' : Memory.World) self self' m m' a n endness :
  mem_wf w self m -> mem_wf w' self' m' ->
  Memory.bits m' = Memory.bits m -> Memory.index_bits m' = Memory.index_bits m ->
  0 < n -> mapped_range m a n -> mapped_range m' a n ->
  (forall rho j, 0 <= j < n ->
     byte_at rho (Memory.heap w') (Memory.pages m')
       (slot_of (Memory.index_bits m) (byte_address (Memory.bits m) a j))
       (offset_of (Memory.index_bits m) (byte_address (Memory.bits m) a j))
     = byte_at rho (Memory.heap w) (Memory.pages m)
         (slot_of (Memory.index_bits m) (byte_address (Memory.bits m) a j))
         (offset_of (Memory.index_bits m) (byte_address (Memory.bits m) a j))) ->
  exists r r',
    returns (Memory.load self (bvv a (Memory.bits m)) n endness) w r /\
    returns (Memory.load self' (bvv a (Memory.bits m)) n endness) w' r' /\
    bv_equiv r r'.
Proof using BL SL.
  intros Hwf Hwf' Hbits Hib Hn Hmap Hmap' Hsame.
  destruct (load_concrete w self m a n endness Hwf Hn Hmap)
    as (h1 & r & Hl & _ & Hsz & Hv).
  destruct (load_concrete w' self' m' a n endness Hwf' Hn Hmap')
    as (h1' & r' & Hl' & _ & Hsz' & Hv').
  rewrite Hbits in Hl'.
  exists r, r'. split; [eexists; exact Hl|]. split; [eexists; exact Hl'|].
  split; [lia|]. intros rho.
  destruct (Hv rho) as (bs & Hall & ->). destruct (Hv' rho) as (bs' & Hall' & ->).
  f_equal. eapply Forall2_Some_agree_on; [exact Hall | exact Hall' |].
  intros j Hj. cbv beta. rewrite Hbits, Hib. apply Hsame.
  apply elem_of_load_order in Hj. exact Hj.
Qed.

(** [store] on a concrete address, with what it leaves alone: the bytes of
    the same memory outside the written range. *)
Lemma store_concrete_frame (w : Memory.World) self m a v endness n :
  mem_wf w self m ->
  bv_size v = 8 * n -> 0 <= n <= 2 ^ Memory.bits m ->
  mapped_range m a n ->
  exists w' d',
    Memory.store self (bvv a (Memory.bits m)) v endness w = Ok tt w' /\
    Memory.memories w' = <[self := with_pages d' m]> (Memory.memories w) /\
    Memory.states w' = Memory.states w /\
    Memory.errored w' = Memory.errored w /\
    mem_wf w' self (with_pages d' m) /\
    dict_keys d' = dict_keys (Memory.pages m) /\
    (forall rho k off,
       (forall j, 0 <= j < n ->
          ~ (k = slot_of (Memory.index_bits m) (byte_address (Memory.bits m) a j) /\
             off = offset_of (Memory.index_bits m) (byte_address (Memory.bits m) a j))) ->
       byte_at rho (Memory.heap w') d' k off
       = byte_at rho (Memory.heap w) (Memory.pages m) k off).
Proof using BL SL.
  intros Hwf Hv Hn Hmapped. pose proof Hwf as (Hm & Hib & Hndk & Hent).
  assert (HL : forall i, i ∈ reverse (seqZ 0 n) <-> 0 <= i < n).
  { intros i. rewrite elem_of_reverse, elem_of_seqZ. lia. }
  destruct (store_loop_concrete self m a v endness n (reverse (seqZ 0 n)) Hv
              (NoDup_reverse_seqZ 0 n)
              ltac:(intros i Hi; apply HL; exact Hi))
    with (w := w) (d := Memory.pages m) (pas := @nil Z)
    as (w1 & d1 & pas1 & Hloop & Hmem1 & Hst1 & Herr1 & Hwf1 & Hkeys1 & Hpas1
        & _ & Hb & _).
  - intros i i' Hi Hi' Heq. apply HL in Hi, Hi'.
    apply byte_address_inj in Heq;
      [|lia|pose proof (store_offset_range endness n i Hi); lia
        |pose proof (store_offset_range endness n i' Hi'); lia].
    rewrite <- (store_offset_involutive endness n i),
            <- (store_offset_involutive endness n i'), Heq. reflexivity.
  - intros i Hi. apply HL in Hi. apply Hmapped, store_offset_range, Hi.
  - rewrite with_pages_id. exact Hwf.
  - reflexivity.
  - destruct (simplify_loop_concrete self (with_pages d1 m) pas1) with (w := w1)
      as (h' & Hsimp & Hq).
    { intros k Hk. destruct (Hpas1 k Hk) as [Hin|Hin]; [inversion Hin|].
      apply dict_mem_keys. cbn [with_pages Memory.pages]. rewrite Hkeys1.
      apply dict_mem_keys. exact Hin. }
    { exact Hwf1. }
    exists (with_heap h' w1), d1.
    split; [|split; [exact Hmem1|split; [exact Hst1|split; [exact Herr1|]]]].
    + unfold Memory.store. mstep (deref_Ok w self m Hm).
      unfold assert at 1. cbn [bv_size bvv]. rewrite Z.eqb_refl.
      rewrite bind_ret.
      assert (Hheur : Memory.heuristic_unconstrained self (bvv a (Memory.bits m)) w
                      = Ok false w).
      { unfold Memory.heuristic_unconstrained.
        rewrite symbolic_bvv, andb_false_r. reflexivity. }
      mstep Hheur. rewrite bind_ret. rewrite Hv.
      unfold assert at 1.
      replace (8 * n mod 8 =? 0) with true
        by (symmetry; apply Z.eqb_eq; rewrite Z.mul_comm; apply Z.mod_mul; lia).
      rewrite bind_ret.
      replace (8 * n / 8) with n by (rewrite Z.mul_comm, Z.div_mul; lia).
      mstep Hloop. exact Hsimp.
    + split; [apply (mem_wf_quiet w1 self _ h' Hwf1 Hq)|]. split; [exact Hkeys1|].
      destruct Hwf1 as (_ & _ & _ & Hent1). cbn [with_pages Memory.pages] in Hent1.
      intros rho k off Hout. cbn [with_heap Memory.heap].
      rewrite (byte_at_quiet rho _ h' d1 _ _ Hent1 Hq).
      apply Hb. intros i Hi. apply HL in Hi. apply Hout.
      apply store_offset_range. exact Hi.
Qed.

(** A byte of the load range whose page is not mapped: the pass raises on
    [assert page_address in self.pages]. *)
Lemma load_body_unmapped (w : Memory.World) self m a j res conds :
  mem_wf w self m ->
  dict_mem (slot_of (Memory.index_bits m) (byte_address (Memory.bits m) a j))
           (Memory.pages m) = false ->
  Memory.load_body self (bvv a (Memory.bits m)) j (res, conds) w
  = Fail AssertionError w.
Proof using SL.
  intros Hwf Hk. pose proof Hwf as (Hm & Hib & Hnd & Hent).
  assert (Hg : ground (bv_add_int (bvv a (Memory.bits m)) j) = true) by reflexivity.
  destruct (resolve_concrete (bv_add_int (bvv a (Memory.bits m)) j)
              (Memory.index_bits m) w Hg ltac:(cbn [bv_size bv_add_int bvv]; lia))
    as (pa & pi & Hsplit & Hsym & Hlong & Hpi).
  rewrite (eval_add_int _ a (Memory.bits m) j ltac:(lia)) in Hlong.
  unfold Memory.load_body. mstep (deref_Ok w self m Hm).
  mstep Hsplit. rewrite Hsym. cbn [negb]. mstep Hlong.
  unfold Memory._load. mstep (deref_Ok w self m Hm).
  unfold dict_mem in Hk. destruct (dict_get _ (Memory.pages m)); [discriminate|].
  reflexivity.
Qed.

Lemma store_body_unmapped (w : Memory.World) self m a v endness n i pas :
  mem_wf w self m -> bv_size v = 8 * n -> 0 <= i < n ->
  dict_mem (slot_of (Memory.index_bits m)
              (byte_address (Memory.bits m) a (store_offset endness n i)))
           (Memory.pages m) = false ->
  Memory.store_body self (bvv a (Memory.bits m)) v endness (8 * n) i (pas, []) w
  = Fail AssertionError w.
Proof using SL.
  intros Hwf Hv Hi Hk. pose proof Hwf as (Hm & Hib & Hnd & Hent).
  destruct (store_address_ground a (Memory.bits m) n i endness ltac:(lia))
    as (Hg & Hsz & Hev).
  set (E := if String.eqb endness "little" then _ else _) in *.
  destruct (resolve_concrete E (Memory.index_bits m) w Hg ltac:(lia))
    as (pa & pi & Hsplit & Hsym & Hlong & Hpi).
  rewrite Hev in Hlong.
  unfold Memory.store_body. mstep (deref_Ok w self m Hm).
  replace (8 * n / 8) with n by (rewrite Z.mul_comm, Z.div_mul; lia).
  assert (Hsplit' :
    (if String.eqb endness "little"
     then split_bv (bv_add_int (bvv a (Memory.bits m)) i) (Memory.index_bits m)
     else split_bv (bv_sub_int (bv_sub_int (bv_add_int (bvv a (Memory.bits m)) n) i) 1)
            (Memory.index_bits m)) w = Ok (pa, pi) w).
  { subst E. destruct (String.eqb endness "little"); exact Hsplit. }
  mstep Hsplit'. cbv beta iota. rewrite Hsym. cbn [negb]. cbv beta iota.
  rewrite !bind_assoc.
  mstep Hlong. mstep (z3_Extract_byte_Ok v n i w Hv Hi).
  unfold Memory._store. mstep (deref_Ok w self m Hm).
  unfold dict_mem in Hk. destruct (dict_get _ (Memory.pages m)); [discriminate|].
  reflexivity.
Qed.
(** A load on a concrete address whose bytes are mapped returns, adds no
    constraint and reports no errored state, and leaves every memory as it
    was: a load made after it, on any memory and address, returns the value
    it would have returned before. *)
Theorem load_leaves_memory_unchanged (w : Memory.World) (self : nat)
    (m : Memory.t) (a n : Z) (endness : string) :
  mem_wf w self m -> 0 < n -> mapped_range m a n ->
  exists r w',
    Memory.load self (bvv a (Memory.bits m)) n endness w = Ok r w' /\
    Memory.memories w' = Memory.memories w /\
    Memory.states w' = Memory.states w /\
    Memory.errored w' = Memory.errored w /\
    forall self' m' b nb eb,
      mem_wf w self' m' -> 0 < nb -> mapped_range m' b nb ->
      exists q q',
        returns (Memory.load self' (bvv b (Memory.bits m')) nb eb) w q /\
        returns (Memory.load self' (bvv b (Memory.bits m')) nb eb) w' q' /\
        bv_equiv q q'.
Proof using BL SL.
  intros Hwf Hn Hmap.
  destruct (load_concrete w self m a n endness Hwf Hn Hmap)
    as (h' & r & Hl & Hq & _ & _).
  exists r, (with_heap h' w). split; [exact Hl|].
  split; [reflexivity|]. split; [reflexivity|]. split; [reflexivity|].
  intros self' m' b nb eb Hwf' Hnb Hmapb.
  apply (load_concrete_agree w (with_heap h' w) self' self' m' m' b nb eb Hwf'
           (mem_wf_quiet w self' m' h' Hwf' Hq) eq_refl eq_refl Hnb Hmapb Hmapb).
  intros rho k off. apply byte_at_quiet; [apply Hwf' | exact Hq].
Qed.

(** A store on a concrete address adds no constraint, reports no errored
    state and changes no byte outside the range it writes: a load of bytes
    of the same memory that lie outside that range returns the value it
    returned before the store. *)
Theorem store_preserves_other_bytes (w : Memory.World) (self : nat)
    (m : Memory.t) (a : Z) (v : bv) (endness : string) (n b nb : Z)
    (eb : string) :
  mem_wf w self m ->
  bv_size v = 8 * n -> 0 <= n <= 2 ^ Memory.bits m -> mapped_range m a n ->
  0 < nb -> mapped_range m b nb ->
  (forall i j, 0 <= i < n -> 0 <= j < nb ->
     byte_address (Memory.bits m) a i <> byte_address (Memory.bits m) b j) ->
  exists w1 q q',
    Memory.store self (bvv a (Memory.bits m)) v endness w = Ok tt w1 /\
    Memory.states w1 = Memory.states w /\
    Memory.errored w1 = Memory.errored w /\
    returns (Memory.load self (bvv b (Memory.bits m)) nb eb) w q /\
    returns (Memory.load self (bvv b (Memory.bits m)) nb eb) w1 q' /\
    bv_equiv q q'.
Proof using BL SL.
  intros Hwf Hv Hn Hmap Hnb Hmapb Hdisj.
  destruct (store_concrete_frame w self m a v endness n Hwf Hv Hn Hmap)
    as (w1 & d1 & Hstore & _ & Hst & Herr & Hwf1 & Hkeys & Hframe).
  assert (Hmapb1 : mapped_range (with_pages d1 m) b nb).
  { intros j Hj. cbn [with_pages Memory.pages Memory.index_bits Memory.bits].
    apply dict_mem_keys. rewrite Hkeys. apply dict_mem_keys. apply Hmapb. exact Hj. }
  destruct (load_concrete_agree_on w w1 self self m (with_pages d1 m) b nb eb
              Hwf Hwf1 eq_refl eq_refl Hnb Hmapb Hmapb1) as (q & q' & Hq & Hq' & Heq).
  { intros rho j Hj. cbn [with_pages Memory.pages]. apply Hframe.
    intros i Hi [Hs Ho]. apply (Hdisj i j Hi Hj).
    symmetry. eapply slot_offset_inj; eassumption. }
  exists w1, q, q'. repeat (split; [assumption|]). exact Heq.
Qed.

(** The load loop on a range with an unmapped byte. *)
Lemma load_loop_unmapped self m a (L : list Z) :
  (exists j, j ∈ L /\
     dict_mem (slot_of (Memory.index_bits m) (byte_address (Memory.bits m) a j))
              (Memory.pages m) = false) ->
  forall (w : Memory.World) res,
    mem_wf w self m ->
    exists h',
      for_each L (Memory.load_body self (bvv a (Memory.bits m))) (res, []) w
      = Fail AssertionError (with_heap h' w) /\
      heap_quiet (Memory.heap w) h'.
Proof using BL SL.
  induction L as [|j L IH]; intros Hun w res Hwf.
  - destruct Hun as (j & Hj & _). inversion Hj.
  - cbn [for_each].
    destruct (dict_mem (slot_of (Memory.index_bits m)
                          (byte_address (Memory.bits m) a j)) (Memory.pages m))
      eqn:Hslot.
    + destruct (proj1 (dict_mem_get _ _) Hslot) as [r Hr].
      destruct (load_body_concrete w self m a j res [] r Hwf Hr)
        as (h1 & b & Hbody & Hq1 & _ & _).
      destruct (IH ltac:(destruct Hun as (j' & Hj' & Hf);
                         apply elem_of_cons in Hj' as [->|Hj'];
                         [congruence | eauto])
                  (with_heap h1 w) (Memory.concat_res res (simplify b))
                  (mem_wf_quiet w self m h1 Hwf Hq1)) as (h' & Hloop & Hq').
      exists h'. split; [mstep Hbody; exact Hloop|].
      eapply heap_quiet_trans; eassumption.
    + exists (Memory.heap w). rewrite with_heap_id.
      split; [|apply heap_quiet_refl].
      rewrite (bind_Fail _ _ _ _ _ (load_body_unmapped w self m a j res [] Hwf Hslot)).
      reflexivity.
Qed.

(** A load on a concrete address raises [AssertionError] when one of its
    bytes lies in a page that is not mapped; nothing is added to the state
    or the errored list, and no byte of any page has changed. *)
Theorem load_unmapped_fails (w : Memory.World) (self : nat) (m : Memory.t)
    (a n j : Z) (endness : string) :
  mem_wf w self m -> 0 <= j < n ->
  dict_mem (slot_of (Memory.index_bits m) (byte_address (Memory.bits m) a j))
           (Memory.pages m) = false ->
  exists w',
    Memory.load self (bvv a (Memory.bits m)) n endness w = Fail AssertionError w' /\
    Memory.memories w' = Memory.memories w /\
    Memory.states w' = Memory.states w /\
    Memory.errored w' = Memory.errored w /\
    heap_quiet (Memory.heap w) (Memory.heap w').
Proof using BL SL.
  intros Hwf Hj Hslot. pose proof Hwf as (Hm & _).
  destruct (load_loop_unmapped self m a (load_order endness n)
              ltac:(exists j; split; [apply elem_of_load_order; exact Hj | exact Hslot])
              w None Hwf) as (h' & Hloop & Hq).
  exists (with_heap h' w). split; [|repeat split; exact Hq].
  unfold Memory.load. mstep (deref_Ok w self m Hm).
  unfold assert at 1. cbn [bv_size bvv]. rewrite Z.eqb_refl. rewrite bind_ret.
  assert (Hheur : Memory.heuristic_unconstrained self (bvv a (Memory.bits m)) w
                  = Ok false w).
  { unfold Memory.heuristic_unconstrained.
    rewrite symbolic_bvv, andb_false_r. reflexivity. }
  mstep Hheur. rewrite bind_ret. fold (load_order endness n).
  rewrite (bind_Fail _ _ _ _ _ Hloop). reflexivity.
Qed.

(** A load of no bytes ([size <= 0]) on a concrete address raises
    [AttributeError]: the loop is not entered and [res] is still [None] at
    [res.size()]. *)
Theorem load_no_bytes_fails (w : Memory.World) (self : nat) (m : Memory.t)
    (a size : Z) (endness : string) :
  Memory.memories w !! self = Some m -> size <= 0 ->
  Memory.load self (bvv a (Memory.bits m)) size endness w = Fail AttributeError w.
Proof using SL.
  intros Hm Hsize. unfold Memory.load. mstep (deref_Ok w self m Hm).
  unfold assert at 1. cbn [bv_size bvv]. rewrite Z.eqb_refl. rewrite bind_ret.
  assert (Hheur : Memory.heuristic_unconstrained self (bvv a (Memory.bits m)) w
                  = Ok false w).
  { unfold Memory.heuristic_unconstrained.
    rewrite symbolic_bvv, andb_false_r. reflexivity. }
  mstep Hheur. rewrite bind_ret. rewrite (seqZ_nil 0 size Hsize).
  destruct (String.eqb endness "little"); reflexivity.
Qed.

(** [store] is not atomic.  Its bytes are written from byte [n-1] of the
    value down to byte 0; when byte [i] is the first of them whose page is
    not mapped, the call raises [AssertionError] and the bytes above [i]
    stay written. *)
Theorem store_partial_on_unmapped (w : Memory.World) (self : nat)
    (m : Memory.t) (a : Z) (v : bv) (endness : string) (n i : Z) :
  mem_wf w self m ->
  bv_size v = 8 * n -> n <= 2 ^ Memory.bits m -> 0 <= i < n ->
  dict_mem (slot_of (Memory.index_bits m)
              (byte_address (Memory.bits m) a (store_offset endness n i)))
           (Memory.pages m) = false ->
  (forall i', i < i' < n ->
     dict_mem (slot_of (Memory.index_bits m)
                 (byte_address (Memory.bits m) a (store_offset endness n i')))
              (Memory.pages m) = true) ->
  exists w' d',
    Memory.store self (bvv a (Memory.bits m)) v endness w = Fail AssertionError w' /\
    Memory.memories w' = <[self := with_pages d' m]> (Memory.memories w) /\
    forall rho i', i < i' < n ->
      byte_at rho (Memory.heap w') d'
        (slot_of (Memory.index_bits m)
           (byte_address (Memory.bits m) a (store_offset endness n i')))
        (offset_of (Memory.index_bits m)
           (byte_address (Memory.bits m) a (store_offset endness n i')))
      = Some (byte_of (eval rho v) i').
Proof using BL SL.
  intros Hwf Hv Hn Hi Hun Hmapped. pose proof Hwf as (Hm & Hib & Hndk & Hent).
  set (L1 := reverse (seqZ (i + 1) (n - i - 1))).
  set (L2 := reverse (seqZ 0 i)).
  assert (Hsplit : reverse (seqZ 0 n) = L1 ++ i :: L2).
  { replace n with (i + (n - i)) at 1 by lia.
    rewrite seqZ_app by lia. rewrite (seqZ_cons (0 + i)) by lia.
    rewrite reverse_app, reverse_cons, <- app_assoc. subst L1 L2.
    replace (Z.succ (0 + i)) with (i + 1) by lia.
    replace (Z.pred (n - i)) with (n - i - 1) by lia.
    rewrite Z.add_0_l. reflexivity. }
  assert (HL1 : forall i', i' ∈ L1 <-> i < i' < n).
  { intros i'. subst L1. rewrite elem_of_reverse, elem_of_seqZ. lia. }
  destruct (store_loop_concrete self m a v endness n L1 Hv
              ltac:(subst L1; apply NoDup_reverse_seqZ)
              ltac:(intros i' Hi'; apply HL1 in Hi'; lia))
    with (w := w) (d := Memory.pages m) (pas := @nil Z)
    as (w1 & d1 & pas1 & Hloop & Hmem1 & _ & _ & Hwf1 & Hkeys1 & _ & Ha & _).
  - intros i1 i2 Hi1 Hi2 Heq. apply HL1 in Hi1, Hi2.
    apply byte_address_inj in Heq;
      [|lia|pose proof (store_offset_range endness n i1 ltac:(lia)); lia
        |pose proof (store_offset_range endness n i2 ltac:(lia)); lia].
    rewrite <- (store_offset_involutive endness n i1),
            <- (store_offset_involutive endness n i2), Heq. reflexivity.
  - intros i' Hi'. apply HL1 in Hi'. apply Hmapped. exact Hi'.
  - rewrite with_pages_id. exact Hwf.
  - reflexivity.
  - exists w1, d1. split; [|split; [exact Hmem1|]].
    + unfold Memory.store. mstep (deref_Ok w self m Hm).
      unfold assert at 1. cbn [bv_size bvv]. rewrite Z.eqb_refl.
      rewrite bind_ret.
      assert (Hheur : Memory.heuristic_unconstrained self (bvv a (Memory.bits m)) w
                      = Ok false w).
      { unfold Memory.heuristic_unconstrained.
        rewrite symbolic_bvv, andb_false_r. reflexivity. }
      mstep Hheur. rewrite bind_ret. rewrite Hv.
      unfold assert at 1.
      replace (8 * n mod 8 =? 0) with true
        by (symmetry; apply Z.eqb_eq; rewrite Z.mul_comm; apply Z.mod_mul; lia).
      rewrite bind_ret.
      replace (8 * n / 8) with n by (rewrite Z.mul_comm, Z.div_mul; lia).
      rewrite Hsplit.
      assert (Hfail :
        for_each (L1 ++ i :: L2)
          (Memory.store_body self (bvv a (Memory.bits m)) v endness (8 * n))
          ([], []) w = Fail AssertionError w1).
      { rewrite for_each_app. rewrite (bind_Ok _ _ _ _ _ Hloop). cbn [for_each].
        apply bind_Fail.
        apply (store_body_unmapped w1 self (with_pages d1 m) a v endness n i pas1
                 Hwf1 Hv Hi).
        cbn [with_pages Memory.pages Memory.index_bits Memory.bits].
        destruct (dict_mem _ d1) eqn:E; [|reflexivity].
        apply dict_mem_keys in E. rewrite Hkeys1 in E. apply dict_mem_keys in E.
        rewrite Hun in E. discriminate. }
      rewrite (bind_Fail _ _ _ _ _ Hfail). reflexivity.
    + intros rho i' Hi'. apply Ha. apply HL1. exact Hi'.
Qed.
End MemoryFacts.

Lemma load_leaves_memory_unchanged_witness :
  exists r w',
    Memory.load (B := log_store) (S := fold_simplifier) (V := enum_solver)
      (O := heuristic_on) 0%nat (bvv 5 8) 2 "big" remap_world = Ok r w' /\
    Memory.memories w' = Memory.memories remap_world.
Proof.
  destruct (load_leaves_memory_unchanged (BL := log_store_laws)
              (SL := fold_simplifier_laws) (V := enum_solver) (O := heuristic_on)
              remap_world 0%nat remap_memory 5 2 "big" remap_world_wf
              ltac:(lia) ltac:(apply remap_memory_mapped; lia))
    as (r & w' & Hl & Hm & _).
  exists r, w'. split; [exact Hl | exact Hm].
Defined.

Lemma store_preserves_other_bytes_witness :
  exists w1 q q',
    Memory.store (B := log_store) (S := fold_simplifier) (V := enum_solver)
      (O := heuristic_on) 0%nat (bvv 4 8) (BVV 0xBEEF 16) "little" remap_world
    = Ok tt w1 /\
    returns (Memory.load (B := log_store) (S := fold_simplifier) (V := enum_solver)
               (O := heuristic_on) 0%nat (bvv 6 8) 2 "big") remap_world q /\
    returns (Memory.load (B := log_store) (S := fold_simplifier) (V := enum_solver)
               (O := heuristic_on) 0%nat (bvv 6 8) 2 "big") w1 q' /\
    bv_equiv q q'.
Proof.
  destruct (store_preserves_other_bytes (BL := log_store_laws)
              (SL := fold_simplifier_laws) (V := enum_solver) (O := heuristic_on)
              remap_world 0%nat remap_memory 4 (BVV 0xBEEF 16) "little" 2 6 2 "big"
              remap_world_wf eq_refl ltac:(cbn; lia)
              ltac:(apply remap_memory_mapped; lia) ltac:(lia)
              ltac:(apply remap_memory_mapped; lia))
    as (w1 & q & q' & Hs & _ & _ & Hq & Hq' & Heq).
  { intros i j Hi Hj. unfold byte_address. cbn [remap_memory Memory.bits].
    change (2 ^ 8) with 256. rewrite !Z.mod_small by lia. lia. }
  exists w1, q, q'. repeat (split; [assumption|]). exact Heq.
Defined.

(** Bytes 7 and 8 with only slot 1 (bytes 4..7) mapped. *)
Lemma load_unmapped_fails_witness :
  exists w',
    Memory.load (B := log_store) (S := fold_simplifier) (V := enum_solver)
      (O := heuristic_on) 0%nat (bvv 7 8) 2 "big" remap_world
    = Fail AssertionError w' /\
    Memory.memories w' = Memory.memories remap_world.
Proof.
  destruct (load_unmapped_fails (BL := log_store_laws)
              (SL := fold_simplifier_laws) (V := enum_solver) (O := heuristic_on)
              remap_world 0%nat remap_memory 7 2 1 "big" remap_world_wf
              ltac:(lia) eq_refl) as (w' & Hl & Hm & _).
  exists w'. split; [exact Hl | exact Hm].
Defined.

Lemma load_no_bytes_fails_witness :
  Memory.load (B := log_store) (S := fold_simplifier) (V := enum_solver)
    (O := heuristic_on) 0%nat (bvv 5 8) 0 "big" remap_world
  = Fail AttributeError remap_world.
Proof.
  apply (load_no_bytes_fails (SL := fold_simplifier_laws) (V := enum_solver)
           (O := heuristic_on) remap_world 0%nat remap_memory 5 0 "big" eq_refl).
  lia.
Defined.

(** A big-endian store of 0xBEEF at address 7: the high byte goes to
    address 7, then the low byte finds address 8 unmapped. *)
Lemma store_partial_on_unmapped_witness :
  exists w' d',
    Memory.store (B := log_store) (S := fold_simplifier) (V := enum_solver)
      (O := heuristic_on) 0%nat (bvv 7 8) (BVV 0xBEEF 16) "big" remap_world
    = Fail AssertionError w' /\
    forall rho, byte_at rho (Memory.heap w') d' 1 3 = Some 0xBE.
Proof.
  destruct (store_partial_on_unmapped (BL := log_store_laws)
              (SL := fold_simplifier_laws) (V := enum_solver) (O := heuristic_on)
              remap_world 0%nat remap_memory 7 (BVV 0xBEEF 16) "big" 2 0
              remap_world_wf eq_refl ltac:(cbn; lia) ltac:(lia) eq_refl)
    as (w' & d' & Hs & _ & Hb).
  { intros i' Hi'. replace i' with 1 by lia. reflexivity. }
  exists w', d'. split; [exact Hs|]. intros rho. exact (Hb rho 1 ltac:(lia)).
Defined.

(** ** [Memory.copy]: what the copy holds *)

Section CopyFacts.
Context {B : MemoryObj} {BL : MemoryObjLaws B}.
Context {S : Z3Simplifier} {SL : Z3SimplifierLaws S}.
Context {V : Solver} {O : Options} {PM : PyMath}.

(** The world after [copy]: both memories are well formed, their common
    table is isolated from itself, and no byte has changed. *)
Lemma copy_world_wf (w : Memory.World) (self : nat) (m : Memory.t) (state : nat) :
  mem_wf w self m ->
  constructed m ->
  exists wc,
    Memory.copy self state w = Ok (length (Memory.memories w)) wc /\
    Memory.heap wc = mark_all ((Memory.pages m).*2) (Memory.heap w) /\
    Memory.memories wc = Memory.memories w ++ [copy_of m state] /\
    Memory.states wc = Memory.states w /\
    Memory.errored wc = Memory.errored w /\
    Memory.index_bits (copy_of m state) = Memory.index_bits m /\
    mem_wf wc self m /\
    mem_wf wc (length (Memory.memories w)) (copy_of m state) /\
    isolated (Memory.heap wc) (Memory.pages m) (Memory.pages m) /\
    forall rho d k off,
      byte_at rho (Memory.heap wc) d k off = byte_at rho (Memory.heap w) d k off.
Proof.
  intros Hwf (Hps & Hpow & Hlog). pose proof Hwf as (Hm & Hib & Hnd & Hent).
  assert (Htab : table_ok (Memory.heap w) (Memory.pages m)).
  { split; [exact Hnd|]. intros k r Hk.
    destruct (Hent k r Hk) as (p & Hp & Ha & _). eauto. }
  assert (Hib2 : Memory.index_bits (copy_of m state) = Memory.index_bits m)
    by (cbn [copy_of Memory.index_bits]; symmetry; exact Hlog).
  assert (Hentc : entries_wf (mark_all ((Memory.pages m).*2) (Memory.heap w))
                    (Memory.pages m))
    by (apply entries_wf_mark_all; exact Hent).
  eexists. split; [apply (copy_Ok w self m state Hm Htab Hps Hpow)|].
  cbn [with_memories with_heap Memory.heap Memory.memories Memory.states
       Memory.errored].
  split; [reflexivity|]. split; [reflexivity|]. split; [reflexivity|].
  split; [reflexivity|]. split; [exact Hib2|]. split; [|split; [|split]].
  - split; [apply lookup_app_l_Some; exact Hm|].
    split; [exact Hib|]. split; [exact Hnd | exact Hentc].
  - split.
    + unfold with_memories. cbn [Memory.memories]. rewrite lookup_app_r by lia.
      rewrite Nat.sub_diag. reflexivity.
    + rewrite Hib2. split; [exact Hib|]. split; [exact Hnd | exact Hentc].
  - apply isolated_mark_all. exact Hent.
  - intros rho d k off. apply byte_at_mark_all.
Qed.

(** On a memory as the constructor builds it ([constructed]), [copy]
    returns a new memory with the width, the page size and the
    state it was given; it adds no constraint and reports no errored state.
    Every load of mapped bytes returns, on the original after the copy and
    on the copy, a value equal to the one the original returned before. *)
Theorem copy_preserves_content (w : Memory.World) (self : nat) (m : Memory.t)
    (state : nat) :
  mem_wf w self m ->
  constructed m ->
  exists self2 wc m2,
    Memory.copy self state w = Ok self2 wc /\
    Memory.memories wc = Memory.memories w ++ [m2] /\
    Memory.memories wc !! self2 = Some m2 /\
    Memory.states wc = Memory.states w /\
    Memory.errored wc = Memory.errored w /\
    Memory.bits m2 = Memory.bits m /\
    Memory.page_size m2 = Memory.page_size m /\
    Memory.state m2 = state /\
    forall b n endness,
      0 < n -> mapped_range m b n ->
      exists r r1 r2,
        returns (Memory.load self (bvv b (Memory.bits m)) n endness) w r /\
        returns (Memory.load self (bvv b (Memory.bits m)) n endness) wc r1 /\
        returns (Memory.load self2 (bvv b (Memory.bits m)) n endness) wc r2 /\
        bv_equiv r r1 /\ bv_equiv r r2.
Proof using BL SL.
  intros Hwf Hcon.
  destruct (copy_world_wf w self m state Hwf Hcon)
    as (wc & Hcopy & _ & Hmems & Hst & Herr & Hib2 & Hwfc & Hwfc2 & _ & Hsame).
  exists (length (Memory.memories w)), wc, (copy_of m state).
  split; [exact Hcopy|]. split; [exact Hmems|]. split; [apply Hwfc2|].
  split; [exact Hst|]. split; [exact Herr|].
  split; [reflexivity|]. split; [reflexivity|]. split; [reflexivity|].
  intros b n endness Hn Hmap.
  assert (Hmap2 : mapped_range (copy_of m state) b n)
    by (unfold mapped_range; rewrite Hib2; exact Hmap).
  destruct (load_concrete_agree w wc self self m m b n endness Hwf Hwfc
              eq_refl eq_refl Hn Hmap Hmap) as (r & r1 & Hr & Hr1 & Heq1).
  { intros rho k off. apply Hsame. }
  destruct (load_concrete_agree w wc self (length (Memory.memories w)) m
              (copy_of m state) b n endness Hwf Hwfc2
              eq_refl Hib2 Hn Hmap Hmap2) as (r' & r2 & Hr' & Hr2 & Heq2).
  { intros rho k off. apply Hsame. }
  assert (r' = r) as ->.
  { destruct Hr as [s1 H1], Hr' as [s2 H2]. rewrite H1 in H2. congruence. }
  exists r, r1, r2. repeat (split; [assumption|]). exact Heq2.
Qed.
End CopyFacts.

Lemma copy_preserves_content_witness :
  exists self2 wc r r2,
    Memory.copy (B := log_store) (PM := cpython_math) 0%nat 0%nat remap_world = Ok self2 wc /\
    returns (Memory.load (B := log_store) (S := fold_simplifier) (V := enum_solver)
               (O := heuristic_on) 0%nat (bvv 5 8) 2 "big") remap_world r /\
    returns (Memory.load (B := log_store) (S := fold_simplifier) (V := enum_solver)
               (O := heuristic_on) self2 (bvv 5 8) 2 "big") wc r2 /\
    bv_equiv r r2.
Proof.
  destruct (copy_preserves_content (BL := log_store_laws)
              (SL := fold_simplifier_laws) (V := enum_solver) (O := heuristic_on)
              (PM := cpython_math)
              remap_world 0%nat remap_memory 0%nat remap_world_wf
              remap_memory_constructed)
    as (self2 & wc & m2 & Hc & _ & _ & _ & _ & _ & _ & _ & Hload).
  destruct (Hload 5 2 "big"%string ltac:(lia) ltac:(apply remap_memory_mapped; lia))
    as (r & r1 & r2 & Hr & _ & Hr2 & _ & Heq).
  exists self2, wc, r, r2. repeat (split; [assumption|]). exact Heq.
Defined.

(** ** Pages shared by more than two memories *)

Section ThirdOwner.
Context {B : MemoryObj} {BL : MemoryObjLaws B}.
Context {S : Z3Simplifier} {SL : Z3SimplifierLaws S}.
Context {V : Solver} {O : Options} {PM : PyMath}.

(** [store] of one byte on a concrete mapped address, down to the
    [Page.store] it makes. *)
Lemma store_byte_concrete (w : Memory.World) self m a v endness r :
  mem_wf w self m -> bv_size v = 8 ->
  let x := byte_address (Memory.bits m) a 0 in
  let k := slot_of (Memory.index_bits m) x in
  dict_get k (Memory.pages m) = Some r ->
  exists idx r' h1 h' p,
    (forall rho, eval rho idx = offset_of (Memory.index_bits m) x) /\
    Memory.store self (bvv a (Memory.bits m)) v endness w
    = Ok tt (with_memories
               (<[self := with_pages (dict_set k r' (Memory.pages m)) m]>
                  (Memory.memories w))
               (with_heap h' w)) /\
    Memory.heap w !! r = Some p /\
    store_step (Memory.heap w) h1 r r' p idx (Extract 7 0 v) /\
    heap_quiet h1 h'.
Proof using BL SL.
  intros Hwf Hv x k Hk. pose proof Hwf as (Hm & Hib & Hndk & Hent).
  assert (Hoff : store_offset endness 1 0 = 0)
    by (unfold store_offset; destruct (String.eqb endness "little"); reflexivity).
  destruct (store_body_concrete w self m a v endness 1 0 [] r Hwf Hv ltac:(lia))
    as (idx & r' & h1 & p & Hidx & Hbody & Hp & Hstep).
  { rewrite Hoff. exact Hk. }
  rewrite Hoff in Hidx, Hbody. fold x in Hidx, Hbody. fold k in Hbody.
  set (m1 := with_pages (dict_set k r' (Memory.pages m)) m) in *.
  set (w1 := with_memories (<[self := m1]> (Memory.memories w)) (with_heap h1 w)) in *.
  assert (Hwf1 : mem_wf w1 self m1).
  { split; [apply list_lookup_insert_eq; eapply lookup_lt_Some; exact Hm|].
    split; [exact Hib|]. split; [apply dict_keys_set_NoDup; exact Hndk|].
    exact (step_entries_wf _ _ _ _ _ _ _ _ _ Hent Hk Hp Hstep). }
  destruct (simplify_loop_concrete self m1 (set_add k [])) with (w := w1)
    as (h' & Hsimp & Hq).
  { intros k0 Hk0. apply elem_of_set_add in Hk0 as [->|Hin]; [|inversion Hin].
    apply dict_mem_keys. cbn [m1 with_pages Memory.pages].
    rewrite (step_dict_keys _ _ _ r' Hk). apply dict_mem_keys.
    apply dict_mem_get. eauto. }
  { exact Hwf1. }
  exists idx, r', h1, h', p. split; [exact Hidx|].
  split; [|split; [exact Hp|split; [exact Hstep | exact Hq]]].
  unfold Memory.store. mstep (deref_Ok w self m Hm).
  unfold assert at 1. cbn [bv_size bvv]. rewrite Z.eqb_refl. rewrite bind_ret.
  assert (Hheur : Memory.heuristic_unconstrained self (bvv a (Memory.bits m)) w
                  = Ok false w).
  { unfold Memory.heuristic_unconstrained.
    rewrite symbolic_bvv, andb_false_r. reflexivity. }
  mstep Hheur. rewrite bind_ret. rewrite Hv.
  unfold assert at 1. change (8 mod 8 =? 0) with true. cbv iota. rewrite bind_ret.
  change (8 / 8) with 1. change (reverse (seqZ 0 1)) with [0].
  cbn [for_each]. change 8 with (8 * 1) at 1.
  mstep Hbody. rewrite bind_ret. exact Hsimp.
Qed.
(** Whatever [Page.store] does, the entries of any table still designate
    pages with their key as [addr]. *)
Lemma step_entries_wf_any (h h' : Page.heap) r r' p idx v db :
  h !! r = Some p -> store_step h h' r r' p idx v ->
  entries_wf h db -> entries_wf h' db.
Proof.
  intros Hp (Hcase & (p' & Hp' & Ha' & Hf' & _) & Hrest) Hdb k0 r0 Hk0.
  destruct (Hdb k0 r0 Hk0) as (p0 & Hp0 & Ha0 & Hf0).
  destruct (decide (r0 = r')) as [->|Hne].
  - destruct Hcase as [[-> _]|[-> _]].
    + rewrite Hp in Hp0. injection Hp0 as Heq. subst p0. exists p'.
      split; [exact Hp'|]. split; [congruence | exact Hf'].
    + apply lookup_lt_Some in Hp0. lia.
  - destruct (Hrest r0 p0 Hp0 Hne) as (p0' & Hp0' & Ha0' & Hf0' & _).
    exists p0'. split; [exact Hp0'|]. split; [congruence | auto].
Qed.

(** [Page.store] on a marked page leaves the page where it was, with its
    content, and with the mark cleared. *)
Lemma step_cow_clears_mark (h h' : Page.heap) r r' p idx v :
  h !! r = Some p -> store_step h h' r r' p idx v -> Page._lazycopy p = true ->
  exists p1, h' !! r = Some p1 /\ Page._lazycopy p1 = false /\
             forall rho off, Page.content rho p1 off = Page.content rho p off.
Proof.
  intros Hp (Hcase & _ & Hrest) Hflag.
  destruct Hcase as [[_ Hf]|[-> _]]; [congruence|].
  destruct (Hrest r p Hp) as (p1 & Hp1 & _ & _ & Hc & Hl).
  { apply lookup_lt_Some in Hp. lia. }
  exists p1. split; [exact Hp1|]. split; [|exact Hc].
  rewrite Hl. destruct (decide (r = r)); [reflexivity | congruence].
Qed.

(** [Page.store] on a page that is not marked writes that page object. *)
Lemma step_in_place (h h' : Page.heap) r r' p idx v :
  store_step h h' r r' p idx v -> Page._lazycopy p = false ->
  r' = r /\
  exists p', h' !! r = Some p' /\
    forall rho off, Page.content rho p' off =
      if off =? eval rho idx then eval rho v else Page.content rho p off.
Proof.
  intros (Hcase & (p' & Hp' & _ & _ & _ & Hc) & _) Hflag.
  destruct Hcase as [[-> _]|[_ Hf]]; [|congruence].
  split; [reflexivity|]. exists p'. split; [exact Hp' | exact Hc].
Qed.

(** Copy-on-write protects a page only until the first writer has split
    off.  For a memory [M] as the constructor builds it ([constructed]),
    after [M2 = M.copy()] and [M3 = M.copy()], a store into [M3]
    clears the mark of the page that the three memories share; a store into
    [M2] at the same address then writes that page in place, and [M.load]
    returns the byte stored into [M2]. *)
Theorem store_in_place_after_third_copy (w : Memory.World) (self : nat)
    (m : Memory.t) (state2 state3 : nat) (a : Z) (v3 v2 : bv)
    (e3 e2 el : string) :
  mem_wf w self m ->
  constructed m ->
  mapped_range m a 1 -> bv_size v3 = 8 -> bv_size v2 = 8 ->
  exists self2 self3 w1 w2 w3 w4 r,
    Memory.copy self state2 w = Ok self2 w1 /\
    Memory.copy self state3 w1 = Ok self3 w2 /\
    self2 <> self /\ self3 <> self /\ self3 <> self2 /\
    Memory.store self3 (bvv a (Memory.bits m)) v3 e3 w2 = Ok tt w3 /\
    Memory.store self2 (bvv a (Memory.bits m)) v2 e2 w3 = Ok tt w4 /\
    returns (Memory.load self (bvv a (Memory.bits m)) 1 el) w4 r /\
    bv_equiv r v2.
Proof using BL SL.
  intros Hwf Hcon Hmap Hv3 Hv2. pose proof Hwf as (Hm & Hib & Hnd & Hent).
  set (x := byte_address (Memory.bits m) a 0).
  set (k := slot_of (Memory.index_bits m) x).
  destruct (proj1 (dict_mem_get _ _) (Hmap 0 ltac:(lia))) as [r Hk].
  fold x in Hk. fold k in Hk.
  (* the two copies *)
  destruct (copy_world_wf w self m state2 Hwf Hcon)
    as (w1 & Hcopy1 & Hheap1 & Hmems1 & _ & _ & Hib2 & Hwf1 & Hwf1_2 & _ & _).
  destruct (copy_world_wf w1 self m state3 Hwf1 Hcon)
    as (w2 & Hcopy2 & Hheap2 & Hmems2 & _ & _ & Hib3 & Hwf2 & Hwf2_3 & _ & _).
  set (self2 := length (Memory.memories w)) in *.
  set (self3 := length (Memory.memories w1)) in *.
  set (m2 := copy_of m state2) in *. set (m3 := copy_of m state3) in *.
  assert (Hlen1 : self3 = Datatypes.S self2)
    by (subst self3 self2; rewrite Hmems1, length_app; cbn [length]; lia).
  assert (Hself : (self < self2)%nat) by (eapply lookup_lt_Some; exact Hm).
  assert (Hm2 : Memory.memories w2 !! self2 = Some m2).
  { rewrite Hmems2. apply lookup_app_l_Some. apply Hwf1_2. }
  assert (Hwf2_2 : mem_wf w2 self2 m2).
  { split; [exact Hm2|]. rewrite Hib2. split; [exact Hib|].
    split; [exact Hnd | apply Hwf2]. }
  (* the shared page is marked *)
  destruct (proj2 (proj2 (proj2 Hwf2)) k r Hk) as (p2 & Hp2 & Hap2 & Hfp2).
  assert (Hflag2 : Page._lazycopy p2 = true).
  { rewrite Hheap2, lookup_mark_all in Hp2.
    rewrite (bool_decide_eq_true_2 _ (dict_get_elem_of_refs k r _ Hk)) in Hp2.
    destruct (Memory.heap w1 !! r); [|discriminate].
    cbn [fmap option_fmap option_map] in Hp2. injection Hp2 as <-. reflexivity. }
  (* the store into M3 splits off a page and clears the mark *)
  destruct (store_byte_concrete w2 self3 m3 a v3 e3 r Hwf2_3 Hv3)
    as (idx3 & r3 & h3' & h3 & p2' & _ & Hst3 & Hp2' & Hstep3 & Hq3).
  { cbn [m3 copy_of Memory.bits]. fold (Memory.index_bits m3). rewrite Hib3. exact Hk. }
  rewrite Hp2 in Hp2'. injection Hp2' as <-.
  cbn [m3 copy_of Memory.bits] in Hst3. fold m3 in Hst3.
  set (w3 := with_memories _ (with_heap h3 w2)) in Hst3.
  destruct (step_cow_clears_mark _ _ _ _ _ _ _ Hp2 Hstep3 Hflag2)
    as (p3' & Hp3' & Hflag3' & Hc3').
  destruct (Hq3 r p3' Hp3') as (p3 & Hp3 & _ & Hflag3 & _ & Hc3).
  rewrite Hflag3' in Hflag3.
  assert (Hent3 : entries_wf h3 (Memory.pages m)).
  { eapply entries_wf_quiet; [|exact Hq3].
    eapply step_entries_wf_any; [exact Hp2 | exact Hstep3 | apply Hwf2]. }
  assert (Hwf3_2 : mem_wf w3 self2 m2).
  { split.
    - cbn [w3 with_memories Memory.memories].
      rewrite list_lookup_insert_ne by lia. exact Hm2.
    - rewrite Hib2. split; [exact Hib|]. split; [exact Hnd | exact Hent3]. }
  (* the store into M2 writes the shared page in place *)
  destruct (store_byte_concrete w3 self2 m2 a v2 e2 r Hwf3_2 Hv2)
    as (idx2 & r4 & h4' & h4 & p3_ & Hidx2 & Hst4 & Hp3_ & Hstep4 & Hq4).
  { cbn [m2 copy_of Memory.bits]. fold (Memory.index_bits m2). rewrite Hib2. exact Hk. }
  change (Memory.heap w3) with h3 in Hp3_, Hstep4.
  rewrite Hp3 in Hp3_. injection Hp3_ as <-.
  cbn [m2 copy_of Memory.bits] in Hst4, Hidx2. fold m2 in Hst4.
  fold (Memory.index_bits m2) in Hidx2. rewrite Hib2 in Hidx2. fold x in Hidx2.
  set (w4 := with_memories _ (with_heap h4 w3)) in Hst4.
  destruct (step_in_place _ _ _ _ _ _ _ Hstep4 Hflag3) as (_ & p4' & Hp4' & Hc4').
  destruct (Hq4 r p4' Hp4') as (p4 & Hp4 & _ & _ & _ & Hc4).
  assert (Hwf4 : mem_wf w4 self m).
  { split.
    - cbn [w4 w3 with_memories with_heap Memory.memories].
      rewrite !list_lookup_insert_ne by lia. apply Hwf2.
    - split; [exact Hib|]. split; [exact Hnd|].
      eapply entries_wf_quiet; [|exact Hq4].
      eapply step_entries_wf_any; [exact Hp3 | exact Hstep4 | exact Hent3]. }
  (* what M loads *)
  destruct (load_concrete w4 self m a 1 el Hwf4 ltac:(lia) Hmap)
    as (h5 & val & Hload & _ & Hsz & Hval).
  exists self2, self3, w1, w2, w3, w4, val.
  split; [exact Hcopy1|]. split; [exact Hcopy2|].
  split; [lia|]. split; [lia|]. split; [lia|].
  split; [exact Hst3|]. split; [exact Hst4|]. split; [eexists; exact Hload|].
  split; [lia|]. intros rho. destruct (Hval rho) as (bs & Hall & ->).
  assert (Hord : load_order el 1 = [0])
    by (unfold load_order; destruct (String.eqb el "little"); reflexivity).
  rewrite Hord in Hall. inversion Hall as [|j b L bs' Hb Hnil]; subst.
  inversion Hnil; subst. fold x in Hb. fold k in Hb.
  unfold byte_at in Hb. rewrite Hk in Hb. change (Memory.heap w4) with h4 in Hb.
  rewrite Hp4 in Hb. injection Hb as <-.
  rewrite Hc4, Hc4', Hidx2, Z.eqb_refl. unfold be_value. cbn [foldl eval].
  change (2 ^ 0) with 1. rewrite Z.div_1_r. change (7 - 0 + 1) with 8.
  rewrite <- Hv2. rewrite Z.mod_small by (apply eval_range; lia). lia.
Qed.
End ThirdOwner.

Lemma store_in_place_after_third_copy_witness :
  exists self2 self3 w1 w2 w3 w4 r,
    Memory.copy (B := log_store) (PM := cpython_math) 0%nat 0%nat remap_world = Ok self2 w1 /\
    Memory.copy (B := log_store) (PM := cpython_math) 0%nat 0%nat w1 = Ok self3 w2 /\
    Memory.store (B := log_store) (S := fold_simplifier) (V := enum_solver)
      (O := heuristic_on) self3 (bvv 5 8) (BVV 0xCC 8) "big" w2 = Ok tt w3 /\
    Memory.store (B := log_store) (S := fold_simplifier) (V := enum_solver)
      (O := heuristic_on) self2 (bvv 5 8) (BVV 0xAA 8) "big" w3 = Ok tt w4 /\
    returns (Memory.load (B := log_store) (S := fold_simplifier) (V := enum_solver)
               (O := heuristic_on) 0%nat (bvv 5 8) 1 "big") w4 r /\
    bv_equiv r (BVV 0xAA 8).
Proof.
  destruct (store_in_place_after_third_copy (BL := log_store_laws)
              (SL := fold_simplifier_laws) (V := enum_solver) (O := heuristic_on)
              (PM := cpython_math)
              remap_world 0%nat remap_memory 0%nat 0%nat 5 (BVV 0xCC 8) (BVV 0xAA 8)
              "big" "big" "big" remap_world_wf remap_memory_constructed
              ltac:(apply remap_memory_mapped; lia) eq_refl eq_refl)
    as (self2 & self3 & w1 & w2 & w3 & w4 & r & H1 & H2 & _ & _ & _ & H3 & H4 & H5 & H6).
  exists self2, self3, w1, w2, w3, w4, r. repeat (split; [assumption|]). exact H6.
Defined.

Lemma split_bv_recombine_witness :
  exists hi lo,
    split_bv (S := fold_simplifier) (BVV 0x1234 16) 8 tt = Ok (hi, lo) tt /\
    forall rho, eval rho hi * 2 ^ 8 + eval rho lo = 0x1234.
Proof.
  destruct (proj1 (split_bv_recombine (SL := fold_simplifier_laws)
                     (BVV 0x1234 16) 8 tt) ltac:(cbn; lia))
    as (hi & lo & H & _ & _ & Hv).
  exists hi, lo. split; [exact H | exact Hv].
Defined.

Lemma bvv_to_long_value_witness :
  bvv_to_long (S := fold_simplifier) (bvv 300 8) tt = Ok 44 tt.
Proof.
  exact (proj2 (proj2 (bvv_to_long_value (SL := fold_simplifier_laws)
                         (BVV 0 1) tt)) 300 8).
Defined.

(** ** The preload of a page *)

(** Comparisons of integers decided case by case. *)
Ltac case_cmp :=
  repeat match goal with
    | |- context [?a <=? ?b] => destruct (Z.leb_spec a b)
    | |- context [?a <? ?b] => destruct (Z.ltb_spec a b)
    | |- context [?a =? ?b] => destruct (Z.eqb_spec a b)
    end;
  cbn [andb orb negb].

Ltac bool_lia := case_cmp; first [reflexivity | lia].

Section Preload.
Context {B : MemoryObj} {BL : MemoryObjLaws B}.

(** What [lazy_init] leaves in the byte store: the bytes of the blob from
    the start offset on, and elsewhere what was there. *)
Lemma lazy_init_loop_denote (rho : env) (bits idx0 : Z) (val : list Z) :
  0 < bits -> 0 <= idx0 ->
  forall (i : Z) (m : mo_t),
    0 <= i -> idx0 + i + Z.of_nat (length val) <= 2 ^ bits ->
    Forall (fun c => 0 <= c < 256) val ->
    forall off,
      mo_denote rho (Page.lazy_init_loop (bvv idx0 bits) i val m) off =
      if (idx0 + i <=? off) && (off <? idx0 + i + Z.of_nat (length val))
      then nth (Z.to_nat (off - idx0 - i)) val 0
      else mo_denote rho m off.
Proof using BL.
  intros Hbits Hidx. induction val as [|c val IH]; intros i m Hi Hfit Hbytes off.
  - cbn [Page.lazy_init_loop length].
    replace ((idx0 + i <=? off) && (off <? idx0 + i + Z.of_nat 0)) with false
      by bool_lia.
    reflexivity.
  - apply Forall_cons in Hbytes as [Hc Hbytes]. cbn [Page.lazy_init_loop].
    cbn [length] in Hfit |- *.
    rewrite IH by (try assumption; lia).
    rewrite mo_store_denote by reflexivity.
    rewrite (eval_add_int rho idx0 bits i Hbits). unfold byte_address.
    rewrite (Z.mod_small (idx0 + i)) by lia.
    cbn [eval bvv]. change (2 ^ 8) with 256. rewrite Z.mod_mod by lia.
    rewrite (Z.mod_small c) by lia.
    destruct (Z.eq_dec off (idx0 + i)) as [->|Hne].
    + rewrite Z.eqb_refl. case_cmp; try lia.
      replace (idx0 + i - idx0 - i) with 0 by lia. reflexivity.
    + replace (off =? idx0 + i) with false by bool_lia.
      case_cmp; try lia; try reflexivity.
      replace (Z.to_nat (off - idx0 - i))
        with (Datatypes.S (Z.to_nat (off - idx0 - (i + 1)))) by lia.
      reflexivity.
Qed.

(** The content of a page with a pending preload. *)
Lemma content_preload (rho : env) (p : Page.t mo_t) (init : InitData) (t : nat) c :
  Page._init p = Some init -> Page.init_fits p = true ->
  0 < Page.bits p -> 0 <= index init -> Page.size p <= 2 ^ Page.bits p ->
  Forall (fun c => 0 <= c < 256) (bytes init) ->
  bytes init !! t = Some c ->
  Page.content rho p (index init + Z.of_nat t) = c.
Proof using BL.
  intros Hinit Hfits Hbits Hidx Hsize Hbytes Ht.
  unfold Page.init_fits in Hfits. rewrite Hinit in Hfits. apply Z.leb_le in Hfits.
  pose proof (lookup_lt_Some _ _ _ Ht) as Hlt.
  unfold Page.content, Page.materialized. rewrite Hinit.
  cbn [Page.set_init Page.set_mo Page.mo].
  rewrite lazy_init_loop_denote by (try assumption; lia).
  replace ((index init + 0 <=? index init + Z.of_nat t) && _) with true
    by bool_lia.
  replace (Z.to_nat (index init + Z.of_nat t - index init - 0)) with t by lia.
  apply nth_lookup_Some with (d := 0) in Ht. exact Ht.
Qed.

(** [Page.load] reads the preload.  On a page whose pending blob fits, a
    load at the start offset plus [t] returns byte [t] of the blob; the
    blob is written to the byte store by this first access and dropped, so
    that a second load returns the same term and changes nothing. *)
Theorem page_load_reads_preload (h : Page.heap) (r : nat) (p : Page.t mo_t)
    (init : InitData) (t : nat) (c : Z) :
  h !! r = Some p ->
  Page._init p = Some init ->
  Z.of_nat (length (bytes init)) + index init <= Page.size p ->
  0 < Page.bits p -> 0 <= index init -> Page.size p <= 2 ^ Page.bits p ->
  Forall (fun c => 0 <= c < 256) (bytes init) ->
  bytes init !! t = Some c ->
  let idx := bvv (index init + Z.of_nat t) (Page.bits p) in
  exists b h',
    Page.load r idx h = Ok b h' /\
    (forall rho, eval rho b = c) /\
    (exists p', h' !! r = Some p' /\ Page._init p' = None) /\
    Page.load r idx h' = Ok b h'.
Proof using BL.
  intros Hp Hinit Hfit Hbits Hidx Hsize Hbytes Ht idx.
  assert (Hfits : Page.init_fits p = true)
    by (unfold Page.init_fits; rewrite Hinit; apply Z.leb_le; exact Hfit).
  pose proof (lookup_lt_Some _ _ _ Ht) as Hlt.
  pose proof (lookup_lt_Some _ _ _ Hp) as Hr.
  exists (mo_load (Page.mo (Page.materialized p)) idx), (<[r := Page.materialized p]> h).
  split; [apply page_load_Ok; assumption|]. split; [|split].
  - intros rho. rewrite mo_load_denote. subst idx. cbn [eval bvv].
    rewrite Z.mod_mod by (apply Z.pow_nonzero; lia).
    rewrite Z.mod_small by lia.
    apply (content_preload rho p init t c); assumption.
  - exists (Page.materialized p).
    split; [apply list_lookup_insert_eq; exact Hr | apply materialized_init].
  - rewrite (page_load_Ok _ r (Page.materialized p) idx)
      by (try apply list_lookup_insert_eq; try apply init_fits_materialized; exact Hr).
    rewrite materialized_idem, list_insert_insert_eq. reflexivity.
Qed.
End Preload.

Lemma page_load_reads_preload_witness :
  exists b h',
    Page.load (B := log_store) 0%nat (bvv (1 + 1) 2)
      [ {| Page.addr := 1; Page.size := 4; Page.bits := 2;
           Page.mo := mo_new (MemoryObj := log_store) 1 2;
           Page._init := Some {| bytes := [0x10; 0x20; 0x30]; index := 1 |};
           Page._lazycopy := false |} ] = Ok b h' /\
    forall rho, eval rho b = 0x20.
Proof.
  destruct (page_load_reads_preload (BL := log_store_laws)
              [ {| Page.addr := 1; Page.size := 4; Page.bits := 2;
                   Page.mo := mo_new (MemoryObj := log_store) 1 2;
                   Page._init := Some {| bytes := [0x10; 0x20; 0x30]; index := 1 |};
                   Page._lazycopy := false |} ]
              0%nat _ {| bytes := [0x10; 0x20; 0x30]; index := 1 |} 1%nat 0x20
              eq_refl eq_refl ltac:(cbn; lia) ltac:(cbn; lia) ltac:(cbn; lia)
              ltac:(cbn; lia) ltac:(repeat constructor; lia) eq_refl)
    as (b & h' & Hl & Hv & _).
  exists b, h'. split; [exact Hl | exact Hv].
Defined.

(** ** [mmap]: what it maps and what it leaves alone *)

Section MmapRegion.
Context {B : MemoryObj}.

Lemma dict_mem_snoc {V} (k a : Z) (v : V) (d : list (Z * V)) :
  dict_mem k (d ++ [(a, v)]) = true <-> dict_mem k d = true \/ k = a.
Proof.
  unfold dict_mem. rewrite dict_get_app. cbn [dict_get].
  destruct (dict_get k d); [intuition|].
  destruct (Z.eqb_spec a k); intuition (congruence || discriminate).
Qed.

(** One pass of the loop of [mmap], whatever the loop variables hold: a
    mapped slot is skipped, a free one receives a new page object. *)
Lemma mmap_body_any (self : nat) (blob : list Z) (a : Z) vs
    (w : Memory.World) (m : Memory.t) :
  Memory.memories w !! self = Some m ->
  exists vs' d' hn,
    Memory.mmap_body self blob a vs w
    = Ok vs' (with_memories (<[self := with_pages d' m]> (Memory.memories w))
                (with_heap (Memory.heap w ++ hn) w)) /\
    (forall k, dict_mem k d' = true <-> dict_mem k (Memory.pages m) = true \/ k = a) /\
    (forall k r, dict_get k (Memory.pages m) = Some r -> dict_get k d' = Some r).
Proof.
  intros Hm. destruct (dict_mem a (Memory.pages m)) eqn:Hmem.
  - exists vs, (Memory.pages m), []. split; [|split].
    + rewrite (mmap_body_mapped self blob a vs w m Hm Hmem).
      rewrite app_nil_r, with_pages_id, list_insert_id by exact Hm.
      rewrite with_heap_id, with_memories_id. reflexivity.
    + intros k. split; [auto|]. intros [H| ->]; assumption.
    + auto.
  - unfold Memory.mmap_body. rewrite (bind_Ok _ _ _ _ _ (deref_Ok w self m Hm)).
    rewrite Hmem. cbn [negb].
    destruct (Memory.init_index vs) as [ii|];
      (eexists; exists (Memory.pages m ++ [(a, length (Memory.heap w))]); eexists;
       split;
       [ erewrite bind_Ok; [|apply lift_heap_Ok; reflexivity];
         erewrite bind_Ok; [|apply (set_pages_Ok _ self m); exact Hm];
         unfold ret; rewrite (dict_set_fresh _ _ _ Hmem); reflexivity
       | split; [intros k; apply dict_mem_snoc|];
         intros k r Hk; rewrite dict_get_app, Hk; reflexivity ]).
Qed.

Lemma mmap_loop_any (self : nat) (blob : list Z) (L : list Z) :
  forall (w : Memory.World) (m : Memory.t) vs,
    Memory.memories w !! self = Some m ->
    exists vs' d' hn,
      for_each L (Memory.mmap_body self blob) vs w
      = Ok vs' (with_memories (<[self := with_pages d' m]> (Memory.memories w))
                  (with_heap (Memory.heap w ++ hn) w)) /\
      (forall k, dict_mem k d' = true <->
                 dict_mem k (Memory.pages m) = true \/ k ∈ L) /\
      (forall k r, dict_get k (Memory.pages m) = Some r -> dict_get k d' = Some r).
Proof.
  induction L as [|a L IH]; intros w m vs Hm.
  - exists vs, (Memory.pages m), []. split; [|split].
    + cbn [for_each]. unfold ret.
      rewrite app_nil_r, with_pages_id, list_insert_id by exact Hm.
      rewrite with_heap_id, with_memories_id. reflexivity.
    + intros k. split; [auto|]. intros [H|H]; [exact H | inversion H].
    + auto.
  - destruct (mmap_body_any self blob a vs w m Hm)
      as (vs1 & d1 & h1 & Hbody & Hmem1 & Hget1).
    set (w1 := with_memories _ _) in Hbody.
    assert (Hm1 : Memory.memories w1 !! self = Some (with_pages d1 m)).
    { apply list_lookup_insert_eq. eapply lookup_lt_Some. exact Hm. }
    destruct (IH w1 (with_pages d1 m) vs1 Hm1) as (vs2 & d2 & h2 & Hloop & Hmem2 & Hget2).
    exists vs2, d2, (h1 ++ h2). split; [|split].
    + cbn [for_each]. rewrite (bind_Ok _ _ _ _ _ Hbody). rewrite Hloop.
      f_equal. unfold w1, with_memories, with_heap, with_pages.
      cbn [Memory.heap Memory.memories Memory.states Memory.errored Memory.bits
           Memory.state Memory.page_size Memory.index_bits].
      rewrite list_insert_insert_eq, app_assoc. reflexivity.
    + intros k. rewrite Hmem2. cbn [with_pages Memory.pages]. rewrite Hmem1.
      rewrite elem_of_cons. tauto.
    + intros k r Hk. apply Hget2. cbn [with_pages Memory.pages]. apply Hget1. exact Hk.
Qed.

(** [mmap] on aligned arguments returns, for every [init]: afterwards the
    slots of the region are mapped and no other slot has become mapped;
    the entries and the page objects that existed are untouched, so the
    preload is ignored for slots that were mapped already; no constraint is
    added.  On an address or a size that is not a multiple of the page size
    it raises [AssertionError] and changes nothing. *)
Theorem mmap_maps_region (w : Memory.World) (self : nat) (m : Memory.t)
    (address size : Z) (init : option InitData) :
  Memory.memories w !! self = Some m ->
  (address mod Memory.page_size m = 0 -> size mod Memory.page_size m = 0 ->
   exists w' d',
     Memory.mmap self address size init w = Ok tt w' /\
     Memory.memories w' = <[self := with_pages d' m]> (Memory.memories w) /\
     Memory.states w' = Memory.states w /\
     Memory.errored w' = Memory.errored w /\
     (forall k, dict_mem k d' = true <->
        dict_mem k (Memory.pages m) = true \/
        address / Memory.page_size m <= k
          < address / Memory.page_size m + size / Memory.page_size m) /\
     (forall k r, dict_get k (Memory.pages m) = Some r -> dict_get k d' = Some r) /\
     (forall r p, Memory.heap w !! r = Some p -> Memory.heap w' !! r = Some p)) /\
  (address mod Memory.page_size m <> 0 \/ size mod Memory.page_size m <> 0 ->
   Memory.mmap self address size init w = Fail AssertionError w).
Proof.
  intros Hm. split.
  - intros Ha Hs.
    destruct (mmap_loop_any self (from_option bytes [] init)
                (seqZ (address / Memory.page_size m) (size / Memory.page_size m))
                w m
                {| Memory.init_index := index <$> init;
                   Memory.data_index_i := 0;
                   Memory.data_index_f :=
                     from_option (fun x => Memory.page_size m - index x) 0 init |}
                Hm) as (vs' & d' & hn & Hloop & Hmem & Hget).
    eexists. exists d'. split.
    + unfold Memory.mmap. rewrite (bind_Ok _ _ _ _ _ (deref_Ok w self m Hm)).
      unfold assert. rewrite Ha, Hs. cbn [Z.eqb]. rewrite !bind_ret.
      rewrite (bind_Ok _ _ _ _ _ Hloop). reflexivity.
    + cbn [with_memories with_heap Memory.heap Memory.memories Memory.states
           Memory.errored].
      split; [reflexivity|]. split; [reflexivity|]. split; [reflexivity|].
      split; [|split; [exact Hget|]].
      * intros k. rewrite Hmem, elem_of_seqZ. reflexivity.
      * intros r p Hp. apply lookup_app_l_Some. exact Hp.
  - intros Hbad. unfold Memory.mmap.
    rewrite (bind_Ok _ _ _ _ _ (deref_Ok w self m Hm)). unfold assert.
    destruct (Z.eqb_spec (address mod Memory.page_size m) 0) as [Ha|Ha];
      [|reflexivity].
    rewrite bind_ret.
    destruct (Z.eqb_spec (size mod Memory.page_size m) 0) as [Hs|Hs];
      [|reflexivity].
    tauto.
Qed.
End MmapRegion.

(** Remapping slot 1 of [remap_world] with a preload: the page object at
    reference 0 is as it was. *)
Lemma mmap_maps_region_witness :
  exists w',
    Memory.mmap (B := log_store) 0%nat 4 4 (Some {| bytes := [0xFF]; index := 0 |})
      remap_world = Ok tt w' /\
    Memory.heap w' !! 0%nat = Memory.heap remap_world !! 0%nat.
Proof.
  destruct (proj1 (mmap_maps_region (B := log_store) remap_world 0%nat remap_memory
                     4 4 (Some {| bytes := [0xFF]; index := 0 |}) eq_refl)
              eq_refl eq_refl) as (w' & d' & Hmap & _ & _ & _ & _ & _ & Hheap).
  exists w'. split; [exact Hmap|]. apply (Hheap 0%nat). reflexivity.
Defined.

(** ** [mmap] with a preload, then [load] *)

Lemma imap_pair_keys {A} (L : list Z) :
  forall (f : nat -> A), (imap (fun j a => (a, f j)) L).*1 = L.
Proof.
  induction L as [|a L IH]; intros f; [reflexivity|].
  cbn [imap fmap list_fmap fst]. f_equal. exact (IH (fun j => f (Datatypes.S j))).
Qed.

Lemma dict_get_imap (L : list Z) :
  forall (base : nat) k r,
    dict_get k (imap (fun j a => (a, (base + j)%nat)) L) = Some r ->
    exists j, L !! j = Some k /\ r = (base + j)%nat.
Proof.
  induction L as [|a L IH]; intros base k r H; [discriminate|].
  cbn [imap dict_get] in H. destruct (Z.eqb_spec a k) as [->|Hne].
  - injection H as <-. exists 0%nat. split; reflexivity.
  - rewrite (imap_ext _ (fun j a => (a, (Datatypes.S base + j)%nat))) in H
      by (intros j x _; unfold compose; f_equal; lia).
    destruct (IH _ _ _ H) as (j & Hj & ->).
    exists (Datatypes.S j). split; [exact Hj | lia].
Qed.

Lemma dict_get_imap_lookup (L : list Z) :
  NoDup L ->
  forall (base j : nat) k,
    L !! j = Some k ->
    dict_get k (imap (fun j a => (a, (base + j)%nat)) L) = Some (base + j)%nat.
Proof.
  induction 1 as [|a L Hnotin Hnd IH]; intros base j k Hj; [discriminate|].
  cbn [imap dict_get]. destruct j as [|j]; cbn [lookup list_lookup] in Hj.
  - injection Hj as ->. rewrite Z.eqb_refl. reflexivity.
  - destruct (Z.eqb_spec a k) as [->|Hne].
    + exfalso. apply Hnotin. eapply list_elem_of_lookup_2. exact Hj.
    + rewrite (imap_ext _ (fun j a => (a, (Datatypes.S base + j)%nat)))
        by (intros j' x _; unfold compose; f_equal; lia).
      rewrite (IH _ _ _ Hj). f_equal. lia.
Qed.

(** The slice that [mmap] hands to a page fits the page. *)
Lemma init_chunk_fits (ps : Z) (init : InitData) (j : nat) :
  0 <= index init < ps ->
  Z.of_nat (length (bytes (init_chunk ps init j))) + index (init_chunk ps init j) <= ps.
Proof.
  intros Hidx. destruct j as [|j]; cbn [init_chunk bytes index].
  - rewrite py_slice_take_drop by lia.
    pose proof (firstn_le_length (Z.to_nat (ps - index init - 0))
                  (drop (Z.to_nat 0) (bytes init))). lia.
  - rewrite py_slice_take_drop by nia.
    pose proof (firstn_le_length
                  (Z.to_nat ((Z.of_nat (Datatypes.S j) + 1) * ps - index init -
                             (Z.of_nat (Datatypes.S j) * ps - index init)))
                  (drop (Z.to_nat (Z.of_nat (Datatypes.S j) * ps - index init))
                        (bytes init))). nia.
Qed.

Lemma init_chunk_bytes (ps : Z) (init : InitData) (j : nat) :
  0 <= index init < ps ->
  Forall (fun c => 0 <= c < 256) (bytes init) ->
  Forall (fun c => 0 <= c < 256) (bytes (init_chunk ps init j)).
Proof.
  intros Hidx Hb. destruct j as [|j]; cbn [init_chunk bytes];
    rewrite py_slice_take_drop by nia; apply Forall_take, Forall_drop; exact Hb.
Qed.

(** Byte [i] of the blob is in the slice of page [(index + i) / ps], at the
    in-page offset [(index + i) mod ps]. *)
Lemma init_chunk_lookup (ps : Z) (init : InitData) (i : nat) c :
  0 <= index init < ps ->
  bytes init !! i = Some c ->
  let q := Z.to_nat ((index init + Z.of_nat i) / ps) in
  exists t : nat,
    bytes (init_chunk ps init q) !! t = Some c /\
    index (init_chunk ps init q) + Z.of_nat t = (index init + Z.of_nat i) mod ps.
Proof.
  intros Hidx Hi q.
  pose proof (Z.div_mod (index init + Z.of_nat i) ps ltac:(lia)) as Hdm.
  pose proof (Z.mod_pos_bound (index init + Z.of_nat i) ps ltac:(lia)) as Hmod.
  assert (Hq : 0 <= (index init + Z.of_nat i) / ps) by (apply Z.div_pos; lia).
  destruct q as [|q'] eqn:Eq.
  - assert (Hz : (index init + Z.of_nat i) / ps = 0) by lia.
    rewrite Hz in Hdm. exists i. cbn [init_chunk bytes index].
    rewrite py_slice_take_drop by lia. split; [|lia].
    rewrite lookup_take_lt by lia. rewrite lookup_drop.
    replace (Z.to_nat 0 + i)%nat with i by lia. exact Hi.
  - assert (Hqz : Z.of_nat (Datatypes.S q') = (index init + Z.of_nat i) / ps) by lia.
    exists (Z.to_nat ((index init + Z.of_nat i) mod ps)).
    cbn [init_chunk bytes index]. rewrite Hqz.
    rewrite py_slice_take_drop by nia. split; [|lia].
    rewrite lookup_take_lt by nia. rewrite lookup_drop.
    replace (Z.to_nat ((index init + Z.of_nat i) / ps * ps - index init) +
             Z.to_nat ((index init + Z.of_nat i) mod ps))%nat with i by nia.
    exact Hi.
Qed.

Section MmapPreload.
Context {B : MemoryObj} {BL : MemoryObjLaws B}.
Context {S : Z3Simplifier} {SL : Z3SimplifierLaws S}.
Context {V : Solver} {O : Options}.

(** The memory after [mmap] with a preload has created pages for the free
    slots [created]. *)
Lemma mmap_world_wf (w : Memory.World) self m (init : InitData) (created : list Z) :
  mem_wf w self m -> NoDup created ->
  (forall a, a ∈ created -> dict_mem a (Memory.pages m) = false) ->
  0 <= index init < Memory.page_size m ->
  let d1 := Memory.pages m ++
            imap (fun j a => (a, (length (Memory.heap w) + j)%nat)) created in
  mem_wf (mmap_world w self m init 0 created) self (with_pages d1 m) /\
  forall (j : nat) k, created !! j = Some k ->
    dict_get k d1 = Some (length (Memory.heap w) + j)%nat /\
    Memory.heap (mmap_world w self m init 0 created)
      !! (length (Memory.heap w) + j)%nat
    = Some (fresh_page m (Some (init_chunk (Memory.page_size m) init j)) k).
Proof.
  intros Hwf Hnd Hfree Hidx d1. pose proof Hwf as (Hm & Hib & Hndk & Hent).
  assert (Hnew : forall (j : nat) k, created !! j = Some k ->
            dict_get k d1 = Some (length (Memory.heap w) + j)%nat /\
            Memory.heap (mmap_world w self m init 0 created)
              !! (length (Memory.heap w) + j)%nat
            = Some (fresh_page m (Some (init_chunk (Memory.page_size m) init j)) k)).
  { intros j k Hj. split.
    - subst d1. rewrite dict_get_app.
      pose proof (Hfree k (list_elem_of_lookup_2 _ _ _ Hj)) as Hk.
      unfold dict_mem in Hk. destruct (dict_get k (Memory.pages m)); [discriminate|].
      apply dict_get_imap_lookup; assumption.
    - unfold mmap_world. cbn [with_memories with_heap Memory.heap].
      rewrite lookup_app_r by lia.
      replace (length (Memory.heap w) + j - length (Memory.heap w))%nat with j by lia.
      rewrite list_lookup_imap, Hj. reflexivity. }
  split; [|exact Hnew]. split; [|split; [exact Hib|split]].
  - unfold mmap_world. cbn [with_memories Memory.memories].
    apply list_lookup_insert_eq. eapply lookup_lt_Some. exact Hm.
  - cbn [with_pages Memory.pages]. subst d1. unfold dict_keys.
    rewrite fmap_app, imap_pair_keys. apply NoDup_app.
    split; [exact Hndk|]. split; [|exact Hnd].
    intros x Hx Hc. apply dict_mem_keys in Hx. rewrite (Hfree x Hc) in Hx. discriminate.
  - cbn [with_pages Memory.pages]. intros k r Hk. subst d1.
    rewrite dict_get_app in Hk.
    destruct (dict_get k (Memory.pages m)) as [r0|] eqn:Hold.
    + injection Hk as <-. destruct (Hent k r0 Hold) as (p & Hp & Ha & Hf).
      exists p. split; [|split; assumption].
      unfold mmap_world. cbn [with_memories with_heap Memory.heap].
      apply lookup_app_l_Some. exact Hp.
    + destruct (dict_get_imap _ _ _ _ Hk) as (j & Hj & ->).
      destruct (Hnew j k Hj) as [_ Hpg]. eexists. split; [exact Hpg|].
      split; [reflexivity|]. unfold Page.init_fits. cbn [fresh_page Page._init Page.size].
      apply Z.leb_le. apply init_chunk_fits. exact Hidx.
Qed.

(** Where [mmap] puts the blob.  Byte [i] of the blob goes to the page
    created [q]-th by the call, [q = (index + i) div page_size], at the
    in-page offset [(index + i) mod page_size]; when [k] is the slot of that
    page, a load of the byte at that offset of slot [k] returns it. *)
Lemma mmap_preload_at (w : Memory.World) (self : nat) (m : Memory.t)
    (address size : Z) (init : InitData) (i : nat) (c k : Z) (endness : string) :
  mem_wf w self m ->
  Memory.page_size m = 2 ^ Memory.index_bits m ->
  address mod Memory.page_size m = 0 ->
  size mod Memory.page_size m = 0 ->
  0 <= address -> address + size <= 2 ^ Memory.bits m ->
  0 <= index init < Memory.page_size m ->
  Forall (fun c => 0 <= c < 256) (bytes init) ->
  bytes init !! i = Some c ->
  created_slots m address size
    !! Z.to_nat ((index init + Z.of_nat i) / Memory.page_size m) = Some k ->
  exists w1 r,
    Memory.mmap self address size (Some init) w = Ok tt w1 /\
    returns (Memory.load self
               (bvv (k * Memory.page_size m +
                     (index init + Z.of_nat i) mod Memory.page_size m)
                    (Memory.bits m)) 1 endness)
            w1 r /\
    bv_size r = 8 /\
    forall rho, eval rho r = c.
Proof using BL SL.
  intros Hwf Hps Haddr Hsize Ha0 Hspace Hidx Hbytes Hi Hk.
  pose proof Hwf as (Hm & Hib & Hndk & Hent).
  set (ps := Memory.page_size m) in *.
  assert (Hps0 : 0 < ps) by (rewrite Hps; apply Z.pow_pos_nonneg; lia).
  set (first := address / ps) in *. set (cnt := size / ps) in *.
  assert (Haddr' : address = first * ps).
  { subst first. rewrite Z.mul_comm. apply Z_div_exact_full_2; [lia | exact Haddr]. }
  assert (Hsize' : size = cnt * ps).
  { subst cnt. rewrite Z.mul_comm. apply Z_div_exact_full_2; [lia | exact Hsize]. }
  set (L := created_slots m address size) in *.
  assert (HL : forall a, a ∈ L ->
            dict_mem a (Memory.pages m) = false /\ first <= a < first + cnt).
  { intros a Ha. subst L. unfold created_slots in Ha. fold ps first cnt in Ha.
    apply list_elem_of_In, filter_In in Ha as [Ha Hf].
    apply list_elem_of_In, elem_of_seqZ in Ha.
    split; [|exact Ha]. destruct (dict_mem a (Memory.pages m)); [discriminate|reflexivity]. }
  assert (HndL : NoDup L).
  { subst L. unfold created_slots.
    apply NoDup_ListNoDup, List.NoDup_filter, NoDup_ListNoDup, NoDup_seqZ. }
  (* the call of mmap *)
  assert (Hmmap : Memory.mmap self address size (Some init) w
                  = Ok tt (mmap_world w self m init 0 L)).
  { unfold Memory.mmap. mstep (deref_Ok w self m Hm).
    unfold assert. fold ps. rewrite Haddr, Hsize. cbn [Z.eqb].
    unfold bind at 1. unfold ret at 1. unfold bind at 1. unfold ret at 1.
    cbn [from_option fmap option_fmap option_map].
    replace {| Memory.init_index := Some (index init);
               Memory.data_index_i := 0;
               Memory.data_index_f := ps - index init |}
      with (mmap_vars_at ps init 0)
      by (unfold mmap_vars_at; f_equal; lia).
    fold first cnt.
    mstep (mmap_loop_spec self init _ (NoDup_seqZ first cnt) w m 0%nat Hm).
    reflexivity. }
  destruct (mmap_world_wf w self m init L Hwf HndL
              ltac:(intros a Ha; apply HL; exact Ha) Hidx) as [Hwf1 Hnew].
  set (d1 := Memory.pages m ++ _) in *.
  set (w1 := mmap_world w self m init 0 L) in *.
  (* the byte address *)
  set (o := (index init + Z.of_nat i) mod ps) in *.
  assert (Ho : 0 <= o < ps) by (apply Z.mod_pos_bound; lia).
  destruct (HL k (list_elem_of_lookup_2 _ _ _ Hk)) as [_ Hkr].
  set (X := k * ps + o).
  assert (HX : byte_address (Memory.bits m) X 0 = X).
  { unfold byte_address. rewrite Z.add_0_r. apply Z.mod_small. subst X. nia. }
  assert (Hslot : slot_of (Memory.index_bits m) X = k).
  { unfold slot_of. rewrite <- Hps. subst X.
    rewrite Z.div_add_l by lia. rewrite Z.div_small by lia. lia. }
  assert (Hoff : offset_of (Memory.index_bits m) X = o).
  { unfold offset_of. rewrite <- Hps. subst X.
    rewrite Z.add_comm, Z.mod_add by lia. apply Z.mod_small. exact Ho. }
  destruct (Hnew _ _ Hk) as [Hget Hpg].
  assert (Hmap1 : mapped_range (with_pages d1 m) X 1).
  { intros j Hj. replace j with 0 by lia.
    cbn [with_pages Memory.pages Memory.index_bits Memory.bits].
    rewrite HX, Hslot. apply dict_mem_get. eauto. }
  destruct (load_concrete w1 self (with_pages d1 m) X 1 endness Hwf1 ltac:(lia) Hmap1)
    as (h' & val & Hload & _ & Hsz & Hval).
  exists w1, val. split; [exact Hmmap|]. split; [eexists; exact Hload|].
  split; [lia|]. intros rho. destruct (Hval rho) as (bs & Hall & ->).
  assert (Hord : load_order endness 1 = [0])
    by (unfold load_order; destruct (String.eqb endness "little"); reflexivity).
  rewrite Hord in Hall.
  apply Forall2_cons_inv_l in Hall as (b & bs' & Hb & Hnil & ->).
  apply Forall2_nil_inv_l in Hnil as ->.
  cbn [with_pages Memory.pages Memory.index_bits Memory.bits] in Hb.
  rewrite HX, Hslot, Hoff in Hb. unfold byte_at in Hb. rewrite Hget, Hpg in Hb.
  injection Hb as <-. unfold be_value. cbn [foldl]. rewrite Z.add_0_l.
  destruct (init_chunk_lookup ps init i c Hidx Hi) as (t & Ht & Hto).
  fold o in Hto. rewrite <- Hto.
  apply (content_preload rho _ (init_chunk ps init _) t c).
  - reflexivity.
  - unfold Page.init_fits. cbn [fresh_page Page._init Page.size].
    apply Z.leb_le. apply init_chunk_fits. exact Hidx.
  - cbn [fresh_page Page.bits]. lia.
  - destruct (Z.to_nat _); cbn [init_chunk index]; lia.
  - cbn [fresh_page Page.size Page.bits]. fold ps. lia.
  - apply init_chunk_bytes; assumption.
  - exact Ht.
Qed.

(** Preloaded bytes are read back, in a memory whose [index_bits] is the
    exact logarithm of its page size ([page_size = 2 ^ index_bits]; the
    constructor's floating-point value is one more at page sizes such as
    [2**29], where the load raises instead).  [mmap] of a region in which
    no slot is mapped yet, with a blob whose start offset lies in the first
    page, then [load] of one byte at [address + index + i]: the load returns
    byte [i] of the blob, for every byte of the blob that falls in the
    region. *)
Theorem mmap_preload_readable (w : Memory.World) (self : nat) (m : Memory.t)
    (address size : Z) (init : InitData) (i : nat) (c : Z) (endness : string) :
  mem_wf w self m ->
  Memory.page_size m = 2 ^ Memory.index_bits m ->
  address mod Memory.page_size m = 0 ->
  size mod Memory.page_size m = 0 ->
  0 <= address -> address + size <= 2 ^ Memory.bits m ->
  (forall k, address / Memory.page_size m <= k
               < address / Memory.page_size m + size / Memory.page_size m ->
     dict_mem k (Memory.pages m) = false) ->
  0 <= index init < Memory.page_size m ->
  Forall (fun c => 0 <= c < 256) (bytes init) ->
  bytes init !! i = Some c ->
  index init + Z.of_nat i < size ->
  exists w1 r,
    Memory.mmap self address size (Some init) w = Ok tt w1 /\
    returns (Memory.load self
               (bvv (address + index init + Z.of_nat i) (Memory.bits m)) 1 endness)
            w1 r /\
    bv_size r = 8 /\
    forall rho, eval rho r = c.
Proof using BL SL.
  intros Hwf Hps Haddr Hsize Ha0 Hspace Hfresh Hidx Hbytes Hi Hin.
  set (ps := Memory.page_size m) in *.
  assert (Hps0 : 0 < ps).
  { rewrite Hps. apply Z.pow_pos_nonneg; [lia|]. destruct Hwf as (_ & ? & _). lia. }
  set (first := address / ps) in *. set (cnt := size / ps) in *.
  assert (Haddr' : address = first * ps).
  { subst first. rewrite Z.mul_comm. apply Z_div_exact_full_2; [lia | exact Haddr]. }
  assert (Hsize' : size = cnt * ps).
  { subst cnt. rewrite Z.mul_comm. apply Z_div_exact_full_2; [lia | exact Hsize]. }
  assert (Hcreated : created_slots m address size = seqZ first cnt).
  { unfold created_slots. fold ps first cnt. apply forallb_filter_id.
    apply forallb_forall. intros a Ha. apply list_elem_of_In in Ha.
    apply elem_of_seqZ in Ha. rewrite (Hfresh a Ha). reflexivity. }
  set (qz := (index init + Z.of_nat i) / ps).
  assert (Hq : 0 <= qz < cnt).
  { subst qz. split; [apply Z.div_pos; lia|].
    apply Z.div_lt_upper_bound; [lia|]. rewrite Z.mul_comm. lia. }
  destruct (mmap_preload_at w self m address size init i c (first + qz) endness
              Hwf Hps Haddr Hsize Ha0 Hspace Hidx Hbytes Hi) as (w1 & r & H).
  { rewrite Hcreated. fold ps qz. rewrite lookup_seqZ_lt by lia. f_equal. lia. }
  exists w1, r. fold ps in H.
  replace (address + index init + Z.of_nat i)
    with ((first + qz) * ps + (index init + Z.of_nat i) mod ps); [exact H|].
  pose proof (Z.div_mod (index init + Z.of_nat i) ps ltac:(lia)). subst qz. lia.
Qed.

(** A slot of the region that is mapped already receives nothing and does
    not advance the blob: the bytes meant for its addresses and for the
    addresses after it go to the pages created after it.  In a memory whose
    [index_bits] is the exact logarithm of its page size
    ([page_size = 2 ^ index_bits]), when the slot [q0] of the region is the
    only one mapped before the call, every byte [i] of the blob meant for an
    address from that slot on is read back one page higher, at
    [address + index + i + page_size]. *)
Theorem mmap_preload_displaced (w : Memory.World) (self : nat) (m : Memory.t)
    (address size : Z) (init : InitData) (i : nat) (c q0 : Z) (endness : string) :
  mem_wf w self m ->
  Memory.page_size m = 2 ^ Memory.index_bits m ->
  address mod Memory.page_size m = 0 ->
  size mod Memory.page_size m = 0 ->
  0 <= address -> address + size <= 2 ^ Memory.bits m ->
  0 <= q0 ->
  (forall k, address / Memory.page_size m <= k
               < address / Memory.page_size m + size / Memory.page_size m ->
     dict_mem k (Memory.pages m) = true <-> k = address / Memory.page_size m + q0) ->
  0 <= index init < Memory.page_size m ->
  Forall (fun c => 0 <= c < 256) (bytes init) ->
  bytes init !! i = Some c ->
  q0 * Memory.page_size m <= index init + Z.of_nat i ->
  index init + Z.of_nat i + Memory.page_size m < size ->
  exists w1 r,
    Memory.mmap self address size (Some init) w = Ok tt w1 /\
    returns (Memory.load self
               (bvv (address + index init + Z.of_nat i + Memory.page_size m)
                    (Memory.bits m)) 1 endness)
            w1 r /\
    bv_size r = 8 /\
    forall rho, eval rho r = c.
Proof using BL SL.
  intros Hwf Hps Haddr Hsize Ha0 Hspace Hq0 Honly Hidx Hbytes Hi Hlo Hhi.
  set (ps := Memory.page_size m) in *.
  assert (Hps0 : 0 < ps).
  { rewrite Hps. apply Z.pow_pos_nonneg; [lia|]. destruct Hwf as (_ & ? & _). lia. }
  set (first := address / ps) in *. set (cnt := size / ps) in *.
  assert (Haddr' : address = first * ps).
  { subst first. rewrite Z.mul_comm. apply Z_div_exact_full_2; [lia | exact Haddr]. }
  assert (Hsize' : size = cnt * ps).
  { subst cnt. rewrite Z.mul_comm. apply Z_div_exact_full_2; [lia | exact Hsize]. }
  set (qz := (index init + Z.of_nat i) / ps).
  assert (Hq : q0 <= qz < cnt - 1).
  { subst qz. split; [apply Z.div_le_lower_bound; lia|].
    apply Z.div_lt_upper_bound; [lia|]. nia. }
  set (f := fun a => negb (dict_mem a (Memory.pages m))).
  assert (Hkeep : forall lo n, first <= lo -> lo + n <= first + cnt ->
            (first + q0 < lo \/ lo + n <= first + q0) ->
            List.filter f (seqZ lo n) = seqZ lo n).
  { intros lo n H1 H2 H3. apply forallb_filter_id, forallb_forall.
    intros a Ha. apply list_elem_of_In, elem_of_seqZ in Ha. subst f. cbv beta.
    destruct (dict_mem a (Memory.pages m)) eqn:E; [|reflexivity].
    apply Honly in E; lia. }
  assert (Hcreated : created_slots m address size
                     = seqZ first q0 ++ seqZ (first + q0 + 1) (cnt - q0 - 1)).
  { unfold created_slots. fold ps first cnt f.
    replace cnt with (q0 + (cnt - q0)) at 1 by lia.
    rewrite seqZ_app by lia. rewrite (seqZ_cons (first + q0)) by lia.
    rewrite List.filter_app. cbn [List.filter].
    replace (f (first + q0)) with false.
    2:{ subst f. cbv beta. rewrite (proj2 (Honly (first + q0) ltac:(lia)) eq_refl).
        reflexivity. }
    rewrite !Hkeep by lia. reflexivity. }
  destruct (mmap_preload_at w self m address size init i c (first + qz + 1) endness
              Hwf Hps Haddr Hsize Ha0 Hspace Hidx Hbytes Hi) as (w1 & r & H).
  { rewrite Hcreated. fold ps qz. rewrite lookup_app_r by (rewrite length_seqZ; lia).
    rewrite length_seqZ. rewrite lookup_seqZ_lt by lia. f_equal. lia. }
  exists w1, r. fold ps in H.
  replace (address + index init + Z.of_nat i + ps)
    with ((first + qz + 1) * ps + (index init + Z.of_nat i) mod ps); [exact H|].
  pose proof (Z.div_mod (index init + Z.of_nat i) ps ltac:(lia)). subst qz. lia.
Qed.
End MmapPreload.

Lemma blank_world_wf : mem_wf (B := log_store) blank_world 0%nat blank_memory.
Proof.
  split; [reflexivity|]. split; [cbn; lia|]. split; [constructor|].
  intros k r H. discriminate H.
Qed.

(** Five bytes preloaded from address 10 on, over the pages of slots 2 and
    3: the byte at address 13 is the fourth of them. *)
Lemma mmap_preload_readable_witness :
  exists w1 r,
    Memory.mmap (B := log_store) 0%nat 8 8
      (Some {| bytes := [0x11; 0x22; 0x33; 0x44; 0x55]; index := 2 |}) blank_world
    = Ok tt w1 /\
    returns (Memory.load (B := log_store) (S := fold_simplifier) (V := enum_solver)
               (O := heuristic_on) 0%nat (bvv 13 8) 1 "big") w1 r /\
    forall rho, eval rho r = 0x44.
Proof.
  destruct (mmap_preload_readable (BL := log_store_laws)
              (SL := fold_simplifier_laws) (V := enum_solver) (O := heuristic_on)
              blank_world 0%nat blank_memory 8 8
              {| bytes := [0x11; 0x22; 0x33; 0x44; 0x55]; index := 2 |} 3%nat 0x44 "big"
              blank_world_wf eq_refl eq_refl eq_refl ltac:(lia) ltac:(cbn; lia)
              ltac:(intros k Hk; reflexivity) ltac:(cbn; lia)
              ltac:(repeat constructor; lia) eq_refl ltac:(cbn; lia))
    as (w1 & r & Hm & Hl & _ & Hv).
  exists w1, r. split; [exact Hm|]. split; [exact Hl | exact Hv].
Defined.

Lemma slot3_world_wf : mem_wf (B := log_store) slot3_world 0%nat slot3_memory.
Proof.
  split; [reflexivity|]. split; [cbn; lia|]. split; [apply NoDup_singleton|].
  intros k r H. cbn [dict_get slot3_memory Memory.pages] in H.
  destruct (3 =? k) eqn:E; [|discriminate].
  apply Z.eqb_eq in E as <-. injection H as <-. eexists.
  split; [reflexivity|]. split; reflexivity.
Qed.

(** The blob of the previous example mapped over slots 2, 3, 4 when slot 3
    is mapped already: its third byte, meant for address 12, is read back at
    address 16. *)
Lemma mmap_preload_displaced_witness :
  exists w1 r,
    Memory.mmap (B := log_store) 0%nat 8 12
      (Some {| bytes := [0x11; 0x22; 0x33; 0x44; 0x55]; index := 2 |}) slot3_world
    = Ok tt w1 /\
    returns (Memory.load (B := log_store) (S := fold_simplifier) (V := enum_solver)
               (O := heuristic_on) 0%nat (bvv 16 8) 1 "big") w1 r /\
    forall rho, eval rho r = 0x33.
Proof.
  destruct (mmap_preload_displaced (BL := log_store_laws)
              (SL := fold_simplifier_laws) (V := enum_solver) (O := heuristic_on)
              slot3_world 0%nat slot3_memory 8 12
              {| bytes := [0x11; 0x22; 0x33; 0x44; 0x55]; index := 2 |} 2%nat 0x33 1 "big"
              slot3_world_wf eq_refl eq_refl eq_refl ltac:(lia) ltac:(cbn; lia)
              ltac:(lia))
    as (w1 & r & Hm & Hl & _ & Hv).
  - intros k Hk. change (8 / Memory.page_size slot3_memory) with 2 in *.
    change (12 / Memory.page_size slot3_memory) with 3 in Hk.
    assert (k = 2 \/ k = 3 \/ k = 4) as [-> | [-> | ->]] by lia;
      cbn; split; intros H; first [lia | discriminate H | reflexivity].
  - cbn; lia.
  - repeat constructor; lia.
  - reflexivity.
  - cbn; lia.
  - cbn; lia.
  - exists w1, r. split; [exact Hm|]. split; [exact Hl | exact Hv].
Defined.

(** ** Byte order and long values *)

Section ByteOrder.
Context {B : MemoryObj} {BL : MemoryObjLaws B}.
Context {S : Z3Simplifier} {SL : Z3SimplifierLaws S}.
Context {V : Solver} {O : Options}.

(** A store, then a load of the same bytes, each with its own byte order:
    the value loaded is made of the bytes of the value stored, in the order
    in which the load visits them. *)
Lemma store_then_load (w : Memory.World) self m a v es el n :
  mem_wf w self m ->
  bv_size v = 8 * n -> 0 < n <= 2 ^ Memory.bits m ->
  mapped_range m a n ->
  exists w1 r,
    Memory.store self (bvv a (Memory.bits m)) v es w = Ok tt w1 /\
    returns (Memory.load self (bvv a (Memory.bits m)) n el) w1 r /\
    bv_size r = bv_size v /\
    forall rho,
      eval rho r =
      be_value ((fun j => byte_of (eval rho v) (store_offset es n j))
                  <$> load_order el n).
Proof using BL SL.
  intros Hwf Hv Hn Hmapped.
  destruct (store_concrete w self m a v es n Hwf Hv ltac:(lia) Hmapped)
    as (w1 & d1 & Hstore & _ & _ & _ & Hwf1 & Hkeys & Hbytes & _).
  assert (Hmapped1 : mapped_range (with_pages d1 m) a n).
  { intros j Hj. cbn [with_pages Memory.pages Memory.index_bits Memory.bits].
    apply dict_mem_keys. rewrite Hkeys. apply dict_mem_keys.
    apply Hmapped. exact Hj. }
  destruct (load_concrete w1 self (with_pages d1 m) a n el Hwf1
              ltac:(lia) Hmapped1)
    as (h' & r & Hload & _ & Hsize & Hvals).
  exists w1, r. split; [exact Hstore|]. split; [eexists; exact Hload|].
  split; [lia|]. intros rho. destruct (Hvals rho) as (bs & Hall & ->).
  f_equal. apply (Forall2_Some_fmap _ _ _ _ Hall).
  intros j Hj. apply elem_of_load_order in Hj.
  cbn [with_pages Memory.pages Memory.index_bits Memory.bits].
  rewrite <- (store_offset_involutive es n j) at 1 2.
  apply Hbytes. apply store_offset_range. exact Hj.
Qed.

(** The round trip holds for values of any length up to the whole address
    space: a value that spans several pages, or that runs past the last
    address and continues at address 0, is read back as stored. *)
Theorem store_load_any_length (w : Memory.World) (self : nat) (m : Memory.t)
    (a : Z) (v : bv) (endness : string) (n : Z) :
  mem_wf w self m ->
  bv_size v = 8 * n -> 0 < n <= 2 ^ Memory.bits m ->
  mapped_range m a n ->
  exists w1 r,
    Memory.store self (bvv a (Memory.bits m)) v endness w = Ok tt w1 /\
    returns (Memory.load self (bvv a (Memory.bits m)) n endness) w1 r /\
    bv_equiv r v.
Proof using BL SL.
  intros Hwf Hv Hn Hmapped.
  destruct (store_then_load w self m a v endness endness n Hwf Hv Hn Hmapped)
    as (w1 & r & Hs & Hl & Hsz & Hval).
  exists w1, r. split; [exact Hs|]. split; [exact Hl|]. split; [exact Hsz|].
  intros rho. rewrite Hval, be_value_stored by lia.
  apply Z.mod_small. rewrite <- Hv. apply eval_range. lia.
Qed.

(** A value stored in one byte order and loaded in the other comes back
    with its bytes reversed. *)
Theorem store_load_opposite_order (w : Memory.World) (self : nat) (m : Memory.t)
    (a : Z) (v : bv) (es el : string) (n : Z) :
  mem_wf w self m ->
  bv_size v = 8 * n -> 0 < n <= 2 ^ Memory.bits m ->
  mapped_range m a n ->
  String.eqb es "little" <> String.eqb el "little" ->
  exists w1 r,
    Memory.store self (bvv a (Memory.bits m)) v es w = Ok tt w1 /\
    returns (Memory.load self (bvv a (Memory.bits m)) n el) w1 r /\
    bv_size r = bv_size v /\
    forall rho, eval rho r = byte_swapped n (eval rho v).
Proof using BL SL.
  intros Hwf Hv Hn Hmapped Hne.
  destruct (store_then_load w self m a v es el n Hwf Hv Hn Hmapped)
    as (w1 & r & Hs & Hl & Hsz & Hval).
  exists w1, r. split; [exact Hs|]. split; [exact Hl|]. split; [exact Hsz|].
  intros rho. rewrite Hval. unfold byte_swapped, load_order, store_offset.
  f_equal.
  destruct (String.eqb es "little"), (String.eqb el "little"); try congruence.
  - reflexivity.
  - rewrite <- (Z2Nat.id n) by lia. rewrite reverse_seqZ, <- list_fmap_compose.
    apply list_fmap_ext. intros i j Hj. cbn. f_equal. lia.
Qed.
End ByteOrder.

Lemma two_page_world_wf : mem_wf (B := log_store) two_page_world 0%nat two_page_memory.
Proof.
  split; [reflexivity|]. split; [cbn; lia|].
  split.
  { apply NoDup_ListNoDup. constructor;
      [intros [H|[]]; discriminate H | constructor; [intros [] | constructor]]. }
  intros k r H. cbn [dict_get two_page_memory Memory.pages] in H.
  destruct (1 =? k) eqn:E1.
  - apply Z.eqb_eq in E1 as <-. injection H as <-. eexists.
    split; [reflexivity|]. split; reflexivity.
  - destruct (2 =? k) eqn:E2; [|discriminate].
    apply Z.eqb_eq in E2 as <-. injection H as <-. eexists.
    split; [reflexivity|]. split; reflexivity.
Qed.

Lemma two_page_memory_mapped (a n : Z) :
  4 <= a -> 0 <= n -> a + n <= 12 -> mapped_range two_page_memory a n.
Proof.
  intros Ha Hn Han j Hj. unfold slot_of, byte_address.
  cbn [two_page_memory Memory.index_bits Memory.bits Memory.pages].
  change (2 ^ 8) with 256. change (2 ^ 2) with 4.
  rewrite Z.mod_small by lia.
  destruct (Z_lt_le_dec (a + j) 8).
  - replace ((a + j) / 4) with 1 by (apply Z.div_unique with (a + j - 4); lia).
    reflexivity.
  - replace ((a + j) / 4) with 2 by (apply Z.div_unique with (a + j - 8); lia).
    reflexivity.
Qed.

(** A store of six bytes from address 4 on, over the pages of slots 1 and
    2 of [two_page_world]. *)
Lemma store_load_any_length_witness :
  exists w1 r,
    Memory.store (B := log_store) (S := fold_simplifier) (V := enum_solver)
      (O := heuristic_on) 0%nat (bvv 4 8) (BVV 0x112233445566 48) "big"
      two_page_world = Ok tt w1 /\
    returns (Memory.load (B := log_store) (S := fold_simplifier) (V := enum_solver)
               (O := heuristic_on) 0%nat (bvv 4 8) 6 "big") w1 r /\
    bv_equiv r (BVV 0x112233445566 48).
Proof.
  apply (store_load_any_length (BL := log_store_laws) (SL := fold_simplifier_laws)
           (V := enum_solver) (O := heuristic_on)
           two_page_world 0%nat two_page_memory 4 (BVV 0x112233445566 48) "big" 6).
  - exact two_page_world_wf.
  - reflexivity.
  - cbn; lia.
  - apply two_page_memory_mapped; lia.
Defined.

Lemma store_load_opposite_order_witness :
  exists w1 r,
    Memory.store (B := log_store) (S := fold_simplifier) (V := enum_solver)
      (O := heuristic_on) 0%nat (bvv 5 8) (BVV 0xBEEF 16) "little" remap_world
    = Ok tt w1 /\
    returns (Memory.load (B := log_store) (S := fold_simplifier) (V := enum_solver)
               (O := heuristic_on) 0%nat (bvv 5 8) 2 "big") w1 r /\
    forall rho, eval rho r = 0xEFBE.
Proof.
  destruct (store_load_opposite_order (BL := log_store_laws)
              (SL := fold_simplifier_laws) (V := enum_solver) (O := heuristic_on)
              remap_world 0%nat remap_memory 5 (BVV 0xBEEF 16) "little" "big" 2
              remap_world_wf eq_refl ltac:(cbn; lia)
              ltac:(apply remap_memory_mapped; lia) ltac:(discriminate))
    as (w1 & r & Hs & Hl & _ & Hv).
  exists w1, r. split; [exact Hs|]. split; [exact Hl | exact Hv].
Defined.

(** ** [load] in the path-constrained tier *)

Section PathConstrained.
Context {B : MemoryObj} {BL : MemoryObjLaws B}.
Context {S : Z3Simplifier} {SL : Z3SimplifierLaws S}.
Context {V : Solver} {O : Options}.

(** One pass of the byte loop when the page address is symbolic for
    [symbolic] and the solver finds it determined: the byte is read in the
    page that [evaluate_long] gives, at the offset that the address has. *)
Lemma load_body_constrained (w : Memory.World) self m st address j res conds k :
  mem_wf w self m ->
  Memory.states w !! Memory.state m = Some st ->
  bv_size address = Memory.bits m ->
  symbolic (load_page_address m address j) = true ->
  solver_symbolic (State.constraints st) (load_page_address m address j) = false ->
  solver_evaluate_long (State.constraints st) (load_page_address m address j) = k ->
  dict_mem k (Memory.pages m) = true ->
  exists h' b,
    Memory.load_body self address j (res, conds) w
    = Ok (Memory.concat_res res (simplify b), conds) (with_heap h' w) /\
    heap_quiet (Memory.heap w) h' /\
    bv_size b = 8 /\
    forall rho,
      byte_at rho (Memory.heap w) (Memory.pages m) k
        (offset_of (Memory.index_bits m) (eval rho (bv_add_int address j)))
      = Some (eval rho b).
Proof using BL SL.
  intros Hwf Hst Hsz Hsym Hssym Hk Hmapped. pose proof Hwf as (Hm & Hib & _).
  destruct (proj1 (dict_mem_get _ _) Hmapped) as [r Hr].
  set (pi := simplify (Extract (Memory.index_bits m - 1) 0 (bv_add_int address j))).
  destruct (_load_Ok w self m k r pi Hwf Hr) as (h' & b & Hld & Hq & Hb8 & Hb).
  exists h', b. split; [|split; [exact Hq|split; [exact Hb8|]]].
  - unfold Memory.load_body. mstep (deref_Ok w self m Hm).
    rewrite (bind_Ok _ _ _ _ _
               (split_bv_add_Ok address j (Memory.index_bits m) w ltac:(lia))).
    fold (load_page_address m address j). fold pi.
    rewrite Hsym. cbn [negb].
    rewrite (bind_Ok _ _ _ _ _ (path_constraints_Ok w self m st Hm Hst)).
    rewrite Hssym. cbn [negb]. rewrite Hk. mstep Hld. reflexivity.
  - intros rho. rewrite <- (Hb rho). f_equal. subst pi.
    rewrite simplify_sound. cbn [eval]. unfold offset_of.
    change (2 ^ 0) with 1. rewrite Z.div_1_r.
    replace (Memory.index_bits m - 1 - 0 + 1) with (Memory.index_bits m) by lia.
    reflexivity.
Qed.

Lemma load_loop_constrained self m st address (kf : Z -> Z) (L : list Z) :
  bv_size address = Memory.bits m ->
  (forall j, j ∈ L ->
     symbolic (load_page_address m address j) = true /\
     solver_symbolic (State.constraints st) (load_page_address m address j) = false /\
     solver_evaluate_long (State.constraints st) (load_page_address m address j)
     = kf j /\
     dict_mem (kf j) (Memory.pages m) = true) ->
  forall (w : Memory.World) res,
    mem_wf w self m -> Memory.states w !! Memory.state m = Some st ->
    0 <= res_size res ->
    exists h' res',
      for_each L (Memory.load_body self address) (res, []) w
      = Ok (res', []) (with_heap h' w) /\
      heap_quiet (Memory.heap w) h' /\
      res_size res' = res_size res + 8 * Z.of_nat (length L) /\
      forall rho, exists bs,
        Forall2 (fun j b =>
                   byte_at rho (Memory.heap w) (Memory.pages m) (kf j)
                     (offset_of (Memory.index_bits m)
                        (eval rho (bv_add_int address j)))
                   = Some b) L bs /\
        res_value rho res' = foldl (fun acc b => acc * 256 + b) (res_value rho res) bs.
Proof using BL SL.
  intros Hsz. induction L as [|j L IH]; intros Htier w res Hwf Hst Hsize.
  - exists (Memory.heap w), res. rewrite with_heap_id.
    split; [reflexivity|]. split; [apply heap_quiet_refl|]. split; [cbn [length]; lia|].
    intros rho. exists []. split; [constructor | reflexivity].
  - destruct (Htier j ltac:(left)) as (H1 & H2 & H3 & H4).
    destruct (load_body_constrained w self m st address j res [] (kf j)
                Hwf Hst Hsz H1 H2 H3 H4) as (h1 & b & Hbody & Hq1 & Hb8 & Hbyte).
    assert (Ht8 : bv_size (simplify b) = 8) by (rewrite simplify_size; exact Hb8).
    destruct (IH (fun i Hi => Htier i ltac:(right; exact Hi)) (with_heap h1 w)
                (Memory.concat_res res (simplify b))
                (mem_wf_quiet w self m h1 Hwf Hq1) Hst
                ltac:(rewrite concat_res_size by exact Ht8; lia))
      as (h' & res' & Hloop & Hq' & Hsz' & Hvals).
    exists h', res'. split; [cbn [for_each]; mstep Hbody; exact Hloop|].
    split; [eapply heap_quiet_trans; eassumption|].
    split; [rewrite Hsz', concat_res_size by exact Ht8; cbn [length]; lia|].
    intros rho. destruct (Hvals rho) as (bs & Hall & Hval).
    exists (eval rho b :: bs). split.
    + constructor; [apply Hbyte|].
      eapply Forall2_impl; [exact Hall|]. intros i bi Hi.
      cbn [with_heap Memory.heap] in Hi.
      rewrite <- Hi. symmetry. apply byte_at_quiet; [apply Hwf | exact Hq1].
    + rewrite Hval. cbn [foldl].
      rewrite concat_res_value by (exact Ht8 || exact Hsize).
      rewrite simplify_sound. reflexivity.
Qed.

(** The path-constrained tier of [load].  When, for every byte, the page
    address is not a literal and the solver finds it determined by the path
    constraints, with a mapped page as its value, [load] returns: each byte
    is read in the page that [evaluate_long] gives, at the offset that the
    address has under the valuation, the bytes are concatenated most
    significant first, and no constraint is added and no errored state
    reported. *)
Theorem load_path_constrained (w : Memory.World) (self : nat) (m : Memory.t)
    (st : State.t) (address : bv) (n : Z) (endness : string) (kf : Z -> Z) :
  mem_wf w self m ->
  Memory.states w !! Memory.state m = Some st ->
  bv_size address = Memory.bits m ->
  Memory.heuristic_unconstrained self address w = Ok false w ->
  0 < n ->
  (forall j, 0 <= j < n ->
     symbolic (load_page_address m address j) = true /\
     solver_symbolic (State.constraints st) (load_page_address m address j) = false /\
     solver_evaluate_long (State.constraints st) (load_page_address m address j)
     = kf j /\
     dict_mem (kf j) (Memory.pages m) = true) ->
  exists r w',
    Memory.load self address n endness w = Ok r w' /\
    Memory.memories w' = Memory.memories w /\
    Memory.states w' = Memory.states w /\
    Memory.errored w' = Memory.errored w /\
    bv_size r = 8 * n /\
    forall rho, exists bs,
      Forall2 (fun j b =>
                 byte_at rho (Memory.heap w) (Memory.pages m) (kf j)
                   (offset_of (Memory.index_bits m) (eval rho (bv_add_int address j)))
                 = Some b) (load_order endness n) bs /\
      eval rho r = be_value bs.
Proof using BL SL.
  intros Hwf Hst Hsz Hheur Hn Htier. pose proof Hwf as (Hm & _).
  assert (Hlen : Z.of_nat (length (load_order endness n)) = n).
  { unfold load_order. destruct (String.eqb endness "little");
      rewrite ?length_reverse, length_seqZ; lia. }
  destruct (load_loop_constrained self m st address kf (load_order endness n) Hsz
              ltac:(intros j Hj; apply Htier; apply elem_of_load_order in Hj; exact Hj)
              w None Hwf Hst ltac:(reflexivity))
    as (h' & res' & Hloop & Hq & Hrs & Hvals).
  destruct res' as [r'|]; [|cbn [res_size] in Hrs; lia].
  exists (simplify r'), (with_heap h' w).
  split; [|split; [reflexivity|split; [reflexivity|split; [reflexivity|split]]]].
  - unfold Memory.load. mstep (deref_Ok w self m Hm).
    unfold assert at 1. rewrite Hsz, Z.eqb_refl. rewrite bind_ret.
    mstep Hheur. rewrite bind_ret.
    fold (load_order endness n). mstep Hloop. rewrite bind_ret.
    cbn [res_size] in Hrs. unfold assert. rewrite Hrs, Hlen.
    replace ((0 + 8 * n) / 8 =? n) with true
      by (symmetry; apply Z.eqb_eq; rewrite Z.add_0_l, Z.mul_comm, Z.div_mul; lia).
    reflexivity.
  - rewrite simplify_size. cbn [res_size] in Hrs. lia.
  - intros rho. destruct (Hvals rho) as (bs & Hall & Hval).
    exists bs. split; [exact Hall|]. rewrite simplify_sound. exact Hval.
Qed.
End PathConstrained.

Lemma one_slot_world_wf : mem_wf (B := log_store) one_slot_world 0%nat one_slot_memory.
Proof.
  split; [reflexivity|]. split; [cbn; lia|]. split; [apply NoDup_singleton|].
  intros k r H. cbn [dict_get one_slot_memory Memory.pages] in H.
  destruct (1 =? k) eqn:E; [|discriminate].
  apply Z.eqb_eq in E as <-. injection H as <-. eexists.
  split; [reflexivity|]. split; reflexivity.
Qed.

(** The address [a] is 4 or 5: the byte is read in the page of slot 1, and
    it is 0x11 under the valuation [a = 4]. *)
Lemma load_path_constrained_witness :
  exists r w',
    Memory.load (B := log_store) (S := fold_simplifier) (V := enum_solver)
      (O := heuristic_on) 0%nat (BVS "a" 8) 1 "big" one_slot_world = Ok r w' /\
    Memory.states w' = Memory.states one_slot_world /\
    eval a_is_4 r = 0x11.
Proof.
  destruct (load_path_constrained (BL := log_store_laws)
              (SL := fold_simplifier_laws) (V := enum_solver) (O := heuristic_on)
              one_slot_world 0%nat one_slot_memory _ (BVS "a" 8) 1 "big" (fun _ => 1)
              one_slot_world_wf eq_refl eq_refl ltac:(vm_compute; reflexivity)
              ltac:(lia))
    as (r & w' & Hl & _ & Hst & _ & _ & Hv).
  { intros j Hj. replace j with 0 by lia. repeat split; vm_compute; reflexivity. }
  exists r, w'. split; [exact Hl|]. split; [exact Hst|].
  destruct (Hv a_is_4) as (bs & Hall & ->).
  apply Forall2_cons_inv_l in Hall as (b & bs' & Hb & Hnil & ->).
  apply Forall2_nil_inv_l in Hnil as ->.
  vm_compute in Hb. injection Hb as <-. reflexivity.
Defined.

(** ** The heuristic concretization in [load] *)

Section Concretize.
Context {B : MemoryObj} {BL : MemoryObjLaws B}.
Context {S : Z3Simplifier} {SL : Z3SimplifierLaws S}.
Context {V : Solver} {O : Options}.

Lemma Forall2_impl_elem {A C} (P Q : A -> C -> Prop) (l : list A) (k : list C) :
  Forall2 P l k -> (forall x y, x ∈ l -> P x y -> Q x y) -> Forall2 Q l k.
Proof using Type.
  induction 1 as [|x y l k Hxy Hrest IH]; intros Himp; constructor.
  - apply Himp; [left | exact Hxy].
  - apply IH. intros x' y' Hx'. apply Himp. right. exact Hx'.
Qed.

(** The slot that the forward scan of [get_unmapped] returns. *)
Lemma get_unmapped_forward_scan (w : Memory.World) (self : nat) (m : Memory.t)
    (size k : Z) :
  Memory.memories w !! self = Some m -> size <> 0 -> 2 <= k <= last_page m ->
  dict_mem k (Memory.pages m) = false ->
  (forall s, 2 <= s < k -> dict_mem s (Memory.pages m) = true) ->
  Memory.get_unmapped self size false w = Ok k w.
Proof using Type.
  intros Hm Hsize Hk Hfree Hmapped.
  unfold Memory.get_unmapped, Memory.deref, bind, ret. rewrite Hm. f_equal.
  fold (last_page m).
  rewrite (forward_scan_mapped _ (last_page m) size k Hsize ltac:(lia)
             (Z.to_nat (k - 2)) 2 eq_refl ltac:(lia) Hmapped).
  eapply forward_scan_stays; [exact Hfree | reflexivity].
Qed.

(** One pass of the loop of [mmap] without a preload keeps the memory well
    formed. *)
Lemma mmap_body_plain (self : nat) (a : Z) vs (w : Memory.World) (m : Memory.t) :
  mem_wf w self m -> Memory.init_index vs = None ->
  exists d' hn,
    Memory.mmap_body self [] a vs w
    = Ok vs (with_memories (<[self := with_pages d' m]> (Memory.memories w))
               (with_heap (Memory.heap w ++ hn) w)) /\
    entries_wf (Memory.heap w ++ hn) d' /\ NoDup (dict_keys d') /\
    (forall k, dict_mem k d' = true <-> dict_mem k (Memory.pages m) = true \/ k = a) /\
    (forall k r, dict_get k (Memory.pages m) = Some r -> dict_get k d' = Some r).
Proof using Type.
  intros (Hm & Hib & Hnd & Hent) Hnone.
  destruct (dict_mem a (Memory.pages m)) eqn:Hmem.
  - exists (Memory.pages m), []. split; [|split; [|split; [|split]]].
    + rewrite (mmap_body_mapped self [] a vs w m Hm Hmem).
      rewrite app_nil_r, with_pages_id, list_insert_id by exact Hm.
      rewrite with_heap_id, with_memories_id. reflexivity.
    + rewrite app_nil_r. exact Hent.
    + exact Hnd.
    + intros k. split; [auto|]. intros [H| ->]; assumption.
    + auto.
  - exists (Memory.pages m ++ [(a, length (Memory.heap w))]), [fresh_page m None a].
    split; [|split; [|split; [|split]]].
    + unfold Memory.mmap_body. rewrite (bind_Ok _ _ _ _ _ (deref_Ok w self m Hm)).
      rewrite Hmem. cbn [negb]. rewrite Hnone.
      erewrite bind_Ok; [|apply lift_heap_Ok; reflexivity].
      erewrite bind_Ok; [|apply (set_pages_Ok _ self m); exact Hm].
      unfold ret. rewrite (dict_set_fresh _ _ _ Hmem). reflexivity.
    + intros k r Hk. rewrite dict_get_app in Hk.
      destruct (dict_get k (Memory.pages m)) as [r0|] eqn:Hold.
      * injection Hk as <-. destruct (Hent k r0 Hold) as (p & Hp & Ha & Hf).
        exists p. split; [apply lookup_app_l_Some; exact Hp | split; assumption].
      * cbn [dict_get] in Hk. destruct (a =? k) eqn:E; [|discriminate].
        apply Z.eqb_eq in E as <-. injection Hk as <-.
        exists (fresh_page m None a). split; [|split; reflexivity].
        rewrite lookup_app_r by lia. rewrite Nat.sub_diag. reflexivity.
    + unfold dict_keys. rewrite fmap_app. apply NoDup_app.
      split; [exact Hnd|]. split; [|apply NoDup_singleton].
      intros x Hx Hc. cbn in Hc. apply list_elem_of_singleton in Hc as ->.
      apply dict_mem_keys in Hx. congruence.
    + intros k. apply dict_mem_snoc.
    + intros k r Hk. rewrite dict_get_app, Hk. reflexivity.
Qed.

Lemma mmap_loop_plain (self : nat) (L : list Z) :
  forall (w : Memory.World) (m : Memory.t) vs,
    mem_wf w self m -> Memory.init_index vs = None ->
    exists d' hn,
      for_each L (Memory.mmap_body self []) vs w
      = Ok vs (with_memories (<[self := with_pages d' m]> (Memory.memories w))
                 (with_heap (Memory.heap w ++ hn) w)) /\
      entries_wf (Memory.heap w ++ hn) d' /\ NoDup (dict_keys d') /\
      (forall k, dict_mem k d' = true <->
                 dict_mem k (Memory.pages m) = true \/ k ∈ L) /\
      (forall k r, dict_get k (Memory.pages m) = Some r -> dict_get k d' = Some r).
Proof using Type.
  induction L as [|a L IH]; intros w m vs Hwf Hnone.
  - pose proof Hwf as (Hm & Hib & Hnd & Hent).
    exists (Memory.pages m), []. split; [|split; [|split; [|split]]].
    + cbn [for_each]. unfold ret.
      rewrite app_nil_r, with_pages_id, list_insert_id by exact Hm.
      rewrite with_heap_id, with_memories_id. reflexivity.
    + rewrite app_nil_r. exact Hent.
    + exact Hnd.
    + intros k. split; [auto|]. intros [H|H]; [exact H | inversion H].
    + auto.
  - pose proof Hwf as (Hm & Hib & Hnd & Hent).
    destruct (mmap_body_plain self a vs w m Hwf Hnone)
      as (d1 & h1 & Hbody & Hent1 & Hnd1 & Hmem1 & Hget1).
    set (w1 := with_memories _ _) in Hbody.
    assert (Hwf1 : mem_wf w1 self (with_pages d1 m)).
    { split; [apply list_lookup_insert_eq; eapply lookup_lt_Some; exact Hm|].
      split; [exact Hib|]. split; [exact Hnd1 | exact Hent1]. }
    destruct (IH w1 (with_pages d1 m) vs Hwf1 Hnone)
      as (d2 & h2 & Hloop & Hent2 & Hnd2 & Hmem2 & Hget2).
    exists d2, (h1 ++ h2). split; [|split; [|split; [|split]]].
    + cbn [for_each]. rewrite (bind_Ok _ _ _ _ _ Hbody). rewrite Hloop.
      f_equal. unfold w1, with_memories, with_heap, with_pages.
      cbn [Memory.heap Memory.memories Memory.states Memory.errored Memory.bits
           Memory.state Memory.page_size Memory.index_bits].
      rewrite list_insert_insert_eq, app_assoc. reflexivity.
    + rewrite app_assoc. exact Hent2.
    + exact Hnd2.
    + intros k. rewrite Hmem2. cbn [with_pages Memory.pages]. rewrite Hmem1.
      rewrite elem_of_cons. tauto.
    + intros k r Hk. apply Hget2. cbn [with_pages Memory.pages]. apply Hget1. exact Hk.
Qed.

(** The heuristic concretization, with [k] the lowest free slot of the
    range [2..last_page]: the [width div page_size + 1] slots from [k] on
    that are not mapped yet receive a page, and the constraint
    [address == k * page_size] is appended to the state. *)
Lemma concretize_lowest_free (w : Memory.World) (self : nat) (m : Memory.t)
    (st : State.t) (address : bv) (width k : Z) :
  mem_wf w self m ->
  Memory.states w !! Memory.state m = Some st ->
  0 < Memory.page_size m -> 0 <= width ->
  2 <= k <= last_page m ->
  dict_mem k (Memory.pages m) = false ->
  (forall s, 2 <= s < k -> dict_mem s (Memory.pages m) = true) ->
  exists w2 d1,
    Memory.concretize self address width w
    = Ok (bvv (k * Memory.page_size m) (bv_size address)) w2 /\
    mem_wf w2 self (with_pages d1 m) /\
    Memory.memories w2 = <[self := with_pages d1 m]> (Memory.memories w) /\
    Memory.states w2
      = <[Memory.state m :=
            State.add_constraints (bv_eq_int address (k * Memory.page_size m)) st]>
          (Memory.states w) /\
    Memory.errored w2 = Memory.errored w /\
    (forall s, dict_mem s d1 = true <->
       dict_mem s (Memory.pages m) = true \/
       k <= s < k + (width / Memory.page_size m + 1)) /\
    (forall s r0, dict_get s (Memory.pages m) = Some r0 -> dict_get s d1 = Some r0) /\
    (forall r0 p, Memory.heap w !! r0 = Some p -> Memory.heap w2 !! r0 = Some p).
Proof using Type.
  intros Hwf Hst Hps0 Hwidth Hk Hfree Hlow.
  pose proof Hwf as (Hm & Hib & Hndk & Hent).
  set (ps := Memory.page_size m) in *.
  set (cnt := width / ps + 1) in *.
  assert (Hcnt : 0 < cnt) by (pose proof (Z.div_pos width ps ltac:(lia) Hps0); lia).
  destruct (mmap_loop_plain self (seqZ k cnt) w m
              {| Memory.init_index := None; Memory.data_index_i := 0;
                 Memory.data_index_f := 0 |} Hwf eq_refl)
    as (d1 & hn & Hloop & Hent1 & Hnd1 & Hmem1 & Hget1).
  set (w1 := with_memories _ _) in Hloop.
  set (m1 := with_pages d1 m).
  assert (Hm1 : Memory.memories w1 !! self = Some m1).
  { apply list_lookup_insert_eq. eapply lookup_lt_Some. exact Hm. }
  set (c := bv_eq_int address (k * ps)).
  set (w2 := {| Memory.heap := Memory.heap w1; Memory.memories := Memory.memories w1;
                Memory.states := <[Memory.state m := State.add_constraints c st]>
                                   (Memory.states w);
                Memory.errored := Memory.errored w |}).
  exists w2, d1. split.
  { unfold Memory.concretize. mstep (deref_Ok w self m Hm). fold ps cnt.
    mstep (get_unmapped_forward_scan w self m cnt k Hm ltac:(lia) Hk Hfree Hlow).
    unfold Memory.mmap. mstep (deref_Ok w self m Hm). fold ps.
    unfold assert. rewrite !Z.mod_mul by lia. cbn [Z.eqb].
    rewrite ?bind_assoc, ?bind_ret, ?bind_assoc, ?bind_ret.
    rewrite !Z.div_mul by lia. cbn [fmap option_fmap option_map from_option].
    mstep Hloop. rewrite ?bind_ret.
    unfold Memory.add_constraints. mstep (deref_Ok w1 self m1 Hm1).
    unfold Memory.modify_state, Memory.get_state.
    cbn [m1 with_pages Memory.state]. unfold bind, ret.
    change (Memory.states w1) with (Memory.states w). rewrite Hst.
    reflexivity. }
  split.
  { split; [exact Hm1|]. split; [exact Hib|]. split; [exact Hnd1 | exact Hent1]. }
  split; [reflexivity|]. split; [reflexivity|]. split; [reflexivity|].
  split; [intros s; rewrite Hmem1, elem_of_seqZ; reflexivity|].
  split; [exact Hget1|].
  intros r0 p Hp. cbn [w2 Memory.heap]. unfold w1.
  cbn [with_memories with_heap Memory.heap]. apply lookup_app_l_Some. exact Hp.
Qed.

(** [load] at a symbolic address on which the heuristic fires, in a memory
    whose [index_bits] is the exact logarithm of its page size
    ([page_size = 2 ^ index_bits]; where the constructor's floating-point
    value is one more, the access at the concretized address raises).  With
    [k] the lowest free slot of the range [2..last_page], [load] maps the
    [n div page_size + 1] slots from [k] on that are not mapped yet, appends
    the constraint [address == k * page_size] to the state, and returns the
    [n] bytes found from that address on.  Slots of the region that were
    mapped already keep their page objects, so the bytes read there are the
    ones the memory held before. *)
Theorem load_concretizes (w : Memory.World) (self : nat) (m : Memory.t)
    (st : State.t) (address : bv) (n k : Z) (endness : string) :
  mem_wf w self m ->
  Memory.states w !! Memory.state m = Some st ->
  Memory.page_size m = 2 ^ Memory.index_bits m ->
  bv_size address = Memory.bits m ->
  Memory.heuristic_unconstrained self address w = Ok true w ->
  0 < n ->
  2 <= k <= last_page m ->
  dict_mem k (Memory.pages m) = false ->
  (forall s, 2 <= s < k -> dict_mem s (Memory.pages m) = true) ->
  (k + n / Memory.page_size m + 1) * Memory.page_size m <= 2 ^ Memory.bits m ->
  exists r w' d',
    Memory.load self address n endness w = Ok r w' /\
    Memory.memories w' = <[self := with_pages d' m]> (Memory.memories w) /\
    Memory.states w'
      = <[Memory.state m :=
            State.add_constraints (bv_eq_int address (k * Memory.page_size m)) st]>
          (Memory.states w) /\
    Memory.errored w' = Memory.errored w /\
    (forall s, dict_mem s d' = true <->
       dict_mem s (Memory.pages m) = true \/
       k <= s < k + (n / Memory.page_size m + 1)) /\
    (forall s r0, dict_get s (Memory.pages m) = Some r0 -> dict_get s d' = Some r0) /\
    (forall r0 p, Memory.heap w !! r0 = Some p ->
       exists p', Memory.heap w' !! r0 = Some p' /\ same_page p p') /\
    bv_size r = 8 * n /\
    forall rho, exists bs,
      Forall2 (fun j b =>
                 byte_at rho (Memory.heap w') d' (k + j / Memory.page_size m)
                   (j mod Memory.page_size m) = Some b)
              (load_order endness n) bs /\
      eval rho r = be_value bs.
Proof using BL SL.
  intros Hwf Hst Hps Hsz Hfire Hn Hk Hfree Hlow Hfit.
  pose proof Hwf as (Hm & Hib & Hndk & Hent).
  assert (Hps0 : 0 < Memory.page_size m) by (rewrite Hps; apply Z.pow_pos_nonneg; lia).
  destruct (concretize_lowest_free w self m st address n k Hwf Hst Hps0 ltac:(lia)
              Hk Hfree Hlow)
    as (w2 & d1 & Hconc & Hwf2 & Hmem2 & Hst2 & Herr2 & Hmem1 & Hget1 & Hheap2).
  rewrite Hsz in Hconc.
  set (ps := Memory.page_size m) in *.
  set (cnt := n / ps + 1) in *.
  assert (Hcnt : 0 < cnt) by (pose proof (Z.div_pos n ps ltac:(lia) Hps0); lia).
  set (m1 := with_pages d1 m).
  pose proof Hwf2 as (_ & _ & _ & Hent1). cbn [with_pages Memory.pages] in Hent1.
  assert (Haddr : forall j, 0 <= j < n ->
            slot_of (Memory.index_bits m1) (byte_address (Memory.bits m1) (k * ps) j)
              = k + j / ps /\
            offset_of (Memory.index_bits m1) (byte_address (Memory.bits m1) (k * ps) j)
              = j mod ps).
  { intros j Hj. unfold slot_of, offset_of, byte_address.
    cbn [m1 with_pages Memory.index_bits Memory.bits]. rewrite <- Hps.
    assert (Hlt : n < cnt * ps).
    { unfold cnt. pose proof (Z.mod_pos_bound n ps Hps0).
      pose proof (Z.div_mod n ps ltac:(lia)). nia. }
    rewrite (Z.mod_small (k * ps + j)) by nia.
    rewrite Z.div_add_l by lia.
    rewrite (Z.add_comm (k * ps) j), Z.mod_add by lia. split; reflexivity. }
  destruct (load_loop_concrete self m1 (k * ps) (load_order endness n)) with
      (w := w2) (res := @None bv)
    as (h' & res' & Hl & Hq & Hrsz & Hsome & Hvals);
    [ | exact Hwf2 | reflexivity | ].
  { intros j Hj. apply elem_of_load_order in Hj.
    destruct (Haddr j Hj) as [-> _]. cbn [m1 with_pages Memory.pages].
    apply Hmem1. right.
    pose proof (Z.div_pos j ps ltac:(lia) Hps0).
    pose proof (Z.div_le_mono j n ps Hps0 ltac:(lia)). fold ps cnt. lia. }
  assert (Hlen : Z.of_nat (length (load_order endness n)) = n).
  { unfold load_order. destruct (String.eqb endness "little");
      rewrite ?length_reverse, length_seqZ; lia. }
  destruct Hsome as [r' ->].
  { intros E. rewrite E in Hlen. cbn [length] in Hlen. lia. }
  exists (simplify r'), (with_heap h' w2), d1.
  split; [|split; [exact Hmem2|split; [exact Hst2|split; [exact Herr2|]]]].
  { unfold Memory.load. mstep (deref_Ok w self m Hm).
    unfold assert at 1. rewrite Hsz, Z.eqb_refl. rewrite bind_ret.
    mstep Hfire. mstep Hconc.
    fold (load_order endness n).
    change (Memory.bits m) with (Memory.bits m1). mstep Hl. rewrite bind_ret.
    cbn [res_size] in Hrsz. unfold assert. rewrite Hrsz, Hlen.
    replace ((0 + 8 * n) / 8 =? n) with true
      by (symmetry; apply Z.eqb_eq; rewrite Z.add_0_l, Z.mul_comm, Z.div_mul; lia).
    reflexivity. }
  split; [exact Hmem1|].
  split; [exact Hget1|].
  split; [intros r0 p Hp; apply (Hq r0 p), Hheap2, Hp|].
  split; [rewrite simplify_size; cbn [res_size] in Hrsz; lia|].
  intros rho. destruct (Hvals rho) as (bs & Hall & Hval).
  exists bs. split; [|rewrite simplify_sound; exact Hval].
  eapply Forall2_impl_elem; [exact Hall|]. intros j b Hj Hb.
  apply elem_of_load_order in Hj. destruct (Haddr j Hj) as [Hs Ho].
  cbv beta in Hb. rewrite Hs, Ho in Hb. cbn [m1 with_pages Memory.pages] in Hb.
  cbn [with_heap Memory.heap]. rewrite <- Hb.
  apply byte_at_quiet; [exact Hent1 | exact Hq].
Qed.

(** [store] at a symbolic address on which the heuristic fires, in a
    memory whose [index_bits] is the exact logarithm of its page size
    ([page_size = 2 ^ index_bits]).  The region
    is sized by [value.size()], which counts bits: with [k] the lowest free
    slot, a store of [n] bytes maps the [8 * n div page_size + 1] slots from
    [k] on that are not mapped yet, appends the constraint
    [address == k * page_size] to the state, and writes the bytes from that
    address on. *)
Theorem store_concretizes (w : Memory.World) (self : nat) (m : Memory.t)
    (st : State.t) (address value : bv) (n k : Z) (endness : string) :
  mem_wf w self m ->
  Memory.states w !! Memory.state m = Some st ->
  Memory.page_size m = 2 ^ Memory.index_bits m ->
  bv_size address = Memory.bits m ->
  bv_size value = 8 * n -> 0 < n ->
  Memory.heuristic_unconstrained self address w = Ok true w ->
  2 <= k <= last_page m ->
  dict_mem k (Memory.pages m) = false ->
  (forall s, 2 <= s < k -> dict_mem s (Memory.pages m) = true) ->
  (k + 8 * n / Memory.page_size m + 1) * Memory.page_size m <= 2 ^ Memory.bits m ->
  exists w' d',
    Memory.store self address value endness w = Ok tt w' /\
    Memory.memories w' = <[self := with_pages d' m]> (Memory.memories w) /\
    Memory.states w'
      = <[Memory.state m :=
            State.add_constraints (bv_eq_int address (k * Memory.page_size m)) st]>
          (Memory.states w) /\
    Memory.errored w' = Memory.errored w /\
    (forall s, dict_mem s d' = true <->
       dict_mem s (Memory.pages m) = true \/
       k <= s < k + (8 * n / Memory.page_size m + 1)) /\
    (forall rho i, 0 <= i < n ->
       byte_at rho (Memory.heap w') d'
         (k + store_offset endness n i / Memory.page_size m)
         (store_offset endness n i mod Memory.page_size m)
       = Some (byte_of (eval rho value) i)).
Proof using BL SL.
  intros Hwf Hst Hps Hsz Hv Hn Hfire Hk Hfree Hlow Hfit.
  pose proof Hwf as (Hm & Hib & Hndk & Hent).
  assert (Hps0 : 0 < Memory.page_size m) by (rewrite Hps; apply Z.pow_pos_nonneg; lia).
  destruct (concretize_lowest_free w self m st address (8 * n) k Hwf Hst Hps0 ltac:(lia)
              Hk Hfree Hlow)
    as (w2 & d1 & Hconc & Hwf2 & Hmem2 & Hst2 & Herr2 & Hmem1 & Hget1 & Hheap2).
  rewrite Hsz in Hconc.
  set (ps := Memory.page_size m) in *.
  set (cnt := 8 * n / ps + 1) in *.
  set (m1 := with_pages d1 m).
  assert (Hlt : n < cnt * ps).
  { unfold cnt. pose proof (Z.mod_pos_bound (8 * n) ps Hps0).
    pose proof (Z.div_mod (8 * n) ps ltac:(lia)). nia. }
  assert (Haddr : forall j, 0 <= j < n ->
            slot_of (Memory.index_bits m1) (byte_address (Memory.bits m1) (k * ps) j)
              = k + j / ps /\
            offset_of (Memory.index_bits m1) (byte_address (Memory.bits m1) (k * ps) j)
              = j mod ps).
  { intros j Hj. unfold slot_of, offset_of, byte_address.
    cbn [m1 with_pages Memory.index_bits Memory.bits]. rewrite <- Hps.
    rewrite (Z.mod_small (k * ps + j)) by nia.
    rewrite Z.div_add_l by lia.
    rewrite (Z.add_comm (k * ps) j), Z.mod_add by lia. split; reflexivity. }
  assert (HL : forall i, i ∈ reverse (seqZ 0 n) <-> 0 <= i < n).
  { intros i. rewrite elem_of_reverse, elem_of_seqZ. lia. }
  assert (Hspace : n <= 2 ^ Memory.bits m) by nia.
  destruct (store_loop_concrete self m1 (k * ps) value endness n (reverse (seqZ 0 n)) Hv
              (NoDup_reverse_seqZ 0 n)
              ltac:(intros i Hi; apply HL; exact Hi))
    with (w := w2) (d := d1) (pas := @nil Z)
    as (w3 & d3 & pas3 & Hloop & Hmem3 & Hst3 & Herr3 & Hwf3 & Hkeys3 & Hpas3 & Ha & _).
  - intros i i' Hi Hi' Heq. apply HL in Hi, Hi'.
    apply byte_address_inj in Heq;
      [|cbn [m1 with_pages Memory.bits]; lia
       |pose proof (store_offset_range endness n i Hi);
        cbn [m1 with_pages Memory.bits]; lia
       |pose proof (store_offset_range endness n i' Hi');
        cbn [m1 with_pages Memory.bits]; lia].
    rewrite <- (store_offset_involutive endness n i),
            <- (store_offset_involutive endness n i'), Heq. reflexivity.
  - intros i Hi. apply HL in Hi.
    pose proof (store_offset_range endness n i Hi) as Ho.
    destruct (Haddr _ Ho) as [-> _]. cbn [m1 with_pages Memory.pages].
    apply Hmem1. right.
    pose proof (Z.div_pos (store_offset endness n i) ps ltac:(lia) Hps0).
    pose proof (Z.div_le_mono (store_offset endness n i) (8 * n) ps Hps0 ltac:(lia)).
    fold ps cnt. lia.
  - exact Hwf2.
  - reflexivity.
  - change (with_pages d3 m1) with (with_pages d3 m) in Hmem3, Hwf3.
    cbn [m1 with_pages Memory.pages] in Hkeys3.
    destruct (simplify_loop_concrete self (with_pages d3 m) pas3) with (w := w3)
      as (h' & Hsimp & Hq).
    { intros j Hj. destruct (Hpas3 j Hj) as [Hin|Hin]; [inversion Hin|].
      apply dict_mem_keys. cbn [with_pages Memory.pages]. rewrite Hkeys3.
      apply dict_mem_keys. exact Hin. }
    { exact Hwf3. }
    exists (with_heap h' w3), d3.
    split.
    { unfold Memory.store. mstep (deref_Ok w self m Hm).
      unfold assert at 1. rewrite Hsz, Z.eqb_refl. rewrite bind_ret.
      mstep Hfire. rewrite Hv. mstep Hconc.
      unfold assert at 1.
      replace (8 * n mod 8 =? 0) with true
        by (symmetry; apply Z.eqb_eq; rewrite Z.mul_comm; apply Z.mod_mul; lia).
      rewrite bind_ret.
      replace (8 * n / 8) with n by (rewrite Z.mul_comm, Z.div_mul; lia).
      change (Memory.bits m) with (Memory.bits m1).
      mstep Hloop. exact Hsimp. }
    cbn [with_heap Memory.memories Memory.states Memory.errored Memory.heap].
    split; [rewrite Hmem3, Hmem2; apply list_insert_insert_eq|].
    split; [rewrite Hst3; exact Hst2|].
    split; [rewrite Herr3; exact Herr2|].
    split.
    { intros s. rewrite <- Hmem1. rewrite !dict_mem_keys, Hkeys3. reflexivity. }
    intros rho i Hi.
    pose proof (store_offset_range endness n i Hi) as Ho.
    destruct (Haddr _ Ho) as [Hs Hoff].
    destruct Hwf3 as (_ & _ & _ & Hent3). cbn [with_pages Memory.pages] in Hent3.
    rewrite (byte_at_quiet rho _ h' d3 _ _ Hent3 Hq).
    rewrite <- Hs, <- Hoff. unfold byte_of. apply Ha. apply HL. exact Hi.
Qed.
End Concretize.

Lemma overlap_world_wf : mem_wf overlap_world 0%nat overlap_memory.
Proof.
  split; [reflexivity|]. split; [cbn; lia|]. split; [apply NoDup_singleton|].
  intros k r H. cbn [dict_get overlap_memory Memory.pages] in H.
  destruct (3 =? k) eqn:E; [|discriminate].
  apply Z.eqb_eq in E as <-. injection H as <-. eexists.
  split; [reflexivity|]. split; reflexivity.
Qed.

(** A 5-byte load at an unconstrained symbol, with pages of 4 bytes: slot 2
    is the lowest free slot, the region is slots 2 and 3, and slot 3 was
    mapped already.  The address is constrained to 8, and the last byte of
    the value is the 0x33 that the memory held at address 12. *)
Lemma load_concretizes_witness :
  exists r w',
    Memory.load (B := log_store) (S := fold_simplifier) (V := enum_solver)
      (O := heuristic_on) 0%nat (BVS "a" 8) 5 "big" overlap_world = Ok r w' /\
    Memory.states w'
      = [ {| State.constraints := [bv_eq_int (BVS "a" 8) 8] |} ] /\
    forall rho, eval rho r mod 256 = 0x33.
Proof.
  destruct (load_concretizes (BL := log_store_laws) (SL := fold_simplifier_laws)
              (V := enum_solver) (O := heuristic_on)
              overlap_world 0%nat overlap_memory _ (BVS "a" 8) 5 2 "big"
              overlap_world_wf eq_refl eq_refl eq_refl
              ltac:(vm_compute; reflexivity) ltac:(lia)
              ltac:(split; vm_compute; discriminate) eq_refl
              ltac:(intros; lia) ltac:(vm_compute; discriminate))
    as (r & w' & d' & Hl & _ & Hst & _ & _ & Hget & Hheap & _ & Hv).
  exists r, w'. split; [exact Hl|]. split; [rewrite Hst; reflexivity|].
  intros rho. destruct (Hv rho) as (bs & Hall & ->).
  change (load_order "big" 5) with [0; 1; 2; 3; 4] in Hall.
  do 5 (apply Forall2_cons_inv_l in Hall as (? & ? & ? & Hall & ->)).
  apply Forall2_nil_inv_l in Hall as ->.
  match goal with H : byte_at _ _ _ (2 + 4 / _) _ = Some _ |- _ => rename H into Hb end.
  change (2 + 4 / Memory.page_size overlap_memory) with 3 in Hb.
  change (4 mod Memory.page_size overlap_memory) with 0 in Hb.
  unfold byte_at in Hb. rewrite (Hget 3 0%nat eq_refl) in Hb.
  destruct (Hheap 0%nat _ eq_refl) as (p' & Hp' & Hsame).
  rewrite Hp' in Hb. destruct Hsame as (_ & _ & _ & Hc). rewrite Hc in Hb.
  injection Hb as <-. unfold be_value. cbn [foldl].
  rewrite Z.add_comm, Z.mod_add by lia. reflexivity.
Defined.

(** ** The symbolic tier of [load] *)

Section SymbolicLoad.
Context {B : MemoryObj} {BL : MemoryObjLaws B}.
Context {S : Z3Simplifier} {SL : Z3SimplifierLaws S}.
Context {V : Solver} {O : Options}.

Lemma elem_of_candidates (cs : list bexpr) (pa : bv) (keys : list Z) (p : Z) :
  p ∈ candidates cs pa keys <->
  p ∈ keys /\ solver_satisfiable cs [bv_eq_int pa p] = true.
Proof using Type.
  unfold candidates. rewrite !list_elem_of_In. apply List.filter_In.
Qed.

(** The loop over the page table in the symbolic tier of [load]: the
    accumulator becomes a chain of selects over the candidate pages, one
    byte wide. *)
Lemma load_symbolic_loop self m st pa pi (keys : list Z) :
  forall (w : Memory.World) res conds,
    mem_wf w self m -> Memory.states w !! Memory.state m = Some st ->
    (forall p, p ∈ keys -> dict_mem p (Memory.pages m) = true) ->
    (res = None \/ res_size res = 8) ->
    exists h' res',
      for_each keys (Memory.load_symbolic_body self pa pi) (res, conds) w
      = Ok (res', conds ++ (candidate_guard pa <$>
                              candidates (State.constraints st) pa keys))
           (with_heap h' w) /\
      heap_quiet (Memory.heap w) h' /\
      (res' = None \/ res_size res' = 8) /\
      (res' = None -> res = None /\ candidates (State.constraints st) pa keys = []) /\
      (forall rho,
         (forall q, q ∈ candidates (State.constraints st) pa keys ->
            beval rho (candidate_guard pa q) = false) ->
         res <> None -> res_value rho res' = res_value rho res) /\
      (forall rho p, NoDup keys ->
         p ∈ candidates (State.constraints st) pa keys ->
         beval rho (candidate_guard pa p) = true ->
         (forall q, q ∈ keys -> q <> p -> beval rho (candidate_guard pa q) = false) ->
         byte_at rho (Memory.heap w) (Memory.pages m) p (eval rho pi)
         = Some (res_value rho res')).
Proof using BL SL.
  induction keys as [|q keys IH]; intros w res conds Hwf Hst Hkeys Hres.
  - exists (Memory.heap w), res. rewrite with_heap_id. cbn [candidates List.filter fmap list_fmap].
    rewrite app_nil_r. split; [reflexivity|]. split; [apply heap_quiet_refl|].
    split; [exact Hres|]. split; [auto|]. split; [auto|].
    intros rho p _ Hp. inversion Hp.
  - pose proof Hwf as (Hm & Hib & Hnd & Hent).
    assert (Hkeys' : forall p, p ∈ keys -> dict_mem p (Memory.pages m) = true)
      by (intros p Hp; apply Hkeys; right; exact Hp).
    destruct (solver_satisfiable (State.constraints st) [bv_eq_int pa q]) eqn:Hsat.
    + destruct (proj1 (dict_mem_get _ _) (Hkeys q ltac:(left))) as [r Hr].
      destruct (_load_Ok w self m q r pi Hwf Hr) as (h1 & b & Hld & Hq1 & Hb8 & Hbyte).
      set (res1 := match res with
                   | Some r0 => Some (If (candidate_guard pa q) b r0)
                   | None => Some b
                   end).
      assert (Hbody : Memory.load_symbolic_body self pa pi q (res, conds) w
                      = Ok (res1, conds ++ [candidate_guard pa q]) (with_heap h1 w)).
      { unfold Memory.load_symbolic_body.
        mstep (path_constraints_Ok w self m st Hm Hst). rewrite Hsat.
        destruct res as [r0|].
        - mstep Hld. unfold z3_If.
          destruct Hres as [Hres|Hres]; [discriminate|]. cbn [res_size] in Hres.
          rewrite Hb8, Hres. cbn [Z.eqb Pos.eqb]. reflexivity.
        - mstep Hld. reflexivity. }
      assert (Hres1 : res1 = None \/ res_size res1 = 8).
      { right. subst res1. destruct res; cbn [res_size bv_size]; exact Hb8. }
      assert (Hval1 : forall rho, res <> None ->
                beval rho (candidate_guard pa q) = false ->
                res_value rho res1 = res_value rho res).
      { intros rho Hne Hg. subst res1. destruct res as [r0|]; [|congruence].
        cbn [res_value eval]. rewrite Hg, Hb8.
        destruct Hres as [Hres|Hres]; [discriminate|]. cbn [res_size] in Hres.
        apply Z.mod_small. rewrite <- Hres. apply eval_range. lia. }
      assert (Hval1' : forall rho, beval rho (candidate_guard pa q) = true ->
                res_value rho res1 = eval rho b).
      { intros rho Hg. subst res1. destruct res as [r0|]; [|reflexivity].
        cbn [res_value eval]. rewrite Hg, Hb8.
        apply Z.mod_small. rewrite <- Hb8. apply eval_range. lia. }
      destruct (IH (with_heap h1 w) res1 (conds ++ [candidate_guard pa q])
                  (mem_wf_quiet w self m h1 Hwf Hq1) Hst Hkeys' Hres1)
        as (h' & res' & Hloop & Hq' & Hres' & Hnone & Hv1 & Hv2).
      assert (Hne1 : res1 <> None) by (subst res1; destruct res; discriminate).
      exists h', res'. cbn [candidates List.filter]. rewrite Hsat.
      fold (candidates (State.constraints st) pa keys).
      split.
      { cbn [for_each]. mstep Hbody. rewrite Hloop.
        cbn [fmap list_fmap]. rewrite <- app_assoc. reflexivity. }
      split; [eapply heap_quiet_trans; eassumption|].
      split; [exact Hres'|].
      split; [intros E; destruct (Hnone E) as [E1 _]; congruence|].
      split.
      { intros rho Hall Hne. rewrite Hv1.
        - apply Hval1; [exact Hne | apply Hall; left].
        - intros q' Hq''. apply Hall. right. exact Hq''.
        - exact Hne1. }
      intros rho p Hndk Hp Hg Hothers. apply NoDup_cons in Hndk as [Hnotin Hndk].
      apply elem_of_cons in Hp as [->|Hp].
      * rewrite Hv1; [rewrite Hval1' by exact Hg; apply Hbyte| |exact Hne1].
        intros q' Hq''. apply elem_of_candidates in Hq'' as [Hq'' _].
        apply Hothers; [right; exact Hq''|]. intros ->. contradiction.
      * rewrite <- (Hv2 rho p Hndk Hp Hg).
        -- symmetry. apply byte_at_quiet; [exact Hent | exact Hq1].
        -- intros q' Hq'' Hne. apply Hothers; [right; exact Hq'' | exact Hne].
    + destruct (IH w res conds Hwf Hst Hkeys' Hres)
        as (h' & res' & Hloop & Hq' & Hres' & Hnone & Hv1 & Hv2).
      exists h', res'. cbn [candidates List.filter]. rewrite Hsat.
      fold (candidates (State.constraints st) pa keys).
      split.
      { cbn [for_each]. unfold bind at 1. unfold Memory.load_symbolic_body at 1.
        rewrite (bind_Ok _ _ _ _ _ (path_constraints_Ok w self m st Hm Hst)).
        rewrite Hsat. unfold ret at 1. exact Hloop. }
      split; [exact Hq'|]. split; [exact Hres'|]. split; [exact Hnone|].
      split; [exact Hv1|].
      intros rho p Hndk Hp Hg Hothers. apply NoDup_cons in Hndk as [Hnotin Hndk].
      apply (Hv2 rho p Hndk Hp Hg).
      intros q' Hq'' Hne. apply Hothers; [right; exact Hq'' | exact Hne].
Qed.

(** The guard of a page holds exactly under the valuations that put the
    byte in that page. *)
Lemma candidate_guard_slot (m : Memory.t) (address : bv) (j q : Z) (rho : env) :
  0 < Memory.index_bits m < Memory.bits m ->
  bv_size address = Memory.bits m ->
  0 <= q < 2 ^ (Memory.bits m - Memory.index_bits m) ->
  beval rho (candidate_guard (load_page_address m address j) q)
  = (slot_of (Memory.index_bits m) (eval rho (bv_add_int address j)) =? q).
Proof using SL.
  intros Hib Hsz Hq. unfold candidate_guard, load_page_address, bv_eq_int.
  rewrite simplify_bool_sound. cbn [beval]. rewrite simplify_sound, simplify_size.
  cbn [bv_size eval bvv]. rewrite Hsz.
  replace (Memory.bits m - 1 - Memory.index_bits m + 1)
    with (Memory.bits m - Memory.index_bits m) by lia.
  rewrite Z.mod_mod by (apply Z.pow_nonzero; lia).
  rewrite (Z.mod_small q) by exact Hq.
  unfold slot_of. f_equal. apply Z.mod_small.
  pose proof (eval_range rho (bv_add_int address j)) as Hr.
  cbn [bv_size bv_add_int] in Hr. rewrite Hsz in Hr. specialize (Hr ltac:(lia)).
  split; [apply Z.div_pos; [lia | apply Z.pow_pos_nonneg; lia]|].
  apply Z.div_lt_upper_bound; [apply Z.pow_pos_nonneg; lia|].
  rewrite <- Z.pow_add_r by lia.
  replace (Memory.index_bits m + (Memory.bits m - Memory.index_bits m))
    with (Memory.bits m) by lia. lia.
Qed.

(** One pass of the byte loop of [load] in the symbolic tier. *)
Lemma load_body_symbolic (w : Memory.World) self m st address j res conds0 :
  mem_wf w self m -> Memory.states w !! Memory.state m = Some st ->
  bv_size address = Memory.bits m ->
  symbolic (load_page_address m address j) = true ->
  solver_symbolic (State.constraints st) (load_page_address m address j) = true ->
  (res = None \/ res_size res = 8) ->
  exists h' res',
    Memory.load_body self address j (res, conds0) w
    = Ok (res', load_guards m st address j) (with_heap h' w) /\
    heap_quiet (Memory.heap w) h' /\
    (res' = None \/ res_size res' = 8) /\
    (res' = None -> res = None /\ load_candidates m st address j = []) /\
    (forall rho p,
       p ∈ load_candidates m st address j ->
       beval rho (candidate_guard (load_page_address m address j) p) = true ->
       (forall q, q ∈ dict_keys (Memory.pages m) -> q <> p ->
          beval rho (candidate_guard (load_page_address m address j) q) = false) ->
       byte_at rho (Memory.heap w) (Memory.pages m) p
         (offset_of (Memory.index_bits m) (eval rho (bv_add_int address j)))
       = Some (res_value rho res')).
Proof using BL SL.
  intros Hwf Hst Hsz Hsym Hssym Hres. pose proof Hwf as (Hm & Hib & Hnd & Hent).
  set (pi := simplify (Extract (Memory.index_bits m - 1) 0 (bv_add_int address j))).
  destruct (load_symbolic_loop self m st (load_page_address m address j) pi
              (dict_keys (Memory.pages m)) w res [] Hwf Hst
              ltac:(intros p Hp; apply dict_mem_keys; exact Hp) Hres)
    as (h' & res' & Hloop & Hq & Hres' & Hnone & _ & Hv2).
  exists h', res'. split; [|split; [exact Hq|split; [exact Hres'|split; [exact Hnone|]]]].
  - unfold Memory.load_body. mstep (deref_Ok w self m Hm).
    rewrite (bind_Ok _ _ _ _ _
               (split_bv_add_Ok address j (Memory.index_bits m) w ltac:(lia))).
    fold (load_page_address m address j). fold pi.
    rewrite Hsym. cbn [negb].
    rewrite (bind_Ok _ _ _ _ _ (path_constraints_Ok w self m st Hm Hst)).
    rewrite Hssym. cbn [negb]. exact Hloop.
  - intros rho p Hp Hg Hothers. rewrite <- (Hv2 rho p Hnd Hp Hg Hothers).
    f_equal. subst pi. rewrite simplify_sound. cbn [eval]. unfold offset_of.
    change (2 ^ 0) with 1. rewrite Z.div_1_r.
    replace (Memory.index_bits m - 1 - 0 + 1) with (Memory.index_bits m) by lia.
    reflexivity.
Qed.

(** The report that [load] makes when the last byte left conditions. *)
Lemma load_report_Ok (w : Memory.World) self m st (conds : list bexpr) :
  Memory.memories w !! self = Some m ->
  Memory.states w !! Memory.state m = Some st ->
  conds <> [] ->
  (match conds with
   | [] => ret tt
   | _ =>
       let* st := Memory.get_state (Memory.state m) in
       let errored_state := State.copy st in
       let errored_state :=
         State.add_constraints
           (simplify_bool (Not (z3_Or conds))) errored_state in
       let* _ := Memory.report_errored (errored_state, "read unmapped"%string) in
       Memory.add_constraints self (simplify_bool (z3_Or conds))
   end) w
  = Ok tt {| Memory.heap := Memory.heap w; Memory.memories := Memory.memories w;
             Memory.states :=
               <[Memory.state m :=
                   State.add_constraints (simplify_bool (z3_Or conds)) st]>
                 (Memory.states w);
             Memory.errored :=
               Memory.errored w ++
               [(State.add_constraints (simplify_bool (Not (z3_Or conds)))
                   (State.copy st), "read unmapped"%string)] |}.
Proof using Type.
  intros Hm Hst Hne. destruct conds as [|c conds]; [congruence|].
  unfold Memory.get_state, Memory.report_errored, Memory.add_constraints,
    Memory.modify_state, Memory.get_state, Memory.deref, bind, ret.
  rewrite Hst. cbn [Memory.states Memory.memories Memory.heap Memory.errored].
  rewrite Hm. cbn [Memory.states Memory.memories Memory.heap Memory.errored].
  rewrite Hst. reflexivity.
Qed.

(** A one-byte [load] in the symbolic tier.  When the page address is
    symbolic for the solver and some mapped page is a candidate, [load]
    returns one byte: under every valuation that puts the address in a
    candidate page, it is the byte that the memory holds at the address.
    The disjunction of the candidates' guards is added to the state, and a
    copy of the state carrying its negation is reported as errored. *)
Theorem load_symbolic_select (w : Memory.World) (self : nat) (m : Memory.t)
    (st : State.t) (address : bv) (endness : string) :
  mem_wf w self m ->
  Memory.states w !! Memory.state m = Some st ->
  bv_size address = Memory.bits m ->
  Memory.heuristic_unconstrained self address w = Ok false w ->
  (forall q, dict_mem q (Memory.pages m) = true ->
     0 <= q < 2 ^ (Memory.bits m - Memory.index_bits m)) ->
  symbolic (load_page_address m address 0) = true ->
  solver_symbolic (State.constraints st) (load_page_address m address 0) = true ->
  load_candidates m st address 0 <> [] ->
  exists r w',
    Memory.load self address 1 endness w = Ok r w' /\
    Memory.memories w' = Memory.memories w /\
    Memory.states w'
      = <[Memory.state m :=
            State.add_constraints
              (simplify_bool (z3_Or (load_guards m st address 0))) st]>
          (Memory.states w) /\
    Memory.errored w'
      = Memory.errored w ++
        [(State.add_constraints
            (simplify_bool (Not (z3_Or (load_guards m st address 0))))
            (State.copy st), "read unmapped"%string)] /\
    bv_size r = 8 /\
    forall rho,
      slot_of (Memory.index_bits m) (eval rho address)
        ∈ load_candidates m st address 0 ->
      byte_at rho (Memory.heap w) (Memory.pages m)
        (slot_of (Memory.index_bits m) (eval rho address))
        (offset_of (Memory.index_bits m) (eval rho address))
      = Some (eval rho r).
Proof using BL SL.
  intros Hwf Hst Hsz Hheur Hrange Hsym Hssym Hcand.
  pose proof Hwf as (Hm & Hib & Hnd & Hent).
  destruct (load_body_symbolic w self m st address 0 None [] Hwf Hst Hsz Hsym Hssym
              ltac:(left; reflexivity))
    as (h' & res' & Hbody & Hq & Hres' & Hnone & Hv).
  destruct res' as [r'|]; [|destruct (Hnone eq_refl) as [_ E]; contradiction].
  destruct Hres' as [Hres'|Hres']; [discriminate|]. cbn [res_size] in Hres'.
  assert (Hg : load_guards m st address 0 <> []).
  { unfold load_guards. intros E. apply fmap_nil_inv in E. contradiction. }
  assert (Hord : load_order endness 1 = [0]).
  { unfold load_order. destruct (String.eqb endness "little"); reflexivity. }
  assert (Ha0 : forall rho, eval rho (bv_add_int address 0) = eval rho address).
  { intros rho. unfold bv_add_int, bvv. cbn [eval].
    repeat rewrite Z.mod_0_l by (apply Z.pow_nonzero; lia).
    rewrite Z.add_0_r. apply Z.mod_small. apply eval_range. lia. }
  eexists. eexists. split.
  { unfold Memory.load. mstep (deref_Ok w self m Hm).
    unfold assert at 1. rewrite Hsz, Z.eqb_refl. rewrite bind_ret.
    mstep Hheur. rewrite bind_ret.
    fold (load_order endness 1). rewrite Hord. cbn [for_each].
    mstep Hbody. rewrite bind_ret.
    erewrite bind_Ok;
      [|apply (load_report_Ok (with_heap h' w) self m st); [exact Hm|exact Hst|exact Hg]].
    unfold assert. rewrite Hres'. cbn. reflexivity. }
  cbn [with_heap Memory.memories Memory.states Memory.errored Memory.heap].
  split; [reflexivity|]. split; [reflexivity|]. split; [reflexivity|].
  split; [rewrite simplify_size; exact Hres'|].
  intros rho Hin. rewrite simplify_sound.
  change (eval rho r') with (res_value rho (Some r')).
  rewrite <- (Ha0 rho) in *.
  apply Hv; [exact Hin| |].
  - rewrite candidate_guard_slot; [apply Z.eqb_refl|exact Hib|exact Hsz|].
    apply Hrange, dict_mem_keys.
    apply elem_of_candidates in Hin as [Hin _]. exact Hin.
  - intros q Hqk Hne.
    rewrite candidate_guard_slot; [|exact Hib|exact Hsz|apply Hrange, dict_mem_keys, Hqk].
    apply Z.eqb_neq. congruence.
Qed.

(** The byte loop of [load] when every byte takes the symbolic tier: the
    accumulator stays one byte wide. *)
Lemma load_loop_symbolic self m st address (L : list Z) :
  bv_size address = Memory.bits m ->
  (forall j, j ∈ L ->
     symbolic (load_page_address m address j) = true /\
     solver_symbolic (State.constraints st) (load_page_address m address j) = true) ->
  forall (w : Memory.World) res conds,
    mem_wf w self m -> Memory.states w !! Memory.state m = Some st ->
    (res = None \/ res_size res = 8) ->
    exists h' res' conds',
      for_each L (Memory.load_body self address) (res, conds) w
      = Ok (res', conds') (with_heap h' w) /\
      heap_quiet (Memory.heap w) h' /\
      (res' = None \/ res_size res' = 8) /\
      (res' = None ->
       res = None /\ forall j, j ∈ L -> load_candidates m st address j = []).
Proof using BL SL.
  intros Hsz. induction L as [|j L IH]; intros Htier w res conds Hwf Hst Hres.
  - exists (Memory.heap w), res, conds. rewrite with_heap_id.
    split; [reflexivity|]. split; [apply heap_quiet_refl|]. split; [exact Hres|].
    intros E. split; [exact E|]. intros j Hj. inversion Hj.
  - destruct (Htier j ltac:(left)) as [H1 H2].
    destruct (load_body_symbolic w self m st address j res conds Hwf Hst Hsz H1 H2 Hres)
      as (h1 & res1 & Hbody & Hq1 & Hres1 & Hnone1 & _).
    destruct (IH (fun i Hi => Htier i ltac:(right; exact Hi)) (with_heap h1 w) res1
                (load_guards m st address j) (mem_wf_quiet w self m h1 Hwf Hq1) Hst Hres1)
      as (h' & res' & conds' & Hloop & Hq' & Hres' & Hnone').
    exists h', res', conds'. split; [cbn [for_each]; mstep Hbody; exact Hloop|].
    split; [eapply heap_quiet_trans; eassumption|]. split; [exact Hres'|].
    intros E. destruct (Hnone' E) as [E1 Hall]. destruct (Hnone1 E1) as [E0 Hj0].
    split; [exact E0|]. intros i Hi. apply elem_of_cons in Hi as [->|Hi]; auto.
Qed.

(** A [load] of two bytes or more never returns a value when every byte
    takes the symbolic tier and some byte has a candidate page: each byte is
    selected over the previous one instead of being concatenated to it, the
    result stays one byte wide, and the width assertion fails. *)
Theorem load_symbolic_wide_fails (w : Memory.World) (self : nat) (m : Memory.t)
    (st : State.t) (address : bv) (n j0 : Z) (endness : string) :
  mem_wf w self m ->
  Memory.states w !! Memory.state m = Some st ->
  bv_size address = Memory.bits m ->
  Memory.heuristic_unconstrained self address w = Ok false w ->
  1 < n ->
  (forall j, 0 <= j < n ->
     symbolic (load_page_address m address j) = true /\
     solver_symbolic (State.constraints st) (load_page_address m address j) = true) ->
  0 <= j0 < n -> load_candidates m st address j0 <> [] ->
  exists w',
    Memory.load self address n endness w = Fail AssertionError w' /\
    Memory.memories w' = Memory.memories w.
Proof using BL SL.
  intros Hwf Hst Hsz Hheur Hn Htier Hj0 Hcand.
  pose proof Hwf as (Hm & Hib & Hnd & Hent).
  destruct (load_loop_symbolic self m st address (load_order endness n) Hsz
              ltac:(intros j Hj; apply Htier; apply elem_of_load_order in Hj; exact Hj)
              w None [] Hwf Hst ltac:(left; reflexivity))
    as (h' & res' & conds' & Hloop & Hq & Hres' & Hnone).
  destruct res' as [r'|].
  2:{ destruct (Hnone eq_refl) as [_ Hall]. exfalso. apply Hcand, Hall.
      apply elem_of_load_order. exact Hj0. }
  destruct Hres' as [Hres'|Hres']; [discriminate|]. cbn [res_size] in Hres'.
  assert (Hfail : (8 / 8 =? n) = false) by (apply Z.eqb_neq; change (8 / 8) with 1; lia).
  destruct conds' as [|c conds'].
  - exists (with_heap h' w). split; [|reflexivity].
    unfold Memory.load. mstep (deref_Ok w self m Hm).
    unfold assert at 1. rewrite Hsz, Z.eqb_refl. rewrite bind_ret.
    mstep Hheur. rewrite bind_ret.
    fold (load_order endness n). mstep Hloop. rewrite bind_ret.
    unfold assert. rewrite Hres', Hfail. reflexivity.
  - eexists. split.
    + unfold Memory.load. mstep (deref_Ok w self m Hm).
      unfold assert at 1. rewrite Hsz, Z.eqb_refl. rewrite bind_ret.
      mstep Hheur. rewrite bind_ret.
      fold (load_order endness n). mstep Hloop.
      erewrite bind_Ok;
        [|apply (load_report_Ok (with_heap h' w) self m st (c :: conds'));
          [exact Hm|exact Hst|discriminate]].
      unfold assert. rewrite Hres', Hfail. reflexivity.
    + reflexivity.
Qed.
End SymbolicLoad.

Lemma two_page_memory_range (q : Z) :
  dict_mem q (Memory.pages two_page_memory) = true ->
  0 <= q < 2 ^ (Memory.bits two_page_memory - Memory.index_bits two_page_memory).
Proof.
  unfold dict_mem. cbn [two_page_memory Memory.pages Memory.bits Memory.index_bits dict_get].
  change (2 ^ (8 - 2)) with 64.
  destruct (Z.eqb_spec 1 q) as [<-|_]; [lia|].
  destruct (Z.eqb_spec 2 q) as [<-|_]; [lia|discriminate].
Qed.

(** The address [a] is 4 or 8, the bases of the two mapped pages: the byte
    loaded is 0x11 under [a = 4] and 0x22 under [a = 8], and one errored
    state is reported. *)
Lemma load_symbolic_select_witness :
  exists r w',
    Memory.load (B := log_store) (S := fold_simplifier) (V := enum_solver)
      (O := heuristic_on) 0%nat (BVS "a" 8) 1 "big" two_page_world = Ok r w' /\
    length (Memory.errored w') = 1%nat /\
    eval a_is_4 r = 0x11 /\ eval a_is_8 r = 0x22.
Proof.
  destruct (load_symbolic_select (BL := log_store_laws) (SL := fold_simplifier_laws)
              (V := enum_solver) (O := heuristic_on)
              two_page_world 0%nat two_page_memory
              {| State.constraints :=
                   [Or (Eq (BVS "a" 8) (bvv 4 8)) (Eq (BVS "a" 8) (bvv 8 8))] |}
              (BVS "a" 8) "big"
              two_page_world_wf eq_refl eq_refl ltac:(vm_compute; reflexivity)
              two_page_memory_range ltac:(vm_compute; reflexivity)
              ltac:(vm_compute; reflexivity) ltac:(vm_compute; discriminate))
    as (r & w' & Hl & _ & _ & Herr & _ & Hv).
  exists r, w'. split; [exact Hl|]. split; [rewrite Herr; reflexivity|].
  assert (Hc : load_candidates (S := fold_simplifier) (V := enum_solver)
                 two_page_memory {| State.constraints :=
                    [Or (Eq (BVS "a" 8) (bvv 4 8)) (Eq (BVS "a" 8) (bvv 8 8))] |}
                 (BVS "a" 8) 0 = [1; 2]) by (vm_compute; reflexivity).
  split.
  - pose proof (Hv a_is_4) as H4. rewrite Hc in H4.
    change (slot_of (Memory.index_bits two_page_memory) (eval a_is_4 (BVS "a" 8)))
      with 1 in H4.
    change (offset_of (Memory.index_bits two_page_memory) (eval a_is_4 (BVS "a" 8)))
      with 0 in H4.
    specialize (H4 ltac:(left)).
    assert (Hb : byte_at (B := log_store) a_is_4 (Memory.heap two_page_world)
                   (Memory.pages two_page_memory) 1 0 = Some 0x11)
      by (vm_compute; reflexivity).
    rewrite Hb in H4. injection H4 as H4. symmetry. exact H4.
  - pose proof (Hv a_is_8) as H8. rewrite Hc in H8.
    change (slot_of (Memory.index_bits two_page_memory) (eval a_is_8 (BVS "a" 8)))
      with 2 in H8.
    change (offset_of (Memory.index_bits two_page_memory) (eval a_is_8 (BVS "a" 8)))
      with 0 in H8.
    specialize (H8 ltac:(right; left)).
    assert (Hb : byte_at (B := log_store) a_is_8 (Memory.heap two_page_world)
                   (Memory.pages two_page_memory) 2 0 = Some 0x22)
      by (vm_compute; reflexivity).
    rewrite Hb in H8. injection H8 as H8. symmetry. exact H8.
Defined.

(** The same address and memory, two bytes: the load fails on the width
    assertion. *)
Lemma load_symbolic_wide_fails_witness :
  exists w',
    Memory.load (B := log_store) (S := fold_simplifier) (V := enum_solver)
      (O := heuristic_on) 0%nat (BVS "a" 8) 2 "little" two_page_world
    = Fail AssertionError w' /\
    Memory.memories w' = Memory.memories two_page_world.
Proof.
  apply (load_symbolic_wide_fails (BL := log_store_laws) (SL := fold_simplifier_laws)
           (V := enum_solver) (O := heuristic_on)
           two_page_world 0%nat two_page_memory
           {| State.constraints :=
                [Or (Eq (BVS "a" 8) (bvv 4 8)) (Eq (BVS "a" 8) (bvv 8 8))] |}
           (BVS "a" 8) 2 0 "little"
           two_page_world_wf eq_refl eq_refl ltac:(vm_compute; reflexivity) ltac:(lia)).
  - intros j Hj. assert (Hj' : j = 0 \/ j = 1) by lia.
    destruct Hj' as [-> | ->]; split; vm_compute; reflexivity.
  - lia.
  - vm_compute. discriminate.
Defined.

(** ** The symbolic tier of [store] *)

Section SymbolicStore.
Context {B : MemoryObj} {BL : MemoryObjLaws B}.
Context {S : Z3Simplifier} {SL : Z3SimplifierLaws S}.
Context {V : Solver} {O : Options}.

(** The loop over the page table in the symbolic tier of [store], for a
    one-byte value: the byte is written to every candidate page. *)
Lemma store_symbolic_loop self m st pa pi value (keys : list Z) :
  bv_size value = 8 -> NoDup keys ->
  (forall p, p ∈ keys -> dict_mem p (Memory.pages m) = true) ->
  forall (w : Memory.World) d pas conds,
    mem_wf w self (with_pages d m) ->
    dict_keys d = dict_keys (Memory.pages m) ->
    Memory.states w !! Memory.state m = Some st ->
    exists w' d' pas',
      for_each keys (Memory.store_symbolic_body self pa pi value 0) (pas, conds) w
      = Ok (pas', conds ++ (candidate_guard pa <$>
                              candidates (State.constraints st) pa keys)) w' /\
      Memory.memories w' = <[self := with_pages d' m]> (Memory.memories w) /\
      Memory.states w' = Memory.states w /\
      Memory.errored w' = Memory.errored w /\
      mem_wf w' self (with_pages d' m) /\
      dict_keys d' = dict_keys (Memory.pages m) /\
      (forall k, k ∈ pas' -> k ∈ pas \/ dict_mem k (Memory.pages m) = true) /\
      (forall rho k, k ∈ candidates (State.constraints st) pa keys ->
         byte_at rho (Memory.heap w') d' k (eval rho pi) = Some (eval rho value)) /\
      (forall rho k off,
         ~ (k ∈ candidates (State.constraints st) pa keys /\ off = eval rho pi) ->
         byte_at rho (Memory.heap w') d' k off = byte_at rho (Memory.heap w) d k off).
Proof using BL SL.
  intros Hv Hnd Hkeys. induction keys as [|q keys IH]; intros w d pas conds Hwf Hdk Hst.
  - exists w, d, pas. cbn [candidates List.filter fmap list_fmap]. rewrite app_nil_r.
    split; [reflexivity|].
    split; [symmetry; apply list_insert_id; apply Hwf|].
    split; [reflexivity|]. split; [reflexivity|]. split; [exact Hwf|].
    split; [exact Hdk|]. split; [auto|].
    split; [intros rho k Hk; inversion Hk|]. reflexivity.
  - apply NoDup_cons in Hnd as [Hnotin Hnd].
    pose proof Hwf as (Hm & Hib & Hndk & Hent).
    cbn [with_pages Memory.pages Memory.index_bits Memory.bits] in Hib, Hndk, Hent.
    assert (Hkeys' : forall p, p ∈ keys -> dict_mem p (Memory.pages m) = true)
      by (intros p Hp; apply Hkeys; right; exact Hp).
    destruct (solver_satisfiable (State.constraints st) [bv_eq_int pa q]) eqn:Hsat.
    + assert (Hk : exists r, dict_get q d = Some r).
      { assert (Hin : dict_mem q d = true).
        { apply dict_mem_keys. rewrite Hdk. apply dict_mem_keys. apply Hkeys. left. }
        apply dict_mem_get in Hin as [r Hr]. eauto. }
      destruct Hk as [r Hk].
      destruct (_store_Ok w self (with_pages d m) q r pi (Extract 7 0 value)
                  (Some (candidate_guard pa q)) Hwf Hk eq_refl)
        as (r' & h' & p & Hsto & Hp & Hstep).
      cbn [with_pages Memory.pages] in Hsto.
      change (with_pages (dict_set q r' d) (with_pages d m))
        with (with_pages (dict_set q r' d) m) in Hsto.
      set (d1 := dict_set q r' d) in *.
      set (w1 := with_memories _ (with_heap h' w)) in Hsto.
      assert (Hbody : Memory.store_symbolic_body self pa pi value 0 q (pas, conds) w
                      = Ok (set_add q pas, conds ++ [candidate_guard pa q]) w1).
      { unfold Memory.store_symbolic_body.
        mstep (path_constraints_Ok w self (with_pages d m) st Hm Hst). rewrite Hsat.
        unfold z3_Extract. rewrite Hv.
        change ((0 <=? 8 * 0) && (8 * 0 <=? 8 * (0 + 1) - 1) && (8 * (0 + 1) - 1 <? 8))
          with true. cbv iota. rewrite bind_ret.
        change (8 * (0 + 1) - 1) with 7. change (8 * 0) with 0.
        fold (candidate_guard pa q). mstep Hsto. reflexivity. }
      assert (Hdk1 : dict_keys d1 = dict_keys (Memory.pages m)).
      { subst d1. rewrite (step_dict_keys d q r r' Hk). exact Hdk. }
      assert (Hwf1 : mem_wf w1 self (with_pages d1 m)).
      { split; [|split; [exact Hib|split]].
        - subst w1. cbn [with_memories Memory.memories].
          apply list_lookup_insert_eq. eapply lookup_lt_Some; exact Hm.
        - cbn [with_pages Memory.pages]. rewrite Hdk1, <- Hdk. exact Hndk.
        - apply (step_entries_wf (Memory.heap w) h' d q r r' p pi _ Hent Hk Hp Hstep). }
      destruct (IH Hnd Hkeys' w1 d1 (set_add q pas) (conds ++ [candidate_guard pa q])
                  Hwf1 Hdk1 Hst)
        as (w' & d' & pas' & Hloop & Hmem' & Hst' & Herr' & Hwf' & Hdk' & Hpas' & Ha & Hb).
      assert (Hbyte : forall rho, eval rho (Extract 7 0 value) = eval rho value).
      { intros rho. cbn [eval]. change (2 ^ 0) with 1. rewrite Z.div_1_r.
        change (7 - 0 + 1) with 8. apply Z.mod_small. rewrite <- Hv.
        apply eval_range. lia. }
      exists w', d', pas'. cbn [candidates List.filter]. rewrite Hsat.
      fold (candidates (State.constraints st) pa keys).
      split.
      { cbn [for_each]. mstep Hbody. rewrite Hloop.
        cbn [fmap list_fmap]. rewrite <- app_assoc. reflexivity. }
      split; [rewrite Hmem'; subst w1; cbn [with_memories Memory.memories];
              apply list_insert_insert_eq|].
      split; [rewrite Hst'; reflexivity|]. split; [rewrite Herr'; reflexivity|].
      split; [exact Hwf'|]. split; [exact Hdk'|].
      split; [|split].
      * intros k0 Hk0. destruct (Hpas' k0 Hk0) as [Hin|Hin]; [|right; exact Hin].
        apply elem_of_set_add in Hin as [->|Hin];
          [right; apply Hkeys; left | left; exact Hin].
      * intros rho k Hkc. apply elem_of_cons in Hkc as [->|Hkc]; [|apply Ha; exact Hkc].
        rewrite Hb.
        -- subst d1. change (Memory.heap w1) with h'.
           rewrite (step_byte_at (Memory.heap w) h' d q r r' p pi _ Hent Hk Hp Hstep).
           rewrite !Z.eqb_refl. cbn [andb]. rewrite Hbyte. reflexivity.
        -- intros [Hin _]. apply elem_of_candidates in Hin as [Hin _]. contradiction.
      * intros rho k off Hno. rewrite Hb by (intros [Hin Ho]; apply Hno; split;
                                             [right; exact Hin | exact Ho]).
        subst d1. change (Memory.heap w1) with h'.
        rewrite (step_byte_at (Memory.heap w) h' d q r r' p pi _ Hent Hk Hp Hstep).
        destruct ((k =? q) && (off =? eval rho pi)) eqn:E; [|reflexivity].
        apply andb_true_iff in E as [E1 E2]. apply Z.eqb_eq in E1, E2.
        exfalso. apply Hno. split; [rewrite E1; left | exact E2].
    + destruct (IH Hnd Hkeys' w d pas conds Hwf Hdk Hst)
        as (w' & d' & pas' & Hloop & Hrest).
      exists w', d', pas'. cbn [candidates List.filter]. rewrite Hsat.
      fold (candidates (State.constraints st) pa keys).
      split; [|exact Hrest].
      cbn [for_each]. unfold bind at 1. unfold Memory.store_symbolic_body at 1.
      rewrite (bind_Ok _ _ _ _ _
                 (path_constraints_Ok w self (with_pages d m) st Hm Hst)).
      rewrite Hsat. unfold ret at 1. exact Hloop.
Qed.

Lemma store_split_Ok (w : Memory.World) (m : Memory.t) (address : bv)
    (endness : string) (size i : Z) :
  0 < Memory.index_bits m < bv_size address ->
  (if String.eqb endness "little" then
     split_bv (bv_add_int address i) (Memory.index_bits m)
   else
     split_bv (bv_sub_int (bv_sub_int (bv_add_int address (size / 8)) i) 1)
       (Memory.index_bits m)) w
  = Ok (store_page_address m address endness size i,
        simplify (Extract (Memory.index_bits m - 1) 0
                    (store_address_term address endness size i))) w.
Proof using Type.
  intros Hib. unfold store_page_address, store_address_term.
  destruct (String.eqb endness "little");
    (rewrite split_bv_Ok by (cbn [bv_size bv_add_int bv_sub_int]; exact Hib));
    reflexivity.
Qed.

(** The address term of a one-byte store denotes the address. *)
Lemma store_address_term_eval (rho : env) (address : bv) (endness : string) :
  1 < bv_size address ->
  eval rho (store_address_term address endness 8 0) = eval rho address.
Proof using Type.
  intros Hsz. pose proof (eval_range rho address ltac:(lia)) as Hr.
  assert (Hone : 1 < 2 ^ bv_size address)
    by (apply Z.pow_gt_1; lia).
  unfold store_address_term, bv_add_int, bv_sub_int, bvv. change (8 / 8) with 1.
  destruct (String.eqb endness "little"); cbn [eval bv_size].
  - repeat rewrite (Z.mod_small 0) by lia.
    rewrite Z.add_0_r. apply Z.mod_small. exact Hr.
  - repeat rewrite (Z.mod_small 0) by lia.
    repeat rewrite (Z.mod_small 1) by lia.
    rewrite Z.sub_0_r, Z.mod_mod by lia.
    rewrite Zminus_mod_idemp_l.
    replace (eval rho address + 1 - 1) with (eval rho address) by lia.
    apply Z.mod_small. exact Hr.
Qed.

(** A one-byte [store] in the symbolic tier.  The byte is written to every
    candidate page at the offset of the address, whatever the valuation: the
    guard built for the page is handed to [Page.store], which does not use
    it.  Every other byte of the memory is as before; with no candidate
    nothing is written and the state is unchanged, otherwise the
    disjunction of the guards is added to the state. *)
Theorem store_symbolic_unguarded (w : Memory.World) (self : nat) (m : Memory.t)
    (st : State.t) (address value : bv) (endness : string) :
  mem_wf w self m ->
  Memory.states w !! Memory.state m = Some st ->
  bv_size address = Memory.bits m ->
  bv_size value = 8 ->
  Memory.heuristic_unconstrained self address w = Ok false w ->
  symbolic (store_page_address m address endness 8 0) = true ->
  solver_symbolic (State.constraints st)
    (store_page_address m address endness 8 0) = true ->
  exists w' d',
    Memory.store self address value endness w = Ok tt w' /\
    Memory.memories w' = <[self := with_pages d' m]> (Memory.memories w) /\
    Memory.errored w' = Memory.errored w /\
    dict_keys d' = dict_keys (Memory.pages m) /\
    (store_candidates m st address endness 8 0 = [] ->
     Memory.states w' = Memory.states w) /\
    (store_candidates m st address endness 8 0 <> [] ->
     Memory.states w'
     = <[Memory.state m :=
           State.add_constraints
             (simplify_bool (z3_Or (store_guards m st address endness 8 0))) st]>
         (Memory.states w)) /\
    (forall rho p, p ∈ store_candidates m st address endness 8 0 ->
       byte_at rho (Memory.heap w') d' p
         (offset_of (Memory.index_bits m) (eval rho address))
       = Some (eval rho value)) /\
    (forall rho k off,
       ~ (k ∈ store_candidates m st address endness 8 0 /\
          off = offset_of (Memory.index_bits m) (eval rho address)) ->
       byte_at rho (Memory.heap w') d' k off
       = byte_at rho (Memory.heap w) (Memory.pages m) k off).
Proof using BL SL.
  intros Hwf Hst Hsz Hv Hheur Hsym Hssym.
  pose proof Hwf as (Hm & Hib & Hndk & Hent).
  set (pa := store_page_address m address endness 8 0) in *.
  set (pi := simplify (Extract (Memory.index_bits m - 1) 0
                         (store_address_term address endness 8 0))).
  assert (Hpi : forall rho,
            eval rho (simplify pi) = offset_of (Memory.index_bits m) (eval rho address)).
  { intros rho. subst pi. rewrite !simplify_sound. cbn [eval]. unfold offset_of.
    change (2 ^ 0) with 1. rewrite Z.div_1_r.
    replace (Memory.index_bits m - 1 - 0 + 1) with (Memory.index_bits m) by lia.
    rewrite store_address_term_eval by lia. reflexivity. }
  destruct (store_symbolic_loop self m st (simplify pa) (simplify pi) value
              (dict_keys (Memory.pages m)) Hv Hndk
              ltac:(intros p Hp; apply dict_mem_keys; exact Hp)
              w (Memory.pages m) [] [] ltac:(rewrite with_pages_id; exact Hwf)
              eq_refl Hst)
    as (w1 & d1 & pas1 & Hloop & Hmem1 & Hst1 & Herr1 & Hwf1 & Hdk1 & Hpas1 & Ha & Hb).
  rewrite app_nil_l in Hloop.
  fold (store_candidates m st address endness 8 0) in Hloop, Ha, Hb.
  fold (store_guards m st address endness 8 0) in Hloop.
  pose proof Hwf1 as (Hm1 & _ & _ & Hent1).
  cbn [with_pages Memory.pages] in Hent1.
  (* the constraint added after the loop over the page table *)
  assert (Hadd : exists w2,
            (match store_guards m st address endness 8 0 with
             | [] => ret tt
             | _ => Memory.add_constraints self
                      (simplify_bool (z3_Or (store_guards m st address endness 8 0)))
             end) w1 = Ok tt w2 /\
            Memory.heap w2 = Memory.heap w1 /\
            Memory.memories w2 = Memory.memories w1 /\
            Memory.errored w2 = Memory.errored w1 /\
            (store_candidates m st address endness 8 0 = [] ->
             Memory.states w2 = Memory.states w) /\
            (store_candidates m st address endness 8 0 <> [] ->
             Memory.states w2
             = <[Memory.state m :=
                   State.add_constraints
                     (simplify_bool (z3_Or (store_guards m st address endness 8 0))) st]>
                 (Memory.states w))).
  { unfold store_guards at 1.
    destruct (store_candidates m st address endness 8 0) as [|c cs] eqn:Hc.
    - exists w1. cbn [fmap list_fmap]. split; [reflexivity|].
      split; [reflexivity|]. split; [reflexivity|]. split; [reflexivity|].
      split; [intros _; exact Hst1 | congruence].
    - eexists. cbn [fmap list_fmap]. split.
      + unfold Memory.add_constraints. mstep (deref_Ok w1 self _ Hm1).
        unfold Memory.modify_state, Memory.get_state, bind.
        cbn [with_pages Memory.state]. rewrite Hst1, Hst. reflexivity.
      + cbn [Memory.heap Memory.memories Memory.errored Memory.states].
        split; [reflexivity|]. split; [reflexivity|]. split; [reflexivity|].
        split; [discriminate|]. intros _. rewrite Hst1. reflexivity. }
  destruct Hadd as (w2 & Hadd & Hh2 & Hm2 & He2 & Hs2a & Hs2b).
  assert (Hwf2 : mem_wf w2 self (with_pages d1 m)).
  { destruct Hwf1 as (H1 & H2 & H3 & H4).
    split; [rewrite Hm2; exact H1|]. split; [exact H2|]. split; [exact H3|].
    rewrite Hh2. exact H4. }
  destruct (simplify_loop_concrete self (with_pages d1 m) pas1) with (w := w2)
    as (h' & Hsimp & Hq).
  { intros k Hk. destruct (Hpas1 k Hk) as [Hin|Hin]; [inversion Hin|].
    apply dict_mem_keys. cbn [with_pages Memory.pages]. rewrite Hdk1.
    apply dict_mem_keys. exact Hin. }
  { exact Hwf2. }
  assert (Hbody : Memory.store_body self address value endness 8 0 ([], []) w
                  = Ok (pas1, store_guards m st address endness 8 0) w2).
  { unfold Memory.store_body. mstep (deref_Ok w self m Hm).
    rewrite (bind_Ok _ _ _ _ _
               (store_split_Ok w m address endness 8 0 ltac:(lia))).
    cbv beta iota. fold pa. fold pi. rewrite Hsym. cbn [negb].
    rewrite ?bind_assoc.
    rewrite (bind_Ok _ _ _ _ _ (path_constraints_Ok w self m st Hm Hst)).
    rewrite Hssym. cbn [negb].
    mstep Hloop. mstep Hadd. reflexivity. }
  exists (with_heap h' w2), d1.
  split.
  { unfold Memory.store. mstep (deref_Ok w self m Hm).
    unfold assert at 1. rewrite Hsz, Z.eqb_refl. rewrite bind_ret.
    mstep Hheur. rewrite bind_ret. rewrite Hv.
    unfold assert at 1. change (8 mod 8 =? 0) with true. cbv iota. rewrite bind_ret.
    change (reverse (seqZ 0 (8 / 8))) with [0]. cbn [for_each].
    mstep Hbody. rewrite bind_ret. exact Hsimp. }
  cbn [with_heap Memory.memories Memory.states Memory.errored Memory.heap].
  split; [rewrite Hm2; exact Hmem1|].
  split; [rewrite He2; exact Herr1|].
  split; [exact Hdk1|]. split; [exact Hs2a|]. split; [exact Hs2b|].
  split.
  - intros rho p Hp. rewrite <- Hh2 in Hent1.
    rewrite (byte_at_quiet rho _ h' d1 _ _ Hent1 Hq). rewrite Hh2, <- Hpi.
    apply Ha. exact Hp.
  - intros rho k off Hno. rewrite <- Hh2 in Hent1.
    rewrite (byte_at_quiet rho _ h' d1 _ _ Hent1 Hq). rewrite Hh2.
    apply Hb. rewrite Hpi. exact Hno.
Qed.
End SymbolicStore.

(** The address [a] is 4 or 8.  After a store of 0xAA at [a], the page of
    slot 1 holds 0xAA at its first byte also under [a = 8], the valuation
    that puts the address in the page of slot 2. *)
Lemma store_symbolic_unguarded_witness :
  exists w' d',
    Memory.store (B := log_store) (S := fold_simplifier) (V := enum_solver)
      (O := heuristic_on) 0%nat (BVS "a" 8) (BVV 0xAA 8) "big" two_page_world
    = Ok tt w' /\
    Memory.memories w' !! 0%nat = Some (with_pages d' two_page_memory) /\
    byte_at a_is_8 (Memory.heap w') d' 1 0 = Some 0xAA /\
    byte_at a_is_8 (Memory.heap w') d' 2 0 = Some 0xAA.
Proof.
  destruct (store_symbolic_unguarded (BL := log_store_laws)
              (SL := fold_simplifier_laws) (V := enum_solver) (O := heuristic_on)
              two_page_world 0%nat two_page_memory
              {| State.constraints :=
                   [Or (Eq (BVS "a" 8) (bvv 4 8)) (Eq (BVS "a" 8) (bvv 8 8))] |}
              (BVS "a" 8) (BVV 0xAA 8) "big"
              two_page_world_wf eq_refl eq_refl eq_refl ltac:(vm_compute; reflexivity)
              ltac:(vm_compute; reflexivity) ltac:(vm_compute; reflexivity))
    as (w' & d' & Hs & Hmem & _ & _ & _ & _ & Ha & _).
  assert (Hc : store_candidates (S := fold_simplifier) (V := enum_solver)
                 two_page_memory {| State.constraints :=
                    [Or (Eq (BVS "a" 8) (bvv 4 8)) (Eq (BVS "a" 8) (bvv 8 8))] |}
                 (BVS "a" 8) "big" 8 0 = [1; 2]) by (vm_compute; reflexivity).
  rewrite Hc in Ha.
  exists w', d'. split; [exact Hs|]. split; [rewrite Hmem; reflexivity|].
  split; [exact (Ha a_is_8 1 ltac:(left)) | exact (Ha a_is_8 2 ltac:(right; left))].
Defined.

(** A one-byte store at an unconstrained symbol, with pages of 4 bytes: the
    byte goes to address 8, the base of slot 2, and slot 4 is mapped as
    well, the region being [8 div 4 + 1 = 3] slots. *)
Lemma store_concretizes_witness :
  exists w' d',
    Memory.store (B := log_store) (S := fold_simplifier) (V := enum_solver)
      (O := heuristic_on) 0%nat (BVS "a" 8) (BVV 0xAB 8) "big" overlap_world
    = Ok tt w' /\
    Memory.states w'
      = [ {| State.constraints := [bv_eq_int (BVS "a" 8) 8] |} ] /\
    dict_mem 4 d' = true /\ dict_mem 5 d' = false /\
    byte_at a_is_4 (Memory.heap w') d' 2 0 = Some 0xAB.
Proof.
  destruct (store_concretizes (BL := log_store_laws) (SL := fold_simplifier_laws)
              (V := enum_solver) (O := heuristic_on)
              overlap_world 0%nat overlap_memory _ (BVS "a" 8) (BVV 0xAB 8) 1 2 "big"
              overlap_world_wf eq_refl eq_refl eq_refl eq_refl ltac:(lia)
              ltac:(vm_compute; reflexivity)
              ltac:(split; vm_compute; discriminate) eq_refl
              ltac:(intros; lia) ltac:(vm_compute; discriminate))
    as (w' & d' & Hs & _ & Hst & _ & Hmap & Hb).
  exists w', d'. split; [exact Hs|]. split; [rewrite Hst; reflexivity|].
  split; [apply Hmap; right; change (2 <= 4 < 5); lia|].
  split.
  - destruct (dict_mem 5 d') eqn:E; [|reflexivity].
    apply Hmap in E as [E|E]; [vm_compute in E; discriminate E|].
    change (2 <= 5 < 5) in E. lia.
  - exact (Hb a_is_4 0 ltac:(lia)).
Defined.
